(** * type-challenges scripts: loader, README regions, playground generator,
      translator

    A shallow embedding of the pieces of [scripts/loader.ts],
    [scripts/readme.ts], [scripts/translate.ts] and the playground
    generator that decide how quiz metadata is resolved per locale, how the
    generated regions of a README are replaced, which playground files a
    regeneration may overwrite and what it leaves behind, and which READMEs
    are translated.

    Conventions of the embedding.
    - A JavaScript string is a Rocq [string], read as its UTF-8 bytes.
    - A [Record<string, V>] is a [gmap string V]; a missing key reads as
      [undefined].
    - [{...a, ...b}] and [Object.assign({}, a, b)] are [b ∪ a]: stdpp's
      union keeps the left operand on a clash, JavaScript the last source.
    - Code that can throw, or end the process, returns a [Run]: how the call
      completed together with the lines it printed. *)

From Stdlib Require Import ZArith Ascii String List Sorted Permutation Lia.
From stdpp Require Import gmap strings list fin_maps sorting pretty.

Local Open Scope Z_scope.
Set Warnings "-register-all,-clear-no-such-hyp".

(** ** Strings *)

Module Str.

Fixpoint drop (n : nat) (s : string) : string :=
  match n, s with
  | S n', String _ s' => drop n' s'
  | _, _ => s
  end.

(** Does the character occur in the string? *)
Fixpoint mem (c : ascii) (s : string) : bool :=
  match s with
  | "" => false
  | String c' s' => bool_decide (c' = c) || mem c s'
  end.

(** [s.trim()], for the ASCII white space and line terminators. *)
Fixpoint trim_start (s : string) : string :=
  match s with
  | String c s' => if Ascii.is_space c then trim_start s' else s
  | "" => ""
  end.

Definition trim (s : string) : string :=
  String.rev (trim_start (String.rev (trim_start s))).

(** [s.split(sep)] for a one-character separator; [cur] is the current
    piece, last character first. *)
Fixpoint split_go (sep : ascii) (cur s : string) : list string :=
  match s with
  | "" => [String.rev cur]
  | String c s' =>
      if bool_decide (c = sep) then String.rev cur :: split_go sep "" s'
      else split_go sep (String c cur) s'
  end.

Definition split (sep : ascii) (s : string) : list string := split_go sep "" s.

End Str.

(** ** SHA-1

    [crypto.createHash('sha1')] of Node.js: FIPS 180-4 SHA-1 over the bytes
    fed to [update], rendered by [digest('hex')] as 40 lower-case hex digits.
    Words are 32-bit, kept in [Z] with the wrap-around written out. *)

Module Sha1.

Definition w32 (x : Z) : Z := x mod 2 ^ 32.
Definition add32 (x y : Z) : Z := w32 (x + y).
Definition rotl (n x : Z) : Z := w32 (Z.lor (Z.shiftl x n) (Z.shiftr x (32 - n))).
Definition not32 (x : Z) : Z := Z.lxor x 0xffffffff.

Definition Ch (x y z : Z) : Z := Z.lxor (Z.land x y) (Z.land (not32 x) z).
Definition Parity (x y z : Z) : Z := Z.lxor (Z.lxor x y) z.
Definition Maj (x y z : Z) : Z :=
  Z.lxor (Z.lxor (Z.land x y) (Z.land x z)) (Z.land y z).

Definition f (t : nat) (x y z : Z) : Z :=
  if (t <? 20)%nat then Ch x y z
  else if (t <? 40)%nat then Parity x y z
  else if (t <? 60)%nat then Maj x y z
  else Parity x y z.

Definition K (t : nat) : Z :=
  if (t <? 20)%nat then 0x5a827999
  else if (t <? 40)%nat then 0x6ed9eba1
  else if (t <? 60)%nat then 0x8f1bbcdc
  else 0xca62c1d6.

Definition state : Type := Z * Z * Z * Z * Z.

Definition H0 : state :=
  (0x67452301, 0xefcdab89, 0x98badcfe, 0x10325476, 0xc3d2e1f0).

Definition bytes_of_string (s : string) : list Z :=
  map (λ c, Z.of_N (N_of_ascii c)) (list_ascii_of_string s).

(** Padding: the bit 1, zero bits up to 448 mod 512, the length in bits on
    64 bits, big-endian. *)
Definition be_bytes (n : nat) (x : Z) : list Z :=
  map (λ i, Z.shiftr x (8 * Z.of_nat (n - 1 - i)) mod 256) (seq 0 n).

Definition pad (msg : list Z) : list Z :=
  let len := Z.of_nat (length msg) in
  let zeros := Z.to_nat ((55 - len) mod 64) in
  msg ++ 0x80 :: List.repeat 0 zeros ++ be_bytes 8 (8 * len).

Fixpoint words (bs : list Z) : list Z :=
  match bs with
  | b0 :: b1 :: b2 :: b3 :: bs' =>
      (Z.shiftl b0 24 + Z.shiftl b1 16 + Z.shiftl b2 8 + b3) :: words bs'
  | _ => []
  end.

Fixpoint blocks (fuel : nat) (ws : list Z) : list (list Z) :=
  match fuel, ws with
  | S fuel', _ :: _ => firstn 16 ws :: blocks fuel' (skipn 16 ws)
  | _, _ => []
  end.

(** The message schedule, newest word first: [W_t] is computed from
    [W_(t-3)], [W_(t-8)], [W_(t-14)] and [W_(t-16)]. *)
Fixpoint schedule (n : nat) (rev_w : list Z) : list Z :=
  match n with
  | O => rev_w
  | S n' =>
      let w := rotl 1 (Z.lxor (Z.lxor (nth 2 rev_w 0) (nth 7 rev_w 0))
                              (Z.lxor (nth 13 rev_w 0) (nth 15 rev_w 0))) in
      schedule n' (w :: rev_w)
  end.

Definition round (st : state) (tw : nat * Z) : state :=
  let '(a, b, c, d, e) := st in
  let '(t, w) := tw in
  let temp := add32 (add32 (add32 (add32 (rotl 5 a) (f t b c d)) e) (K t)) w in
  (temp, a, rotl 30 b, c, d).

Definition compress (h : state) (block : list Z) : state :=
  let w := rev (schedule 64 (rev block)) in
  let '(a, b, c, d, e) := fold_left round (combine (seq 0 80) w) h in
  let '(h0, h1, h2, h3, h4) := h in
  (add32 h0 a, add32 h1 b, add32 h2 c, add32 h3 d, add32 h4 e).

Definition sha1 (msg : list Z) : state :=
  let ws := words (pad msg) in
  fold_left compress (blocks (length ws) ws) H0.

Definition hexdigits : list ascii :=
  list_ascii_of_string "0123456789abcdef".

Definition hexdigit (x : Z) : ascii :=
  nth (Z.to_nat (x mod 16)) hexdigits "0"%char.

Definition hex8 (w : Z) (rest : string) : string :=
  String (hexdigit (Z.shiftr w 28)) (String (hexdigit (Z.shiftr w 24))
 (String (hexdigit (Z.shiftr w 20)) (String (hexdigit (Z.shiftr w 16))
 (String (hexdigit (Z.shiftr w 12)) (String (hexdigit (Z.shiftr w 8))
 (String (hexdigit (Z.shiftr w 4))  (String (hexdigit w) rest))))))).

Definition hex (st : state) : string :=
  let '(a, b, c, d, e) := st in
  hex8 a (hex8 b (hex8 c (hex8 d (hex8 e "")))).

Definition sha1_hex (msg : string) : string := hex (sha1 (bytes_of_string msg)).
Global Arguments sha1_hex : simpl never.

End Sha1.

(** ** JavaScript values and completions *)

(** A JavaScript number as far as the scripts need it: an integer or [NaN]. *)
Inductive number : Type :=
| Num (z : Z)
| NaN.

Inductive JSValue : Type :=
| VUndefined
| VNull
| VBool (b : bool)
| VNumber (n : number)
| VString (s : string)
| VArray (items : list JSValue)
| VObject (props : list (string * JSValue)).

(** [!!v]: everything is truthy but [undefined], [null], [false], [0], [NaN]
    and the empty string. Arrays and objects are truthy, also when empty. *)
Definition truthy (v : JSValue) : bool :=
  match v with
  | VUndefined | VNull | VBool false | VNumber (Num 0) | VNumber NaN | VString "" => false
  | _ => true
  end.

(** [a || b] *)
Definition js_or (a b : JSValue) : JSValue := if truthy a then a else b.

Definition is_array (v : JSValue) : bool :=
  match v with VArray _ => true | _ => false end.

(** [v.toString()], called by the loader on truthy values only. *)
Fixpoint js_toString (v : JSValue) : string :=
  match v with
  | VString s => s
  | VNumber (Num z) => pretty z
  | VNumber NaN => "NaN"
  | VBool true => "true"
  | VBool false => "false"
  | VObject _ => "[object Object]"
  | VArray items =>
      (fix join_items (l : list JSValue) : string :=
         match l with
         | [] => ""
         | x :: l' =>
             let sx := match x with
                       | VUndefined | VNull => ""
                       | _ => js_toString x
                       end in
             match l' with
             | [] => sx
             | _ :: _ => sx +:+ "," +:+ join_items l'
             end
         end) items
  | VUndefined | VNull => ""
  end.

(** An object whose fields the scripts read by name, such as
    [Partial<QuizMetaInfo>]. A field can be present with the value
    [undefined]; reading a missing field gives [undefined] too. *)
Abbreviation Obj := (gmap string JSValue).

Definition get (o : Obj) (key : string) : JSValue := default VUndefined (o !! key).

(** [o?.key] for an [o] that may be [undefined]. *)
Definition get_opt (o : option Obj) (key : string) : JSValue :=
  match o with
  | Some o => get o key
  | None => VUndefined
  end.

(** [interface Quiz] of [types.ts]; [difficulty] holds whatever string the
    loader stored (it is cast with [as any]). *)
Record Quiz : Type := MkQuiz {
  no : number;
  difficulty : string;
  path : string;
  readme : gmap string string;
  template : string;
  info : gmap string Obj;
  tests : option string
}.

(** A line on the console. The colours of [picocolors] are left out.
    [LogSkipping no locale] is the line
    [`${no} has no ${locale.toUpperCase()} version. Skipping`]. *)
Inductive line : Type :=
| Log (text : string)
| LogError (text : string)
| LogSkipping (no : number) (locale : string).

Inductive Completion (A : Type) : Type :=
| Normal (a : A)
| Throw (err : string)
| Exit (code : Z).
Arguments Normal {A} a.
Arguments Throw {A} err.
Arguments Exit {A} code.

Record Run (A : Type) : Type := MkRun {
  completion : Completion A;
  console : list line
}.
Arguments MkRun {A} completion console.
Arguments completion {A} r.
Arguments console {A} r.

Global Instance run_ret : MRet Run := λ A a, MkRun (Normal a) [].

Global Instance run_bind : MBind Run := λ A B k m,
  match completion m with
  | Normal a => let r := k a in MkRun (completion r) (console m ++ console r)
  | Throw err => MkRun (Throw err) (console m)
  | Exit code => MkRun (Exit code) (console m)
  end.

Definition throw {A : Type} (err : string) : Run A := MkRun (Throw err) [].
Definition process_exit {A : Type} (code : Z) : Run A := MkRun (Exit code) [].
Definition console_log (l : line) : Run unit := MkRun (Normal tt) [l].

(** [try { m } catch (error) { handler error }] *)
Definition try_catch {A : Type} (m : Run A) (handler : string → Run A) : Run A :=
  match completion m with
  | Throw err => let r := handler err in MkRun (completion r) (console m ++ console r)
  | _ => m
  end.

Fixpoint mapM {A B : Type} (f : A → Run B) (l : list A) : Run (list B) :=
  match l with
  | [] => mret []
  | x :: l' => y ← f x; ys ← mapM f l'; mret (y :: ys)
  end.

Fixpoint foldM {A B : Type} (f : B → A → Run B) (l : list A) (b : B) : Run B :=
  match l with
  | [] => mret b
  | x :: l' => b' ← f b x; foldM f l' b'
  end.

(** [type Snapshot = Record<string, string>] *)
Abbreviation Snapshot := (gmap string string).

(** ** What the scripts import

    Library functions, and modules of the repository that the scripts
    import and that are not embedded here. *)
Class Externals : Type := {
  (** [./locales] *)
  supportedLocales : list string;
  defaultLocale : string;
  (** [YAML.load]; [None] when it throws *)
  YAML_load : string → option JSValue;
  (** [Number(s)] *)
  Number : string → number;
  (** [JSON.parse] at the type the script gives its result, [None] when it
      throws; [JSON.stringify] *)
  JSON_parse : string → option Snapshot;
  JSON_stringify : Snapshot → string;
  (** [./actions/utils/formatToCode], [./actions/issue-pr] *)
  formatToCode : Quiz → option string → string;
  getQuestionFullName : number → string → string → string;
  (** [path.resolve(__dirname, '../questions')],
      [path.join(__dirname, '../playground')] *)
  QUIZ_ROOT : string;
  playgroundPath : string
}.

(** [path.join] on plain names: no separator in them, neither [.] nor [..]. *)
Definition path_join (dir name : string) : string := dir +:+ "/" +:+ name.

(** ** Generated regions of a README

    Both scripts find a region with a regular expression of the shape
    [/START[\s\S]*END/]: the match begins at the first [START] that has an
    [END] after it and, [*] being greedy, runs to the last [END]. A marker
    has its only [<] in front, so occurrences of it do not overlap, and if
    the first [START] has no [END] behind it no later one has. *)

Definition header_start : string := "<!--info-header-start-->".
Definition header_end : string := "<!--info-header-end-->".
Definition footer_start : string := "<!--info-footer-start-->".
Definition footer_end : string := "<!--info-footer-end-->".

(** First occurrence of [pat]: the text before it and the text after it. *)
Fixpoint find_first (pat s : string) : option (string * string) :=
  if String.prefix pat s then Some ("", Str.drop (String.length pat) s)
  else match s with
       | "" => None
       | String c s' =>
           match find_first pat s' with
           | Some (before, after) => Some (String c before, after)
           | None => None
           end
       end.

(** Last occurrence of [pat]. *)
Fixpoint find_last (pat s : string) : option (string * string) :=
  match s with
  | "" => if String.prefix pat "" then Some ("", "") else None
  | String c s' =>
      match find_last pat s' with
      | Some (before, after) => Some (String c before, after)
      | None =>
          if String.prefix pat s then Some ("", Str.drop (String.length pat) s)
          else None
      end
  end.

(** The match of [/START[\s\S]*END/] in [text]: what precedes the match,
    what lies between the two markers, what follows the match. *)
Definition region_match (start_marker end_marker text : string) :
    option (string * string * string) :=
  match find_first start_marker text with
  | None => None
  | Some (before, rest) =>
      match find_last end_marker rest with
      | None => None
      | Some (inner, after) => Some (before, inner, after)
      end
  end.

(** The replacement text of [String.prototype.replace] for a pattern
    without capture groups: [$$] is a dollar, [$&] the match, [$`] and [$']
    the text before and after the match; any other [$] stands for itself. *)
Fixpoint expand (replacement matched before after : string) : string :=
  match replacement with
  | "" => ""
  | String c r =>
      if bool_decide (c = "$"%char) then
        match r with
        | String "$" r' => String "$" (expand r' matched before after)
        | String "&" r' => matched +:+ expand r' matched before after
        | String "`" r' => before +:+ expand r' matched before after
        | String "'" r' => after +:+ expand r' matched before after
        | _ => String c (expand r matched before after)
        end
      else String c (expand r matched before after)
  end.

(** [text.replace(/START[\s\S]*END/, replacement)] *)
Definition region_replace (start_marker end_marker replacement text : string) : string :=
  match region_match start_marker end_marker text with
  | None => text
  | Some (before, inner, after) =>
      let matched := start_marker +:+ inner +:+ end_marker in
      before +:+ expand replacement matched before after +:+ after
  end.

(** The text that [insertInfoReadme] writes back, for the HTML [header] and
    [footer] it builds between the markers. *)
Definition insertInfoReadme_text (header footer text : string) : string :=
  let text :=
    match region_match header_start header_end text with
    | Some _ => text
    | None => header_start +:+ header_end +:+ String "010" (String "010" text)
    end in
  let text :=
    match region_match footer_start footer_end text with
    | Some _ => text
    | None => text +:+ String "010" (String "010" (footer_start +:+ footer_end))
    end in
  let text :=
    region_replace header_start header_end
      (header_start +:+ header +:+ header_end) text in
  region_replace footer_start footer_end
    (footer_start +:+ footer +:+ footer_end) text.

(** [insertInfoReadme] on the content of the file at [filepath] ([None]: no
    such file): the new content, if the file is written. *)
Definition insertInfoReadme (filepath header footer : string)
    (file : option string) : Run (option string) :=
  try_catch
    (match file with
     | None => throw ("File does not exist: " +:+ filepath)
     | Some text =>
         let text := insertInfoReadme_text header footer text in
         _ ← console_log (Log ("File updated successfully: " +:+ filepath));
         mret (Some text)
     end)
    (λ err, _ ← console_log (LogError ("Error updating file " +:+ filepath +:+ ": " +:+ err));
            mret None).

(** ** The index README: order of the quizzes *)

Definition DifficultyRank : list string :=
  ["warm"; "easy"; "medium"; "hard"; "extreme"].

(** [l.indexOf(x)] *)
Fixpoint indexOf (l : list string) (x : string) : Z :=
  match l with
  | [] => -1
  | y :: l' =>
      if decide (y = x) then 0
      else let i := indexOf l' x in if decide (i = -1) then -1 else 1 + i
  end.

(** [Array.prototype.sort] with a comparator: a stable sort, here by
    insertion from the right. *)
Fixpoint sort_insert {A : Type} (cmp : A → A → Z) (x : A) (l : list A) : list A :=
  match l with
  | [] => [x]
  | y :: l' => if decide (cmp x y ≤ 0) then x :: l else y :: sort_insert cmp x l'
  end.

Definition js_sort {A : Type} (cmp : A → A → Z) (l : list A) : list A :=
  foldr (sort_insert cmp) [] l.

Definition rank (q : Quiz) : Z := indexOf DifficultyRank (difficulty q).

Definition quizesByDifficulty (quizes : list Quiz) : list Quiz :=
  js_sort (λ a b, rank a - rank b) quizes.

(** What the first loop of [updateIndexREADME] appends: a badge with the
    difficulty and the number of its quizzes whenever the difficulty changes,
    and a badge per quiz. *)
Inductive index_item : Type :=
| DifficultyBadge (difficulty : string) (count : nat)
| QuizBadge (quiz : Quiz).

Fixpoint challenges (sorted : list Quiz) (prev : string) (quizes : list Quiz) :
    list index_item :=
  match quizes with
  | [] => []
  | quiz :: quizes' =>
      (if decide (prev = difficulty quiz) then []
       else [DifficultyBadge (difficulty quiz)
               (length (filter (λ q, difficulty q = difficulty quiz) sorted))])
      ++ QuizBadge quiz :: challenges sorted (difficulty quiz) quizes'
  end.

Definition challengesREADME (quizes : list Quiz) : list index_item :=
  let sorted := quizesByDifficulty quizes in
  challenges sorted "" sorted.

(** ** The loader *)

(** What [dir.replace(/^\d+-(.+?)-.*$/, '$1')] does: the name has to be a
    run of digits, a dash, one character or more up to the next dash, and
    any rest, all on one line; the result is what stands between the two
    dashes. A name of another shape comes back as it is. *)
Definition is_digit (c : ascii) : bool :=
  match Ascii.is_nat c with Some _ => true | None => false end.

Definition is_line_terminator (c : ascii) : bool :=
  bool_decide (c = "010"%char) || bool_decide (c = "013"%char).

Fixpoint skip_digits (s : string) : string :=
  match s with
  | String c s' => if is_digit c then skip_digits s' else s
  | "" => ""
  end.

Fixpoint take_digits (s : string) : string :=
  match s with
  | String c s' => if is_digit c then String c (take_digits s') else ""
  | "" => ""
  end.

(** The shortest [(.+?)] behind which a dash follows: [s] up to its first
    dash; [None] when there is no dash. *)
Fixpoint up_to_dash (s : string) : option string :=
  match s with
  | "" => None
  | String c s' =>
      if bool_decide (c = "-"%char) then Some ""
      else String c <$> up_to_dash s'
  end.

Fixpoint one_line (s : string) : bool :=
  match s with
  | "" => true
  | String c s' => negb (is_line_terminator c) && one_line s'
  end.

Definition parseDifficulty (dir : string) : string :=
  match take_digits dir, skip_digits dir with
  | String _ _, String "-" (String c rest) =>
      match up_to_dash rest with
      | Some group => if one_line (String c rest) then String c group else dir
      | None => dir
      end
  | _, _ => dir
  end.

(** [dir.replace(/^(\d+)-.*/, '$1')]: the digits in front, when a dash
    follows them; the match ends with the first line. *)
Fixpoint skip_line (s : string) : string :=
  match s with
  | String c s' => if is_line_terminator c then s else skip_line s'
  | "" => ""
  end.

Definition parseNo (dir : string) : string :=
  match take_digits dir, skip_digits dir with
  | String _ _ as digits, String "-" rest => digits +:+ skip_line rest
  | _, _ => dir
  end.

(** [readmeCleanUp] *)
Definition readmeCleanUp (text : string) : string :=
  Str.trim
    (region_replace footer_start footer_end ""
       (region_replace header_start header_end "" text)).

(** The properties of an array seen as an object: its indices. *)
Definition array_props (items : list JSValue) : Obj :=
  list_to_map (imap (λ i v, (pretty i, v)) items).

Section Loader.

Context `{Externals}.

(** The quiz folders as a map from the path of a file to its text.
    [loadFile] gives [undefined] for a path that is not a readable file. *)
Definition loadFile (corpus : gmap string string) (filepath : string) : option string :=
  corpus !! filepath.

(** [loadLocaleVariations] for the file [name + ext] of [dir]. The
    preprocessor answers [None] for a falsy result. *)
Definition loadLocaleVariations {T : Type} (corpus : gmap string string)
    (dir name ext : string) (preprocessor : string → Run (option T)) :
    Run (gmap string T) :=
  data ← foldM (λ (data : gmap string T) locale,
                  file ← preprocessor
                    (default "" (loadFile corpus
                       (path_join dir (name +:+ "." +:+ locale +:+ ext))));
                  mret (match file with
                        | Some file => <[locale := file]> data
                        | None => data
                        end))
               supportedLocales ∅;
  match data !! defaultLocale with
  | Some _ => mret data
  | None =>
      file ← preprocessor (default "" (loadFile corpus (path_join dir (name +:+ ext))));
      mret (match file with
            | Some file => <[defaultLocale := file]> data
            | None => data
            end)
  end.

(** The loop over [arrayKeys] in [loadInfo]. *)
Definition normalizeArrayKey (object : Obj) (key : string) : Obj :=
  if truthy (get object key)
  then <[key := VArray (VString <$>
                  filter (λ i, i ≠ "")
                    (Str.trim <$> Str.split "," (js_toString (get object key))))]> object
  else <[key := VUndefined]> object.

Definition loadInfo (s : string) : Run (option Obj) :=
  match YAML_load s with
  | None =>
      _ ← console_log (LogError "Error while loading quiz metadata"); mret None
  | Some object =>
      if negb (truthy object) then mret None
      else match object with
           | VObject props =>
               mret (Some (foldl normalizeArrayKey (list_to_map props) ["tags"; "related"]))
           | VArray items =>
               mret (Some (foldl normalizeArrayKey (array_props items) ["tags"; "related"]))
           | _ =>
               (* assigning a property of a primitive throws in strict mode *)
               _ ← console_log (LogError "Error while loading quiz metadata"); mret None
           end
  end.

Definition loadQuiz (corpus : gmap string string) (dir : string) : Run Quiz :=
  try_catch
    (let root := path_join QUIZ_ROOT dir in
     info ← loadLocaleVariations corpus root "info" ".yml" loadInfo;
     readme ← loadLocaleVariations corpus root "README" ".md"
                (λ s, mret (match readmeCleanUp s with
                            | "" => None
                            | text => Some text
                            end));
     mret {| no := Number (parseNo dir);
             difficulty := parseDifficulty dir;
             path := dir;
             info := info;
             readme := readme;
             template := default "" (loadFile corpus (path_join root "template.ts"));
             tests := loadFile corpus (path_join root "test-cases.ts") |})
    (λ err, _ ← console_log (LogError ("Error while loading quiz " +:+ dir +:+ ": " +:+ err));
            throw err).

(** [loadQuizes], for the folders that the glob finds. *)
Definition loadQuizes (corpus : gmap string string) (folders : list string) :
    Run (list Quiz) :=
  try_catch (mapM (loadQuiz corpus) folders)
    (λ err, _ ← console_log (LogError ("Error while loading quizzes: " +:+ err));
            mret []).

(** [resolveInfo(quiz, locale)]; [None] is a call without the argument, or
    with [undefined]. *)
Definition resolveInfo (quiz : Quiz) (locale : option string) : Obj :=
  let locale := default defaultLocale locale in
  let info_default := info quiz !! defaultLocale in
  let info_locale := info quiz !! locale in
  let info := default ∅ info_locale ∪ default ∅ info_default in
  let info :=
    <["tags" := js_or (get_opt info_locale "tags")
                  (js_or (get_opt info_default "tags") (VArray []))]> info in
  let info :=
    <["related" := js_or (get_opt info_locale "related")
                     (js_or (get_opt info_default "related") (VArray []))]> info in
  match get info "tags" with
  | VString tags =>
      <["tags" := VArray (VString <$> filter (λ i, i ≠ "")
                             (Str.trim <$> Str.split "," tags))]> info
  | _ => info
  end.

End Loader.

(** ** The playground generator *)

(** What the generator sees of the disk: a tree of named entries, in the
    order [readdirSync] lists them. [Unreadable] is a file that [stat] finds
    and that cannot be opened. *)
Inductive node : Type :=
| File (data : string)
| Unreadable
| Dir (entries : list (string * node)).

(** The [crypto] hash object: the bytes passed to [update] so far. *)
Definition createHash : string := "".
Definition hash_update (hash data : string) : string := hash +:+ data.
Definition hash_digest_hex (hash : string) : string := Sha1.sha1_hex hash.

(** [fs.createReadStream]: the ['data'] events carry the file in pieces of
    at most [highWaterMark] bytes. *)
Definition highWaterMark : N := 65536.

Fixpoint chunks_go (room : N) (cur rest : string) : list string :=
  match rest with
  | "" => match cur with "" => [] | _ => [cur] end
  | String c rest' =>
      if (room =? 0)%N
      then cur :: chunks_go (highWaterMark - 1) (String c "") rest'
      else chunks_go (room - 1) (cur +:+ String c "") rest'
  end.

Definition createReadStream (data : string) : list string :=
  chunks_go highWaterMark "" data.

Definition calculateFileHash (filePathFull : string) (n : node) : Run string :=
  match n with
  | File data =>
      let hash := fold_left hash_update (createReadStream data) createHash in
      let hash := hash_update hash filePathFull in
      mret (hash_digest_hex hash)
  | Unreadable => throw "EACCES"
  | Dir _ => throw "EISDIR"
  end.
Global Arguments calculateFileHash : simpl never.

(** The loop of [takeSnapshot] over the names of one directory, with the
    body for one name as a parameter. *)
Definition takeSnapshot_files
    (body : string → string → node → Snapshot → Run Snapshot) :
    string → list (string * node) → Snapshot → Run Snapshot :=
  fix loop quizesPath files snapshot :=
    match files with
    | [] => mret snapshot
    | (file, n) :: files' =>
        snapshot' ← body quizesPath file n snapshot;
        loop quizesPath files' snapshot'
    end.

Fixpoint takeSnapshot_file (quizesPath file : string) (n : node)
    (snapshot : Snapshot) {struct n} : Run Snapshot :=
  let fPath := path_join quizesPath file in
  match n with
  | Dir entries =>
      sub ← takeSnapshot_files takeSnapshot_file fPath entries ∅;
      mret (sub ∪ snapshot)
  | _ =>
      h ← calculateFileHash fPath n;
      mret (<[file := h]> snapshot)
  end.

Definition takeSnapshot (quizesPath : string) (files : list (string * node)) :
    Run Snapshot :=
  takeSnapshot_files takeSnapshot_file quizesPath files ∅.

(** [calculateOverridableFiles]: the entries of [snapshot] that [cache]
    holds with the same value ([===]; a missing key is [undefined]). *)
Definition calculateOverridableFiles (cache snapshot : Snapshot) : Snapshot :=
  map_fold (λ quizName h result,
              if decide (cache !! quizName = Some h)
              then <[quizName := h]> result else result)
           ∅ snapshot.

(** Truthiness of [snapshot[name]]. *)
Definition truthy_entry (v : option string) : bool :=
  match v with
  | Some s => truthy (VString s)
  | None => false
  end.

Definition isQuizWritable (quizFileName : string)
    (overridableFiles playgroundSnapshot : Snapshot) : bool :=
  truthy_entry (overridableFiles !! quizFileName)
  || (negb (truthy_entry (overridableFiles !! quizFileName))
      && negb (truthy_entry (playgroundSnapshot !! quizFileName))).

(** The state of a run of the generator: the playground folder ([None]: it
    does not exist), the content of [.playgroundcache] ([None]: no such
    file), and the console. *)
Record World : Type := MkWorld {
  playground : option (list (string * node));
  playgroundCache : option string;
  output : list line
}.

Definition Gen (A : Type) : Type := World → Completion A * World.

Global Instance gen_ret : MRet Gen := λ A a w, (Normal a, w).

Global Instance gen_bind : MBind Gen := λ A B k m w,
  match m w with
  | (Normal a, w') => k a w'
  | (Throw err, w') => (Throw err, w')
  | (Exit code, w') => (Exit code, w')
  end.

Definition lift {A : Type} (r : Run A) : Gen A := λ w,
  (completion r,
   {| playground := playground w;
      playgroundCache := playgroundCache w;
      output := output w ++ console r |}).

Definition set_playground (p : option (list (string * node))) : Gen unit := λ w,
  (Normal tt,
   {| playground := p; playgroundCache := playgroundCache w; output := output w |}).

Definition set_playgroundCache (c : option string) : Gen unit := λ w,
  (Normal tt,
   {| playground := playground w; playgroundCache := c; output := output w |}).

Definition get_world : Gen World := λ w, (Normal w, w).

(** The entry of a directory with a given name; writing an entry replaces
    it in place, or adds it behind the others. *)
Fixpoint lookup_entry (name : string) (entries : list (string * node)) : option node :=
  match entries with
  | [] => None
  | (name', n) :: entries' =>
      if decide (name' = name) then Some n else lookup_entry name entries'
  end.

Fixpoint put_entry (name : string) (n : node) (entries : list (string * node)) :
    list (string * node) :=
  match entries with
  | [] => [(name, n)]
  | (name', n') :: entries' =>
      if decide (name' = name) then (name, n) :: entries'
      else (name', n') :: put_entry name n entries'
  end.

(** [fs.writeFile(path.join(playgroundPath, dir, file), code)] *)
Definition writeFile (dir file code : string) (entries : list (string * node)) :
    Run (list (string * node)) :=
  match lookup_entry dir entries with
  | Some (Dir sub) =>
      match lookup_entry file sub with
      | None | Some (File _) =>
          mret (put_entry dir (Dir (put_entry file (File code) sub)) entries)
      | Some Unreadable => throw "EACCES"
      | Some (Dir _) => throw "EISDIR"
      end
  | Some _ => throw "ENOTDIR"
  | None => throw "ENOENT"
  end.

(** What the prompts of the run are answered: [confirm] to overriding the
    playground, [select] for the language ([None]: the answer has no
    [locale]). *)
Record Answers : Type := MkAnswers {
  confirm : bool;
  select : option string
}.

Section Generator.

Context `{Externals}.

(** [readPlaygroundCache], on the content of the cache file. *)
Definition readPlaygroundCache (playgroundCache : option string) : Run Snapshot :=
  match playgroundCache with
  | None => mret ∅
  | Some rawCacheContent =>
      match JSON_parse rawCacheContent with
      | Some cache => mret cache
      | None =>
          _ ← console_log (Log ("Playground cache corrupted. "
                +:+ "Cannot generate playground without keeping your changes intact"));
          _ ← console_log (Log ("Please ensure you have run this: "
                +:+ String "034" ("pnpm generate" +:+ String "034" "")));
          process_exit 1
      end
  end.

(** [argv.length === 3 && (argv[2] === '--keep-changes' || argv[2] === '-K')] *)
Definition keepChangesFlag (argv : list string) : bool :=
  bool_decide (length argv = 3%nat)
  && (bool_decide (argv !! 2%nat = Some "--keep-changes")
      || bool_decide (argv !! 2%nat = Some "-K")).

(** The body of the loop over the quizzes. [incomingQuizesCache] is the
    object the loop fills. *)
Definition generateQuiz (keepChanges : bool)
    (overridableFiles playgroundSnapshot : Snapshot) (locale : option string)
    (incomingQuizesCache : Snapshot) (quiz : Quiz) : Gen Snapshot :=
  let resolved := resolveInfo quiz locale in
  let code := formatToCode quiz locale in
  match get resolved "difficulty", get resolved "title" with
  | VUndefined, _ | _, VUndefined =>
      match locale with
      | Some locale =>
          _ ← lift (console_log (LogSkipping (no quiz) locale));
          mret incomingQuizesCache
      | None => lift (throw "TypeError")
      end
  | VString difficulty, VString title =>
      let quizesPathByDifficulty := path_join playgroundPath difficulty in
      let quizFileName := getQuestionFullName (no quiz) difficulty title +:+ ".ts" in
      let quizPathFull := path_join quizesPathByDifficulty quizFileName in
      if negb keepChanges
         || (keepChanges && isQuizWritable quizFileName overridableFiles playgroundSnapshot)
      then
        w ← get_world;
        match playground w with
        | None => lift (throw "ENOENT")
        | Some entries =>
            let entries :=
              match lookup_entry difficulty entries with
              | Some _ => entries
              | None => put_entry difficulty (Dir []) entries
              end in
            _ ← set_playground (Some entries);
            entries ← lift (writeFile difficulty quizFileName code entries);
            _ ← set_playground (Some entries);
            h ← lift (calculateFileHash quizPathFull (File code));
            mret (<[quizFileName := h]> incomingQuizesCache)
        end
      else mret incomingQuizesCache
  | _, _ => lift (throw "TypeError")
  end.

Fixpoint generateQuizes (keepChanges : bool)
    (overridableFiles playgroundSnapshot : Snapshot) (locale : option string)
    (quizes : list Quiz) (incomingQuizesCache : Snapshot) : Gen Snapshot :=
  match quizes with
  | [] => mret incomingQuizesCache
  | quiz :: quizes' =>
      incoming ← generateQuiz keepChanges overridableFiles playgroundSnapshot
                    locale incomingQuizesCache quiz;
      generateQuizes keepChanges overridableFiles playgroundSnapshot locale
        quizes' incoming
  end.

(** The locale of the run: [argv[2]] when it is a supported locale, and the
    answer to the prompt otherwise. *)
Definition chosenLocale (argv : list string) (answers : Answers) : option string :=
  match find (λ locale, bool_decide (Some locale = argv !! 2%nat)) supportedLocales with
  | Some locale => if truthy (VString locale) then Some locale else select answers
  | None => select answers
  end.

(** [generatePlayground] from the prompt for the language on. *)
Definition generateWith (argv : list string) (answers : Answers) (quizes : list Quiz)
    (currentPlaygroundCache : Snapshot) (keepChanges : bool)
    (overridableFiles playgroundSnapshot : Snapshot) : Gen unit :=
  let locale := chosenLocale argv answers in
  _ ← (if keepChanges then mret tt else set_playground (Some []));
  incomingQuizesCache ←
    generateQuizes keepChanges overridableFiles playgroundSnapshot locale quizes ∅;
  _ ← set_playgroundCache
        (Some (JSON_stringify (incomingQuizesCache ∪ currentPlaygroundCache)));
  _ ← lift (console_log (Log ""));
  _ ← lift (console_log (Log ("Local playground generated at: " +:+ playgroundPath)));
  lift (console_log (Log "")).

(** [generatePlayground], for the quizzes that [loadQuizes] returns. *)
Definition generatePlayground (argv : list string) (answers : Answers)
    (quizes : list Quiz) : Gen unit :=
  _ ← lift (console_log (Log ("Generating local playground..." +:+ String "010" "")));
  w ← get_world;
  currentPlaygroundCache ← lift (readPlaygroundCache (playgroundCache w));
  if keepChangesFlag argv then
    _ ← lift (console_log
                (Log ("We will keep your changes while generating." +:+ String "010" "")));
    match playground w with
    | None => lift (throw "ENOENT")
    | Some files =>
        playgroundSnapshot ← lift (takeSnapshot playgroundPath files);
        generateWith argv answers quizes currentPlaygroundCache true
          (calculateOverridableFiles currentPlaygroundCache playgroundSnapshot)
          playgroundSnapshot
    end
  else
    match playground w with
    | Some _ =>
        if confirm answers
        then generateWith argv answers quizes currentPlaygroundCache false ∅ ∅
        else lift (console_log (Log "Skipped."))
    | None => generateWith argv answers quizes currentPlaygroundCache false ∅ ∅
    end.

End Generator.

(** ** The traversal of [takeSnapshot], spelled out

    The files under a directory in the order the traversal reaches them:
    the name, the path handed to [calculateFileHash], and the entry. *)
Fixpoint visits_file (quizesPath file : string) (n : node) :
    list (string * string * node) :=
  let fPath := path_join quizesPath file in
  match n with
  | Dir entries => flat_map (λ e, visits_file fPath e.1 e.2) entries
  | _ => [(file, fPath, n)]
  end.

Definition visits (quizesPath : string) (files : list (string * node)) :
    list (string * string * node) :=
  flat_map (λ e, visits_file quizesPath e.1 e.2) files.

Definition readable (v : string * string * node) : bool :=
  match v.2 with File _ => true | _ => false end.

(** The fingerprint of a file: SHA-1 over its content followed by the path
    it was opened with. *)
Definition fingerprint (filePathFull data : string) : string :=
  Sha1.sha1_hex (data +:+ filePathFull).

Definition fingerprint_of (v : string * string * node) : string :=
  match v.2 with File data => fingerprint v.1.2 data | _ => "" end.

(** Entering the visited files one after the other, a later one replacing
    an earlier one of the same name. *)
Definition record_visits (l : list (string * string * node)) (snapshot : Snapshot) :
    Snapshot :=
  foldl (λ m v, <[v.1.1 := fingerprint_of v]> m) snapshot l.

(** The entry reached from a directory by a list of names. *)
Fixpoint node_at (n : node) (p : list string) : option node :=
  match p with
  | [] => Some n
  | name :: p' =>
      match n with
      | Dir entries =>
          match lookup_entry name entries with
          | Some n' => node_at n' p'
          | None => None
          end
      | _ => None
      end
  end.

(** ** Where a quiz goes in the playground *)

Definition is_dir (n : node) : bool :=
  match n with Dir _ => true | _ => false end.

Section Target.

Context `{Externals}.

(** The path below the playground of the file that the generator writes
    for a quiz, and the code it writes there; [None] for a quiz that it skips
    or fails on. *)
Definition quizTarget (quiz : Quiz) (locale : option string) :
    option (list string * string) :=
  match get (resolveInfo quiz locale) "difficulty",
        get (resolveInfo quiz locale) "title" with
  | VString difficulty, VString title =>
      Some ([difficulty; getQuestionFullName (no quiz) difficulty title +:+ ".ts"],
            formatToCode quiz locale)
  | _, _ => None
  end.

(** The files of [entries] are all in [entries'], each with the content it
    had or with the code of one of the [quizes]. *)
Definition kept_or_written (quizes : list Quiz) (locale : option string)
    (entries entries' : list (string * node)) : Prop :=
  ∀ p n, node_at (Dir entries) p = Some n → is_dir n = false →
    ∃ n', node_at (Dir entries') p = Some n'
          ∧ (n' = n
             ∨ ∃ quiz code, quiz ∈ quizes
                 ∧ quizTarget quiz locale = Some (p, code) ∧ n' = File code).

End Target.

Section Written.

Context `{Externals}.

(** Every file of [entries] holds the code of one of the [quizes]. *)
Definition only_written (quizes : list Quiz) (locale : option string)
    (entries : list (string * node)) : Prop :=
  ∀ p n, node_at (Dir entries) p = Some n → is_dir n = false →
    ∃ quiz code, quiz ∈ quizes
      ∧ quizTarget quiz locale = Some (p, code) ∧ n = File code.

End Written.

(** What the type of [tags] and [related] allows: a list, or nothing. *)
Definition list_or_undefined (v : JSValue) : Prop :=
  v = VUndefined ∨ is_array v = true.

(** [type Difficulty] of [types.ts]. *)
Definition Difficulty_values : list string :=
  ["warm"; "easy"; "medium"; "hard"; "extreme"; "pending"].

Fixpoint all_digits (s : string) : bool :=
  match s with
  | "" => true
  | String c s' => is_digit c && all_digits s'
  end.

(** A run that returns. *)
Definition returns {A : Type} (r : Run A) : Prop := ∃ a, completion r = Normal a.

(** The strings of [n] characters over an alphabet. *)
Fixpoint all_words (alphabet : list ascii) (n : nat) : list string :=
  match n with
  | O => [""]
  | S n' => c ← alphabet; String c <$> all_words alphabet n'
  end.

Definition binary : list ascii := ["0"%char; "1"%char].

(** Does [pat] occur in [s]? *)
Fixpoint contains (pat s : string) : bool :=
  if String.prefix pat s then true
  else match s with
       | "" => false
       | String _ s' => contains pat s'
       end.

(** A text without any of the four markers. *)
Definition marker_free (s : string) : bool :=
  negb (contains header_start s) && negb (contains header_end s)
  && negb (contains footer_start s) && negb (contains footer_end s).

(** [pat] does not occur in [s]. *)
Definition free (pat s : string) : Prop := ∀ u v, s ≠ u +:+ pat +:+ v.

(** What the four markers have in common: the only [<] in front, the only
    [>] at the end, no line feed. *)
Definition is_marker (m : string) : Prop :=
  ∃ tail init,
    m = String "<" tail ∧ Str.mem "<" tail = false
    ∧ m = init +:+ ">" ∧ Str.mem ">" init = false
    ∧ Str.mem "010" m = false.

Definition mfree (s : string) : Prop :=
  free header_start s ∧ free header_end s ∧ free footer_start s ∧ free footer_end s.

(** A document with one header region and one footer region. *)
Definition shaped (pre x mid y post : string) : string :=
  pre +:+ header_start +:+ x +:+ header_end +:+ mid
  +:+ footer_start +:+ y +:+ footer_end +:+ post.

(** ** Escaping for HTML

    [s.replace(/c/g, replacement)] for a pattern of one character and a
    replacement text without [$], as the five of [escapeHtml] are. *)
Fixpoint replace_all (c : ascii) (replacement s : string) : string :=
  match s with
  | "" => ""
  | String c' s' =>
      (if bool_decide (c' = c) then replacement else String c' "")
      +:+ replace_all c replacement s'
  end.

(** [QuizUtils.escapeHtml]: five replacements, one after the other, the
    ampersand first. *)
Definition escapeHtml (unsafe : string) : string :=
  replace_all "'" "&#039;"
    (replace_all "034" "&quot;"
       (replace_all ">" "&gt;"
          (replace_all "<" "&lt;"
             (replace_all "&" "&amp;" unsafe)))).

(** The entity that stands for a character in escaped text; the character
    itself when it needs none. *)
Definition entity (c : ascii) : string :=
  if bool_decide (c = "&"%char) then "&amp;"
  else if bool_decide (c = "<"%char) then "&lt;"
  else if bool_decide (c = ">"%char) then "&gt;"
  else if bool_decide (c = "034"%char) then "&quot;"
  else if bool_decide (c = "'"%char) then "&#039;"
  else String c "".

Fixpoint escape_each (s : string) : string :=
  match s with
  | "" => ""
  | String c s' => entity c +:+ escape_each s'
  end.

(** What can follow an ampersand in escaped text. *)
Definition entity_tails : list string := ["amp;"; "lt;"; "gt;"; "quot;"; "#039;"].
(** ** White space at the ends of a text *)

Fixpoint all_space (s : string) : bool :=
  match s with
  | "" => true
  | String c s' => Ascii.is_space c && all_space s'
  end.

Definition starts_with_space (s : string) : bool :=
  match s with
  | String c _ => Ascii.is_space c
  | "" => false
  end.

(** A text with no white space in front and none at the end. *)
Definition trimmed (s : string) : Prop :=
  starts_with_space s = false ∧ starts_with_space (String.rev s) = false.
(** ** More of the loader *)

Section LoaderByNo.

Context `{Externals}.

(** [loadQuizByNo], for the folders that the glob [`${no}-*`] finds; [no] is
    the number as the template literal prints it. *)
Definition loadQuizByNo (corpus : gmap string string) (no : string)
    (folders : list string) : Run (option Quiz) :=
  try_catch
    (match folders with
     | dir :: _ => quiz ← loadQuiz corpus dir; mret (Some quiz)
     | [] => mret None
     end)
    (λ err, _ ← console_log (LogError ("Error while loading quiz by number "
                                         +:+ no +:+ ": " +:+ err));
            mret None).

End LoaderByNo.

(** What a call returned, when it returned something truthy. *)
Definition returned {A : Type} (r : Run (option A)) : option A :=
  match completion r with
  | Normal v => v
  | _ => None
  end.

(** An item of [tags] or [related] as [loadInfo] leaves it: not empty, no
    comma in it, no white space around it. *)
Definition clean_item (i : string) : Prop :=
  i ≠ "" ∧ Str.mem "," i = false ∧ trimmed i.

(** A list of clean items, or nothing. *)
Definition clean_list (v : JSValue) : Prop :=
  v = VUndefined ∨ ∃ items, v = VArray (VString <$> items) ∧ Forall clean_item items.
Section Incoming.

Context `{Externals}.

(** Every entry of [incoming] is the fingerprint of the code of one of the
    [quizes], at the path where the generator writes it. *)
Definition fingerprints_written (quizes : list Quiz) (locale : option string)
    (incoming : Snapshot) : Prop :=
  ∀ name h, incoming !! name = Some h →
    ∃ quiz difficulty code,
      quiz ∈ quizes
      ∧ quizTarget quiz locale = Some ([difficulty; name], code)
      ∧ h = fingerprint (path_join (path_join playgroundPath difficulty) name) code.

End Incoming.

(** ** The translator

    [QuizTranslator] of [scripts/translate.ts] takes the code blocks out of a
    text before it hands the text to the translation service, and puts them
    back into what the service answers. The blocks are kept in the array
    [codeBlocks] of the translator, which is never emptied. *)

Definition fence : string := "```".

(** [code.replace(/```[\s\S\n]+?```/g, v => ...)]: a block begins at the
    first fence that is followed by one character or more and another fence,
    and ends with the nearest such fence; the callback puts the block at the
    end of [codeBlocks] and leaves its index between underscores. When the
    first fence starts no block, no later one does. Every block takes seven
    characters or more, so the length of the text is fuel enough. *)
Fixpoint replaceCodeBlocks_go (fuel : nat) (codeBlocks : list string) (code : string) :
    string * list string :=
  match fuel with
  | O => (code, codeBlocks)
  | S fuel' =>
      match find_first fence code with
      | Some (before, String c rest) =>
          match find_first fence rest with
          | Some (inner, after) =>
              let v := fence +:+ String c inner +:+ fence in
              let placeholder := "__" +:+ pretty (length codeBlocks) +:+ "__" in
              let r := replaceCodeBlocks_go fuel' (codeBlocks ++ [v]) after in
              (before +:+ placeholder +:+ r.1, r.2)
          | None => (code, codeBlocks)
          end
      | _ => (code, codeBlocks)
      end
  end.

Definition replaceCodeBlocks (codeBlocks : list string) (code : string) :
    string * list string :=
  replaceCodeBlocks_go (String.length code) codeBlocks code.

(** [+i] for a text of digits. *)
Fixpoint digits_value (acc : nat) (s : string) : nat :=
  match s with
  | "" => acc
  | String c s' =>
      match Ascii.is_nat c with
      | Some d => digits_value (10 * acc + d) s'
      | None => acc
      end
  end.

(** The match of [/__\s*?(\d+?)\s*?__/] at the beginning of a text: two
    underscores, white space, digits (one at least), white space, two
    underscores. The result is the digits and the text behind the match.
    White space is the ASCII white space, as for [trim]. *)
Definition placeholder_at (s : string) : option (string * string) :=
  match s with
  | String "_" (String "_" s1) =>
      let s2 := Str.trim_start s1 in
      match take_digits s2, Str.trim_start (skip_digits s2) with
      | String d digits, String "_" (String "_" after) => Some (String d digits, after)
      | _, _ => None
      end
  | _ => None
  end.

(** [result.replace(/__\s*?(\d+?)\s*?__/g, (_, i) => this.codeBlocks[+i])];
    an index without a block leaves the text [undefined]. *)
Fixpoint restoreCodeBlocks_go (fuel : nat) (codeBlocks : list string) (result : string) :
    string :=
  match fuel with
  | O => result
  | S fuel' =>
      match placeholder_at result with
      | Some (i, after) =>
          default "undefined" (codeBlocks !! digits_value 0 i)
          +:+ restoreCodeBlocks_go fuel' codeBlocks after
      | None =>
          match result with
          | "" => ""
          | String c rest => String c (restoreCodeBlocks_go fuel' codeBlocks rest)
          end
      end
  end.

Definition restoreCodeBlocks (codeBlocks : list string) (result : string) : string :=
  restoreCodeBlocks_go (String.length result) codeBlocks result.

(** The text around the blocks that [replaceCodeBlocks] finds. *)
Fixpoint outside_go (fuel : nat) (code : string) : string :=
  match fuel with
  | O => code
  | S fuel' =>
      match find_first fence code with
      | Some (before, String c rest) =>
          match find_first fence rest with
          | Some (inner, after) => before +:+ outside_go fuel' after
          | None => code
          end
      | _ => code
      end
  end.

Definition outside (code : string) : string := outside_go (String.length code) code.
(** The state of the translator: its code blocks, the files it has written
    (by path), and the console. *)
Record Translator : Type := MkTranslator {
  codeBlocks : list string;
  translated : gmap string string;
  printed : list line
}.

Definition set_codeBlocks (blocks : list string) (st : Translator) : Translator :=
  {| codeBlocks := blocks; translated := translated st; printed := printed st |}.

Definition print (l : line) (st : Translator) : Translator :=
  {| codeBlocks := codeBlocks st; translated := translated st;
     printed := printed st ++ [l] |}.

Section Translate.

Context `{Externals}.

(** What the script imports besides: the translation service, as the
    [data] of its answer for a text and two languages (it may throw),
    [resolveFilePath] of [./utils/resolve] and [t] of [./locales]. *)
Variable translate : string → string → string → Completion string.
Variable resolveFilePath : string → string → string → string → string.
Variable t : string → string → string.

Definition translateMarkdown (code from to : string) (st : Translator) :
    Completion (option string) * Translator :=
  let r := replaceCodeBlocks (codeBlocks st) code in
  let st := set_codeBlocks r.2 st in
  match translate r.1 from to with
  | Normal rawResult =>
      if truthy (VString rawResult)
      then (Normal (Some (restoreCodeBlocks (codeBlocks st) rawResult)), st)
      else (Normal None, st)
  | Throw err => (Throw err, st)
  | Exit code => (Exit code, st)
  end.

(** [quiz.readme.from] in the line that is printed is the README under the
    key [from], not the one of the source language. *)
Definition writeTranslatedReadme (quiz : Quiz) (translatedReadme to : string)
    (st : Translator) : Completion unit * Translator :=
  let readmePath := resolveFilePath (path_join QUIZ_ROOT (path quiz)) "README" "md" to in
  (Normal tt,
   {| codeBlocks := codeBlocks st;
      translated := <[readmePath := translatedReadme]> (translated st);
      printed := printed st
        ++ [Log ("Translated [" +:+ js_toString (VNumber (no quiz)) +:+ "] "
                 +:+ default "undefined" (readme quiz !! "from")
                 +:+ " â†’ " +:+ to +:+ " | saved to " +:+ readmePath)] |}).

(** The text that [translateQuiz] saves for a translation. *)
Definition translatedReadme_of (to text : string) : string :=
  "> " +:+ t to "readme.google-translated" +:+ String "010" (String "010" "")
  +:+ Str.trim text.

Definition translateQuiz (quiz : Quiz) (from to : string) (st : Translator) :
    Completion unit * Translator :=
  match readme quiz !! from with
  | None => (Throw "TypeError", st)
  | Some code =>
      match translateMarkdown code from to st with
      | (Normal translatedReadme, st) =>
          match translatedReadme with
          | Some (String c text) =>
              writeTranslatedReadme quiz (translatedReadme_of to (String c text)) to st
          | _ =>
              (Throw ("Quiz #" +:+ js_toString (VNumber (no quiz))
                      +:+ " empty translation"), st)
          end
      | (Throw err, st) => (Throw err, st)
      | (Exit code, st) => (Exit code, st)
      end
  end.

(** [translateAllQuizes], for the quizzes that [loadQuizes] returns. *)
Fixpoint translateAllQuizes (quizes : list Quiz) (from to : string) (st : Translator) :
    Completion unit * Translator :=
  match quizes with
  | [] => (Normal tt, st)
  | quiz :: quizes' =>
      if truthy_entry (readme quiz !! to) || negb (truthy_entry (readme quiz !! from))
      then
        translateAllQuizes quizes' from to
          (print (Log ("Skipped #" +:+ js_toString (VNumber (no quiz)))) st)
      else
        match translateQuiz quiz from to
                (print (Log ("Translating #" +:+ js_toString (VNumber (no quiz))
                             +:+ " to " +:+ to)) st) with
        | (Normal _, st) => translateAllQuizes quizes' from to st
        | (Throw err, st) => (Throw err, st)
        | (Exit code, st) => (Exit code, st)
        end
  end.

(** A file that a run for [from] and [to] may have written: the
    translation of a quiz that has a README in [from] and none in [to]. *)
Definition translation_of (quizes : list Quiz) (from to : string)
    (readmePath text : string) : Prop :=
  ∃ quiz body,
    quiz ∈ quizes
    ∧ truthy_entry (readme quiz !! from) = true
    ∧ truthy_entry (readme quiz !! to) = false
    ∧ readmePath = resolveFilePath (path_join QUIZ_ROOT (path quiz)) "README" "md" to
    ∧ text = translatedReadme_of to body.

End Translate.
Section Complete.

Context `{Externals}.

(** Every one of the [quizes] that has a place in the playground has a
    file there, with the code of a quiz of [all] that has the same place. *)
Definition all_written (all quizes : list Quiz) (locale : option string)
    (entries : list (string * node)) : Prop :=
  ∀ quiz p code, quiz ∈ quizes → quizTarget quiz locale = Some (p, code) →
    ∃ quiz' code',
      quiz' ∈ all ∧ quizTarget quiz' locale = Some (p, code')
      ∧ node_at (Dir entries) p = Some (File code').

End Complete.
(** ** Updating the README of every quiz *)

Section Updater.

Context `{Externals}.

(** [f] of [./locales], which makes the name of a file for a locale, and
    the HTML that [insertInfoReadme] builds for the two regions of a quiz;
    the helpers that build it are not part of the script. *)
Variable f : string → string → string → string.
Variable header footer : Quiz → string → list Quiz → string.

(** The line that [updateQuestionsREADME] prints behind every call of
    [insertInfoReadme]. *)
Definition updated_line (quiz : Quiz) (locale : string) : line :=
  Log ("README updated successfully for quiz " +:+ js_toString (VNumber (no quiz))
       +:+ " (" +:+ locale +:+ ")").

(** The body of the two loops, on the files of the questions by path. *)
Definition updateQuestionREADME (quizes : list Quiz) (quiz : Quiz)
    (files : gmap string string) (locale : string) : Run (gmap string string) :=
  try_catch
    (let filepath :=
       path_join (path_join QUIZ_ROOT (path quiz)) (f "README" locale "md") in
     text ← insertInfoReadme filepath (header quiz locale quizes)
               (footer quiz locale quizes) (files !! filepath);
     _ ← console_log (updated_line quiz locale);
     mret (match text with
           | Some text => <[filepath := text]> files
           | None => files
           end))
    (λ err, _ ← console_log
                  (LogError ("Error updating README for quiz "
                             +:+ js_toString (VNumber (no quiz))
                             +:+ " (" +:+ locale +:+ "): " +:+ err));
            mret files).

Definition updateQuestionsREADME (quizes : list Quiz) (files : gmap string string) :
    Run (gmap string string) :=
  try_catch
    (foldM (λ files quiz,
              foldM (updateQuestionREADME quizes quiz) supportedLocales files)
       quizes files)
    (λ err, _ ← console_log (LogError ("Error updating Questions README: " +:+ err));
            mret files).

End Updater.

(** ** What a run leaves in the playground *)

Section Contents.

Context `{Externals}.

(** The test of the loop: whether it writes a file of the name. *)
Definition writes (keepChanges : bool) (overridableFiles playgroundSnapshot : Snapshot)
    (quizFileName : string) : bool :=
  negb keepChanges
  || (keepChanges && isQuizWritable quizFileName overridableFiles playgroundSnapshot).

(** The path and the code of a quiz that is written: it has a place in the
    playground, and the name of its file is [allowed]. *)
Definition quizWritten (allowed : string → bool) (quiz : Quiz) (locale : option string) :
    option (list string * string) :=
  match quizTarget quiz locale with
  | Some (p, code) => if allowed (default "" (last p)) then Some (p, code) else None
  | None => None
  end.

(** The code of the last of the [quizes] that is written at [p]. *)
Fixpoint last_written (allowed : string → bool) (quizes : list Quiz)
    (locale : option string) (p : list string) : option string :=
  match quizes with
  | [] => None
  | quiz :: quizes' =>
      match last_written allowed quizes' locale p with
      | Some code => Some code
      | None =>
          match quizWritten allowed quiz locale with
          | Some (p', code) => if decide (p' = p) then Some code else None
          | None => None
          end
      end
  end.

(** The fingerprints of the written quizzes, entered under the names of
    their files in the order of the loop. *)
Fixpoint fingerprints_of (allowed : string → bool) (quizes : list Quiz)
    (locale : option string) (incoming : Snapshot) : Snapshot :=
  match quizes with
  | [] => incoming
  | quiz :: quizes' =>
      fingerprints_of allowed quizes' locale
        match quizWritten allowed quiz locale with
        | Some (p, code) =>
            <[default "" (last p) := fingerprint (foldl path_join playgroundPath p) code]>
              incoming
        | None => incoming
        end
  end.

(** The names of the files tell their folders. *)
Definition names_tell_paths (quizes : list Quiz) (locale : option string) : Prop :=
  ∀ quiz quiz' p p' code code', quiz ∈ quizes → quiz' ∈ quizes →
    quizTarget quiz locale = Some (p, code) →
    quizTarget quiz' locale = Some (p', code') →
    last p = last p' → p = p'.

End Contents.

(** A playground as the generator makes it: folders of files, no name
    twice in a folder. *)
Definition flat_playground (entries : list (string * node)) : Prop :=
  NoDup entries.*1
  ∧ ∀ d n, (d, n) ∈ entries →
      ∃ sub, n = Dir sub ∧ NoDup sub.*1
             ∧ ∀ f m, (f, m) ∈ sub → ∃ code, m = File code.

(** ** Applying the substitution twice *)

(** A replacement text without the patterns that stand for text of the
    document, [$&], [$`] and [$']; and the text that such a replacement
    puts in the document, with a dollar for every [$$]. *)
Fixpoint context_free (replacement : string) : bool :=
  match replacement with
  | "" => true
  | String c r =>
      if bool_decide (c = "$"%char) then
        match r with
        | String "$" r' => context_free r'
        | String "&" _ | String "`" _ | String "'" _ => false
        | _ => context_free r
        end
      else context_free r
  end.

Definition inserted (replacement : string) : string := expand replacement "" "" "".

(** The document with the pairs of markers that [insertInfoReadme] adds
    when it finds no region: the first two steps of the function. *)
Definition with_marker_pairs (text : string) : string :=
  let text :=
    match region_match header_start header_end text with
    | Some _ => text
    | None => header_start +:+ header_end +:+ String "010" (String "010" text)
    end in
  match region_match footer_start footer_end text with
  | Some _ => text
  | None => text +:+ String "010" (String "010" (footer_start +:+ footer_end))
  end.

Definition has_region (start_marker end_marker text : string) : bool :=
  match region_match start_marker end_marker text with
  | Some _ => true
  | None => false
  end.

(** Once the header is replaced, is there a footer region wholly before
    the header region, or wholly behind it? The header region runs from the
    first header start marker to the last header end marker; what it holds
    is replaced, so only the text before and the text behind it count. *)
Definition apart (before after : string) : bool :=
  (has_region footer_start footer_end before && negb (contains footer_end after))
  || (negb (contains footer_start before)
      && has_region footer_start footer_end after).

Definition footer_apart (text : string) : bool :=
  match region_match header_start header_end (with_marker_pairs text) with
  | Some (before, _, after) => apart before after
  | None => false
  end.

(** ** Sample values of the imports, for the examples

    The locales are those of the repository's [locales.ts]; the parsers read
    a small part of what the libraries read: an object of strings without
    escapes for JSON, and a document that is one title for YAML. *)

Inductive json_state : Type :=
| JStart
| JKeyOrEnd
| JKey (key : string)
| JColon (key : string)
| JValueStart (key : string)
| JValue (key value : string)
| JCommaOrEnd
| JKeyStart
| JDone.

Fixpoint sample_JSON_go (st : json_state) (acc : Snapshot) (s : string) : option Snapshot :=
  match s with
  | "" => match st with JDone => Some acc | _ => None end
  | String c s' =>
      match st with
      | JStart => if bool_decide (c = "{"%char) then sample_JSON_go JKeyOrEnd acc s' else None
      | JKeyOrEnd =>
          if bool_decide (c = "}"%char) then sample_JSON_go JDone acc s'
          else if bool_decide (c = "034"%char) then sample_JSON_go (JKey "") acc s'
          else None
      | JKeyStart =>
          if bool_decide (c = "034"%char) then sample_JSON_go (JKey "") acc s' else None
      | JKey key =>
          if bool_decide (c = "034"%char) then sample_JSON_go (JColon key) acc s'
          else if bool_decide (c = "\"%char) then None
          else sample_JSON_go (JKey (key +:+ String c "")) acc s'
      | JColon key =>
          if bool_decide (c = ":"%char) then sample_JSON_go (JValueStart key) acc s' else None
      | JValueStart key =>
          if bool_decide (c = "034"%char) then sample_JSON_go (JValue key "") acc s' else None
      | JValue key value =>
          if bool_decide (c = "034"%char)
          then sample_JSON_go JCommaOrEnd (<[key := value]> acc) s'
          else if bool_decide (c = "\"%char) then None
          else sample_JSON_go (JValue key (value +:+ String c "")) acc s'
      | JCommaOrEnd =>
          if bool_decide (c = ","%char) then sample_JSON_go JKeyStart acc s'
          else if bool_decide (c = "}"%char) then sample_JSON_go JDone acc s'
          else None
      | JDone => None
      end
  end.

Definition sample_JSON_parse (s : string) : option Snapshot :=
  sample_JSON_go JStart ∅ s.

Definition quoted (s : string) : string := String "034" (s +:+ String "034" "").

Fixpoint sample_members (l : list (string * string)) : string :=
  match l with
  | [] => ""
  | [(k, v)] => quoted k +:+ ":" +:+ quoted v
  | (k, v) :: l' => quoted k +:+ ":" +:+ quoted v +:+ "," +:+ sample_members l'
  end.

Definition sample_JSON_stringify (m : Snapshot) : string :=
  "{" +:+ sample_members (map_to_list m) +:+ "}".

Fixpoint sample_digits (acc : Z) (s : string) : number :=
  match s with
  | "" => Num acc
  | String c s' =>
      match Ascii.is_nat c with
      | Some d => sample_digits (10 * acc + Z.of_nat d) s'
      | None => NaN
      end
  end.

Definition sample_externals : Externals := {|
  supportedLocales := ["en"; "zh-CN"; "ja"; "ko"; "pt-BR"];
  defaultLocale := "en";
  YAML_load := λ s, Some (if decide (s = "") then VNull
                          else VObject [("title", VString s)]);
  Number := λ s, match s with "" => Num 0 | _ => sample_digits 0 s end;
  JSON_parse := sample_JSON_parse;
  JSON_stringify := sample_JSON_stringify;
  formatToCode := λ quiz _, template quiz;
  getQuestionFullName := λ no difficulty title,
    match no with Num z => pretty z | NaN => "NaN" end
    +:+ "-" +:+ difficulty +:+ "-" +:+ title;
  QUIZ_ROOT := "/repo/questions";
  playgroundPath := "/repo/playground"
|}.

(** A quiz, and a playground that holds its file, edited by hand since the
    cache was written, next to a file of the user's own. *)
Definition sample_quiz : Quiz := {|
  no := Num 1;
  difficulty := "easy";
  path := "00001-easy-foo";
  readme := ∅;
  template := "type Foo = any";
  info := {[ "en" := {[ "title" := VString "foo"; "difficulty" := VString "easy" ]} ]};
  tests := None
|}.

Definition sample_playground : list (string * node) :=
  [("easy", Dir [("1-easy-foo.ts", File "type Foo = string")]);
   ("notes.md", File "my notes")].

Definition sample_cache : Snapshot := {[ "1-easy-foo.ts" := "0000" ]}.

Definition sample_world : World := {|
  playground := Some sample_playground;
  playgroundCache := Some (@JSON_stringify sample_externals sample_cache);
  output := []
|}.

Definition sample_argv : list string := ["node"; "generate-play-local.js"; "-K"].

Definition sample_answers : Answers := {| confirm := false; select := Some "en" |}.

(** Two folders of a playground with a file of the same name. *)
Definition sample_collision : list (string * node) :=
  [("easy", Dir [("1-foo.ts", File "first")]);
   ("hard", Dir [("1-foo.ts", File "second")])].

(** A quiz whose only metadata is in English and names no tags, as
    [loadInfo] returns it; and one with tags in two locales. *)
Definition sample_untagged : Quiz := {|
  no := Num 4;
  difficulty := "easy";
  path := "00004-easy-pick";
  readme := ∅;
  template := "";
  info := {[ "en" := {[ "title" := VString "Pick";
                        "tags" := VUndefined;
                        "related" := VUndefined ]} ]};
  tests := None
|}.

Definition sample_tagged : Quiz := {|
  no := Num 4;
  difficulty := "easy";
  path := "00004-easy-pick";
  readme := ∅;
  template := "";
  info := {[ "en" := {[ "title" := VString "Pick";
                        "tags" := VArray [VString "a"; VString "b"];
                        "related" := VUndefined ]};
             "ja" := {[ "title" := VString "Pick (ja)";
                        "tags" := VArray [VString "c"];
                        "related" := VUndefined ]} ]};
  tests := None
|}.

(** Quizzes in the order of their numbers, as [updateREADMEs] passes them. *)
Definition sample_quiz_of (n : Z) (d : string) : Quiz := {|
  no := Num n;
  difficulty := d;
  path := "";
  readme := ∅;
  template := "";
  info := ∅;
  tests := None
|}.

Definition sample_quizes : list Quiz :=
  [sample_quiz_of 2 "medium"; sample_quiz_of 4 "easy"; sample_quiz_of 5 "extreme";
   sample_quiz_of 7 "easy"; sample_quiz_of 9 "pending"; sample_quiz_of 13 "warm";
   sample_quiz_of 17 "hard"].

(** The same playground with the cache of the run that wrote the file, and
    a playground that does not have the file yet. *)
Definition sample_world_untouched : World := {|
  playground := Some sample_playground;
  playgroundCache :=
    Some (@JSON_stringify sample_externals
            {[ "1-easy-foo.ts" :=
                 fingerprint "/repo/playground/easy/1-easy-foo.ts" "type Foo = string" ]});
  output := []
|}.

Definition sample_world_new : World := {|
  playground := Some [("notes.md", File "my notes")];
  playgroundCache := None;
  output := []
|}.

(** A YAML reader for documents that give the tags of a quiz, as one line
    or as a list of one item. *)
Definition sample_externals_tags : Externals := {|
  supportedLocales := ["en"; "ja"];
  defaultLocale := "en";
  YAML_load := λ s,
    Some match s with
         | "" => VNull
         | String "-" (String " " item) =>
             VObject [("title", VString "Pick"); ("tags", VArray [VString item])]
         | _ => VObject [("title", VString "Pick"); ("tags", VString s)]
         end;
  Number := λ s, match s with "" => Num 0 | _ => sample_digits 0 s end;
  JSON_parse := sample_JSON_parse;
  JSON_stringify := sample_JSON_stringify;
  formatToCode := λ quiz _, template quiz;
  getQuestionFullName := λ no difficulty title,
    match no with Num z => pretty z | NaN => "NaN" end
    +:+ "-" +:+ difficulty +:+ "-" +:+ title;
  QUIZ_ROOT := "/repo/questions";
  playgroundPath := "/repo/playground"
|}.

(** The folder of a quiz with a README in two languages, the English one
    in the file without a language in its name. *)
Definition sample_corpus : gmap string string :=
  {[ "/repo/questions/00004-easy-pick/info.yml" := "union, built-in";
     "/repo/questions/00004-easy-pick/README.md" :=
       "<!--info-header-start--><h1>Pick</h1><!--info-header-end-->"
       +:+ String "010" "Implement Pick." +:+ String "010" "";
     "/repo/questions/00004-easy-pick/README.ja.md" := "Pick (ja)";
     "/repo/questions/00004-easy-pick/README.ko.md" := "  " ]}.

(** A translation service that answers with the text it was given, the
    file names of the repository, and a quiz with an English README. *)
Definition sample_translate (text from to : string) : Completion string := Normal text.

Definition sample_resolveFilePath (dir name ext locale : string) : string :=
  dir +:+ "/" +:+ name +:+ "." +:+ locale +:+ "." +:+ ext.

Definition sample_t (locale key : string) : string := key.

Definition sample_readme_quiz : Quiz := {|
  no := Num 4;
  difficulty := "easy";
  path := "00004-easy-pick";
  readme := {[ "en" := "Use: ```ts" +:+ String "010" "type A = 1```!" ]};
  template := "";
  info := ∅;
  tests := None
|}.

Definition sample_translator : Translator :=
  {| codeBlocks := []; translated := ∅; printed := [] |}.

(** * Properties *)

(** ** Strings *)

Module StrFacts.

Lemma app_cons (c : ascii) (s t : string) :
  String c s +:+ t = String c (s +:+ t).
Proof. reflexivity. Qed.

Lemma app_nil_l (s : string) : "" +:+ s = s.
Proof. reflexivity. Qed.

Lemma app_nil_r (s : string) : s +:+ "" = s.
Proof. induction s as [|c s IH]; [done|]. by rewrite app_cons, IH. Qed.

Lemma app_assoc (s t u : string) : (s +:+ t) +:+ u = s +:+ t +:+ u.
Proof. induction s as [|c s IH]; [done|]. by rewrite !app_cons, IH. Qed.

Lemma length_app (s t : string) :
  String.length (s +:+ t) = (String.length s + String.length t)%nat.
Proof.
  induction s as [|c s IH]; [done|]. rewrite app_cons. simpl. by rewrite IH.
Qed.

Lemma app_inv_head (s t u : string) : s +:+ t = s +:+ u → t = u.
Proof. apply (inj (String.app s)). Qed.

Lemma drop_app (s t : string) : Str.drop (String.length s) (s +:+ t) = t.
Proof. induction s as [|c s IH]; [by destruct t|]. rewrite app_cons. simpl. done. Qed.

Lemma prefix_app (s t : string) : String.prefix s (s +:+ t) = true.
Proof.
  induction s as [|c s IH]; [by destruct t|].
  rewrite app_cons. simpl. destruct (ascii_dec c c); [done|congruence].
Qed.

Lemma prefix_inv (s t : string) :
  String.prefix s t = true → t = s +:+ Str.drop (String.length s) t.
Proof.
  revert s. induction t as [|c t IH]; intros [|c' s]; simpl; try done.
  destruct (ascii_dec c' c) as [->|]; [|done].
  intros Hp. rewrite app_cons. f_equal. by apply IH.
Qed.

End StrFacts.

(** ** The completions of a run *)

Lemma run_bind_normal {A B : Type} (m : Run A) (k : A → Run B) (a : A) :
  completion m = Normal a →
  m ≫= k = MkRun (completion (k a)) (console m ++ console (k a)).
Proof. unfold mbind, run_bind. by intros ->. Qed.

Lemma run_bind_inv {A B : Type} (m : Run A) (k : A → Run B) (b : B) :
  completion (m ≫= k) = Normal b →
  ∃ a, completion m = Normal a ∧ completion (k a) = Normal b.
Proof.
  unfold mbind, run_bind. destruct (completion m) as [a| |]; simpl; [|done..].
  intros Hk. by exists a.
Qed.

Lemma run_bind_console {A B : Type} (m : Run A) (k : A → Run B) (b : B) :
  completion (m ≫= k) = Normal b →
  ∃ a, completion m = Normal a ∧ console (m ≫= k) = console m ++ console (k a).
Proof.
  unfold mbind, run_bind. destruct (completion m) as [a| |]; simpl; [|done..].
  intros Hk. by exists a.
Qed.

(** ** The persisted snapshot *)

Section CacheFacts.

Context `{Externals}.

Lemma readPlaygroundCache_unparsable (raw : string) :
  JSON_parse raw = None →
  completion (readPlaygroundCache (Some raw)) = Exit 1
  ∧ length (console (readPlaygroundCache (Some raw))) = 2%nat.
Proof. intros Hp. unfold readPlaygroundCache. by rewrite Hp. Qed.

Lemma generatePlayground_unparsable (argv : list string) (answers : Answers)
    (quizes : list Quiz) (w : World) (raw : string) :
  playgroundCache w = Some raw →
  JSON_parse raw = None →
  ∃ w', generatePlayground argv answers quizes w = (Exit 1, w')
        ∧ playground w' = playground w
        ∧ playgroundCache w' = playgroundCache w.
Proof.
  intros Hc Hp. unfold generatePlayground.
  unfold mbind at 1. unfold gen_bind. simpl.
  unfold mbind at 1. unfold gen_bind. simpl.
  unfold mbind at 1. unfold gen_bind. simpl.
  rewrite Hc. unfold readPlaygroundCache. rewrite Hp. simpl.
  eexists. split; [reflexivity|]. done.
Qed.

End CacheFacts.

(** C2. Loading the persisted snapshot gives the empty snapshot when the
    file does not exist. When the file exists and cannot be parsed, the
    load ends the process with exit code 1 (it does not return, so in
    particular it returns no empty snapshot), and the run of the generator
    it belongs to ends there, the playground and the cache file being as
    they were. *)
Theorem load_snapshot_fail_closed `{Externals} :
  readPlaygroundCache None = mret ∅
  ∧ ∀ (raw : string), JSON_parse raw = None →
      completion (readPlaygroundCache (Some raw)) = Exit 1
      ∧ (∀ s : Snapshot, completion (readPlaygroundCache (Some raw)) ≠ Normal s)
      ∧ ∀ argv answers quizes w, playgroundCache w = Some raw →
          ∃ w', generatePlayground argv answers quizes w = (Exit 1, w')
                ∧ playground w' = playground w
                ∧ playgroundCache w' = playgroundCache w.
Proof.
  split; [done|]. intros raw Hp.
  destruct (readPlaygroundCache_unparsable raw Hp) as [Hc _].
  split; [done|]. split; [by rewrite Hc|].
  intros argv answers quizes w Hw.
  by apply (generatePlayground_unparsable argv answers quizes w raw).
Qed.

Example sample_parse_ok :
  @JSON_parse sample_externals ("{" +:+ quoted "a.ts" +:+ ":" +:+ quoted "00ff" +:+ "}")
  = Some {[ "a.ts" := "00ff" ]}.
Proof. vm_compute. reflexivity. Qed.

Lemma load_snapshot_fail_closed_witness :
  @JSON_parse sample_externals "oops" = None
  ∧ completion (@readPlaygroundCache sample_externals (Some "oops")) = Exit 1.
Proof.
  split; [reflexivity|].
  destruct (@load_snapshot_fail_closed sample_externals) as [_ Hraw].
  destruct (Hraw "oops") as [Hexit _]; [reflexivity|]. exact Hexit.
Defined.

(** ** Fingerprints *)

Module Sha1Facts.

Lemma hex_length (st : Sha1.state) : String.length (Sha1.hex st) = 40%nat.
Proof. by destruct st as [[[[a b] c] d] e]. Qed.

Lemma sha1_hex_length (msg : string) : String.length (Sha1.sha1_hex msg) = 40%nat.
Proof. apply hex_length. Qed.

Lemma sha1_hex_truthy (msg : string) : truthy (VString (Sha1.sha1_hex msg)) = true.
Proof.
  pose proof (sha1_hex_length msg) as Hl.
  by destruct (Sha1.sha1_hex msg).
Qed.

Example sha1_empty : Sha1.sha1_hex "" = "da39a3ee5e6b4b0d3255bfef95601890afd80709".
Proof. vm_compute. reflexivity. Qed.

Example sha1_abc : Sha1.sha1_hex "abc" = "a9993e364706816aba3e25717850c26c9cd0d89d".
Proof. vm_compute. reflexivity. Qed.

Example sha1_two_blocks :
  Sha1.sha1_hex "abcdbcdecdefdefgefghfghighijhijkijkljklmklmnlmnomnopnopq"
  = "84983e441c3bd26ebaae4aa1f95129e5e54670f1".
Proof. vm_compute. reflexivity. Qed.

End Sha1Facts.

(** ** Snapshots of a directory *)

Lemma node_ind' (P : node → Prop) :
  (∀ data, P (File data)) →
  P Unreadable →
  (∀ entries, Forall (λ e, P e.2) entries → P (Dir entries)) →
  ∀ n, P n.
Proof.
  intros Hfile Hunr Hdir. fix IH 1. intros [data| |entries].
  - apply Hfile.
  - apply Hunr.
  - apply Hdir. revert entries. fix IHes 1. intros [|[name n] entries].
    + constructor.
    + constructor; [apply IH | apply IHes].
Qed.

Lemma run_ret_bind {A B : Type} (a : A) (k : A → Run B) : mret a ≫= k = k a.
Proof. unfold mret, run_ret, mbind, run_bind. simpl. by destruct (k a). Qed.

Lemma run_throw_bind {A B : Type} (err : string) (k : A → Run B) :
  throw err ≫= k = throw err.
Proof. done. Qed.

Lemma chunks_go_join (rest : string) : ∀ (room : N) (cur acc : string),
  fold_left hash_update (chunks_go room cur rest) acc = acc +:+ cur +:+ rest.
Proof.
  induction rest as [|c rest IH]; intros room cur acc; simpl.
  - destruct cur; simpl; [by rewrite !StrFacts.app_nil_r|].
    unfold hash_update. by rewrite StrFacts.app_nil_r.
  - destruct (room =? 0)%N; simpl.
    + rewrite IH. unfold hash_update. by rewrite !StrFacts.app_assoc.
    + rewrite IH. by rewrite !StrFacts.app_assoc.
Qed.

Lemma calculateFileHash_file (filePathFull data : string) :
  calculateFileHash filePathFull (File data) = mret (fingerprint filePathFull data).
Proof.
  unfold calculateFileHash, createReadStream, fingerprint, hash_digest_hex.
  rewrite chunks_go_join. unfold createHash, hash_update. done.
Qed.

Lemma record_visits_app (l1 l2 : list (string * string * node)) (m : Snapshot) :
  record_visits (l1 ++ l2) m = record_visits l2 (record_visits l1 m).
Proof. apply foldl_app. Qed.

Lemma record_visits_union (l : list (string * string * node)) (m snapshot : Snapshot) :
  record_visits l (m ∪ snapshot) = record_visits l m ∪ snapshot.
Proof.
  revert m. induction l as [|v l IH]; intros m; [done|].
  simpl. by rewrite insert_union_l, IH.
Qed.

Lemma takeSnapshot_files_cons body (quizesPath file : string) (n : node)
    (files : list (string * node)) (snapshot : Snapshot) :
  takeSnapshot_files body quizesPath ((file, n) :: files) snapshot
  = body quizesPath file n snapshot
      ≫= λ snapshot', takeSnapshot_files body quizesPath files snapshot'.
Proof. reflexivity. Qed.

Lemma takeSnapshot_files_spec (quizesPath : string) (files : list (string * node)) :
  Forall (λ e, ∀ file snapshot,
            takeSnapshot_file quizesPath file e.2 snapshot
            = if forallb readable (visits_file quizesPath file e.2)
              then mret (record_visits (visits_file quizesPath file e.2) snapshot)
              else throw "EACCES") files →
  ∀ snapshot,
    takeSnapshot_files takeSnapshot_file quizesPath files snapshot
    = if forallb readable (visits quizesPath files)
      then mret (record_visits (visits quizesPath files) snapshot)
      else throw "EACCES".
Proof.
  unfold visits.
  induction 1 as [|[name n] files Hn _ IH]; intros snapshot; [done|].
  rewrite takeSnapshot_files_cons, Hn.
  change (flat_map _ ((name, n) :: files))
    with (visits_file quizesPath name n
            ++ flat_map (λ e, visits_file quizesPath e.1 e.2) files).
  rewrite forallb_app.
  change ((name, n).2) with n.
  destruct (forallb readable (visits_file quizesPath name n)).
  - rewrite run_ret_bind, IH, record_visits_app. done.
  - done.
Qed.

(** What a traversal returns: the visited files entered in order when all
    of them can be read, and the error of the read otherwise. Nothing is
    printed either way. *)
Lemma takeSnapshot_file_spec (n : node) : ∀ (quizesPath file : string) (snapshot : Snapshot),
  takeSnapshot_file quizesPath file n snapshot
  = if forallb readable (visits_file quizesPath file n)
    then mret (record_visits (visits_file quizesPath file n) snapshot)
    else throw "EACCES".
Proof.
  induction n as [data| |entries IH] using node_ind'; intros quizesPath file snapshot.
  - change (takeSnapshot_file quizesPath file (File data) snapshot)
      with (calculateFileHash (path_join quizesPath file) (File data)
              ≫= λ h, mret (<[file := h]> snapshot)).
    by rewrite calculateFileHash_file, run_ret_bind.
  - done.
  - change (takeSnapshot_file quizesPath file (Dir entries) snapshot)
      with (takeSnapshot_files takeSnapshot_file (path_join quizesPath file) entries ∅
              ≫= λ sub, mret (sub ∪ snapshot)).
    change (visits_file quizesPath file (Dir entries))
      with (visits (path_join quizesPath file) entries).
    rewrite takeSnapshot_files_spec.
    + destruct (forallb readable _); [|done].
      rewrite run_ret_bind. f_equal.
      rewrite <- record_visits_union. by rewrite (left_id_L ∅ (∪)).
    + eapply Forall_impl; [exact IH|]. intros e He f s. apply He.
Qed.

Lemma takeSnapshot_spec (quizesPath : string) (files : list (string * node)) :
  takeSnapshot quizesPath files
  = if forallb readable (visits quizesPath files)
    then mret (record_visits (visits quizesPath files) ∅)
    else throw "EACCES".
Proof.
  apply takeSnapshot_files_spec, Forall_forall.
  intros e _ file snapshot. apply takeSnapshot_file_spec.
Qed.

(** Every value of a snapshot taken from the disk is a digest of 40
    characters, so it is truthy. *)
Lemma record_visits_truthy (l : list (string * string * node)) (m : Snapshot) :
  forallb readable l = true →
  map_Forall (λ _ h, truthy (VString h) = true) m →
  map_Forall (λ _ h, truthy (VString h) = true) (record_visits l m).
Proof.
  revert m. induction l as [|[[name fp] n] l IH]; intros m Hr Hm; [done|].
  simpl in Hr. apply andb_prop in Hr as [Hn Hl].
  change (record_visits (((name, fp), n) :: l) m)
    with (record_visits l (<[name := fingerprint_of (name, fp, n)]> m)).
  apply IH; [done|]. apply map_Forall_insert_2; [|done].
  destruct n; try done. apply Sha1Facts.sha1_hex_truthy.
Qed.

Lemma takeSnapshot_truthy (quizesPath : string) (files : list (string * node))
    (snapshot : Snapshot) :
  completion (takeSnapshot quizesPath files) = Normal snapshot →
  map_Forall (λ _ h, truthy (VString h) = true) snapshot.
Proof.
  rewrite takeSnapshot_spec.
  destruct (forallb readable (visits quizesPath files)) eqn:Hr; [|done].
  intros [= <-]. apply record_visits_truthy; [done|]. apply map_Forall_empty.
Qed.

Lemma takeSnapshot_silent (quizesPath : string) (files : list (string * node)) :
  console (takeSnapshot quizesPath files) = [].
Proof. rewrite takeSnapshot_spec. by destruct (forallb readable _). Qed.

(** ** The overridable files *)

Lemma calculateOverridableFiles_lookup (cache snapshot : Snapshot) (name : string) :
  calculateOverridableFiles cache snapshot !! name
  = match snapshot !! name with
    | Some h => if decide (cache !! name = Some h) then Some h else None
    | None => None
    end.
Proof.
  unfold calculateOverridableFiles. revert name.
  apply (map_fold_weak_ind (λ result m, ∀ name,
    result !! name = match m !! name with
                     | Some h => if decide (cache !! name = Some h) then Some h else None
                     | None => None
                     end)).
  - intros name. by rewrite !lookup_empty.
  - intros i x m r Hi IH name.
    destruct (decide (i = name)) as [->|Hne].
    + rewrite lookup_insert_eq. case_decide.
      * by rewrite lookup_insert_eq.
      * by rewrite IH, Hi.
    + rewrite (lookup_insert_ne m), <- IH by done. case_decide; [|done].
      by rewrite lookup_insert_ne.
Qed.

Lemma overridable_iff (cache snapshot : Snapshot) (name h : string) :
  calculateOverridableFiles cache snapshot !! name = Some h
  ↔ snapshot !! name = Some h ∧ cache !! name = Some h.
Proof.
  rewrite calculateOverridableFiles_lookup.
  destruct (snapshot !! name) as [h'|]; [|naive_solver].
  case_decide; naive_solver.
Qed.

Lemma isQuizWritable_spec (cache snapshot : Snapshot) (name : string) :
  map_Forall (λ _ h, truthy (VString h) = true) snapshot →
  isQuizWritable name (calculateOverridableFiles cache snapshot) snapshot = true
  ↔ snapshot !! name = None
    ∨ ∃ h, snapshot !! name = Some h ∧ cache !! name = Some h.
Proof.
  intros Htruthy. unfold isQuizWritable.
  rewrite calculateOverridableFiles_lookup.
  destruct (snapshot !! name) as [h|] eqn:Hs; simpl.
  - specialize (Htruthy name h Hs). simpl in Htruthy.
    case_decide as Hc; simpl; rewrite Htruthy; simpl.
    + split; [|done]. intros _. right. by exists h.
    + split; [done|]. intros [?|(h' & ? & ?)]; [done|]. naive_solver.
  - split; [|done]. by left.
Qed.

(** ** Writing into the playground *)

Lemma lookup_entry_put_eq (name : string) (n : node) (entries : list (string * node)) :
  lookup_entry name (put_entry name n entries) = Some n.
Proof.
  induction entries as [|[name' n'] entries IH]; simpl.
  - by rewrite decide_True.
  - destruct (decide (name' = name)) as [->|Hne]; simpl.
    + by rewrite decide_True.
    + by rewrite decide_False.
Qed.

Lemma lookup_entry_put_ne (name name' : string) (n : node)
    (entries : list (string * node)) :
  name ≠ name' →
  lookup_entry name' (put_entry name n entries) = lookup_entry name' entries.
Proof.
  intros Hne. induction entries as [|[name'' n''] entries IH]; simpl.
  - by rewrite decide_False.
  - destruct (decide (name'' = name)) as [->|Hne']; simpl.
    + by rewrite !decide_False.
    + by rewrite IH.
Qed.

Lemma node_at_leaf (n : node) (p : list string) (n' : node) :
  is_dir n = false → node_at n p = Some n' → p = [] ∧ n' = n.
Proof. destruct p, n; simpl; naive_solver. Qed.

(** A successful write puts the code at its place and leaves every other
    file as it was. *)
Lemma writeFile_normal (dir file code : string) (entries entries' : list (string * node)) :
  completion (writeFile dir file code entries) = Normal entries' →
  node_at (Dir entries') [dir; file] = Some (File code)
  ∧ ∀ p n, node_at (Dir entries) p = Some n → is_dir n = false →
      p ≠ [dir; file] → node_at (Dir entries') p = Some n.
Proof.
  unfold writeFile.
  destruct (lookup_entry dir entries) as [[| |sub]|] eqn:Hdir; try done.
  destruct (lookup_entry file sub) as [[| |]|] eqn:Hfile; try done.
  - intros [= <-]. split.
    + simpl. by rewrite !lookup_entry_put_eq.
    + intros [|name p] n Hn Hleaf Hp; [by simplify_eq/=|].
      simpl in *. destruct (decide (dir = name)) as [<-|Hne].
      * rewrite lookup_entry_put_eq. rewrite Hdir in Hn.
        destruct p as [|name' p]; [by simplify_eq/=|]. simpl in *.
        destruct (decide (file = name')) as [<-|Hne'].
        -- rewrite Hfile in Hn. apply node_at_leaf in Hn as [-> _]; done.
        -- by rewrite lookup_entry_put_ne.
      * by rewrite lookup_entry_put_ne.
  - intros [= <-]. split.
    + simpl. by rewrite !lookup_entry_put_eq.
    + intros [|name p] n Hn Hleaf Hp; [by simplify_eq/=|].
      simpl in *. destruct (decide (dir = name)) as [<-|Hne].
      * rewrite lookup_entry_put_eq. rewrite Hdir in Hn.
        destruct p as [|name' p]; [by simplify_eq/=|]. simpl in *.
        destruct (decide (file = name')) as [<-|Hne'].
        -- by rewrite Hfile in Hn.
        -- by rewrite lookup_entry_put_ne.
      * by rewrite lookup_entry_put_ne.
Qed.

Lemma mkdir_frame (dir : string) (entries : list (string * node)) (p : list string) (n : node) :
  lookup_entry dir entries = None →
  node_at (Dir entries) p = Some n → is_dir n = false →
  node_at (Dir (put_entry dir (Dir []) entries)) p = Some n.
Proof.
  intros Hdir Hn Hleaf. destruct p as [|name p]; [by simplify_eq/=|].
  simpl in *. destruct (decide (dir = name)) as [<-|Hne].
  - by rewrite Hdir in Hn.
  - by rewrite lookup_entry_put_ne.
Qed.

(** ** One quiz of a run *)

Section GeneratorFacts.

Context `{Externals}.

Lemma kept_or_written_refl (quizes : list Quiz) (locale : option string)
    (entries : list (string * node)) :
  kept_or_written quizes locale entries entries.
Proof. intros p n Hn _. exists n. by split; [|left]. Qed.

Lemma kept_or_written_trans (quizes : list Quiz) (locale : option string)
    (e1 e2 e3 : list (string * node)) :
  kept_or_written quizes locale e1 e2 →
  kept_or_written quizes locale e2 e3 →
  kept_or_written quizes locale e1 e3.
Proof.
  intros H12 H23 p n Hn Hleaf.
  destruct (H12 p n Hn Hleaf) as (n2 & Hn2 & Hkeep).
  assert (is_dir n2 = false) as Hleaf2.
  { destruct Hkeep as [->|(? & ? & _ & _ & ->)]; done. }
  destruct (H23 p n2 Hn2 Hleaf2) as (n3 & Hn3 & Hkeep3).
  exists n3. split; [done|].
  destruct Hkeep3 as [->|?]; [done|by right].
Qed.

Lemma kept_or_written_mono (quizes quizes' : list Quiz) (locale : option string)
    (e1 e2 : list (string * node)) :
  quizes ⊆ quizes' →
  kept_or_written quizes locale e1 e2 →
  kept_or_written quizes' locale e1 e2.
Proof.
  intros Hsub H12 p n Hn Hleaf.
  destruct (H12 p n Hn Hleaf) as (n2 & Hn2 & [->|(quiz & code & Hin & Ht & ->)]).
  - exists n. by split; [|left].
  - exists (File code). split; [done|]. right. exists quiz, code. auto.
Qed.

(** A quiz that is not writable leaves the run as it is. *)
Lemma generateQuiz_skip (overridableFiles playgroundSnapshot : Snapshot)
    (locale : option string) (incoming : Snapshot) (quiz : Quiz)
    (difficulty title : string) (w : World) :
  get (resolveInfo quiz locale) "difficulty" = VString difficulty →
  get (resolveInfo quiz locale) "title" = VString title →
  isQuizWritable (getQuestionFullName (no quiz) difficulty title +:+ ".ts")
    overridableFiles playgroundSnapshot = false →
  generateQuiz true overridableFiles playgroundSnapshot locale incoming quiz w
  = (Normal incoming, w).
Proof.
  intros Hd Ht Hw. unfold generateQuiz. rewrite Hd, Ht. simpl. by rewrite Hw.
Qed.

(** What one quiz does to the playground, whatever the mode. *)
Lemma generateQuiz_frame (keepChanges : bool)
    (overridableFiles playgroundSnapshot : Snapshot)
    (locale : option string) (incoming : Snapshot) (quiz : Quiz)
    (w w' : World) (c : Completion Snapshot) (entries : list (string * node)) :
  playground w = Some entries →
  generateQuiz keepChanges overridableFiles playgroundSnapshot locale incoming quiz w
  = (c, w') →
  playgroundCache w' = playgroundCache w
  ∧ ∃ entries', playground w' = Some entries'
                ∧ kept_or_written [quiz] locale entries entries'.
Proof.
  intros Hw. unfold generateQuiz.
  assert (∀ (r : Run Snapshot), lift r w = (c, w') →
    playgroundCache w' = playgroundCache w
    ∧ ∃ entries', playground w' = Some entries'
                  ∧ kept_or_written [quiz] locale entries entries') as Hlift.
  { intros r [= _ <-]. simpl. split; [done|].
    exists entries. split; [done|]. apply kept_or_written_refl. }
  assert (∀ a : Snapshot, (mret a : Gen Snapshot) w = (c, w') →
    playgroundCache w' = playgroundCache w
    ∧ ∃ entries', playground w' = Some entries'
                  ∧ kept_or_written [quiz] locale entries entries') as Hret.
  { intros a [= _ <-]. split; [done|].
    exists entries. split; [done|]. apply kept_or_written_refl. }
  assert (∀ (l : line) (a : Snapshot),
    ((lift (console_log l) ≫= λ _, mret a) : Gen Snapshot) w = (c, w') →
    playgroundCache w' = playgroundCache w
    ∧ ∃ entries', playground w' = Some entries'
                  ∧ kept_or_written [quiz] locale entries entries') as Hlog.
  { intros l a [= _ <-]. simpl. split; [done|].
    exists entries. split; [done|]. apply kept_or_written_refl. }
  destruct (get (resolveInfo quiz locale) "difficulty") as [| | | |difficulty| |] eqn:Hd;
    destruct (get (resolveInfo quiz locale) "title") as [| | | |title| |] eqn:Ht;
    try (destruct locale; by eauto).
  destruct (negb keepChanges || _); [|by eauto].
  unfold mbind, gen_bind, get_world. rewrite Hw.
  set (entries1 := match lookup_entry difficulty entries with
                   | Some _ => entries
                   | None => put_entry difficulty (Dir []) entries
                   end).
  assert (kept_or_written [quiz] locale entries entries1) as H1.
  { subst entries1. destruct (lookup_entry difficulty entries) eqn:Hl.
    - apply kept_or_written_refl.
    - intros p n Hn Hleaf. exists n. split; [|by left]. by apply mkdir_frame. }
  unfold set_playground, lift. simpl.
  destruct (completion (writeFile _ _ _ entries1)) as [entries2| |] eqn:Hwrite.
  - intros [= _ <-]. simpl.
    split; [done|]. exists entries2. split; [done|].
    apply (kept_or_written_trans _ _ _ entries1); [done|].
    apply writeFile_normal in Hwrite as [Hnew Hold].
    intros p n Hn Hleaf.
    destruct (decide (p = [difficulty;
                getQuestionFullName (no quiz) difficulty title +:+ ".ts"])) as [->|Hp].
    + eexists. split; [exact Hnew|]. right.
      exists quiz, (formatToCode quiz locale). split; [apply list_elem_of_here|].
      unfold quizTarget. by rewrite Hd, Ht.
    + exists n. split; [|by left]. by apply Hold.
  - intros [= _ <-]. simpl. split; [done|]. by exists entries1.
  - intros [= _ <-]. simpl. split; [done|]. by exists entries1.
Qed.

End GeneratorFacts.

(** The files found after a successful write are the written one and those
    that were there. *)
Lemma writeFile_normal_inv (dir file code : string)
    (entries entries' : list (string * node)) (p : list string) (n : node) :
  completion (writeFile dir file code entries) = Normal entries' →
  node_at (Dir entries') p = Some n → is_dir n = false →
  p ≠ [dir; file] → node_at (Dir entries) p = Some n.
Proof.
  unfold writeFile.
  destruct (lookup_entry dir entries) as [[| |sub]|] eqn:Hdir; try done.
  assert (∀ entries', entries' = put_entry dir (Dir (put_entry file (File code) sub)) entries →
          node_at (Dir entries') p = Some n → is_dir n = false →
          p ≠ [dir; file] → node_at (Dir entries) p = Some n) as Hput.
  { intros ? -> Hn Hleaf Hp. destruct p as [|name p]; [by simplify_eq/=|].
    simpl in *. destruct (decide (dir = name)) as [<-|Hne].
    - rewrite lookup_entry_put_eq in Hn. rewrite Hdir.
      destruct p as [|name' p]; [by simplify_eq/=|]. simpl in *.
      destruct (decide (file = name')) as [<-|Hne'].
      + rewrite lookup_entry_put_eq in Hn.
        apply node_at_leaf in Hn as [-> _]; done.
      + by rewrite lookup_entry_put_ne in Hn.
    - by rewrite lookup_entry_put_ne in Hn. }
  destruct (lookup_entry file sub) as [[| |]|] eqn:Hfile; try done.
  - intros [= <-]. by apply Hput.
  - intros [= <-]. by apply Hput.
Qed.

Lemma mkdir_frame_inv (dir : string) (entries : list (string * node))
    (p : list string) (n : node) :
  lookup_entry dir entries = None →
  node_at (Dir (put_entry dir (Dir []) entries)) p = Some n → is_dir n = false →
  node_at (Dir entries) p = Some n.
Proof.
  intros Hdir Hn Hleaf. destruct p as [|name p]; [by simplify_eq/=|].
  simpl in *. destruct (decide (dir = name)) as [<-|Hne].
  - rewrite lookup_entry_put_eq in Hn. destruct p; by simplify_eq/=.
  - by rewrite lookup_entry_put_ne in Hn.
Qed.

Section RunFacts.

Context `{Externals}.

Lemma only_written_mono (quizes quizes' : list Quiz) (locale : option string)
    (entries : list (string * node)) :
  quizes ⊆ quizes' →
  only_written quizes locale entries → only_written quizes' locale entries.
Proof.
  intros Hsub Hw p n Hn Hleaf.
  destruct (Hw p n Hn Hleaf) as (quiz & code & Hin & Ht & ->).
  exists quiz, code. auto.
Qed.

Lemma generateQuiz_only_written (keepChanges : bool)
    (overridableFiles playgroundSnapshot : Snapshot)
    (locale : option string) (incoming : Snapshot) (quiz : Quiz) (quizes : list Quiz)
    (w w' : World) (c : Completion Snapshot) (entries : list (string * node)) :
  playground w = Some entries →
  only_written quizes locale entries →
  generateQuiz keepChanges overridableFiles playgroundSnapshot locale incoming quiz w
  = (c, w') →
  ∃ entries', playground w' = Some entries'
              ∧ only_written (quiz :: quizes) locale entries'.
Proof.
  intros Hw Hold. unfold generateQuiz.
  assert (only_written (quiz :: quizes) locale entries) as Hold'.
  { eapply only_written_mono; [|done]. set_solver. }
  assert (∀ (r : Run Snapshot), lift r w = (c, w') →
    ∃ entries', playground w' = Some entries'
                ∧ only_written (quiz :: quizes) locale entries') as Hlift.
  { intros r [= _ <-]. simpl. by exists entries. }
  assert (∀ a : Snapshot, (mret a : Gen Snapshot) w = (c, w') →
    ∃ entries', playground w' = Some entries'
                ∧ only_written (quiz :: quizes) locale entries') as Hret.
  { intros a [= _ <-]. by exists entries. }
  assert (∀ (l : line) (a : Snapshot),
    ((lift (console_log l) ≫= λ _, mret a) : Gen Snapshot) w = (c, w') →
    ∃ entries', playground w' = Some entries'
                ∧ only_written (quiz :: quizes) locale entries') as Hlog.
  { intros l a [= _ <-]. simpl. by exists entries. }
  destruct (get (resolveInfo quiz locale) "difficulty") as [| | | |difficulty| |] eqn:Hd;
    destruct (get (resolveInfo quiz locale) "title") as [| | | |title| |] eqn:Ht;
    try (destruct locale; by eauto).
  destruct (negb keepChanges || _); [|by eauto].
  unfold mbind, gen_bind, get_world. rewrite Hw.
  set (entries1 := match lookup_entry difficulty entries with
                   | Some _ => entries
                   | None => put_entry difficulty (Dir []) entries
                   end).
  assert (only_written (quiz :: quizes) locale entries1) as H1.
  { subst entries1. destruct (lookup_entry difficulty entries) eqn:Hl; [done|].
    intros p n Hn Hleaf. apply Hold'; [|done]. by apply mkdir_frame_inv in Hn. }
  unfold set_playground, lift. simpl.
  destruct (completion (writeFile _ _ _ entries1)) as [entries2| |] eqn:Hwrite.
  - intros [= _ <-]. simpl. exists entries2. split; [done|].
    intros p n Hn Hleaf.
    destruct (decide (p = [difficulty;
                getQuestionFullName (no quiz) difficulty title +:+ ".ts"])) as [->|Hp].
    + apply writeFile_normal in Hwrite as [Hnew _].
      rewrite Hnew in Hn. injection Hn as <-.
      exists quiz, (formatToCode quiz locale). split; [apply list_elem_of_here|].
      unfold quizTarget. by rewrite Hd, Ht.
    + apply H1; [|done]. by eapply writeFile_normal_inv.
  - intros [= _ <-]. simpl. by exists entries1.
  - intros [= _ <-]. simpl. by exists entries1.
Qed.

Lemma generateQuizes_frame (keepChanges : bool)
    (overridableFiles playgroundSnapshot : Snapshot) (locale : option string)
    (quizes : list Quiz) : ∀ (incoming : Snapshot) (w w' : World)
    (c : Completion Snapshot) (entries : list (string * node)),
  playground w = Some entries →
  generateQuizes keepChanges overridableFiles playgroundSnapshot locale quizes incoming w
  = (c, w') →
  playgroundCache w' = playgroundCache w
  ∧ ∃ entries', playground w' = Some entries'
                ∧ kept_or_written quizes locale entries entries'.
Proof.
  induction quizes as [|quiz quizes IH]; intros incoming w w' c entries Hw.
  - intros [= _ <-]. split; [done|]. exists entries. split; [done|].
    apply kept_or_written_refl.
  - simpl. unfold mbind, gen_bind.
    destruct (generateQuiz _ _ _ _ _ _ w) as [c1 w1] eqn:Hstep.
    destruct (generateQuiz_frame _ _ _ _ _ _ _ _ _ _ Hw Hstep)
      as (Hcache1 & entries1 & Hw1 & Hkeep1).
    assert (kept_or_written (quiz :: quizes) locale entries entries1) as Hkeep1'.
    { eapply kept_or_written_mono; [|done]. set_solver. }
    destruct c1 as [incoming1| |].
    + intros Hrest.
      destruct (IH _ _ _ _ _ Hw1 Hrest) as (Hcache2 & entries2 & Hw2 & Hkeep2).
      split; [congruence|]. exists entries2. split; [done|].
      eapply kept_or_written_trans; [done|].
      eapply kept_or_written_mono; [|done]. set_solver.
    + intros [= _ <-]. split; [done|]. by exists entries1.
    + intros [= _ <-]. split; [done|]. by exists entries1.
Qed.

Lemma generateQuizes_only_written (keepChanges : bool)
    (overridableFiles playgroundSnapshot : Snapshot) (locale : option string)
    (all : list Quiz) (quizes : list Quiz) : ∀ (incoming : Snapshot) (w w' : World)
    (c : Completion Snapshot) (entries : list (string * node)),
  quizes ⊆ all →
  playground w = Some entries →
  only_written all locale entries →
  generateQuizes keepChanges overridableFiles playgroundSnapshot locale quizes incoming w
  = (c, w') →
  ∃ entries', playground w' = Some entries' ∧ only_written all locale entries'.
Proof.
  induction quizes as [|quiz quizes IH]; intros incoming w w' c entries Hsub Hw Hold.
  - intros [= _ <-]. by exists entries.
  - simpl. unfold mbind, gen_bind.
    destruct (generateQuiz _ _ _ _ _ _ w) as [c1 w1] eqn:Hstep.
    destruct (generateQuiz_only_written _ _ _ _ _ _ _ _ _ _ _ Hw Hold Hstep)
      as (entries1 & Hw1 & Hold1).
    assert (only_written all locale entries1) as Hold1'.
    { eapply only_written_mono; [|done]. set_solver. }
    destruct c1 as [incoming1| |].
    + intros Hrest. eapply IH; [|done..]. set_solver.
    + intros [= _ <-]. by exists entries1.
    + intros [= _ <-]. by exists entries1.
Qed.

End RunFacts.

Section WholeRun.

Context `{Externals}.

Lemma generateWith_keep (argv : list string) (answers : Answers) (quizes : list Quiz)
    (cache overridableFiles playgroundSnapshot : Snapshot)
    (w w' : World) (c : Completion unit) (entries : list (string * node)) :
  playground w = Some entries →
  generateWith argv answers quizes cache true overridableFiles playgroundSnapshot w
  = (c, w') →
  ∃ entries', playground w' = Some entries'
    ∧ kept_or_written quizes (chosenLocale argv answers) entries entries'.
Proof.
  intros Hw. unfold generateWith.
  unfold mbind at 1. unfold gen_bind at 1. simpl.
  unfold mbind at 1. unfold gen_bind at 1.
  destruct (generateQuizes _ _ _ _ _ _ w) as [c1 w1] eqn:Hloop.
  destruct (generateQuizes_frame _ _ _ _ _ _ _ _ _ _ Hw Hloop)
    as (_ & entries1 & Hw1 & Hkeep).
  destruct c1 as [incoming| |].
  - intros [= _ <-]. simpl. by exists entries1.
  - intros [= _ <-]. by exists entries1.
  - intros [= _ <-]. by exists entries1.
Qed.

Lemma generateWith_full (argv : list string) (answers : Answers) (quizes : list Quiz)
    (cache overridableFiles playgroundSnapshot : Snapshot)
    (w w' : World) (c : Completion unit) :
  generateWith argv answers quizes cache false overridableFiles playgroundSnapshot w
  = (c, w') →
  ∃ entries', playground w' = Some entries'
    ∧ only_written quizes (chosenLocale argv answers) entries'.
Proof.
  unfold generateWith.
  unfold mbind at 1. unfold gen_bind at 1. simpl.
  unfold mbind at 1. unfold gen_bind at 1.
  destruct (generateQuizes _ _ _ _ _ _ _) as [c1 w1] eqn:Hloop.
  eapply (generateQuizes_only_written _ _ _ _ quizes) in Hloop
    as (entries1 & Hw1 & Hold); [|done|reflexivity|].
  - destruct c1 as [incoming| |].
    + intros [= _ <-]. simpl. by exists entries1.
    + intros [= _ <-]. by exists entries1.
    + intros [= _ <-]. by exists entries1.
  - intros [|name p] n Hn Hleaf; by simplify_eq/=.
Qed.

End WholeRun.

(** C10. A run in keep-changes mode deletes nothing: every file of the
    playground is still there when the run ends, however it ends, with the
    content it had, or else with the code that the run wrote for one of the
    quizzes of the corpus at that very path. That covers the files of the
    quizzes that the run skips and the files of quizzes that are gone from
    the corpus. A run in the other mode that gets past the question and the
    cache starts from an empty playground: what it leaves are the files it
    wrote. *)
Theorem keep_changes_never_deletes `{Externals} (argv : list string)
    (answers : Answers) (quizes : list Quiz) (w w' : World) (c : Completion unit)
    (entries : list (string * node)) :
  playground w = Some entries →
  generatePlayground argv answers quizes w = (c, w') →
  (keepChangesFlag argv = true →
     ∃ entries', playground w' = Some entries'
       ∧ kept_or_written quizes (chosenLocale argv answers) entries entries')
  ∧ (keepChangesFlag argv = false →
       confirm answers = true → (∀ code, c ≠ Exit code) →
       ∃ entries', playground w' = Some entries'
         ∧ only_written quizes (chosenLocale argv answers) entries').
Proof.
  intros Hw. unfold generatePlayground.
  unfold mbind at 1. unfold gen_bind at 1. simpl.
  unfold mbind at 1. unfold gen_bind at 1. simpl.
  unfold mbind at 1. unfold gen_bind at 1. simpl.
  rewrite Hw.
  destruct (completion (readPlaygroundCache (playgroundCache w))) as [cache| |] eqn:Hcache.
  - destruct (keepChangesFlag argv) eqn:Hflag.
    + unfold mbind at 1. unfold gen_bind at 1. simpl.
      unfold mbind at 1. unfold gen_bind at 1. simpl.
      destruct (completion (takeSnapshot playgroundPath entries)) as [snapshot| |].
      * intros Hrun. split; [|done]. intros _.
        eapply generateWith_keep in Hrun as (entries' & Hw' & Hkeep); [|done].
        by exists entries'.
      * intros [= _ <-]. split; [|done]. intros _. exists entries.
        split; [done|]. apply kept_or_written_refl.
      * intros [= _ <-]. split; [|done]. intros _. exists entries.
        split; [done|]. apply kept_or_written_refl.
    + intros Hrun. split; [done|]. intros _ Hconfirm _. rewrite Hconfirm in Hrun.
      by eapply generateWith_full.
  - exfalso. revert Hcache. unfold readPlaygroundCache.
    destruct (playgroundCache w) as [raw|]; [|done]. by destruct (JSON_parse raw).
  - intros [= <- <-]. split.
    + intros _. exists entries. split; [done|]. apply kept_or_written_refl.
    + intros _ _ Hc. by destruct (Hc code).
Qed.

(** A quiz that is written: when the write goes through, its file holds the
    code and the fingerprint of the file is noted for the cache. *)
Lemma generateQuiz_write `{Externals} (keepChanges : bool)
    (overridableFiles playgroundSnapshot : Snapshot)
    (locale : option string) (incoming : Snapshot) (quiz : Quiz)
    (difficulty title : string) (w : World) (entries : list (string * node)) :
  get (resolveInfo quiz locale) "difficulty" = VString difficulty →
  get (resolveInfo quiz locale) "title" = VString title →
  let quizFileName := getQuestionFullName (no quiz) difficulty title +:+ ".ts" in
  negb keepChanges
  || (keepChanges && isQuizWritable quizFileName overridableFiles playgroundSnapshot)
  = true →
  playground w = Some entries →
  let step := generateQuiz keepChanges overridableFiles playgroundSnapshot locale
                incoming quiz w in
  match step.1 with
  | Normal incoming' =>
      ∃ entries', playground step.2 = Some entries'
        ∧ node_at (Dir entries') [difficulty; quizFileName]
          = Some (File (formatToCode quiz locale))
        ∧ incoming'
          = <[quizFileName :=
                fingerprint (path_join (path_join playgroundPath difficulty) quizFileName)
                  (formatToCode quiz locale)]> incoming
  | Throw _ => True
  | Exit _ => False
  end.
Proof.
  intros Hd Ht quizFileName Hwritable Hw step. subst step.
  unfold generateQuiz. rewrite Hd, Ht. fold quizFileName. rewrite Hwritable.
  unfold mbind, gen_bind, get_world. rewrite Hw.
  unfold set_playground, lift. simpl.
  destruct (completion (writeFile _ _ _ _)) as [entries2| |] eqn:Hwrite; simpl.
  - exists entries2. split; [done|].
    apply writeFile_normal in Hwrite as [Hnew _]. split; [done|].
    f_equal. unfold fingerprint, hash_digest_hex, createReadStream.
    rewrite chunks_go_join. done.
  - done.
  - revert Hwrite. unfold writeFile.
    repeat (match goal with |- context [match ?x with _ => _ end] => destruct x end);
      done.
Qed.

(** The edited file of the sample playground is not writable, and the run
    leaves it alone. *)
Example sample_run_keeps_edit :
  let run := @generatePlayground sample_externals sample_argv sample_answers
               [sample_quiz] sample_world in
  run.1 = Normal tt
  ∧ playground run.2 = Some sample_playground
  ∧ playgroundCache run.2 = playgroundCache sample_world.
Proof. vm_compute. done. Qed.

Lemma keep_changes_never_deletes_witness :
  let run := @generatePlayground sample_externals sample_argv sample_answers
               [sample_quiz] sample_world in
  ∃ entries', playground run.2 = Some entries'
    ∧ @kept_or_written sample_externals [sample_quiz]
        (@chosenLocale sample_externals sample_argv sample_answers)
        sample_playground entries'.
Proof.
  intros run.
  assert (@keepChangesFlag sample_argv = true) as Hflag by reflexivity.
  exact (proj1 (@keep_changes_never_deletes sample_externals sample_argv sample_answers
           [sample_quiz] sample_world run.2 run.1 sample_playground eq_refl
           (surjective_pairing run)) Hflag).
Defined.

(** ** Files of the same name *)

Lemma record_visits_lookup_notin (l : list (string * string * node)) (m : Snapshot)
    (name : string) :
  Forall (λ v, v.1.1 ≠ name) l →
  record_visits l m !! name = m !! name.
Proof.
  intros Hl. revert m. induction Hl as [|v l Hv _ IH]; intros m; [done|].
  change (record_visits (v :: l) m) with (record_visits l (<[v.1.1 := fingerprint_of v]> m)).
  by rewrite IH, lookup_insert_ne.
Qed.

Lemma record_visits_lookup_last (l1 l2 : list (string * string * node)) (m : Snapshot)
    (v : string * string * node) :
  Forall (λ v', v'.1.1 ≠ v.1.1) l2 →
  record_visits (l1 ++ v :: l2) m !! v.1.1 = Some (fingerprint_of v).
Proof.
  intros Hl2. rewrite record_visits_app.
  change (record_visits (v :: l2) ?m')
    with (record_visits l2 (<[v.1.1 := fingerprint_of v]> m')).
  by rewrite record_visits_lookup_notin, lookup_insert_eq.
Qed.

(** C9. When the traversal reaches two files of the same name, the snapshot
    holds under that name the fingerprint of the one reached last (here the
    second, no later file having the name), the fingerprint of the earlier
    one being overwritten; the traversal returns normally and prints
    nothing. *)
Theorem takeSnapshot_same_name_last_wins (quizesPath : string)
    (files : list (string * node)) (name path1 data1 path2 data2 : string)
    (before between after : list (string * string * node)) :
  visits quizesPath files
  = before ++ (name, path1, File data1) :: between ++ (name, path2, File data2) :: after →
  forallb readable (visits quizesPath files) = true →
  Forall (λ v, v.1.1 ≠ name) after →
  ∃ snapshot,
    takeSnapshot quizesPath files = MkRun (Normal snapshot) []
    ∧ snapshot !! name = Some (fingerprint path2 data2)
    ∧ snapshot = record_visits (visits quizesPath files) ∅.
Proof.
  intros Hvisits Hreadable Hafter.
  exists (record_visits (visits quizesPath files) ∅).
  rewrite takeSnapshot_spec, Hreadable. split; [done|]. split; [|done].
  rewrite Hvisits.
  change (before ++ ?x :: between ++ ?l) with (before ++ (x :: between) ++ l).
  rewrite (app_assoc before).
  apply (record_visits_lookup_last _ after ∅ (name, path2, File data2)). done.
Qed.

Lemma takeSnapshot_same_name_last_wins_witness :
  ∃ snapshot,
    takeSnapshot "/repo/playground" sample_collision = MkRun (Normal snapshot) []
    ∧ snapshot !! "1-foo.ts"
      = Some (fingerprint "/repo/playground/hard/1-foo.ts" "second")
    ∧ snapshot = record_visits (visits "/repo/playground" sample_collision) ∅.
Proof.
  apply (takeSnapshot_same_name_last_wins "/repo/playground" sample_collision
           "1-foo.ts" "/repo/playground/easy/1-foo.ts" "first"
           "/repo/playground/hard/1-foo.ts" "second" [] [] []).
  - reflexivity.
  - reflexivity.
  - constructor.
Defined.

Example sample_collision_snapshot :
  completion (takeSnapshot "/repo/playground" sample_collision)
  = Normal {[ "1-foo.ts" := fingerprint "/repo/playground/hard/1-foo.ts" "second" ]}.
Proof. vm_compute. reflexivity. Qed.

(** ** Resolving the metadata of a quiz *)

Section ResolveFacts.

Context `{Externals}.

Lemma get_insert_eq (o : Obj) (key : string) (v : JSValue) : get (<[key := v]> o) key = v.
Proof. unfold get. by rewrite lookup_insert_eq. Qed.

Lemma get_insert_ne (o : Obj) (key key' : string) (v : JSValue) :
  key ≠ key' → get (<[key := v]> o) key' = get o key'.
Proof. intros Hne. unfold get. by rewrite lookup_insert_ne. Qed.

(** The fields that the shallow merge decides. *)
Lemma resolveInfo_merged (quiz : Quiz) (locale : option string) (key : string) :
  key ≠ "tags" → key ≠ "related" →
  resolveInfo quiz locale !! key
  = (default ∅ (info quiz !! default defaultLocale locale)
     ∪ default ∅ (info quiz !! defaultLocale)) !! key.
Proof.
  intros Htags Hrelated. unfold resolveInfo.
  destruct (get _ "tags"); by rewrite ?lookup_insert_ne.
Qed.

Lemma resolve_lists_tags (base : Obj) (tags related : JSValue) :
  let info := <["related" := related]> (<["tags" := tags]> base) in
  get match get info "tags" with
      | VString s =>
          <["tags" := VArray (VString <$> filter (λ i, i ≠ "")
                                (Str.trim <$> Str.split "," s))]> info
      | _ => info
      end "tags"
  = match tags with
    | VString s =>
        VArray (VString <$> filter (λ i, i ≠ "") (Str.trim <$> Str.split "," s))
    | v => v
    end.
Proof.
  intros info.
  assert (get info "tags" = tags) as Htags.
  { unfold info. by rewrite (get_insert_ne _ "related" "tags"), get_insert_eq. }
  rewrite Htags. destruct tags; try done. by rewrite get_insert_eq.
Qed.

Lemma resolve_lists_related (base : Obj) (tags related : JSValue) :
  let info := <["related" := related]> (<["tags" := tags]> base) in
  get match get info "tags" with
      | VString s =>
          <["tags" := VArray (VString <$> filter (λ i, i ≠ "")
                                (Str.trim <$> Str.split "," s))]> info
      | _ => info
      end "related"
  = related.
Proof.
  intros info.
  assert (get info "related" = related) as Hrelated.
  { unfold info. by rewrite get_insert_eq. }
  destruct (get info "tags"); try done.
  by rewrite (get_insert_ne _ "tags" "related").
Qed.

(** [tags]: the first truthy one of the locale's value, the default
    locale's value and the empty list; a string is split at its commas. *)
Lemma resolveInfo_tags (quiz : Quiz) (locale : option string) :
  get (resolveInfo quiz locale) "tags"
  = match js_or (get_opt (info quiz !! default defaultLocale locale) "tags")
            (js_or (get_opt (info quiz !! defaultLocale) "tags") (VArray [])) with
    | VString tags =>
        VArray (VString <$> filter (λ i, i ≠ "") (Str.trim <$> Str.split "," tags))
    | v => v
    end.
Proof.
  etrans; [exact (resolve_lists_tags _ _ _)|]. by destruct (js_or _ _).
Qed.

Lemma resolveInfo_related (quiz : Quiz) (locale : option string) :
  get (resolveInfo quiz locale) "related"
  = js_or (get_opt (info quiz !! default defaultLocale locale) "related")
      (js_or (get_opt (info quiz !! defaultLocale) "related") (VArray [])).
Proof. exact (resolve_lists_related _ _ _). Qed.

End ResolveFacts.

Lemma js_or_undefined (v : JSValue) : js_or VUndefined v = v.
Proof. done. Qed.

Lemma js_or_array (v w : JSValue) : is_array v = true → js_or v w = v.
Proof. by destruct v. Qed.

(** C3, as the code has it. For a quiz whose metadata exists in the default
    locale only, every field other than [tags] and [related] is resolved to
    what the default locale has (and is absent where it has none), [tags]
    and [related] are the default locale's lists, and empty lists where it
    has none. For a quiz with metadata in the target locale, every field
    that this metadata has is resolved to its value there; for [tags] and
    [related] that holds when the value is a list. *)
Theorem resolveInfo_default_and_override `{Externals} (quiz : Quiz) (locale : string) :
  (∀ d, info quiz !! locale = None → info quiz !! defaultLocale = Some d →
     (∀ key, key ≠ "tags" → key ≠ "related" →
        resolveInfo quiz (Some locale) !! key = d !! key)
     ∧ (∀ key, key = "tags" ∨ key = "related" →
          (is_array (get d key) = true →
             get (resolveInfo quiz (Some locale)) key = get d key)
          ∧ (get d key = VUndefined →
             get (resolveInfo quiz (Some locale)) key = VArray [])))
  ∧ (∀ t key v, info quiz !! locale = Some t → t !! key = Some v →
       (key ≠ "tags" ∧ key ≠ "related") ∨ is_array v = true →
       get (resolveInfo quiz (Some locale)) key = v).
Proof.
  split.
  - intros d Ht Hd. split.
    + intros key Htags Hrelated. rewrite resolveInfo_merged by done.
      simpl. rewrite Ht, Hd. simpl. by rewrite (left_id_L ∅ (∪)).
    + intros key [-> | ->].
      * rewrite resolveInfo_tags. simpl. rewrite Ht, Hd. simpl. split.
        -- intros Harr. rewrite (js_or_array (get d "tags")) by done.
           by destruct (get d "tags").
        -- by intros ->.
      * rewrite resolveInfo_related. simpl. rewrite Ht, Hd. simpl. split.
        -- intros Harr. by rewrite (js_or_array (get d "related")).
        -- by intros ->.
  - intros t key v Ht Hv Hkey.
    destruct (decide (key = "tags")) as [->|Htags];
      [|destruct (decide (key = "related")) as [->|Hrelated]].
    + destruct Hkey as [[? _]|Harr]; [done|].
      rewrite resolveInfo_tags. simpl. rewrite Ht. simpl.
      unfold get at 1. rewrite Hv. simpl.
      rewrite (js_or_array v) by done. by destruct v.
    + destruct Hkey as [[_ ?]|Harr]; [done|].
      rewrite resolveInfo_related. simpl. rewrite Ht. simpl.
      unfold get at 1. rewrite Hv. simpl. by rewrite (js_or_array v).
    + unfold get. rewrite resolveInfo_merged by done. simpl. rewrite Ht. simpl.
      by rewrite (lookup_union_Some_l _ _ _ v).
Qed.

Lemma resolveInfo_default_and_override_witness :
  get (@resolveInfo sample_externals sample_tagged (Some "ja")) "title"
  = VString "Pick (ja)".
Proof.
  destruct (@resolveInfo_default_and_override sample_externals sample_tagged "ja")
    as [_ Hoverride].
  apply (Hoverride {[ "title" := VString "Pick (ja)";
                      "tags" := VArray [VString "c"];
                      "related" := VUndefined ]}).
  - vm_compute. reflexivity.
  - vm_compute. reflexivity.
  - left. done.
Defined.

(** The claim as the spec has it fails for a quiz without tags: its
    metadata exists in English only, and yet what is resolved for Japanese
    is not that metadata, for it has the empty list where the metadata has
    no tags. *)
Lemma resolveInfo_not_identical :
  ∃ d, info sample_untagged !! "ja" = None
       ∧ info sample_untagged !! (@defaultLocale sample_externals) = Some d
       ∧ get d "tags" = VUndefined
       ∧ get (@resolveInfo sample_externals sample_untagged (Some "ja")) "tags" = VArray []
       ∧ @resolveInfo sample_externals sample_untagged (Some "ja") ≠ d.
Proof.
  eexists. split; [vm_compute; reflexivity|]. split; [vm_compute; reflexivity|].
  split; [vm_compute; reflexivity|]. split; [vm_compute; reflexivity|].
  intros Heq. apply (f_equal (λ o, get o "tags")) in Heq. vm_compute in Heq. done.
Qed.

(** C4. With [tags] and [related] of the type the metadata declares for
    them (a list, or nothing) in the target and in the default locale, the
    resolved field is the target locale's list when it has one, else the
    default locale's list when it has one, else the empty list: it is one of
    the three, never made of two of them, and it is a list in every case. *)
Theorem resolveInfo_lists `{Externals} (quiz : Quiz) (locale key : string) :
  key = "tags" ∨ key = "related" →
  let target := get_opt (info quiz !! locale) key in
  let fallback := get_opt (info quiz !! defaultLocale) key in
  list_or_undefined target → list_or_undefined fallback →
  get (resolveInfo quiz (Some locale)) key
  = (if is_array target then target
     else if is_array fallback then fallback else VArray [])
  ∧ is_array (get (resolveInfo quiz (Some locale)) key) = true.
Proof.
  intros Hkey target fallback Htarget Hfallback.
  assert (get (resolveInfo quiz (Some locale)) key
          = match js_or target (js_or fallback (VArray [])) with
            | VString s =>
                if decide (key = "tags")
                then VArray (VString <$> filter (λ i, i ≠ "")
                               (Str.trim <$> Str.split "," s))
                else VString s
            | v => v
            end) as ->.
  { destruct Hkey as [-> | ->].
    - rewrite resolveInfo_tags. fold target fallback. by destruct (js_or _ _).
    - rewrite resolveInfo_related. fold target fallback. by destruct (js_or _ _). }
  clearbody target fallback.
  destruct Htarget as [->|Ht]; [destruct Hfallback as [->|Hf]|].
  - done.
  - rewrite js_or_undefined, (js_or_array fallback) by done. simpl.
    rewrite Hf. by destruct fallback.
  - rewrite (js_or_array target) by done. rewrite Ht. by destruct target.
Qed.

Lemma resolveInfo_lists_witness :
  get (@resolveInfo sample_externals sample_tagged (Some "ja")) "tags"
  = VArray [VString "c"]
  ∧ is_array (get (@resolveInfo sample_externals sample_tagged (Some "ja")) "tags") = true.
Proof.
  apply (@resolveInfo_lists sample_externals sample_tagged "ja" "tags").
  - by left.
  - right. vm_compute. reflexivity.
  - right. vm_compute. reflexivity.
Defined.

(** No concatenation: the default locale has tags a and b, the target
    locale the tag c, and c alone is resolved. *)
Example resolveInfo_no_concatenation :
  get (@resolveInfo sample_externals sample_tagged (Some "ja")) "tags"
  = VArray [VString "c"]
  ∧ get (@resolveInfo sample_externals sample_tagged (Some "ko")) "tags"
    = VArray [VString "a"; VString "b"]
  ∧ get (@resolveInfo sample_externals sample_untagged (Some "ko")) "related"
    = VArray [].
Proof. vm_compute. done. Qed.

(** ** Loading a quiz *)

Lemma take_digits_app (digits rest : string) :
  all_digits digits = true →
  take_digits (digits +:+ String "-" rest) = digits.
Proof.
  induction digits as [|c digits IH]; [done|]. simpl. intros [Hc Hd]%andb_prop.
  rewrite ?StrFacts.app_cons. simpl. rewrite Hc. by rewrite IH.
Qed.

Lemma skip_digits_app (digits rest : string) :
  all_digits digits = true →
  skip_digits (digits +:+ String "-" rest) = String "-" rest.
Proof.
  induction digits as [|c digits IH]; [done|]. simpl. intros [Hc Hd]%andb_prop.
  rewrite ?StrFacts.app_cons. simpl. rewrite Hc. by apply IH.
Qed.

Lemma up_to_dash_app (group rest : string) :
  Str.mem "-" group = false →
  up_to_dash (group +:+ String "-" rest) = Some group.
Proof.
  induction group as [|c group IH]; [done|]. simpl.
  intros [Hc Hg]%orb_false_elim. rewrite ?StrFacts.app_cons. simpl.
  rewrite Hc. by rewrite IH.
Qed.

(** The difficulty of a well-formed folder name: what stands between its
    first two dashes. *)
Lemma parseDifficulty_shape (digits group rest : string) (c : ascii) :
  digits ≠ "" →
  all_digits digits = true →
  Str.mem "-" group = false →
  one_line (String c (group +:+ String "-" rest)) = true →
  parseDifficulty (digits +:+ String "-" (String c (group +:+ String "-" rest)))
  = String c group.
Proof.
  intros Hne Hdigits Hgroup Hline. unfold parseDifficulty.
  rewrite take_digits_app, skip_digits_app by done.
  destruct digits; [done|]. by rewrite up_to_dash_app, Hline.
Qed.

Lemma returns_ret {A : Type} (a : A) : returns (mret a).
Proof. by exists a. Qed.

Lemma returns_bind {A B : Type} (m : Run A) (k : A → Run B) :
  returns m → (∀ a, returns (k a)) → returns (m ≫= k).
Proof.
  intros [a Ha] Hk. destruct (Hk a) as [b Hb]. exists b.
  by rewrite (run_bind_normal m k a).
Qed.

Lemma returns_foldM {A B : Type} (f : B → A → Run B) (l : list A) (b : B) :
  (∀ b x, returns (f b x)) → returns (foldM f l b).
Proof.
  intros Hf. revert b. induction l as [|x l IH]; intros b; [apply returns_ret|].
  apply returns_bind; [apply Hf|]. intros b'. apply IH.
Qed.

Section LoaderFacts.

Context `{Externals}.

Lemma loadInfo_returns (s : string) : returns (loadInfo s).
Proof.
  unfold loadInfo. destruct (YAML_load s) as [object|]; [|by eexists].
  destruct (negb (truthy object)); [by eexists|]. destruct object; by eexists.
Qed.

Lemma loadLocaleVariations_returns {T : Type} (corpus : gmap string string)
    (dir name ext : string) (preprocessor : string → Run (option T)) :
  (∀ s, returns (preprocessor s)) →
  returns (loadLocaleVariations corpus dir name ext preprocessor).
Proof.
  intros Hp. unfold loadLocaleVariations. apply returns_bind.
  - apply returns_foldM. intros data locale. apply returns_bind; [apply Hp|].
    intros file. apply returns_ret.
  - intros data. destruct (data !! defaultLocale); [apply returns_ret|].
    apply returns_bind; [apply Hp|]. intros file. apply returns_ret.
Qed.

(** [loadQuiz] returns for every folder name, with the difficulty read off
    the name. *)
Lemma loadQuiz_returns (corpus : gmap string string) (dir : string) :
  ∃ quiz, completion (loadQuiz corpus dir) = Normal quiz
          ∧ difficulty quiz = parseDifficulty dir
          ∧ path quiz = dir.
Proof.
  unfold loadQuiz.
  destruct (loadLocaleVariations_returns corpus (path_join QUIZ_ROOT dir)
              "info" ".yml" loadInfo loadInfo_returns) as [info Hinfo].
  destruct (loadLocaleVariations_returns corpus (path_join QUIZ_ROOT dir)
              "README" ".md"
              (λ s, mret (match readmeCleanUp s with
                          | "" => None
                          | text => Some text
                          end)) (λ s, returns_ret _)) as [readme Hreadme].
  eexists. unfold try_catch.
  rewrite (run_bind_normal _ _ info Hinfo). simpl.
  rewrite (run_bind_normal _ _ readme Hreadme). simpl. done.
Qed.

End LoaderFacts.




Example parseDifficulty_examples :
  parseDifficulty "00013-warm-hello-world" = "warm"
  ∧ parseDifficulty "1--a-b" = "-a"
  ∧ parseDifficulty "7-easy" = "7-easy"
  ∧ parseDifficulty "readme-easy-x" = "readme-easy-x".
Proof. vm_compute. done. Qed.

(** ** The order of the index *)

Section SortFacts.

Context {A : Type} (key : A → Z).

Local Abbreviation cmp := (λ a b : A, key a - key b).

Lemma sort_insert_perm (x : A) (l : list A) : Permutation (x :: l) (sort_insert cmp x l).
Proof.
  induction l as [|y l IH]; simpl; [done|].
  case_decide; [done|]. rewrite <- IH. apply perm_swap.
Qed.

Lemma js_sort_perm (l : list A) : Permutation l (js_sort cmp l).
Proof.
  induction l as [|x l IH]; simpl; [done|].
  rewrite <- sort_insert_perm. by constructor.
Qed.

Lemma sort_insert_sorted (x : A) (l : list A) :
  StronglySorted (λ a b, key a ≤ key b) l →
  StronglySorted (λ a b, key a ≤ key b) (sort_insert cmp x l).
Proof.
  induction 1 as [|y l Hl IH Hy]; simpl.
  - repeat constructor.
  - case_decide as Hxy.
    + constructor; [by constructor|]. constructor; [lia|].
      eapply Forall_impl; [exact Hy|]. simpl. intros z ?. lia.
    + constructor; [done|].
      rewrite <- sort_insert_perm. constructor; [lia|done].
Qed.

Lemma js_sort_sorted (l : list A) :
  StronglySorted (λ a b, key a ≤ key b) (js_sort cmp l).
Proof.
  induction l as [|x l IH]; simpl; [constructor|]. by apply sort_insert_sorted.
Qed.

(** The sort is stable: the elements of one key keep their order. *)
Lemma sort_insert_stable (r : Z) (x : A) (l : list A) :
  filter (λ a, key a = r) (sort_insert cmp x l) = filter (λ a, key a = r) (x :: l).
Proof.
  induction l as [|y l IH]; simpl; [done|].
  case_decide as Hxy; [done|].
  rewrite filter_cons, IH, !filter_cons.
  repeat case_decide; try done; lia.
Qed.

Lemma js_sort_stable (r : Z) (l : list A) :
  filter (λ a, key a = r) (js_sort cmp l) = filter (λ a, key a = r) l.
Proof.
  induction l as [|x l IH]; simpl; [done|].
  by rewrite sort_insert_stable, !filter_cons, IH.
Qed.

End SortFacts.

Lemma rank_values :
  indexOf DifficultyRank "warm" = 0 ∧ indexOf DifficultyRank "easy" = 1
  ∧ indexOf DifficultyRank "medium" = 2 ∧ indexOf DifficultyRank "hard" = 3
  ∧ indexOf DifficultyRank "extreme" = 4 ∧ indexOf DifficultyRank "pending" = -1.
Proof. vm_compute. done. Qed.

Lemma rank_inj (a b : Quiz) :
  difficulty a ∈ Difficulty_values → difficulty b ∈ Difficulty_values →
  rank a = rank b → difficulty a = difficulty b.
Proof.
  unfold rank, Difficulty_values. rewrite !elem_of_cons, !elem_of_nil.
  intros Ha Hb.
  destruct Ha as [->|[->|[->|[->|[->|[->|[]]]]]]];
    destruct Hb as [->|[->|[->|[->|[->|[->|[]]]]]]]; vm_compute; congruence.
Qed.

(** On a corpus in the order of its numbers: the sort puts the pending
    quiz first, ahead of the warm one, and keeps 4 before 7. *)
Example sample_quizes_sorted :
  quizesByDifficulty sample_quizes
  = [sample_quiz_of 9 "pending"; sample_quiz_of 13 "warm"; sample_quiz_of 4 "easy";
     sample_quiz_of 7 "easy"; sample_quiz_of 2 "medium"; sample_quiz_of 17 "hard";
     sample_quiz_of 5 "extreme"].
Proof. vm_compute. reflexivity. Qed.

(** ** Fingerprints and paths *)

Lemma all_words_cons (alphabet : list ascii) (n : nat) (c : ascii) (s : string) :
  c ∈ alphabet → s ∈ all_words alphabet n → String c s ∈ all_words alphabet (S n).
Proof.
  intros Hc Hs. simpl. apply list_elem_of_bind. exists c. split; [|done].
  by apply list_elem_of_fmap_2.
Qed.

Lemma length_bind_words (l : list ascii) (ws : list string) :
  length (l ≫= λ c, String c <$> ws) = (length l * length ws)%nat.
Proof.
  induction l as [|c l IH]; [done|].
  rewrite bind_cons, length_app, length_fmap, IH. simpl. lia.
Qed.

Lemma length_all_words (alphabet : list ascii) (n : nat) :
  length (all_words alphabet n) = (length alphabet ^ n)%nat.
Proof.
  induction n as [|n IH]; [done|].
  change (all_words alphabet (S n))
    with (alphabet ≫= λ c, String c <$> all_words alphabet n).
  by rewrite length_bind_words, IH, Nat.pow_succ_r'.
Qed.

Lemma NoDup_all_words (alphabet : list ascii) (n : nat) :
  NoDup alphabet → NoDup (all_words alphabet n).
Proof.
  intros Ha. induction n as [|n IH]; [apply NoDup_singleton|].
  simpl. apply NoDup_bind; [|intros c _|done].
  - intros c1 c2 s _ _ (s1 & -> & _)%list_elem_of_fmap (s2 & [= ? ?] & _)%list_elem_of_fmap.
    done.
  - apply NoDup_fmap_2; [|done]. by intros s1 s2 [= ->].
Qed.

(** Among more values than there are images, two have the same image. *)
Lemma pigeonhole_collision {A B : Type} `{EqDecision A, EqDecision B}
    (f : A → B) (dom : list A) (cod : list B) :
  NoDup dom → (∀ x, x ∈ dom → f x ∈ cod) → (length cod < length dom)%nat →
  ∃ x y, x ∈ dom ∧ y ∈ dom ∧ x ≠ y ∧ f x = f y.
Proof.
  intros Hdom Hcod Hlen.
  destruct (decide (Exists (λ x, Exists (λ y, x ≠ y ∧ f x = f y) dom) dom))
    as [Hex|Hnone].
  - apply Exists_exists in Hex as (x & Hx & Hex).
    apply Exists_exists in Hex as (y & Hy & Hxy). by exists x, y.
  - exfalso. assert (NoDup (f <$> dom)) as Himg.
    { apply NoDup_fmap_2_strong; [|done]. intros x y Hx Hy Hxy.
      destruct (decide (x = y)) as [|Hne]; [done|]. destruct Hnone.
      apply Exists_exists. exists x. split; [done|].
      apply Exists_exists. by exists y. }
    assert (f <$> dom ⊆+ cod) as Hsub.
    { apply NoDup_submseteq; [done|].
      intros b (x & -> & Hx)%list_elem_of_fmap. by apply Hcod. }
    apply submseteq_length in Hsub. rewrite length_fmap in Hsub. lia.
Qed.

Lemma pow16 (n : nat) : (16 ^ n = 2 ^ (4 * n))%nat.
Proof. by rewrite Nat.pow_mul_r. Qed.

(** There are fewer digests of 40 hex digits than names of 161 binary
    digits. *)
Lemma digests_fewer_than_names : (16 ^ 40 < 2 ^ 161)%nat.
Proof. rewrite pow16. apply Nat.pow_lt_mono_r. all: lia. Qed.

Module FingerprintFacts.

Lemma hexdigit_in (x : Z) : Sha1.hexdigit x ∈ Sha1.hexdigits.
Proof.
  unfold Sha1.hexdigit. apply list_elem_of_In, nth_In.
  change (length Sha1.hexdigits) with 16%nat.
  pose proof (Z.mod_pos_bound x 16). lia.
Qed.

Lemma hex8_words (w : Z) (rest : string) (n : nat) :
  rest ∈ all_words Sha1.hexdigits n →
  Sha1.hex8 w rest ∈ all_words Sha1.hexdigits (8 + n).
Proof.
  intros Hrest. unfold Sha1.hex8.
  repeat (apply all_words_cons; [apply hexdigit_in|]). done.
Qed.

Lemma sha1_hex_words (msg : string) :
  Sha1.sha1_hex msg ∈ all_words Sha1.hexdigits 40.
Proof.
  unfold Sha1.sha1_hex. destruct (Sha1.sha1 _) as [[[[a b] c] d] e].
  unfold Sha1.hex.
  apply (hex8_words a _ 32), (hex8_words b _ 24), (hex8_words c _ 16),
    (hex8_words d _ 8), (hex8_words e _ 0).
  apply list_elem_of_here.
Qed.

(** Two names of 161 characters under which one content has the same
    fingerprint: there are more such names than digests. *)
Lemma fingerprint_collision (data : string) :
  ∃ path1 path2, path1 ≠ path2 ∧ fingerprint path1 data = fingerprint path2 data.
Proof.
  destruct (pigeonhole_collision (λ p, fingerprint p data)
              (all_words binary 161) (all_words Sha1.hexdigits 40))
    as (p1 & p2 & _ & _ & Hne & Heq).
  - apply NoDup_all_words. unfold binary. apply NoDup_cons. split; [|apply NoDup_singleton].
    rewrite list_elem_of_singleton. done.
  - intros p _. apply sha1_hex_words.
  - rewrite !length_all_words.
    change (length Sha1.hexdigits) with 16%nat. change (length binary) with 2%nat.
    apply digests_fewer_than_names.
  - by exists p1, p2.
Qed.

End FingerprintFacts.

(** The path under which [takeSnapshot] opens a file begins with the path
    of the directory that the traversal started from. *)
Lemma visits_file_under_root (n : node) : ∀ (quizesPath file : string) v,
  v ∈ visits_file quizesPath file n →
  ∃ rel, v.1.2 = quizesPath +:+ "/" +:+ rel.
Proof.
  induction n as [data| |entries IH] using node_ind'; intros quizesPath file v.
  - intros ->%list_elem_of_singleton. by exists file.
  - intros ->%list_elem_of_singleton. by exists file.
  - change (visits_file quizesPath file (Dir entries))
      with (flat_map (λ e, visits_file (path_join quizesPath file) e.1 e.2) entries).
    rewrite list_elem_of_In, in_flat_map.
    intros ([name n] & Hin & Hv).
    apply list_elem_of_In in Hin. apply list_elem_of_In in Hv.
    rewrite Forall_forall in IH.
    destruct (IH (name, n) Hin _ _ _ Hv) as [rel Hrel].
    exists (file +:+ "/" +:+ rel). rewrite Hrel. unfold path_join.
    by rewrite !StrFacts.app_assoc.
Qed.

Lemma visits_under_root (quizesPath : string) (files : list (string * node)) v :
  v ∈ visits quizesPath files → ∃ rel, v.1.2 = quizesPath +:+ "/" +:+ rel.
Proof.
  unfold visits. rewrite list_elem_of_In, in_flat_map.
  intros ([name n] & _ & Hv). apply list_elem_of_In in Hv.
  by eapply visits_file_under_root.
Qed.

(** C6, as the code has it. The fingerprint of a file is the SHA-1 digest,
    in 40 hex digits, of its content followed by the path it was opened
    with, which for a file of a snapshot is the path of the scanned directory
    joined with the names down to the file. Under another path the same
    content is digested from another message, so the two fingerprints are
    the same only if SHA-1 has the same digest for the two messages. *)
Theorem fingerprint_is_digest_of_content_and_path (filePathFull data : string) :
  calculateFileHash filePathFull (File data)
  = mret (Sha1.sha1_hex (data +:+ filePathFull))
  ∧ String.length (Sha1.sha1_hex (data +:+ filePathFull)) = 40%nat
  ∧ (∀ other, other ≠ filePathFull →
       data +:+ other ≠ data +:+ filePathFull
       ∧ (calculateFileHash other (File data)
          = calculateFileHash filePathFull (File data) →
          Sha1.sha1_hex (data +:+ other) = Sha1.sha1_hex (data +:+ filePathFull)))
  ∧ (∀ quizesPath files v, v ∈ visits quizesPath files →
       ∃ rel, v.1.2 = quizesPath +:+ "/" +:+ rel).
Proof.
  split; [apply calculateFileHash_file|].
  split; [apply Sha1Facts.sha1_hex_length|]. split.
  - intros other Hne. split.
    + intros Heq. by apply StrFacts.app_inv_head in Heq.
    + rewrite !calculateFileHash_file. by intros [= Heq].
  - intros quizesPath files v. apply visits_under_root.
Qed.

Lemma fingerprint_is_digest_of_content_and_path_witness :
  "type A = 1" +:+ "/p/easy/a.ts" ≠ "type A = 1" +:+ "/p/easy/b.ts".
Proof.
  destruct (fingerprint_is_digest_of_content_and_path "/p/easy/b.ts" "type A = 1")
    as (_ & _ & Hother & _).
  apply (Hother "/p/easy/a.ts"). discriminate.
Defined.

(** The claim as the spec has it fails twice. There are two file names
    under which an empty file has one and the same fingerprint, since there
    are more names than digests. And the path that is digested is not
    relative to the scanned directory: one file at one place in it has two
    fingerprints for two places of the directory. *)
Lemma fingerprint_collides_and_follows_root :
  (∃ path1 path2, path1 ≠ path2
     ∧ calculateFileHash path1 (File "") = calculateFileHash path2 (File ""))
  ∧ completion (takeSnapshot "/home/a/playground" [("x.ts", File "code")])
    ≠ completion (takeSnapshot "/home/b/playground" [("x.ts", File "code")]).
Proof.
  split.
  - destruct (FingerprintFacts.fingerprint_collision "") as (p1 & p2 & Hne & Heq).
    exists p1, p2. split; [done|]. by rewrite !calculateFileHash_file, Heq.
  - intros Heq.
    apply (f_equal (λ c, match c with
                         | Normal m => (m : Snapshot) !! "x.ts"
                         | _ => None
                         end)) in Heq.
    vm_compute in Heq. discriminate.
Qed.

(** ** Occurrences of a pattern in a text *)

Module Occ.

Import StrFacts.

Lemma app_eq_app (x y u w : string) :
  x +:+ y = u +:+ w →
  (∃ k, x = u +:+ k ∧ w = k +:+ y) ∨ (∃ k, u = x +:+ k ∧ y = k +:+ w).
Proof.
  revert u. induction x as [|c x IH]; intros u Heq.
  - right. by exists u.
  - destruct u as [|c' u].
    + left. by exists (String c x).
    + rewrite !app_cons in Heq. injection Heq as -> Heq.
      destruct (IH _ Heq) as [(k & -> & ->)|(k & -> & ->)]; [left|right]; by exists k.
Qed.

Lemma app_nil_inv (x y : string) : x +:+ y = "" → x = "" ∧ y = "".
Proof. by destruct x. Qed.

Lemma app_length_inv (x y u w : string) :
  x +:+ y = u +:+ w → String.length x = String.length u → x = u ∧ y = w.
Proof.
  revert u. induction x as [|c x IH]; intros [|c' u] Heq Hlen; try done.
  rewrite !app_cons in Heq. injection Heq as -> Heq. injection Hlen as Hlen.
  destruct (IH _ Heq Hlen) as [-> ->]. done.
Qed.

Lemma mem_app (c : ascii) (s t : string) :
  Str.mem c (s +:+ t) = Str.mem c s || Str.mem c t.
Proof.
  induction s as [|c' s IH]; [done|]. rewrite app_cons. simpl.
  by rewrite IH, orb_assoc.
Qed.

Lemma prefix_iff (p s : string) :
  String.prefix p s = true ↔ ∃ r, s = p +:+ r.
Proof.
  split.
  - intros Hp. eexists. by apply prefix_inv.
  - intros [r ->]. apply prefix_app.
Qed.

Lemma contains_unfold (pat s : string) :
  contains pat s
  = if String.prefix pat s then true
    else match s with
         | "" => false
         | String _ s' => contains pat s'
         end.
Proof. by destruct s. Qed.

Lemma find_first_unfold (pat s : string) :
  find_first pat s
  = if String.prefix pat s then Some ("", Str.drop (String.length pat) s)
    else match s with
         | "" => None
         | String c s' =>
             match find_first pat s' with
             | Some (before, after) => Some (String c before, after)
             | None => None
             end
         end.
Proof. by destruct s. Qed.

Lemma contains_false (pat s : string) :
  contains pat s = false → ∀ u v, s ≠ u +:+ pat +:+ v.
Proof.
  intros Hc u. revert s Hc. induction u as [|c u IH]; intros s Hc v ->.
  - rewrite app_nil_l, contains_unfold, prefix_app in Hc. done.
  - rewrite contains_unfold, app_cons in Hc.
    destruct (String.prefix pat _); [done|]. by eapply IH.
Qed.

Lemma find_first_sound (pat s a r : string) :
  find_first pat s = Some (a, r) → s = a +:+ pat +:+ r.
Proof.
  revert a. induction s as [|c s IH]; intros a; rewrite find_first_unfold.
  - destruct (String.prefix pat "") eqn:Hp; [|done].
    intros [= <- <-]. by apply prefix_inv in Hp.
  - destruct (String.prefix pat (String c s)) eqn:Hp.
    + intros [= <- <-]. by apply prefix_inv in Hp.
    + destruct (find_first pat s) as [[a' r']|] eqn:Hf; [|done].
      intros [= <- <-]. rewrite app_cons. f_equal. by apply IH.
Qed.

Lemma find_first_none (pat s : string) :
  contains pat s = false → find_first pat s = None.
Proof.
  intros Hc. destruct (find_first pat s) as [[a r]|] eqn:Hf; [|done].
  apply find_first_sound in Hf. by apply contains_false with (u := a) (v := r) in Hc.
Qed.

Lemma find_last_sound (pat s a r : string) :
  find_last pat s = Some (a, r) → s = a +:+ pat +:+ r.
Proof.
  revert a. induction s as [|c s IH]; intros a; cbn [find_last].
  - destruct pat; [|done]. by intros [= <- <-].
  - destruct (find_last pat s) as [[a' r']|] eqn:Hf.
    + intros [= <- <-]. rewrite app_cons. f_equal. by apply IH.
    + destruct (String.prefix pat (String c s)) eqn:Hp; [|done].
      intros [= <- <-]. by apply prefix_inv in Hp.
Qed.

(** The first occurrence is where the pattern stands, if in the text up to
    there the pattern occurs only at the end. *)
Lemma find_first_at (pat a r : string) :
  (∀ u v, a +:+ pat = u +:+ pat +:+ v → v = "") →
  find_first pat (a +:+ pat +:+ r) = Some (a, r).
Proof.
  induction a as [|c a IH]; intros Honly.
  - by rewrite app_nil_l, find_first_unfold, prefix_app, drop_app.
  - rewrite find_first_unfold, app_cons.
    destruct (String.prefix pat (String c (a +:+ pat +:+ r))) eqn:Hp.
    + exfalso. apply prefix_iff in Hp as [w Hw].
      rewrite <- app_cons, <- app_assoc in Hw.
      apply app_eq_app in Hw as [(k & Hk & _)|(k & Hk & _)].
      * specialize (Honly "" k). rewrite app_nil_l in Honly.
        specialize (Honly Hk). subst k. rewrite app_nil_r in Hk.
        apply (f_equal String.length) in Hk. rewrite length_app in Hk.
        simpl in Hk. lia.
      * apply (f_equal String.length) in Hk. rewrite !length_app in Hk.
        simpl in Hk.
        assert (k = "") as -> by (destruct k; [done|simpl in Hk; lia]).
        simpl in Hk. lia.
    + rewrite IH; [done|]. intros u v Huv. apply (Honly (String c u) v).
      by rewrite !app_cons, Huv.
Qed.

(** The last occurrence is where the pattern stands, if in the text from
    there on the pattern occurs only at the start. *)
Lemma find_last_at (pat a r : string) :
  pat ≠ "" →
  (∀ u v, pat +:+ r = u +:+ pat +:+ v → u = "") →
  find_last pat (a +:+ pat +:+ r) = Some (a, r).
Proof.
  intros Hne Honly. induction a as [|c a IH].
  - rewrite app_nil_l. destruct pat as [|p0 pat]; [done|].
    rewrite app_cons. cbn [find_last].
    destruct (find_last (String p0 pat) (pat +:+ r)) as [[a' r']|] eqn:Hf.
    + apply find_last_sound in Hf. exfalso.
      assert (String p0 a' = "") as Hnil; [|done].
      apply (Honly _ r'). rewrite (app_cons p0 pat r), (app_cons p0 a').
      f_equal. exact Hf.
    + rewrite <- app_cons. by rewrite prefix_app, drop_app.
  - rewrite app_cons. cbn [find_last]. by rewrite IH.
Qed.

End Occ.

Module Markers.

Import StrFacts Occ.

(** Where an occurrence of [m] in [x +:+ y] lies: in [x], in [y], or
    across the two. *)
Lemma occurrence_cases (m x y u v : string) :
  x +:+ y = u +:+ m +:+ v →
  (∃ v', x = u +:+ m +:+ v' ∧ v = v' +:+ y)
  ∨ (∃ u', y = u' +:+ m +:+ v ∧ u = x +:+ u')
  ∨ (∃ m1 m2, m = m1 +:+ m2 ∧ m1 ≠ "" ∧ m2 ≠ "" ∧ x = u +:+ m1 ∧ y = m2 +:+ v).
Proof.
  intros Heq. apply app_eq_app in Heq as [(k & Hx & Hk)|(k & Hu & Hy)].
  - apply app_eq_app in Hk as [(k2 & Hm & Hy)|(k2 & Hk & Hv)].
    + destruct k as [|c k].
      * right. left. exists "". rewrite app_nil_r in Hx. rewrite app_nil_l in Hm.
        rewrite Hx, Hm, Hy. by rewrite app_nil_l, app_nil_r.
      * destruct k2 as [|c2 k2].
        -- left. exists "". rewrite app_nil_r in Hm. rewrite app_nil_l in Hy.
           rewrite Hx, Hm, Hy. by rewrite app_nil_l, app_nil_r.
        -- right. right. exists (String c k), (String c2 k2). by subst.
    + left. exists k2. by subst.
  - right. left. exists k. by subst.
Qed.

Lemma free_nil (m : string) : m ≠ "" → free m "".
Proof.
  intros Hm u v Heq. symmetry in Heq.
  apply app_nil_inv in Heq as [_ Heq]. by apply app_nil_inv in Heq as [? _].
Qed.

Lemma free_of_contains (m s : string) : contains m s = false → free m s.
Proof. exact (contains_false m s). Qed.

Lemma find_first_free (m s : string) : free m s → find_first m s = None.
Proof.
  intros Hfree. destruct (find_first m s) as [[a r]|] eqn:Hf; [|done].
  apply find_first_sound in Hf. by destruct (Hfree a r).
Qed.

(** Closes a goal with a hypothesis [Str.mem c s = false] whose [s] begins
    with [c]. *)
Ltac absurd_mem H :=
  simpl in H; rewrite ?bool_decide_eq_true_2 in H by done; done.

Section Marker.

Variable m : string.
Hypothesis Hm : is_marker m.

Lemma marker_nonempty : m ≠ "".
Proof. destruct Hm as (tail & init & -> & _). done. Qed.

(** Behind a first part of the marker there is no [<]. *)
Lemma marker_split_lt (m1 m2 : string) :
  m = m1 +:+ m2 → m1 ≠ "" → Str.mem "<" m2 = false.
Proof.
  destruct Hm as (tail & init & -> & Htail & _).
  destruct m1 as [|c m1]; [done|]. rewrite app_cons. intros [= _ ->] _.
  rewrite mem_app in Htail. by apply orb_false_elim in Htail as [_ ?].
Qed.

(** Before a last part of the marker there is no [>]. *)
Lemma marker_split_gt (m1 m2 : string) :
  m = m1 +:+ m2 → m2 ≠ "" → Str.mem ">" m1 = false.
Proof.
  destruct Hm as (tail & init & _ & _ & -> & Hinit & _).
  intros Heq Hm2. apply app_eq_app in Heq as [(k & -> & _)|(k & -> & Hk)].
  - rewrite mem_app in Hinit. by apply orb_false_elim in Hinit as [? _].
  - destruct k as [|c k].
    + by rewrite app_nil_r.
    + rewrite app_cons in Hk. injection Hk as _ Hk. symmetry in Hk.
      by apply app_nil_inv in Hk as [_ ?].
Qed.

Lemma marker_in_itself (u v : string) : m = u +:+ m +:+ v → u = "" ∧ v = "".
Proof.
  intros Heq. apply (f_equal String.length) in Heq.
  rewrite !length_app in Heq. destruct u, v; simpl in Heq; try done; lia.
Qed.

(** No occurrence across a boundary behind which a [<] stands. *)
Lemma free_app_lt (x y : string) :
  free m x → free m (String "<" y) → free m (x +:+ String "<" y).
Proof.
  intros Hx Hy u v Heq.
  apply occurrence_cases in Heq
    as [(v' & Heq & _)|[(u' & Heq & _)|(m1 & m2 & Hsplit & Hm1 & Hm2 & _ & Heq)]].
  - by destruct (Hx u v').
  - by destruct (Hy u' v).
  - apply marker_split_lt in Hsplit; [|done].
    destruct m2 as [|c m2]; [done|]. rewrite app_cons in Heq.
    injection Heq as <- _. absurd_mem Hsplit.
Qed.

(** No occurrence across a boundary before which a [>] stands. *)
Lemma free_app_gt (x y : string) :
  free m (x +:+ ">") → free m y → free m ((x +:+ ">") +:+ y).
Proof.
  intros Hx Hy u v Heq.
  apply occurrence_cases in Heq
    as [(v' & Heq & _)|[(u' & Heq & _)|(m1 & m2 & Hsplit & Hm1 & Hm2 & Heq & _)]].
  - by destruct (Hx u v').
  - by destruct (Hy u' v).
  - apply marker_split_gt in Hsplit; [|done].
    apply app_eq_app in Heq as [(k & _ & Hk)|(k & _ & Hk)].
    + rewrite Hk, mem_app in Hsplit. apply orb_false_elim in Hsplit as [_ Hgt].
      absurd_mem Hgt.
    + destruct k as [|c k].
      * rewrite app_nil_l in Hk. subst m1. absurd_mem Hsplit.
      * rewrite app_cons in Hk. injection Hk as _ Hk. symmetry in Hk.
        by apply app_nil_inv in Hk as [_ ?].
Qed.

Lemma free_line_feed_l (s : string) : free m s → free m (String "010" s).
Proof.
  intros Hs u v Heq. destruct u as [|c u].
  - rewrite app_nil_l in Heq. destruct Hm as (tail & init & -> & _).
    by rewrite app_cons in Heq.
  - rewrite app_cons in Heq. injection Heq as _ Heq. by destruct (Hs u v).
Qed.

Lemma free_line_feed_r (s : string) : free m s → free m (s +:+ String "010" "").
Proof.
  intros Hs u v Heq.
  assert (Str.mem "010" m = false) as Hlf by (by destruct Hm as (? & ? & _ & _ & _ & _ & ?)).
  apply occurrence_cases in Heq
    as [(v' & Heq & _)|[(u' & Heq & _)|(m1 & m2 & Hsplit & Hm1 & Hm2 & _ & Heq)]].
  - by destruct (Hs u v').
  - destruct u' as [|c u'].
    + rewrite app_nil_l in Heq. destruct Hm as (tail & init & -> & _).
      by rewrite app_cons in Heq.
    + rewrite app_cons in Heq. injection Heq as _ Heq. symmetry in Heq.
      apply app_nil_inv in Heq as [_ Heq]. apply app_nil_inv in Heq as [Heq _].
      by apply marker_nonempty.
  - rewrite Hsplit, mem_app in Hlf. apply orb_false_elim in Hlf as [_ Hlf].
    destruct m2 as [|c m2]; [done|]. rewrite app_cons in Heq.
    injection Heq as <- _. absurd_mem Hlf.
Qed.

(** The marker is found where it stands, when it does not occur before,
    and when it does not occur behind. *)
Lemma find_first_marker (a r : string) :
  free m a → find_first m (a +:+ m +:+ r) = Some (a, r).
Proof.
  intros Ha. apply find_first_at. intros u v Heq.
  apply occurrence_cases in Heq
    as [(v' & Heq & _)|[(u' & Heq & _)|(m1 & m2 & Hsplit & Hm1 & Hm2 & _ & Heq)]].
  - by destruct (Ha u v').
  - by apply marker_in_itself in Heq as [_ ?].
  - apply marker_split_lt in Hsplit; [|done].
    destruct Hm as (tail & init & Hm' & _). rewrite Hm' in Heq.
    destruct m2 as [|c m2]; [done|]. rewrite app_cons in Heq.
    injection Heq as <- _. absurd_mem Hsplit.
Qed.

Lemma find_last_marker (a r : string) :
  free m r → find_last m (a +:+ m +:+ r) = Some (a, r).
Proof.
  intros Hr. apply find_last_at; [apply marker_nonempty|]. intros u v Heq.
  apply occurrence_cases in Heq
    as [(v' & Heq & _)|[(u' & Heq & _)|(m1 & m2 & Hsplit & Hm1 & Hm2 & Heq & _)]].
  - by apply marker_in_itself in Heq as [? _].
  - by destruct (Hr u' v).
  - apply marker_split_gt in Hsplit; [|done].
    destruct Hm as (tail & init & _ & _ & Hm' & _). rewrite Hm' in Heq.
    apply app_eq_app in Heq as [(k & _ & Hk)|(k & _ & Hk)].
    + rewrite Hk, mem_app in Hsplit. apply orb_false_elim in Hsplit as [_ Hgt].
      absurd_mem Hgt.
    + destruct k as [|c k].
      * rewrite app_nil_l in Hk. subst m1. absurd_mem Hsplit.
      * rewrite app_cons in Hk. injection Hk as _ Hk. symmetry in Hk.
        by apply app_nil_inv in Hk as [_ ?].
Qed.

End Marker.

Lemma header_start_marker : is_marker header_start.
Proof. by exists "!--info-header-start-->", "<!--info-header-start--". Qed.

Lemma header_end_marker : is_marker header_end.
Proof. by exists "!--info-header-end-->", "<!--info-header-end--". Qed.

Lemma footer_start_marker : is_marker footer_start.
Proof. by exists "!--info-footer-start-->", "<!--info-footer-start--". Qed.

Lemma footer_end_marker : is_marker footer_end.
Proof. by exists "!--info-footer-end-->", "<!--info-footer-end--". Qed.

End Markers.

(** ** The generated regions *)

Module Regions.

Import StrFacts Occ Markers.

Lemma mfree_of_bool (s : string) : marker_free s = true → mfree s.
Proof.
  unfold marker_free, mfree. rewrite !andb_true_iff, !negb_true_iff.
  intros [[[? ?] ?] ?]. repeat split; by apply free_of_contains.
Qed.

Lemma mfree_nil : mfree "".
Proof. repeat split; by apply free_nil. Qed.

(** No occurrence across a boundary with another marker. *)
Lemma free_before_marker (m n x y : string) :
  is_marker m → is_marker n →
  free m x → free m (n +:+ y) → free m (x +:+ n +:+ y).
Proof.
  intros Hm (tail & init & -> & _) Hx Hy. rewrite app_cons in *.
  by apply free_app_lt.
Qed.

Lemma free_after_marker (m n y : string) :
  is_marker m → is_marker n →
  free m n → free m y → free m (n +:+ y).
Proof.
  intros Hm (tail & init & _ & _ & -> & _) Hn Hy. by apply free_app_gt.
Qed.

Lemma free_sandwich (m a n1 b n2 c : string) :
  is_marker m → is_marker n1 → is_marker n2 →
  free m n1 → free m n2 → free m a → free m b → free m c →
  free m (a +:+ n1 +:+ b +:+ n2 +:+ c).
Proof.
  intros Hm Hn1 Hn2 Hfn1 Hfn2 Ha Hb Hc.
  apply free_before_marker; [done..|].
  apply free_after_marker; [done..|].
  apply free_before_marker; [done..|].
  by apply free_after_marker.
Qed.

Lemma mfree_line_feeds (s : string) :
  mfree s →
  mfree (String "010" (String "010" s) +:+ String "010" (String "010" "")).
Proof.
  assert (∀ m, is_marker m → free m s →
            free m (String "010" (String "010" s) +:+ String "010" (String "010" "")))
    as Hone.
  { intros m Hm Hs.
    change (String "010" (String "010" ""))
      with (String "010" "" +:+ String "010" "").
    rewrite <- app_assoc. apply free_line_feed_r; [done|].
    apply free_line_feed_r; [done|].
    by do 2 (apply free_line_feed_l; [done|]). }
  intros (? & ? & ? & ?).
  repeat split; apply Hone; auto using header_start_marker, header_end_marker,
    footer_start_marker, footer_end_marker.
Qed.

Lemma expand_plain (r matched before after : string) :
  Str.mem "$" r = false → expand r matched before after = r.
Proof.
  induction r as [|c r IH]; [done|]. simpl.
  intros [Hc Hr]%orb_false_elim. rewrite Hc. by rewrite IH.
Qed.

Lemma shaped_footer (pre x mid y post : string) :
  shaped pre x mid y post
  = (pre +:+ header_start +:+ x +:+ header_end +:+ mid)
    +:+ footer_start +:+ y +:+ footer_end +:+ post.
Proof. unfold shaped. by rewrite !app_assoc. Qed.

(** The two regions of a document of the shape, as the patterns find
    them. *)
Lemma region_match_header (pre x mid y post : string) :
  free header_start pre →
  free header_end mid → free header_end y → free header_end post →
  region_match header_start header_end (shaped pre x mid y post)
  = Some (pre, x, mid +:+ footer_start +:+ y +:+ footer_end +:+ post).
Proof.
  intros Hpre Hmid Hy Hpost. unfold region_match, shaped.
  rewrite (find_first_marker _ header_start_marker) by done.
  rewrite (find_last_marker _ header_end_marker); [done|].
  apply free_before_marker;
    [apply header_end_marker|apply footer_start_marker|done|].
  apply free_after_marker;
    [apply header_end_marker|apply footer_start_marker|by apply free_of_contains|].
  apply free_before_marker;
    [apply header_end_marker|apply footer_end_marker|done|].
  apply free_after_marker;
    [apply header_end_marker|apply footer_end_marker|by apply free_of_contains|done].
Qed.

Lemma region_match_footer (pre x mid y post : string) :
  free footer_start pre → free footer_start x → free footer_start mid →
  free footer_end post →
  region_match footer_start footer_end (shaped pre x mid y post)
  = Some (pre +:+ header_start +:+ x +:+ header_end +:+ mid, y, post).
Proof.
  intros Hpre Hx Hmid Hpost. rewrite shaped_footer. unfold region_match.
  rewrite (find_first_marker _ footer_start_marker).
  - by rewrite (find_last_marker _ footer_end_marker).
  - apply free_sandwich;
      auto using header_start_marker, header_end_marker, footer_start_marker.
    + by apply free_of_contains.
    + by apply free_of_contains.
Qed.

Lemma replace_header (header pre x mid y post : string) :
  free header_start pre →
  free header_end mid → free header_end y → free header_end post →
  Str.mem "$" header = false →
  region_replace header_start header_end
    (header_start +:+ header +:+ header_end) (shaped pre x mid y post)
  = shaped pre header mid y post.
Proof.
  intros Hpre Hmid Hy Hpost Hdollar. unfold region_replace.
  rewrite region_match_header by done.
  rewrite expand_plain.
  - unfold shaped. by rewrite !app_assoc.
  - rewrite !mem_app, Hdollar. done.
Qed.

Lemma replace_footer (footer pre x mid y post : string) :
  free footer_start pre → free footer_start x → free footer_start mid →
  free footer_end post →
  Str.mem "$" footer = false →
  region_replace footer_start footer_end
    (footer_start +:+ footer +:+ footer_end) (shaped pre x mid y post)
  = shaped pre x mid footer post.
Proof.
  intros Hpre Hx Hmid Hpost Hdollar. unfold region_replace.
  rewrite region_match_footer by done.
  rewrite expand_plain.
  - rewrite shaped_footer. by rewrite !app_assoc.
  - rewrite !mem_app, Hdollar. done.
Qed.

(** A document of the shape gets the new header and footer in its two
    regions, and nothing else changes. *)
Lemma insert_shaped (header footer pre x mid y post : string) :
  mfree header → Str.mem "$" header = false → Str.mem "$" footer = false →
  mfree pre → mfree x → mfree mid → mfree y → mfree post →
  insertInfoReadme_text header footer (shaped pre x mid y post)
  = shaped pre header mid footer post.
Proof.
  intros (_ & _ & Hh & _) Hdh Hdf (Hpre1 & _ & Hpre3 & _) (_ & _ & Hx3 & _)
    (_ & Hmid2 & Hmid3 & _) (_ & Hy2 & _ & _) (_ & Hpost2 & _ & Hpost4).
  unfold insertInfoReadme_text.
  rewrite region_match_header, region_match_footer by done.
  rewrite replace_header by done. by rewrite replace_footer.
Qed.

(** A document without markers gets the two regions around it. *)
Lemma insert_fresh (header footer text : string) :
  mfree header → Str.mem "$" header = false → Str.mem "$" footer = false →
  mfree text →
  insertInfoReadme_text header footer text
  = shaped "" header
      (String "010" (String "010" text) +:+ String "010" (String "010" ""))
      footer "".
Proof.
  intros Hh Hdh Hdf Htext.
  pose proof (mfree_line_feeds text Htext) as Hmid.
  rewrite <- (insert_shaped header footer "" "" _ "" "")
    by auto using mfree_nil.
  destruct Htext as (Ht1 & Ht2 & Ht3 & Ht4).
  unfold insertInfoReadme_text at 1.
  assert (region_match header_start header_end text = None) as ->.
  { unfold region_match. by rewrite find_first_free. }
  assert (region_match footer_start footer_end
            (header_start +:+ header_end +:+ String "010" (String "010" text)) = None)
    as ->.
  { unfold region_match. rewrite find_first_free; [done|].
    apply (free_sandwich footer_start "" header_start "" header_end);
      auto using header_start_marker, header_end_marker, footer_start_marker.
    - by apply free_of_contains.
    - by apply free_of_contains.
    - by apply free_nil.
    - by apply free_nil.
    - do 2 (apply free_line_feed_l; [apply footer_start_marker|]). done. }
  assert ((header_start +:+ header_end +:+ String "010" (String "010" text))
          +:+ String "010" (String "010" (footer_start +:+ footer_end))
          = shaped "" ""
              (String "010" (String "010" text) +:+ String "010" (String "010" ""))
              "" "") as ->.
  { unfold shaped.
    repeat (rewrite app_assoc || rewrite app_cons || rewrite app_nil_l
            || rewrite app_nil_r).
    done. }
  unfold insertInfoReadme_text.
  destruct Hmid as (Hm1 & Hm2 & Hm3 & Hm4).
  rewrite region_match_header, region_match_footer; try done; by apply free_nil.
Qed.

End Regions.

(** What the first run makes of the document with the markers out of order,
    and what the second run makes of that. *)
Example insertInfoReadme_out_of_order :
  let text := footer_start +:+ header_start +:+ footer_end +:+ header_end in
  insertInfoReadme_text "h" "f" text
  = footer_start +:+ header_start +:+ "h" +:+ header_end
  ∧ insertInfoReadme_text "h" "f" (insertInfoReadme_text "h" "f" text)
    = footer_start +:+ "f" +:+ footer_end.
Proof. vm_compute. done. Qed.

Example insertInfoReadme_fresh :
  insertInfoReadme_text "H" "F" "text"
  = header_start +:+ "H" +:+ header_end
    +:+ String "010" (String "010" ("text" +:+ String "010" (String "010"
          (footer_start +:+ "F" +:+ footer_end)))).
Proof. vm_compute. reflexivity. Qed.

(** The metadata that the loader builds has [tags] and [related] of the
    declared type: [loadInfo] makes a list of each, or leaves it undefined. *)
Lemma normalizeArrayKey_same (object : Obj) (key : string) :
  list_or_undefined (get (normalizeArrayKey object key) key).
Proof.
  unfold normalizeArrayKey. destruct (truthy (get object key)).
  - right. by rewrite get_insert_eq.
  - left. by rewrite get_insert_eq.
Qed.

Lemma normalizeArrayKey_other (object : Obj) (key key' : string) :
  key ≠ key' → get (normalizeArrayKey object key) key' = get object key'.
Proof.
  intros Hne. unfold normalizeArrayKey.
  destruct (truthy (get object key)); by rewrite get_insert_ne.
Qed.

Lemma loadInfo_lists `{Externals} (s : string) (object : Obj) :
  completion (loadInfo s) = Normal (Some object) →
  list_or_undefined (get object "tags") ∧ list_or_undefined (get object "related").
Proof.
  assert (∀ base : Obj,
            let object := foldl normalizeArrayKey base ["tags"; "related"] in
            list_or_undefined (get object "tags")
            ∧ list_or_undefined (get object "related")) as Hfold.
  { intros base. simpl. split.
    - rewrite normalizeArrayKey_other by done. apply normalizeArrayKey_same.
    - apply normalizeArrayKey_same. }
  unfold loadInfo. destruct (YAML_load s) as [value|]; [|done].
  destruct (negb (truthy value)); [done|].
  destruct value; try done; intros [= <-]; apply Hfold.
Qed.

(** The scenarios of a keep-changes run: a file that has the fingerprint of
    the cache is overwritten with the new code, a file that is not in the
    playground yet is written, and the file of the user stays in both. *)
Example sample_run_overwrites_untouched :
  let run := @generatePlayground sample_externals sample_argv sample_answers
               [sample_quiz] sample_world_untouched in
  run.1 = Normal tt
  ∧ playground run.2
    = Some [("easy", Dir [("1-easy-foo.ts", File "type Foo = any")]);
            ("notes.md", File "my notes")]
  ∧ playgroundCache run.2
    = Some (@JSON_stringify sample_externals
              {[ "1-easy-foo.ts" :=
                   fingerprint "/repo/playground/easy/1-easy-foo.ts" "type Foo = any" ]}).
Proof. vm_compute. done. Qed.

Example sample_run_writes_new :
  let run := @generatePlayground sample_externals sample_argv sample_answers
               [sample_quiz] sample_world_new in
  run.1 = Normal tt
  ∧ playground run.2
    = Some [("notes.md", File "my notes");
            ("easy", Dir [("1-easy-foo.ts", File "type Foo = any")])].
Proof. vm_compute. done. Qed.

(** Without the flag, and with the answer yes, the playground is made
    anew: the file of the user is gone. *)
Example sample_run_full_regenerate :
  let run := @generatePlayground sample_externals
               ["node"; "generate-play-local.js"; "en"]
               {| confirm := true; select := None |} [sample_quiz] sample_world in
  run.1 = Normal tt
  ∧ playground run.2 = Some [("easy", Dir [("1-easy-foo.ts", File "type Foo = any")])].
Proof. vm_compute. done. Qed.

(** The badges of the sample corpus: one for each difficulty, ahead of the
    quizzes of that difficulty. *)
Example sample_challengesREADME :
  challengesREADME sample_quizes
  = [DifficultyBadge "pending" 1; QuizBadge (sample_quiz_of 9 "pending");
     DifficultyBadge "warm" 1; QuizBadge (sample_quiz_of 13 "warm");
     DifficultyBadge "easy" 2; QuizBadge (sample_quiz_of 4 "easy");
     QuizBadge (sample_quiz_of 7 "easy");
     DifficultyBadge "medium" 1; QuizBadge (sample_quiz_of 2 "medium");
     DifficultyBadge "hard" 1; QuizBadge (sample_quiz_of 17 "hard");
     DifficultyBadge "extreme" 1; QuizBadge (sample_quiz_of 5 "extreme")].
Proof. vm_compute. reflexivity. Qed.

(** ** Escaping for HTML *)

Module EscapeFacts.

Lemma replace_all_app (c : ascii) (r a b : string) :
  replace_all c r (a +:+ b) = replace_all c r a +:+ replace_all c r b.
Proof.
  induction a as [|c' a IH]; [done|].
  rewrite StrFacts.app_cons. simpl. by rewrite IH, StrFacts.app_assoc.
Qed.

Lemma replace_all_other (c c' : ascii) (r : string) :
  c' ≠ c → replace_all c r (String c' "") = String c' "".
Proof. intros Hne. simpl. by rewrite bool_decide_eq_false_2. Qed.

(** A character either needs no entity, or is one of the five. *)
Lemma entity_cases (c : ascii) :
  (entity c = String c "" ∧ c ≠ "&"%char ∧ c ≠ "<"%char ∧ c ≠ ">"%char
   ∧ c ≠ "034"%char ∧ c ≠ "'"%char)
  ∨ (c = "&"%char ∧ entity c = "&amp;") ∨ (c = "<"%char ∧ entity c = "&lt;")
  ∨ (c = ">"%char ∧ entity c = "&gt;") ∨ (c = "034"%char ∧ entity c = "&quot;")
  ∨ (c = "'"%char ∧ entity c = "&#039;").
Proof.
  unfold entity. repeat case_bool_decide; subst; by auto 10.
Qed.

Lemma escape_one (c : ascii) :
  replace_all "'" "&#039;"
    (replace_all "034" "&quot;"
       (replace_all ">" "&gt;"
          (replace_all "<" "&lt;"
             (if bool_decide (c = "&"%char) then "&amp;" else String c ""))))
  = entity c.
Proof.
  destruct (entity_cases c) as [(-> & H1 & H2 & H3 & H4 & H5)|Hc].
  - rewrite bool_decide_eq_false_2 by done.
    by rewrite !replace_all_other.
  - destruct Hc as [[-> ->]|[[-> ->]|[[-> ->]|[[-> ->]|[-> ->]]]]]; by vm_compute.
Qed.

Lemma escape_each_spec (s : string) : escapeHtml s = escape_each s.
Proof.
  induction s as [|c s IH]; [done|].
  unfold escapeHtml in *.
  change (replace_all "&" "&amp;" (String c s))
    with ((if bool_decide (c = "&"%char) then "&amp;" else String c "")
          +:+ replace_all "&" "&amp;" s).
  rewrite !replace_all_app, IH, escape_one. done.
Qed.

Lemma escape_each_app (s t : string) :
  escape_each (s +:+ t) = escape_each s +:+ escape_each t.
Proof.
  induction s as [|c s IH]; [done|].
  rewrite StrFacts.app_cons. simpl. by rewrite IH, StrFacts.app_assoc.
Qed.

Lemma cons_eq_app (a : ascii) (s u w : string) :
  String a s = u +:+ w →
  (u = "" ∧ w = String a s) ∨ (∃ u', u = String a u' ∧ s = u' +:+ w).
Proof.
  destruct u as [|a' u]; [by left|].
  rewrite StrFacts.app_cons. intros [= -> ->]. right. by eexists.
Qed.

End EscapeFacts.

(** X1. The five replacements of [escapeHtml] act as one pass over the
    text: every character is replaced by its entity, and the ampersand of an
    entity is not escaped again. So the escaped text of a concatenation is
    the concatenation of the escaped texts. *)
Theorem escapeHtml_one_pass (s t : string) (c : ascii) :
  escapeHtml "" = ""
  ∧ escapeHtml (String c s) = entity c +:+ escapeHtml s
  ∧ escapeHtml (s +:+ t) = escapeHtml s +:+ escapeHtml t.
Proof.
  rewrite !EscapeFacts.escape_each_spec. split; [done|]. split; [done|].
  apply EscapeFacts.escape_each_app.
Qed.

(** X2. Escaped text holds no [<], no [>] and neither kind of quote, and
    every ampersand in it begins one of the five entities. *)
Theorem escapeHtml_safe (s : string) :
  Str.mem "<" (escapeHtml s) = false
  ∧ Str.mem ">" (escapeHtml s) = false
  ∧ Str.mem "034" (escapeHtml s) = false
  ∧ Str.mem "'" (escapeHtml s) = false
  ∧ ∀ u v, escapeHtml s = u +:+ String "&" v →
      ∃ tail rest, tail ∈ entity_tails ∧ v = tail +:+ rest.
Proof.
  rewrite EscapeFacts.escape_each_spec.
  assert (∀ c, c ∈ ["<"; ">"; "034"; "'"]%char → Str.mem c (escape_each s) = false)
    as Hmem.
  { intros c Hc. induction s as [|c' s IH]; [done|].
    simpl. rewrite Occ.mem_app, IH, orb_false_r.
    rewrite !elem_of_cons, elem_of_nil in Hc.
    destruct (EscapeFacts.entity_cases c') as [(-> & H1 & H2 & H3 & H4 & H5)|Hc'].
    - simpl. rewrite orb_false_r. apply bool_decide_eq_false_2. naive_solver.
    - destruct Hc as [->|[->|[->|[->|[]]]]];
        destruct Hc' as [[-> ->]|[[-> ->]|[[-> ->]|[[-> ->]|[-> ->]]]]]; by vm_compute. }
  repeat (split; [apply Hmem; set_solver|]).
  clear Hmem. induction s as [|c s IH]; intros u v Heq.
  - by destruct u.
  - simpl in Heq.
    assert (∀ tail, tail ∈ entity_tails → Str.mem "&" tail = false →
            String "&" tail +:+ escape_each s = u +:+ String "&" v →
            ∃ tail rest, tail ∈ entity_tails ∧ v = tail +:+ rest) as Hspecial.
    { intros tail Hin Hfree Heq'. rewrite StrFacts.app_cons in Heq'.
      apply EscapeFacts.cons_eq_app in Heq' as [[-> [= ->]]|(u' & -> & Heq')].
      - by exists tail, (escape_each s).
      - apply Occ.app_eq_app in Heq' as [(k & -> & Hk)|(k & -> & Hk)].
        + rewrite Occ.mem_app in Hfree. apply orb_false_elim in Hfree as [_ Hfree].
          destruct k as [|a k].
          * rewrite StrFacts.app_nil_l in Hk. by apply (IH "" v).
          * rewrite StrFacts.app_cons in Hk. injection Hk as <- _.
            simpl in Hfree. rewrite ?bool_decide_eq_true_2 in Hfree by done. done.
        + by apply (IH k v). }
    destruct (EscapeFacts.entity_cases c) as [(Hc & H1 & _)|Hc].
    + rewrite Hc, StrFacts.app_cons, StrFacts.app_nil_l in Heq.
      apply EscapeFacts.cons_eq_app in Heq as [[-> [= ?]]|(u' & -> & Heq)]; [done|].
      by apply (IH u' v).
    + unfold entity_tails in *.
      destruct Hc as [[-> Hc]|[[-> Hc]|[[-> Hc]|[[-> Hc]|[-> Hc]]]]];
        rewrite Hc in Heq; eapply Hspecial; try exact Heq; try done; set_solver.
Qed.

(** X3. Escaping loses nothing: two different texts have different
    escaped texts. *)
Theorem escapeHtml_injective (s t : string) :
  s ≠ t → escapeHtml s ≠ escapeHtml t.
Proof.
  intros Hne Heq. apply Hne. revert Heq.
  rewrite !EscapeFacts.escape_each_spec.
  clear Hne. revert t. induction s as [|c s IH]; intros [|d t]; simpl.
  - done.
  - destruct (EscapeFacts.entity_cases d) as [(-> & _)|Hd]; [done|].
    destruct Hd as [[-> ->]|[[-> ->]|[[-> ->]|[[-> ->]|[-> ->]]]]]; done.
  - destruct (EscapeFacts.entity_cases c) as [(-> & _)|Hc]; [done|].
    destruct Hc as [[-> ->]|[[-> ->]|[[-> ->]|[[-> ->]|[-> ->]]]]]; done.
  - intros Heq.
    destruct (EscapeFacts.entity_cases c) as [(Hc & Hc1 & Hc2 & Hc3 & Hc4 & Hc5)|Hc];
      destruct (EscapeFacts.entity_cases d) as [(Hd & Hd1 & Hd2 & Hd3 & Hd4 & Hd5)|Hd].
    + rewrite Hc, Hd in Heq. injection Heq as -> Heq. f_equal. by apply IH.
    + rewrite Hc in Heq.
      destruct Hd as [[-> Hd]|[[-> Hd]|[[-> Hd]|[[-> Hd]|[-> Hd]]]]];
        rewrite Hd in Heq; by injection Heq as -> _.
    + rewrite Hd in Heq.
      destruct Hc as [[-> Hc]|[[-> Hc]|[[-> Hc]|[[-> Hc]|[-> Hc]]]]];
        rewrite Hc in Heq; by injection Heq as <- _.
    + destruct Hc as [[-> Hc]|[[-> Hc]|[[-> Hc]|[[-> Hc]|[-> Hc]]]]];
        destruct Hd as [[-> Hd]|[[-> Hd]|[[-> Hd]|[[-> Hd]|[-> Hd]]]]];
        rewrite ?Hc, ?Hd in Heq; try discriminate Heq;
        f_equal; apply IH; by repeat injection Heq as Heq.
Qed.

Lemma escapeHtml_injective_witness : escapeHtml "<" ≠ escapeHtml "&lt;".
Proof. apply (escapeHtml_injective "<" "&lt;"). discriminate. Defined.

(** ** Trimming *)

Module TrimFacts.

Import StrFacts.

Lemma rev_app_spec (s t : string) : String.rev_app s t = String.rev s +:+ t.
Proof.
  revert t. induction s as [|c s IH]; intros t; [done|].
  unfold String.rev. simpl. rewrite (IH (String c t)), (IH (String c "")).
  by rewrite app_assoc.
Qed.

Lemma rev_cons (c : ascii) (s : string) :
  String.rev (String c s) = String.rev s +:+ String c "".
Proof. unfold String.rev at 1. simpl. apply rev_app_spec. Qed.

Lemma rev_append (s t : string) :
  String.rev (s +:+ t) = String.rev t +:+ String.rev s.
Proof.
  induction s as [|c s IH]; [by rewrite app_nil_l, app_nil_r|].
  by rewrite app_cons, !rev_cons, IH, app_assoc.
Qed.

Lemma rev_rev (s : string) : String.rev (String.rev s) = s.
Proof.
  induction s as [|c s IH]; [done|]. by rewrite rev_cons, rev_append, IH.
Qed.

Lemma all_space_app (s t : string) :
  all_space (s +:+ t) = all_space s && all_space t.
Proof.
  induction s as [|c s IH]; [done|]. rewrite app_cons. simpl.
  by rewrite IH, andb_assoc.
Qed.

Lemma all_space_rev (s : string) : all_space (String.rev s) = all_space s.
Proof.
  induction s as [|c s IH]; [done|].
  rewrite rev_cons, all_space_app, IH. simpl. rewrite andb_true_r. apply andb_comm.
Qed.

Lemma trim_start_all_space (s : string) : all_space s = true → Str.trim_start s = "".
Proof.
  induction s as [|c s IH]; [done|]. simpl. intros [-> Hs]%andb_prop. by apply IH.
Qed.

Lemma trim_start_app (s t : string) :
  Str.trim_start (s +:+ t)
  = if all_space s then Str.trim_start t else Str.trim_start s +:+ t.
Proof.
  induction s as [|c s IH]; [done|]. rewrite app_cons. simpl.
  destruct (Ascii.is_space c); [done|]. by rewrite app_cons.
Qed.

Lemma trim_start_clean (s : string) : starts_with_space (Str.trim_start s) = false.
Proof.
  induction s as [|c s IH]; [done|]. simpl.
  destruct (Ascii.is_space c) eqn:Hc; [done|]. simpl. done.
Qed.

Lemma trim_start_id (s : string) : starts_with_space s = false → Str.trim_start s = s.
Proof. destruct s as [|c s]; [done|]. simpl. by intros ->. Qed.

(** What is left of a text that is not all white space begins with the
    character that its trimmed front begins with. *)
Lemma trim_start_rev_clean (s : string) :
  starts_with_space s = false →
  starts_with_space (String.rev (Str.trim_start (String.rev s))) = false.
Proof.
  destruct s as [|c s]; [done|]. simpl. intros Hc.
  rewrite rev_cons, trim_start_app.
  destruct (all_space (String.rev s)).
  - simpl. by rewrite Hc.
  - rewrite rev_append. simpl. done.
Qed.

Lemma trim_trimmed (s : string) : trimmed (Str.trim s).
Proof.
  unfold trimmed, Str.trim. split.
  - apply trim_start_rev_clean, trim_start_clean.
  - rewrite rev_rev. apply trim_start_clean.
Qed.

Lemma trimmed_trim (s : string) : trimmed s → Str.trim s = s.
Proof.
  intros [H1 H2]. unfold Str.trim.
  by rewrite (trim_start_id s), (trim_start_id (String.rev s)), rev_rev.
Qed.

Lemma trim_idempotent (s : string) : Str.trim (Str.trim s) = Str.trim s.
Proof. apply trimmed_trim, trim_trimmed. Qed.

(** White space around a text does not change what trimming leaves. *)
Lemma trim_around (a s b : string) :
  all_space a = true → all_space b = true →
  Str.trim (a +:+ s +:+ b) = Str.trim s.
Proof.
  intros Ha Hb. unfold Str.trim.
  rewrite (trim_start_app a), Ha, (trim_start_app s).
  destruct (all_space s) eqn:Hs.
  - by rewrite (trim_start_all_space b), (trim_start_all_space s).
  - by rewrite rev_append, trim_start_app, all_space_rev, Hb.
Qed.

Lemma mem_rev (c : ascii) (s : string) : Str.mem c (String.rev s) = Str.mem c s.
Proof.
  induction s as [|c' s IH]; [done|].
  rewrite rev_cons, Occ.mem_app, IH. simpl. rewrite orb_false_r. apply orb_comm.
Qed.

Lemma mem_trim_start (c : ascii) (s : string) :
  Str.mem c s = false → Str.mem c (Str.trim_start s) = false.
Proof.
  induction s as [|c' s IH]; [done|]. simpl.
  destruct (Ascii.is_space c'); [|done]. intros [_ ?]%orb_false_elim. by apply IH.
Qed.

Lemma mem_trim (c : ascii) (s : string) :
  Str.mem c s = false → Str.mem c (Str.trim s) = false.
Proof.
  intros Hs. unfold Str.trim. rewrite mem_rev. apply mem_trim_start.
  rewrite mem_rev. by apply mem_trim_start.
Qed.

End TrimFacts.

(** ** Cleaning a README of its generated regions *)

Module CleanFacts.

Import StrFacts Occ Markers Regions.

(** Taking both regions out of a document of the shape. *)
Lemma remove_regions (pre x mid y post : string) :
  free header_start pre →
  free header_end mid → free header_end y → free header_end post →
  free footer_start (pre +:+ mid) → free footer_end post →
  region_replace footer_start footer_end ""
    (region_replace header_start header_end "" (shaped pre x mid y post))
  = pre +:+ mid +:+ post.
Proof.
  intros Hpre Hmid Hy Hpost Hfs Hfe.
  unfold region_replace at 2. rewrite region_match_header by done.
  cbn [expand]. rewrite app_nil_l.
  rewrite <- (app_assoc pre mid).
  unfold region_replace, region_match.
  rewrite (find_first_marker _ footer_start_marker) by done.
  rewrite (find_last_marker _ footer_end_marker) by done.
  cbn [expand]. by rewrite app_nil_l, app_assoc.
Qed.

Lemma remove_nothing (text : string) :
  free header_start text → free footer_start text →
  region_replace footer_start footer_end ""
    (region_replace header_start header_end "" text)
  = text.
Proof.
  intros Hh Hf. unfold region_replace, region_match.
  rewrite (find_first_free header_start) by done.
  by rewrite (find_first_free footer_start).
Qed.

End CleanFacts.

(** X4. What [insertInfoReadme] adds to a README without markers,
    [readmeCleanUp] takes away again: of the text that the one writes the
    other leaves the original text, trimmed, which is also what it leaves
    of the original text itself. *)
Theorem readmeCleanUp_undoes_insertInfoReadme (header footer text : string) :
  marker_free header = true → marker_free footer = true →
  Str.mem "$" header = false → Str.mem "$" footer = false →
  marker_free text = true →
  readmeCleanUp (insertInfoReadme_text header footer text) = Str.trim text
  ∧ readmeCleanUp text = Str.trim text.
Proof.
  intros Hh%Regions.mfree_of_bool Hf%Regions.mfree_of_bool Hdh Hdf
    Ht%Regions.mfree_of_bool.
  split.
  - rewrite Regions.insert_fresh by done.
    pose proof (Regions.mfree_line_feeds text Ht) as (Hm1 & Hm2 & Hm3 & Hm4).
    destruct Hf as (_ & Hf2 & _ & _).
    unfold readmeCleanUp. rewrite CleanFacts.remove_regions; try done.
    + transitivity (Str.trim (String "010" (String "010" "") +:+ text
                                +:+ String "010" (String "010" ""))).
      * f_equal.
        repeat (rewrite StrFacts.app_assoc || rewrite StrFacts.app_cons
                || rewrite StrFacts.app_nil_l || rewrite StrFacts.app_nil_r).
        done.
      * by apply TrimFacts.trim_around.
    + by apply Markers.free_nil.
    + by apply Markers.free_nil.
    + by apply Markers.free_nil.
  - destruct Ht as (Ht1 & _ & Ht3 & _).
    unfold readmeCleanUp. by rewrite CleanFacts.remove_nothing.
Qed.

Lemma readmeCleanUp_undoes_insertInfoReadme_witness :
  readmeCleanUp (insertInfoReadme_text "<h1>Pick</h1>" "<br>" "Implement Pick. ")
  = Str.trim "Implement Pick. "
  ∧ readmeCleanUp "Implement Pick. " = Str.trim "Implement Pick. ".
Proof.
  apply (readmeCleanUp_undoes_insertInfoReadme "<h1>Pick</h1>" "<br>" "Implement Pick. ");
    reflexivity.
Defined.

(** X5. Of a document with a header region and a footer region,
    [readmeCleanUp] leaves the text around the regions, trimmed, whatever
    the header region holds, and for a footer region that holds no header
    end marker: the header region runs from the first start marker to the
    last end marker of the document. The text before and the text between
    the regions must not make up a footer start marker when they are
    joined. *)
Theorem readmeCleanUp_regions (pre x mid y post : string) :
  contains header_start pre = false →
  contains header_end mid = false → contains header_end y = false →
  contains header_end post = false →
  contains footer_start (pre +:+ mid) = false →
  contains footer_end post = false →
  readmeCleanUp (shaped pre x mid y post) = Str.trim (pre +:+ mid +:+ post).
Proof.
  intros H1%Markers.free_of_contains H2%Markers.free_of_contains
    H3%Markers.free_of_contains H4%Markers.free_of_contains
    H5%Markers.free_of_contains H6%Markers.free_of_contains.
  unfold readmeCleanUp. by rewrite CleanFacts.remove_regions.
Qed.

Lemma readmeCleanUp_regions_witness :
  readmeCleanUp
    (shaped "" "<h1>old <!--info-header-end--></h1>"
       (String "010" "Implement Pick." +:+ String "010" "") "<br>" "")
  = Str.trim ("" +:+ (String "010" "Implement Pick." +:+ String "010" "") +:+ "").
Proof.
  apply (readmeCleanUp_regions "" "<h1>old <!--info-header-end--></h1>"
           (String "010" "Implement Pick." +:+ String "010" "") "<br>" "");
    reflexivity.
Defined.

(** With a header end marker in the footer region the header region runs
    up to there, and what is left of the footer region stays. *)
Example readmeCleanUp_header_end_in_footer :
  readmeCleanUp (shaped "" "h" "MID" ("a" +:+ header_end +:+ "b") "")
  = "b" +:+ footer_end.
Proof. vm_compute. reflexivity. Qed.

(** X6. What [insertInfoReadme] writes. A README without markers gets the
    header region in front and the footer region behind, each two line feeds
    away from the text, which stays as it is byte for byte; in a README
    with one header region and one footer region the content of the two
    regions is replaced and the text around them stays as it is. *)
Theorem insertInfoReadme_text_regions (header footer : string) :
  marker_free header = true →
  Str.mem "$" header = false → Str.mem "$" footer = false →
  (∀ text, marker_free text = true →
     insertInfoReadme_text header footer text
     = header_start +:+ header +:+ header_end
       +:+ String "010" (String "010" "") +:+ text +:+ String "010" (String "010" "")
       +:+ footer_start +:+ footer +:+ footer_end)
  ∧ (∀ pre x mid y post,
       marker_free pre = true → marker_free x = true → marker_free mid = true →
       marker_free y = true → marker_free post = true →
       insertInfoReadme_text header footer (shaped pre x mid y post)
       = shaped pre header mid footer post).
Proof.
  intros Hh%Regions.mfree_of_bool Hdh Hdf. split.
  - intros text Ht%Regions.mfree_of_bool.
    rewrite Regions.insert_fresh by done. unfold shaped.
    repeat (rewrite StrFacts.app_assoc || rewrite StrFacts.app_cons
            || rewrite StrFacts.app_nil_l || rewrite StrFacts.app_nil_r).
    done.
  - intros pre x mid y post Hpre%Regions.mfree_of_bool Hx%Regions.mfree_of_bool
      Hmid%Regions.mfree_of_bool Hy%Regions.mfree_of_bool Hpost%Regions.mfree_of_bool.
    by apply Regions.insert_shaped.
Qed.

Lemma insertInfoReadme_text_regions_witness :
  insertInfoReadme_text "<h1>Pick</h1>" "<br>" "Implement Pick."
  = header_start +:+ "<h1>Pick</h1>" +:+ header_end
    +:+ String "010" (String "010" "") +:+ "Implement Pick."
    +:+ String "010" (String "010" "")
    +:+ footer_start +:+ "<br>" +:+ footer_end.
Proof.
  apply (insertInfoReadme_text_regions "<h1>Pick</h1>" "<br>"); reflexivity.
Defined.

(** ** The files of a quiz, by locale *)

Section LocaleFacts.

Context `{Externals}.

Lemma locales_loop {T : Type} (corpus : gmap string string) (dir name ext : string)
    (preprocessor : string → Run (option T)) (l : list string) :
  (∀ s, returns (preprocessor s)) →
  ∀ data0, ∃ data,
    completion (foldM (λ (data : gmap string T) locale,
                  file ← preprocessor
                    (default "" (loadFile corpus
                       (path_join dir (name +:+ "." +:+ locale +:+ ext))));
                  mret (match file with
                        | Some file => <[locale := file]> data
                        | None => data
                        end)) l data0) = Normal data
    ∧ ∀ locale,
        data !! locale
        = if decide (locale ∈ l)
          then match returned (preprocessor
                       (default "" (loadFile corpus
                          (path_join dir (name +:+ "." +:+ locale +:+ ext)))))
               with
               | Some file => Some file
               | None => data0 !! locale
               end
          else data0 !! locale.
Proof.
  intros Hp. induction l as [|x l IH]; intros data0.
  - exists data0. split; [done|]. intros locale.
    rewrite decide_False; [done|]. apply not_elem_of_nil.
  - destruct (Hp (default "" (loadFile corpus
                    (path_join dir (name +:+ "." +:+ x +:+ ext))))) as [file Hfile].
    set (data1 := match file with
                  | Some file => <[x := file]> data0
                  | None => data0
                  end).
    destruct (IH data1) as (data & Hdata & Hlookup).
    exists data. split.
    + cbn [foldM]. rewrite (run_bind_normal _ _ data1).
      * done.
      * by rewrite (run_bind_normal _ _ file).
    + intros locale. rewrite Hlookup. unfold returned.
      destruct (decide (locale = x)) as [->|Hne].
      * rewrite (decide_True (P := x ∈ x :: l)) by apply list_elem_of_here.
        rewrite Hfile. subst data1.
        destruct file as [file|]; [|by destruct (decide (x ∈ l))].
        rewrite lookup_insert_eq. by destruct (decide (x ∈ l)).
      * assert (data1 !! locale = data0 !! locale) as ->.
        { subst data1. destruct file; [|done]. by rewrite lookup_insert_ne. }
        destruct (decide (locale ∈ l)) as [Hin|Hnin].
        -- rewrite decide_True; [done|]. by apply list_elem_of_further.
        -- rewrite decide_False; [done|]. rewrite elem_of_cons. naive_solver.
Qed.

(** What [loadLocaleVariations] returns, key by key. *)
Lemma loadLocaleVariations_spec {T : Type} (corpus : gmap string string)
    (dir name ext : string) (preprocessor : string → Run (option T)) :
  (∀ s, returns (preprocessor s)) →
  ∃ data,
    completion (loadLocaleVariations corpus dir name ext preprocessor) = Normal data
    ∧ ∀ locale,
        data !! locale
        = let localized :=
            if decide (locale ∈ supportedLocales)
            then returned (preprocessor
                   (default "" (loadFile corpus
                      (path_join dir (name +:+ "." +:+ locale +:+ ext)))))
            else None in
          if decide (locale = defaultLocale)
          then match localized with
               | Some file => Some file
               | None => returned (preprocessor
                           (default "" (loadFile corpus (path_join dir (name +:+ ext)))))
               end
          else localized.
Proof.
  intros Hp. unfold loadLocaleVariations.
  destruct (locales_loop corpus dir name ext preprocessor supportedLocales Hp ∅)
    as (data & Hdata & Hlookup).
  assert (∀ locale, data !! locale
            = if decide (locale ∈ supportedLocales)
              then returned (preprocessor
                     (default "" (loadFile corpus
                        (path_join dir (name +:+ "." +:+ locale +:+ ext)))))
              else None) as Hdata'.
  { intros locale. rewrite Hlookup, lookup_empty.
    destruct (decide (locale ∈ supportedLocales)); [|done]. by destruct (returned _). }
  rewrite (run_bind_normal _ _ data Hdata). cbn [completion].
  destruct (data !! defaultLocale) as [v|] eqn:Hdefault.
  - exists data. split; [done|]. intros locale. cbn zeta.
    rewrite <- Hdata'. destruct (decide (locale = defaultLocale)) as [->|]; [|done].
    by rewrite Hdefault.
  - destruct (Hp (default "" (loadFile corpus (path_join dir (name +:+ ext)))))
      as [file Hfile].
    exists (match file with
            | Some file => <[defaultLocale := file]> data
            | None => data
            end).
    split; [by rewrite (run_bind_normal _ _ file)|].
    intros locale. cbn zeta. rewrite <- Hdata'.
    destruct (decide (locale = defaultLocale)) as [->|Hne].
    + rewrite Hdefault. unfold returned. rewrite Hfile.
      destruct file; [by rewrite lookup_insert_eq|done].
    + destruct file; [by rewrite lookup_insert_ne|done].
Qed.

End LocaleFacts.

(** X7. What [loadLocaleVariations] returns for a file, with a
    preprocessor that does not throw. A supported locale has an entry when
    the preprocessor makes something truthy of the file with the locale in
    its name (of the empty text when there is no such file), and the entry
    is that; the default locale falls back on the file without a locale in
    its name when it has got no entry that way, and no other locale does;
    a locale that is not supported has no entry, unless it is the default
    one. *)
Theorem loadLocaleVariations_lookup `{Externals} {T : Type}
    (corpus : gmap string string) (dir name ext : string)
    (preprocessor : string → Run (option T)) :
  (∀ s, returns (preprocessor s)) →
  ∃ data,
    completion (loadLocaleVariations corpus dir name ext preprocessor) = Normal data
    ∧ ∀ locale,
        data !! locale
        = let localized :=
            if decide (locale ∈ supportedLocales)
            then returned (preprocessor
                   (default "" (loadFile corpus
                      (path_join dir (name +:+ "." +:+ locale +:+ ext)))))
            else None in
          if decide (locale = defaultLocale)
          then match localized with
               | Some file => Some file
               | None => returned (preprocessor
                           (default "" (loadFile corpus (path_join dir (name +:+ ext)))))
               end
          else localized.
Proof. apply loadLocaleVariations_spec. Qed.

Lemma loadLocaleVariations_lookup_witness :
  ∃ data,
    completion (@loadLocaleVariations sample_externals string sample_corpus
                  "/repo/questions/00004-easy-pick" "README" ".md"
                  (λ s, mret (if decide (s = "") then None else Some s)))
    = Normal data
    ∧ data !! "ja" = Some "Pick (ja)" ∧ data !! "pt-BR" = None.
Proof.
  destruct (@loadLocaleVariations_lookup sample_externals string sample_corpus
              "/repo/questions/00004-easy-pick" "README" ".md"
              (λ s, mret (if decide (s = "") then None else Some s)))
    as (data & Hdata & Hlookup).
  - intros s. by eexists.
  - exists data. split; [exact Hdata|]. by rewrite !Hlookup.
Defined.

(** ** Splitting at commas *)

Module SplitFacts.

Import StrFacts TrimFacts.

Lemma split_go_pieces (sep : ascii) (s : string) : ∀ cur,
  Str.mem sep cur = false →
  Forall (λ piece, Str.mem sep piece = false) (Str.split_go sep cur s).
Proof.
  induction s as [|c s IH]; intros cur Hcur; simpl.
  - constructor; [|constructor]. by rewrite mem_rev.
  - case_bool_decide as Hc.
    + constructor; [by rewrite mem_rev|]. by apply IH.
    + apply IH. simpl. rewrite Hcur, orb_false_r. by apply bool_decide_eq_false_2.
Qed.

Lemma split_go_free (sep : ascii) (s : string) : ∀ cur,
  Str.mem sep s = false → Str.split_go sep cur s = [String.rev cur +:+ s].
Proof.
  induction s as [|c s IH]; intros cur; simpl.
  - intros _. by rewrite app_nil_r.
  - intros [Hc Hs]%orb_false_elim. rewrite Hc, IH by done.
    by rewrite rev_cons, app_assoc.
Qed.

Lemma split_go_app (sep : ascii) (a b : string) : ∀ cur,
  Str.mem sep a = false →
  Str.split_go sep cur (a +:+ String sep b)
  = (String.rev cur +:+ a) :: Str.split_go sep "" b.
Proof.
  induction a as [|c a IH]; intros cur.
  - intros _. rewrite app_nil_l, app_nil_r. simpl.
    by rewrite bool_decide_eq_true_2.
  - intros Hmem. simpl in Hmem. apply orb_false_elim in Hmem as [Hc Ha].
    rewrite app_cons. simpl.
    rewrite Hc, IH by done. by rewrite rev_cons, app_assoc.
Qed.

(** Joining items without a comma with commas, as [toString] does for an
    array, and splitting the text again gives the items back. *)
Lemma split_toString (items : list string) :
  items ≠ [] → Forall (λ i, Str.mem "," i = false) items →
  Str.split "," (js_toString (VArray (VString <$> items))) = items.
Proof.
  induction items as [|x items IH]; [done|]. intros _ Hitems.
  apply Forall_cons in Hitems as [Hx Hitems].
  destruct items as [|y items].
  - unfold Str.split. simpl. by rewrite split_go_free.
  - change (js_toString (VArray (VString <$> x :: y :: items)))
      with (x +:+ "," +:+ js_toString (VArray (VString <$> y :: items))).
    unfold Str.split in *. rewrite app_cons, app_nil_l, split_go_app by done.
    by rewrite IH.
Qed.

Lemma items_clean (s : string) :
  Forall clean_item (filter (λ i, i ≠ "") (Str.trim <$> Str.split "," s)).
Proof.
  apply Forall_forall. intros i [Hne Hi]%list_elem_of_filter.
  apply list_elem_of_fmap in Hi as (piece & -> & Hpiece).
  split; [done|]. split; [|apply trim_trimmed].
  apply mem_trim.
  assert (Forall (λ piece, Str.mem "," piece = false) (Str.split "," s)) as Hall
    by (by apply split_go_pieces).
  by apply (proj1 (Forall_forall _ _) Hall).
Qed.

Lemma trim_clean_items (items : list string) :
  Forall clean_item items → Str.trim <$> items = items.
Proof.
  induction 1 as [|i items (_ & _ & Hi) _ IH]; [done|].
  by rewrite fmap_cons, IH, trimmed_trim.
Qed.

Lemma filter_clean_items (items : list string) :
  Forall clean_item items → filter (λ i, i ≠ "") items = items.
Proof.
  induction 1 as [|i items (Hi & _) _ IH]; [done|].
  by rewrite filter_cons_True, IH.
Qed.

(** Items that are clean are what the normalisation makes of their list. *)
Lemma clean_items_fixed (items : list string) :
  Forall clean_item items →
  filter (λ i, i ≠ "")
    (Str.trim <$> Str.split "," (js_toString (VArray (VString <$> items))))
  = items.
Proof.
  intros Hclean. destruct (decide (items = [])) as [->|Hne]; [done|].
  rewrite split_toString; [|done|].
  - by rewrite trim_clean_items, filter_clean_items.
  - eapply Forall_impl; [exact Hclean|]. by intros i (_ & ? & _).
Qed.

End SplitFacts.

(** ** The metadata and the README of a loaded quiz *)

Section LoadFacts.

Context `{Externals}.

Lemma normalizeArrayKey_clean (object : Obj) (key : string) :
  clean_list (get (normalizeArrayKey object key) key).
Proof.
  unfold normalizeArrayKey. destruct (truthy (get object key)).
  - right. rewrite get_insert_eq. eexists. split; [done|]. apply SplitFacts.items_clean.
  - left. by rewrite get_insert_eq.
Qed.

Lemma normalizeArrayKey_fixed (object : Obj) (key : string) (items : list string) :
  get object key = VArray (VString <$> items) → Forall clean_item items →
  get (normalizeArrayKey object key) key = VArray (VString <$> items).
Proof.
  intros Hget Hclean. unfold normalizeArrayKey. rewrite Hget. simpl truthy. cbv iota.
  by rewrite get_insert_eq, SplitFacts.clean_items_fixed.
Qed.

Lemma loadInfo_clean (s : string) (object : Obj) (key : string) :
  completion (loadInfo s) = Normal (Some object) →
  key = "tags" ∨ key = "related" →
  clean_list (get object key).
Proof.
  assert (∀ base : Obj,
            clean_list (get (foldl normalizeArrayKey base ["tags"; "related"]) key)
            ∨ (key ≠ "tags" ∧ key ≠ "related")) as Hfold.
  { intros base. simpl.
    destruct (decide (key = "related")) as [->|Hrelated];
      [left; apply normalizeArrayKey_clean|].
    destruct (decide (key = "tags")) as [->|Htags]; [|by right].
    left. rewrite normalizeArrayKey_other by done. apply normalizeArrayKey_clean. }
  unfold loadInfo. destruct (YAML_load s) as [value|]; [|done].
  destruct (negb (truthy value)); [done|].
  destruct value; try done; intros [= <-] Hkey;
    (destruct (Hfold (list_to_map props)) as [?|[? ?]] ||
     destruct (Hfold (array_props items)) as [?|[? ?]]); naive_solver.
Qed.

(** Where an entry of what [loadLocaleVariations] returns comes from. *)
Lemma loadLocaleVariations_entry {T : Type} (corpus : gmap string string)
    (dir name ext : string) (preprocessor : string → Run (option T))
    (data : gmap string T) (locale : string) (v : T) :
  (∀ s, returns (preprocessor s)) →
  completion (loadLocaleVariations corpus dir name ext preprocessor) = Normal data →
  data !! locale = Some v →
  (locale ∈ supportedLocales ∨ locale = defaultLocale)
  ∧ ∃ file, completion (preprocessor (default "" (loadFile corpus file))) = Normal (Some v).
Proof.
  intros Hp Hdata Hv.
  destruct (loadLocaleVariations_spec corpus dir name ext preprocessor Hp)
    as (data' & Hdata' & Hlookup).
  rewrite Hdata in Hdata'. injection Hdata' as <-.
  rewrite Hlookup in Hv. cbn zeta in Hv.
  assert (∀ file, returned (preprocessor (default "" (loadFile corpus file))) = Some v →
            ∃ file, completion (preprocessor (default "" (loadFile corpus file)))
                    = Normal (Some v)) as Hret.
  { intros file Hfile. exists file. unfold returned in Hfile.
    destruct (completion (preprocessor (default "" (loadFile corpus file))))
      as [[v'|]|err|code]; by simplify_eq. }
  destruct (decide (locale ∈ supportedLocales)) as [Hin|Hnin];
    destruct (decide (locale = defaultLocale)) as [->|Hne].
  - split; [by left|]. destruct (returned _) eqn:Hloc.
    + simplify_eq. by eapply Hret.
    + by eapply Hret.
  - split; [by left|]. by eapply Hret.
  - split; [by right|]. by eapply Hret.
  - done.
Qed.

(** The quiz that [loadQuiz] returns. *)
Lemma loadQuiz_normal (corpus : gmap string string) (dir : string) :
  ∃ info_ readme_,
    completion (loadLocaleVariations corpus (path_join QUIZ_ROOT dir)
                  "info" ".yml" loadInfo) = Normal info_
    ∧ completion (loadLocaleVariations corpus (path_join QUIZ_ROOT dir)
                    "README" ".md"
                    (λ s, mret (match readmeCleanUp s with
                                | "" => None
                                | text => Some text
                                end))) = Normal readme_
    ∧ completion (loadQuiz corpus dir)
      = Normal {| no := Number (parseNo dir);
                  difficulty := parseDifficulty dir;
                  path := dir;
                  info := info_;
                  readme := readme_;
                  template :=
                    default "" (loadFile corpus
                                  (path_join (path_join QUIZ_ROOT dir) "template.ts"));
                  tests := loadFile corpus
                             (path_join (path_join QUIZ_ROOT dir) "test-cases.ts") |}.
Proof.
  destruct (loadLocaleVariations_returns corpus (path_join QUIZ_ROOT dir)
              "info" ".yml" loadInfo loadInfo_returns) as [info_ Hinfo].
  destruct (loadLocaleVariations_returns corpus (path_join QUIZ_ROOT dir)
              "README" ".md"
              (λ s, mret (match readmeCleanUp s with
                          | "" => None
                          | text => Some text
                          end)) (λ s, returns_ret _)) as [readme_ Hreadme].
  exists info_, readme_. split; [done|]. split; [done|].
  unfold loadQuiz, try_catch.
  rewrite (run_bind_normal _ _ info_ Hinfo). simpl.
  rewrite (run_bind_normal _ _ readme_ Hreadme). simpl. done.
Qed.

Lemma mapM_returns {A B : Type} (f : A → Run B) (l : list A) :
  (∀ x, returns (f x)) →
  ∃ ys, completion (mapM f l) = Normal ys
        ∧ Forall2 (λ x y, completion (f x) = Normal y) l ys.
Proof.
  intros Hf. induction l as [|x l (ys & Hys & Hall)].
  - exists []. by split; [|constructor].
  - destruct (Hf x) as [y Hy]. exists (y :: ys). split; [|by constructor].
    cbn [mapM]. rewrite (run_bind_normal _ _ y Hy). cbn [completion].
    by rewrite (run_bind_normal _ _ ys Hys).
Qed.

End LoadFacts.

(** X8. The [tags] and the [related] of metadata that [loadInfo] returns
    are undefined or a list of strings that are not empty, hold no comma and
    have no white space around them. *)
Theorem loadInfo_items_clean `{Externals} (s : string) (object : Obj) (key : string) :
  completion (loadInfo s) = Normal (Some object) →
  key = "tags" ∨ key = "related" →
  get object key = VUndefined
  ∨ ∃ items, get object key = VArray (VString <$> items) ∧ Forall clean_item items.
Proof. apply loadInfo_clean. Qed.

Lemma loadInfo_items_clean_witness :
  get (foldl normalizeArrayKey
         (list_to_map [("title", VString "Pick"); ("tags", VString "union, built-in,")])
         ["tags"; "related"]) "tags"
  = VUndefined
  ∨ ∃ items,
      get (foldl normalizeArrayKey
             (list_to_map [("title", VString "Pick"); ("tags", VString "union, built-in,")])
             ["tags"; "related"]) "tags"
      = VArray (VString <$> items)
      ∧ Forall clean_item items.
Proof.
  apply (@loadInfo_items_clean sample_externals_tags "union, built-in,").
  - reflexivity.
  - by left.
Defined.

(** X9. A list of clean items that the YAML document has for [tags] or
    for [related] comes out of [loadInfo] as it is. *)
Theorem loadInfo_keeps_clean_lists `{Externals} (s : string)
    (props : list (string * JSValue)) (key : string) (items : list string) :
  YAML_load s = Some (VObject props) →
  key = "tags" ∨ key = "related" →
  get (list_to_map props) key = VArray (VString <$> items) →
  Forall clean_item items →
  ∃ object, loadInfo s = mret (Some object)
            ∧ get object key = VArray (VString <$> items).
Proof.
  intros Hyaml Hkey Hget Hclean. unfold loadInfo. rewrite Hyaml. simpl.
  eexists. split; [done|].
  destruct Hkey as [-> | ->].
  - rewrite normalizeArrayKey_other by done. by apply normalizeArrayKey_fixed.
  - apply normalizeArrayKey_fixed; [|done]. by rewrite normalizeArrayKey_other.
Qed.

Lemma loadInfo_keeps_clean_lists_witness :
  ∃ object, @loadInfo sample_externals_tags "- union" = mret (Some object)
            ∧ get object "tags" = VArray (VString <$> ["union"]).
Proof.
  apply (@loadInfo_keeps_clean_lists sample_externals_tags "- union"
           [("title", VString "Pick"); ("tags", VArray [VString "union"])]).
  - reflexivity.
  - by left.
  - reflexivity.
  - repeat constructor; done.
Defined.

(** X10. Every README of a quiz that [loadQuiz] returns is the cleaned
    text of a file of the corpus, under a supported locale or the default
    one; it is not empty and has no white space around it. A README that is
    empty once it is cleaned has no entry. *)
Theorem loadQuiz_readme_clean `{Externals} (corpus : gmap string string)
    (dir : string) (quiz : Quiz) (locale text : string) :
  completion (loadQuiz corpus dir) = Normal quiz →
  readme quiz !! locale = Some text →
  text ≠ "" ∧ trimmed text
  ∧ (locale ∈ supportedLocales ∨ locale = defaultLocale)
  ∧ ∃ file raw, corpus !! file = Some raw ∧ text = readmeCleanUp raw.
Proof.
  intros Hquiz Htext.
  destruct (loadQuiz_normal corpus dir) as (info_ & readme_ & _ & Hreadme & Hq).
  rewrite Hquiz in Hq. injection Hq as ->. cbn [readme] in Htext.
  destruct (loadLocaleVariations_entry _ _ _ _ _ _ _ _ (λ s, returns_ret _) Hreadme Htext)
    as (Hlocale & file & Hfile).
  cbn in Hfile.
  destruct (readmeCleanUp (default "" (loadFile corpus file))) as [|c t] eqn:Hclean;
    [done|].
  injection Hfile as <-.
  split; [done|]. split.
  - rewrite <- Hclean. apply TrimFacts.trim_trimmed.
  - split; [done|]. unfold loadFile in Hclean.
    destruct (corpus !! file) as [raw|] eqn:Hraw; [|done].
    by exists file, raw.
Qed.

Lemma loadQuiz_readme_clean_witness :
  "Implement Pick." ≠ "" ∧ trimmed "Implement Pick."
  ∧ ("en" ∈ @supportedLocales sample_externals ∨ "en" = @defaultLocale sample_externals)
  ∧ ∃ file raw, sample_corpus !! file = Some raw ∧ "Implement Pick." = readmeCleanUp raw.
Proof.
  destruct (@loadQuiz_normal sample_externals sample_corpus "00004-easy-pick")
    as (info_ & readme_ & _ & Hreadme & Hquiz).
  apply (@loadQuiz_readme_clean sample_externals sample_corpus "00004-easy-pick"
           _ "en" "Implement Pick." Hquiz).
  cbn [readme]. vm_compute in Hreadme. injection Hreadme as <-. reflexivity.
Defined.

Section ResolveLoaded.

Context `{Externals}.

Lemma loadQuiz_info_clean (corpus : gmap string string) (dir : string) (quiz : Quiz)
    (locale key : string) :
  completion (loadQuiz corpus dir) = Normal quiz →
  key = "tags" ∨ key = "related" →
  clean_list (get_opt (info quiz !! locale) key).
Proof.
  intros Hquiz Hkey.
  destruct (loadQuiz_normal corpus dir) as (info_ & readme_ & Hinfo & _ & Hq).
  rewrite Hquiz in Hq. injection Hq as ->. cbn [info].
  destruct (info_ !! locale) as [object|] eqn:Hobject; [|by left].
  destruct (loadLocaleVariations_entry _ _ _ _ _ _ _ _ loadInfo_returns Hinfo Hobject)
    as (_ & file & Hfile).
  by eapply loadInfo_clean.
Qed.

Lemma js_or_clean (a b : JSValue) :
  clean_list a → clean_list b →
  ∃ items, js_or a (js_or b (VArray [])) = VArray (VString <$> items)
           ∧ Forall clean_item items.
Proof.
  intros [->|(items & -> & Hitems)] [->|(items' & -> & Hitems')].
  - by exists [].
  - by exists items'.
  - by exists items.
  - by exists items.
Qed.

Lemma js_or_truthy (a b : JSValue) : truthy (js_or a (js_or b (VArray []))) = true.
Proof.
  unfold js_or. destruct (truthy a) eqn:Ha; [done|]. by destruct (truthy b) eqn:Hb.
Qed.

End ResolveLoaded.

(** X11. From the loader to the resolver: for a quiz that [loadQuiz]
    returns, [resolveInfo] gives [tags] and [related] as lists of clean
    strings, in every locale and also without one. *)
Theorem loadQuiz_resolveInfo_lists `{Externals} (corpus : gmap string string)
    (dir : string) (quiz : Quiz) (locale : option string) (key : string) :
  completion (loadQuiz corpus dir) = Normal quiz →
  key = "tags" ∨ key = "related" →
  ∃ items, get (resolveInfo quiz locale) key = VArray (VString <$> items)
           ∧ Forall clean_item items.
Proof.
  intros Hquiz Hkey.
  destruct (js_or_clean
              (get_opt (info quiz !! default defaultLocale locale) key)
              (get_opt (info quiz !! defaultLocale) key))
    as (items & Hitems & Hclean); [by eapply loadQuiz_info_clean..|].
  exists items. split; [|done].
  destruct Hkey as [-> | ->].
  - by rewrite resolveInfo_tags, Hitems.
  - by rewrite resolveInfo_related.
Qed.

Lemma loadQuiz_resolveInfo_lists_witness :
  ∃ quiz,
    completion (@loadQuiz sample_externals_tags sample_corpus "00004-easy-pick")
    = Normal quiz
    ∧ ∃ items, get (@resolveInfo sample_externals_tags quiz (Some "ja")) "tags"
               = VArray (VString <$> items)
               ∧ Forall clean_item items.
Proof.
  destruct (@loadQuiz_normal sample_externals_tags sample_corpus "00004-easy-pick")
    as (info_ & readme_ & _ & _ & Hquiz).
  eexists. split; [exact Hquiz|].
  apply (@loadQuiz_resolveInfo_lists sample_externals_tags sample_corpus
           "00004-easy-pick" _ (Some "ja") "tags" Hquiz).
  by left.
Defined.

(** X12. Whatever the metadata holds, the [tags] that [resolveInfo] gives
    are never a string (a string is split into a list), and neither its
    [tags] nor its [related] are missing or falsy. *)
Theorem resolveInfo_tags_never_string `{Externals} (quiz : Quiz)
    (locale : option string) :
  (∀ s, get (resolveInfo quiz locale) "tags" ≠ VString s)
  ∧ truthy (get (resolveInfo quiz locale) "tags") = true
  ∧ truthy (get (resolveInfo quiz locale) "related") = true.
Proof.
  rewrite resolveInfo_tags, resolveInfo_related.
  pose proof (js_or_truthy
                (get_opt (info quiz !! default defaultLocale locale) "tags")
                (get_opt (info quiz !! defaultLocale) "tags")) as Htags.
  split; [|split].
  - intros s. by destruct (js_or _ _).
  - by destruct (js_or _ _) as [| | | |[|]| |].
  - apply js_or_truthy.
Qed.

(** ** The number of a quiz *)

Lemma skip_line_one_line (s : string) : one_line s = true → skip_line s = "".
Proof.
  induction s as [|c s IH]; [done|]. simpl.
  destruct (is_line_terminator c); [done|]. apply IH.
Qed.

(** X13. The number of a quiz is [Number] of what the pattern leaves of
    the folder name: for a name that begins with digits and a dash, the
    digits, followed by what stands behind the first line when the name has
    more than one line; for a name that does not begin with a digit, the
    whole name. *)
Theorem loadQuiz_no `{Externals} (corpus : gmap string string) (dir : string) :
  (∃ quiz, completion (loadQuiz corpus dir) = Normal quiz
           ∧ no quiz = Number (parseNo dir))
  ∧ (∀ digits rest,
       dir = digits +:+ String "-" rest → digits ≠ "" → all_digits digits = true →
       parseNo dir = digits +:+ skip_line rest
       ∧ (one_line rest = true → parseNo dir = digits))
  ∧ (∀ c rest, dir = String c rest → is_digit c = false → parseNo dir = dir).
Proof.
  split; [|split].
  - destruct (loadQuiz_normal corpus dir) as (info_ & readme_ & _ & _ & Hq).
    eexists. split; [exact Hq|done].
  - intros digits rest -> Hne Hdigits.
    assert (parseNo (digits +:+ String "-" rest) = digits +:+ skip_line rest) as Hno.
    { unfold parseNo. rewrite take_digits_app, skip_digits_app by done.
      by destruct digits. }
    split; [done|]. intros Hline.
    by rewrite Hno, skip_line_one_line, StrFacts.app_nil_r.
  - intros c rest -> Hc. unfold parseNo. simpl. by rewrite Hc.
Qed.

Lemma loadQuiz_no_witness :
  parseNo "00004-easy-pick" = "00004" +:+ skip_line "easy-pick"
  ∧ (one_line "easy-pick" = true → parseNo "00004-easy-pick" = "00004").
Proof.
  destruct (@loadQuiz_no sample_externals ∅ "00004-easy-pick") as (_ & Hshape & _).
  apply (Hshape "00004" "easy-pick"); [reflexivity|done|reflexivity].
Defined.

(** X14. [loadQuizes] returns one quiz for each folder, in the order of
    the folders, each the quiz that [loadQuiz] returns for the folder and
    with the folder as its path; it does not throw. *)
Theorem loadQuizes_one_per_folder `{Externals} (corpus : gmap string string)
    (folders : list string) :
  ∃ quizes,
    completion (loadQuizes corpus folders) = Normal quizes
    ∧ path <$> quizes = folders
    ∧ Forall2 (λ dir quiz, completion (loadQuiz corpus dir) = Normal quiz)
        folders quizes.
Proof.
  destruct (mapM_returns (loadQuiz corpus) folders) as (quizes & Hquizes & Hall).
  { intros dir. destruct (loadQuiz_returns corpus dir) as (quiz & Hq & _).
    by exists quiz. }
  exists quizes. split; [|split; [|done]].
  - unfold loadQuizes, try_catch. by rewrite Hquizes.
  - clear Hquizes. induction Hall as [|dir quiz folders quizes Hq _ IH]; [done|].
    rewrite fmap_cons, IH. f_equal.
    destruct (loadQuiz_returns corpus dir) as (quiz' & Hq' & _ & Hpath).
    rewrite Hq in Hq'. by injection Hq' as <-.
Qed.

(** X15. [loadQuizByNo] does not throw: it returns nothing when the glob
    finds no folder, and else the quiz of the first folder found. *)
Theorem loadQuizByNo_first_folder `{Externals} (corpus : gmap string string)
    (no : string) (folders : list string) :
  ∃ result,
    completion (loadQuizByNo corpus no folders) = Normal result
    ∧ match folders with
      | [] => result = None
      | dir :: _ =>
          ∃ quiz, result = Some quiz
                  ∧ completion (loadQuiz corpus dir) = Normal quiz
                  ∧ path quiz = dir
      end.
Proof.
  destruct folders as [|dir folders].
  - by exists None.
  - destruct (loadQuiz_returns corpus dir) as (quiz & Hq & _ & Hpath).
    exists (Some quiz). split.
    + unfold loadQuizByNo, try_catch. by rewrite (run_bind_normal _ _ quiz Hq).
    + by exists quiz.
Qed.

(** ** What a snapshot holds *)

Module SnapshotFacts.

Lemma lookup_entry_elem (name : string) (entries : list (string * node)) (n : node) :
  lookup_entry name entries = Some n → (name, n) ∈ entries.
Proof.
  induction entries as [|[name' n'] entries IH]; simpl; [done|].
  case_decide as Hname.
  - intros [= ->]. subst. apply list_elem_of_here.
  - intros Hl. apply list_elem_of_further. by apply IH.
Qed.

Lemma visits_elem (root : string) (entries : list (string * node)) (name : string)
    (n : node) (v : string * string * node) :
  (name, n) ∈ entries → v ∈ visits_file root name n → v ∈ visits root entries.
Proof.
  intros Hin Hv. unfold visits. apply list_elem_of_In, in_flat_map.
  exists (name, n). split; by apply list_elem_of_In.
Qed.

Lemma visits_file_leaf (root name : string) (n : node) :
  is_dir n = false → visits_file root name n = [(name, path_join root name, n)].
Proof. by destruct n. Qed.

(** A file of the tree is visited, under its name and with the path that
    leads to it. *)
Lemma node_at_visits (p : list string) : ∀ (entries : list (string * node))
    (root name : string) (n : node),
  node_at (Dir entries) (p ++ [name]) = Some n → is_dir n = false →
  (name, foldl path_join root (p ++ [name]), n) ∈ visits root entries.
Proof.
  induction p as [|x p IH]; intros entries root name n Hn Hleaf.
  - simpl in Hn. destruct (lookup_entry name entries) as [n'|] eqn:Hl; [|done].
    injection Hn as ->. apply lookup_entry_elem in Hl.
    eapply visits_elem; [done|]. rewrite visits_file_leaf by done.
    apply list_elem_of_here.
  - change ((x :: p) ++ [name]) with (x :: (p ++ [name])) in *.
    cbn [node_at foldl] in *.
    destruct (lookup_entry x entries) as [n1|] eqn:Hl; [|done].
    apply lookup_entry_elem in Hl.
    destruct n1 as [data| |sub].
    + apply node_at_leaf in Hn as [Hnil _]; [|done]. by destruct p.
    + apply node_at_leaf in Hn as [Hnil _]; [|done]. by destruct p.
    + eapply visits_elem; [done|].
      change (visits_file root x (Dir sub)) with (visits (path_join root x) sub).
      by apply IH.
Qed.

Lemma record_visits_is_Some (l : list (string * string * node)) :
  ∀ (m : Snapshot) (name : string),
    is_Some (record_visits l m !! name)
    ↔ is_Some (m !! name) ∨ ∃ fp n, (name, fp, n) ∈ l.
Proof.
  induction l as [|[[name' fp'] n'] l IH]; intros m name.
  - simpl. split; [by left|].
    intros [?|(fp & n & Hin)]; [done|]. by apply elem_of_nil in Hin.
  - change (record_visits ((name', fp', n') :: l) m)
      with (record_visits l (<[name' := fingerprint_of (name', fp', n')]> m)).
    rewrite IH, lookup_insert_is_Some. split.
    + intros [[->|[_ ?]]|(fp & n & Hin)].
      * right. exists fp', n'. apply list_elem_of_here.
      * by left.
      * right. exists fp, n. by apply list_elem_of_further.
    + intros [Hm|(fp & n & Hin)].
      * left. destruct (decide (name' = name)); [by left|by right].
      * apply elem_of_cons in Hin as [[= -> -> ->]|Hin]; [left; by left|].
        right. by exists fp, n.
Qed.

Lemma record_visits_lookup_unique (l : list (string * string * node)) (name h : string) :
  ∀ m : Snapshot,
    m !! name = Some h ∨ (∃ v, v ∈ l ∧ v.1.1 = name) →
    (∀ v, v ∈ l → v.1.1 = name → fingerprint_of v = h) →
    record_visits l m !! name = Some h.
Proof.
  induction l as [|v l IH]; intros m Hsome Hall.
  - destruct Hsome as [?|(v & Hin & _)]; [done|]. by apply elem_of_nil in Hin.
  - change (record_visits (v :: l) m)
      with (record_visits l (<[v.1.1 := fingerprint_of v]> m)).
    apply IH.
    + destruct (decide (v.1.1 = name)) as [Hv|Hv].
      * left. rewrite <- Hv, lookup_insert_eq. f_equal.
        apply Hall; [apply list_elem_of_here|done].
      * rewrite lookup_insert_ne by done.
        destruct Hsome as [?|(v' & Hin & Hv')]; [by left|].
        apply elem_of_cons in Hin as [->|Hin]; [done|]. right. by exists v'.
    + intros v' Hin. apply Hall. by apply list_elem_of_further.
Qed.

Lemma record_visits_digests (l : list (string * string * node)) (m : Snapshot) :
  forallb readable l = true →
  map_Forall (λ _ h, h ∈ all_words Sha1.hexdigits 40) m →
  map_Forall (λ _ h, h ∈ all_words Sha1.hexdigits 40) (record_visits l m).
Proof.
  revert m. induction l as [|[[name fp] n] l IH]; intros m Hr Hm; [done|].
  simpl in Hr. apply andb_prop in Hr as [Hn Hl].
  change (record_visits (((name, fp), n) :: l) m)
    with (record_visits l (<[name := fingerprint_of (name, fp, n)]> m)).
  apply IH; [done|]. apply map_Forall_insert_2; [|done].
  destruct n; try done. apply FingerprintFacts.sha1_hex_words.
Qed.

End SnapshotFacts.

(** X16. [takeSnapshot] returns when every file under the directory can
    be read, and throws otherwise. The snapshot it returns has an entry
    for a name exactly when the traversal reached a file of that name, so
    for every file of the tree, whatever its folder; every value is a
    digest of 40 hex digits. *)
Theorem takeSnapshot_keys_and_digests (quizesPath : string)
    (files : list (string * node)) :
  ((∃ snapshot, completion (takeSnapshot quizesPath files) = Normal snapshot)
   ↔ forallb readable (visits quizesPath files) = true)
  ∧ (forallb readable (visits quizesPath files) = false →
     takeSnapshot quizesPath files = throw "EACCES")
  ∧ ∀ snapshot, completion (takeSnapshot quizesPath files) = Normal snapshot →
      (∀ name, is_Some (snapshot !! name)
               ↔ ∃ fp n, (name, fp, n) ∈ visits quizesPath files)
      ∧ (∀ p name n, node_at (Dir files) (p ++ [name]) = Some n → is_dir n = false →
           is_Some (snapshot !! name))
      ∧ map_Forall (λ _ h, h ∈ all_words Sha1.hexdigits 40) snapshot.
Proof.
  rewrite takeSnapshot_spec.
  destruct (forallb readable (visits quizesPath files)) eqn:Hr.
  - split; [split; [done|by eexists]|]. split; [done|].
    intros snapshot [= <-].
    assert (∀ name, is_Some (record_visits (visits quizesPath files) ∅ !! name)
                    ↔ ∃ fp n, (name, fp, n) ∈ visits quizesPath files) as Hkeys.
    { intros name. rewrite SnapshotFacts.record_visits_is_Some, lookup_empty.
      split; [|by right]. intros [[? ?]|?]; done. }
    split; [done|]. split.
    + intros p name n Hn Hleaf. apply Hkeys. eexists _, n.
      by apply SnapshotFacts.node_at_visits.
    + apply SnapshotFacts.record_visits_digests; [done|]. apply map_Forall_empty.
  - split; [split; [by intros [? ?]|done]|]. split; [done|]. by intros snapshot.
Qed.

Lemma takeSnapshot_keys_and_digests_witness :
  takeSnapshot "/repo/playground" [("easy", Dir [("1-foo.ts", Unreadable)])]
  = throw "EACCES".
Proof.
  destruct (takeSnapshot_keys_and_digests "/repo/playground"
              [("easy", Dir [("1-foo.ts", Unreadable)])]) as (_ & Hthrows & _).
  apply Hthrows. reflexivity.
Defined.

(** X17. [calculateOverridableFiles] keeps the entries on which the cache
    and the snapshot agree: what it returns is part of both, it is the same
    with the two arguments exchanged, a snapshot compared with itself is
    overridable as a whole, and nothing is overridable without a cache. *)
Theorem calculateOverridableFiles_agreement (cache snapshot : Snapshot) :
  calculateOverridableFiles cache snapshot ⊆ snapshot
  ∧ calculateOverridableFiles cache snapshot ⊆ cache
  ∧ calculateOverridableFiles cache snapshot = calculateOverridableFiles snapshot cache
  ∧ calculateOverridableFiles snapshot snapshot = snapshot
  ∧ calculateOverridableFiles ∅ snapshot = ∅.
Proof.
  split; [|split; [|split; [|split]]].
  - apply map_subseteq_spec. intros name h. rewrite overridable_iff. tauto.
  - apply map_subseteq_spec. intros name h. rewrite overridable_iff. tauto.
  - apply map_eq. intros name. apply option_eq. intros h.
    rewrite !overridable_iff. tauto.
  - apply map_eq. intros name. apply option_eq. intros h.
    rewrite !overridable_iff. tauto.
  - apply map_eq. intros name. apply option_eq. intros h.
    rewrite !overridable_iff, !lookup_empty. naive_solver.
Qed.

(** ** Files that a keep-changes run leaves alone *)

Section ProtectFacts.

Context `{Externals}.

Lemma takeSnapshot_has_file (quizesPath : string) (files : list (string * node))
    (snapshot : Snapshot) (p : list string) (name : string) (n : node) :
  completion (takeSnapshot quizesPath files) = Normal snapshot →
  node_at (Dir files) (p ++ [name]) = Some n → is_dir n = false →
  is_Some (snapshot !! name).
Proof.
  rewrite takeSnapshot_spec.
  destruct (forallb readable (visits quizesPath files)); [|done].
  intros [= <-] Hn Hleaf. apply SnapshotFacts.record_visits_is_Some. right.
  eexists _, n. by apply SnapshotFacts.node_at_visits.
Qed.

(** A quiz of a keep-changes run leaves every file alone whose name is not
    writable. *)
Lemma generateQuiz_protects (overridableFiles playgroundSnapshot : Snapshot)
    (locale : option string) (incoming : Snapshot) (quiz : Quiz)
    (w w' : World) (c : Completion Snapshot) (entries : list (string * node)) :
  playground w = Some entries →
  generateQuiz true overridableFiles playgroundSnapshot locale incoming quiz w
  = (c, w') →
  ∃ entries', playground w' = Some entries'
    ∧ ∀ p name n, node_at (Dir entries) (p ++ [name]) = Some n → is_dir n = false →
        isQuizWritable name overridableFiles playgroundSnapshot = false →
        node_at (Dir entries') (p ++ [name]) = Some n.
Proof.
  intros Hw. unfold generateQuiz.
  assert (∀ (r : Run Snapshot), lift r w = (c, w') →
    ∃ entries', playground w' = Some entries'
      ∧ ∀ p name n, node_at (Dir entries) (p ++ [name]) = Some n → is_dir n = false →
          isQuizWritable name overridableFiles playgroundSnapshot = false →
          node_at (Dir entries') (p ++ [name]) = Some n) as Hlift.
  { intros r [= _ <-]. simpl. exists entries. auto. }
  assert (∀ a : Snapshot, (mret a : Gen Snapshot) w = (c, w') →
    ∃ entries', playground w' = Some entries'
      ∧ ∀ p name n, node_at (Dir entries) (p ++ [name]) = Some n → is_dir n = false →
          isQuizWritable name overridableFiles playgroundSnapshot = false →
          node_at (Dir entries') (p ++ [name]) = Some n) as Hret.
  { intros a [= _ <-]. exists entries. auto. }
  assert (∀ (l : line) (a : Snapshot),
    ((lift (console_log l) ≫= λ _, mret a) : Gen Snapshot) w = (c, w') →
    ∃ entries', playground w' = Some entries'
      ∧ ∀ p name n, node_at (Dir entries) (p ++ [name]) = Some n → is_dir n = false →
          isQuizWritable name overridableFiles playgroundSnapshot = false →
          node_at (Dir entries') (p ++ [name]) = Some n) as Hlog.
  { intros l a [= _ <-]. simpl. exists entries. auto. }
  destruct (get (resolveInfo quiz locale) "difficulty") as [| | | |difficulty| |] eqn:Hd;
    destruct (get (resolveInfo quiz locale) "title") as [| | | |title| |] eqn:Ht;
    try (destruct locale; by eauto).
  cbn [negb orb andb].
  destruct (isQuizWritable _ _ _) eqn:Hwr; [|by eauto].
  unfold mbind, gen_bind, get_world. rewrite Hw.
  set (entries1 := match lookup_entry difficulty entries with
                   | Some _ => entries
                   | None => put_entry difficulty (Dir []) entries
                   end).
  assert (∀ p name n, node_at (Dir entries) (p ++ [name]) = Some n → is_dir n = false →
            node_at (Dir entries1) (p ++ [name]) = Some n) as H1.
  { subst entries1. destruct (lookup_entry difficulty entries) eqn:Hl; [done|].
    intros p name n Hn Hleaf. by apply mkdir_frame. }
  unfold set_playground, lift. simpl.
  destruct (completion (writeFile _ _ _ entries1)) as [entries2| |] eqn:Hwrite.
  - intros [= _ <-]. simpl. exists entries2. split; [done|].
    intros p name n Hn Hleaf Hprot.
    apply writeFile_normal in Hwrite as [_ Hold].
    apply Hold; [by apply H1|done|].
    intros Heq.
    change [difficulty; getQuestionFullName (no quiz) difficulty title +:+ ".ts"]
      with ([difficulty] ++ [getQuestionFullName (no quiz) difficulty title +:+ ".ts"])
      in Heq.
    apply app_inj_tail in Heq as [_ ->]. congruence.
  - intros [= _ <-]. simpl. exists entries1. auto.
  - intros [= _ <-]. simpl. exists entries1. auto.
Qed.

Lemma generateQuizes_protects (overridableFiles playgroundSnapshot : Snapshot)
    (locale : option string) (quizes : list Quiz) :
  ∀ (incoming : Snapshot) (w w' : World) (c : Completion Snapshot)
    (entries : list (string * node)),
  playground w = Some entries →
  generateQuizes true overridableFiles playgroundSnapshot locale quizes incoming w
  = (c, w') →
  ∃ entries', playground w' = Some entries'
    ∧ ∀ p name n, node_at (Dir entries) (p ++ [name]) = Some n → is_dir n = false →
        isQuizWritable name overridableFiles playgroundSnapshot = false →
        node_at (Dir entries') (p ++ [name]) = Some n.
Proof.
  induction quizes as [|quiz quizes IH]; intros incoming w w' c entries Hw.
  - intros [= _ <-]. exists entries. auto.
  - simpl. unfold mbind, gen_bind.
    destruct (generateQuiz _ _ _ _ _ _ w) as [c1 w1] eqn:Hstep.
    destruct (generateQuiz_protects _ _ _ _ _ _ _ _ _ Hw Hstep)
      as (entries1 & Hw1 & Hkeep1).
    destruct c1 as [incoming1| |].
    + intros Hrest.
      destruct (IH _ _ _ _ _ Hw1 Hrest) as (entries2 & Hw2 & Hkeep2).
      exists entries2. split; [done|]. auto.
    + intros [= _ <-]. by exists entries1.
    + intros [= _ <-]. by exists entries1.
Qed.

Lemma generateWith_protects (argv : list string) (answers : Answers)
    (quizes : list Quiz) (cache overridableFiles playgroundSnapshot : Snapshot)
    (w w' : World) (c : Completion unit) (entries : list (string * node)) :
  playground w = Some entries →
  generateWith argv answers quizes cache true overridableFiles playgroundSnapshot w
  = (c, w') →
  ∃ entries', playground w' = Some entries'
    ∧ ∀ p name n, node_at (Dir entries) (p ++ [name]) = Some n → is_dir n = false →
        isQuizWritable name overridableFiles playgroundSnapshot = false →
        node_at (Dir entries') (p ++ [name]) = Some n.
Proof.
  intros Hw. unfold generateWith.
  unfold mbind at 1. unfold gen_bind at 1. simpl.
  unfold mbind at 1. unfold gen_bind at 1.
  destruct (generateQuizes _ _ _ _ _ _ w) as [c1 w1] eqn:Hloop.
  destruct (generateQuizes_protects _ _ _ _ _ _ _ _ _ Hw Hloop)
    as (entries1 & Hw1 & Hkeep).
  destruct c1 as [incoming| |].
  - intros [= _ <-]. simpl. by exists entries1.
  - intros [= _ <-]. by exists entries1.
  - intros [= _ <-]. by exists entries1.
Qed.

End ProtectFacts.

(** X18. A keep-changes run never overwrites a file that was edited. With
    the cache and the snapshot of the playground as the run reads them,
    every file of the playground whose name has another fingerprint in the
    snapshot than in the cache, or none in the cache, is there when the run
    ends, however it ends, with the content it had. *)
Theorem keep_changes_keeps_edited_files `{Externals} (argv : list string)
    (answers : Answers) (quizes : list Quiz) (w w' : World) (c : Completion unit)
    (entries : list (string * node)) (cache snapshot : Snapshot) :
  keepChangesFlag argv = true →
  playground w = Some entries →
  completion (readPlaygroundCache (playgroundCache w)) = Normal cache →
  completion (takeSnapshot playgroundPath entries) = Normal snapshot →
  generatePlayground argv answers quizes w = (c, w') →
  ∃ entries', playground w' = Some entries'
    ∧ ∀ p name n, node_at (Dir entries) (p ++ [name]) = Some n → is_dir n = false →
        cache !! name ≠ snapshot !! name →
        node_at (Dir entries') (p ++ [name]) = Some n.
Proof.
  intros Hflag Hw Hcache Hsnap. unfold generatePlayground.
  unfold mbind at 1. unfold gen_bind at 1. simpl.
  unfold mbind at 1. unfold gen_bind at 1. simpl.
  unfold mbind at 1. unfold gen_bind at 1. simpl.
  rewrite Hw, Hcache, Hflag.
  unfold mbind at 1. unfold gen_bind at 1. simpl.
  unfold mbind at 1. unfold gen_bind at 1. simpl.
  rewrite Hsnap. intros Hrun.
  eapply generateWith_protects in Hrun as (entries' & Hw' & Hkeep); [|done].
  exists entries'. split; [done|].
  intros p name n Hn Hleaf Hedited. apply Hkeep; [done..|].
  apply not_true_is_false. intros Hwritable.
  apply isQuizWritable_spec in Hwritable; [|by eapply takeSnapshot_truthy].
  destruct (takeSnapshot_has_file _ _ _ _ _ _ Hsnap Hn Hleaf) as [h Hh].
  destruct Hwritable as [Hnone|(h' & Hs & Hc)]; congruence.
Qed.

Lemma keep_changes_keeps_edited_files_witness :
  let run := @generatePlayground sample_externals sample_argv sample_answers
               [sample_quiz] sample_world in
  ∃ entries', playground run.2 = Some entries'
    ∧ ∀ p name n, node_at (Dir sample_playground) (p ++ [name]) = Some n →
        is_dir n = false →
        sample_cache !! name
        ≠ record_visits (visits (@playgroundPath sample_externals) sample_playground) ∅
          !! name →
        node_at (Dir entries') (p ++ [name]) = Some n.
Proof.
  intros run.
  apply (@keep_changes_keeps_edited_files sample_externals sample_argv sample_answers
           [sample_quiz] sample_world run.2 run.1 sample_playground sample_cache).
  - reflexivity.
  - reflexivity.
  - vm_compute. reflexivity.
  - vm_compute. reflexivity.
  - apply surjective_pairing.
Defined.

(** ** The cache that a run writes *)

Section CacheWritten.

Context `{Externals}.

Lemma fingerprints_written_mono (quizes quizes' : list Quiz) (locale : option string)
    (incoming : Snapshot) :
  quizes ⊆ quizes' →
  fingerprints_written quizes locale incoming →
  fingerprints_written quizes' locale incoming.
Proof.
  intros Hsub Hin name h Hh.
  destruct (Hin name h Hh) as (quiz & d & code & Hq & Ht & ->).
  exists quiz, d, code. auto.
Qed.

(** A quiz without the two fields, or one that is not writable, leaves the
    cache under construction as it is. *)
Lemma generateQuiz_incoming (keepChanges : bool)
    (overridableFiles playgroundSnapshot : Snapshot)
    (locale : option string) (incoming incoming' : Snapshot) (quiz : Quiz)
    (w w' : World) (quizes : list Quiz) :
  generateQuiz keepChanges overridableFiles playgroundSnapshot locale incoming quiz w
  = (Normal incoming', w') →
  quiz ∈ quizes →
  fingerprints_written quizes locale incoming →
  fingerprints_written quizes locale incoming'.
Proof.
  intros Hstep Hquiz Hin.
  destruct (get (resolveInfo quiz locale) "difficulty") as [| | | |difficulty| |] eqn:Hd;
    destruct (get (resolveInfo quiz locale) "title") as [| | | |title| |] eqn:Ht;
    try (unfold generateQuiz in Hstep; rewrite ?Hd, ?Ht in Hstep;
         destruct locale; unfold mbind, gen_bind, lift, mret, gen_ret in Hstep;
         simpl in Hstep; by simplify_eq).
  destruct (negb keepChanges
            || (keepChanges
                && isQuizWritable (getQuestionFullName (no quiz) difficulty title +:+ ".ts")
                     overridableFiles playgroundSnapshot)) eqn:Hcond.
  - destruct (playground w) as [entries|] eqn:Hw.
    + pose proof (generateQuiz_write keepChanges overridableFiles playgroundSnapshot
                    locale incoming quiz difficulty title w entries Hd Ht Hcond Hw)
        as Hwrite.
      cbv zeta in Hwrite. rewrite Hstep in Hwrite. cbn [fst snd] in Hwrite.
      destruct Hwrite as (entries' & _ & _ & ->).
      intros name h Hh.
      destruct (decide (getQuestionFullName (no quiz) difficulty title +:+ ".ts" = name))
        as [<-|Hne].
      * rewrite lookup_insert_eq in Hh. injection Hh as <-.
        exists quiz, difficulty, (formatToCode quiz locale).
        split; [done|]. split; [|done]. unfold quizTarget. by rewrite Hd, Ht.
      * rewrite lookup_insert_ne in Hh by done. by apply Hin.
    + unfold generateQuiz in Hstep. rewrite Hd, Ht, Hcond in Hstep.
      unfold mbind, gen_bind, get_world in Hstep. rewrite Hw in Hstep. done.
  - unfold generateQuiz in Hstep. rewrite Hd, Ht, Hcond in Hstep.
    by injection Hstep as <- _.
Qed.

Lemma generateQuizes_incoming (keepChanges : bool)
    (overridableFiles playgroundSnapshot : Snapshot) (locale : option string)
    (all quizes : list Quiz) :
  ∀ (incoming incoming' : Snapshot) (w w' : World),
  quizes ⊆ all →
  generateQuizes keepChanges overridableFiles playgroundSnapshot locale quizes incoming w
  = (Normal incoming', w') →
  fingerprints_written all locale incoming →
  fingerprints_written all locale incoming'.
Proof.
  induction quizes as [|quiz quizes IH]; intros incoming incoming' w w' Hsub.
  - by intros [= <- _].
  - simpl. unfold mbind, gen_bind.
    destruct (generateQuiz _ _ _ _ _ _ w) as [[incoming1| |] w1] eqn:Hstep; [|done..].
    intros Hrest Hin. eapply IH; [|exact Hrest|].
    + set_solver.
    + eapply generateQuiz_incoming; [exact Hstep| |done]. set_solver.
Qed.

(** The cache file changes with the last step of [generateWith] only. *)
Lemma generateWith_cache (argv : list string) (answers : Answers) (quizes : list Quiz)
    (cache : Snapshot) (keepChanges : bool)
    (overridableFiles playgroundSnapshot : Snapshot)
    (w w' : World) (c : Completion unit) :
  (keepChanges = true → is_Some (playground w)) →
  generateWith argv answers quizes cache keepChanges overridableFiles
    playgroundSnapshot w = (c, w') →
  playgroundCache w' = playgroundCache w
  ∨ (c = Normal tt
     ∧ ∃ incoming,
         playgroundCache w' = Some (JSON_stringify (incoming ∪ cache))
         ∧ fingerprints_written quizes (chosenLocale argv answers) incoming).
Proof.
  intros Hkeep. unfold generateWith.
  unfold mbind at 1. unfold gen_bind at 1.
  set (w0 := ((if keepChanges then mret tt else set_playground (Some [])) w).2).
  assert (playgroundCache w0 = playgroundCache w ∧ is_Some (playground w0)) as [Hc0 Hp0].
  { subst w0. destruct keepChanges; [|by split]. split; [done|]. by apply Hkeep. }
  assert ((if keepChanges then mret tt else set_playground (Some [])) w = (Normal tt, w0))
    as ->.
  { subst w0. by destruct keepChanges. }
  unfold mbind at 1. unfold gen_bind at 1.
  destruct (generateQuizes _ _ _ _ _ _ w0) as [c1 w1] eqn:Hloop.
  destruct Hp0 as [entries0 Hp0].
  destruct (generateQuizes_frame _ _ _ _ _ _ _ _ _ _ Hp0 Hloop) as (Hc1 & _).
  destruct c1 as [incoming| |].
  - intros [= <- <-]. right. split; [done|]. exists incoming. split; [done|].
    eapply generateQuizes_incoming; [|exact Hloop|]; [set_solver|].
    intros name h Hh. by rewrite lookup_empty in Hh.
  - intros [= _ <-]. left. congruence.
  - intros [= _ <-]. left. congruence.
Qed.

End CacheWritten.

(** X20. A file that the generator has written and that nobody has touched
    since is overridable: when the playground is snapshot after the write,
    and no other file in it has the name, the snapshot has for the name the
    fingerprint that the write noted for the cache, so a keep-changes run
    with that cache may write the file again. *)
Theorem unmodified_file_is_overridable `{Externals} (keepChanges : bool)
    (overridableFiles playgroundSnapshot : Snapshot) (locale : option string)
    (incoming incoming' : Snapshot) (quiz : Quiz) (difficulty title : string)
    (w w' : World) (entries' : list (string * node)) (cache snapshot' : Snapshot) :
  get (resolveInfo quiz locale) "difficulty" = VString difficulty →
  get (resolveInfo quiz locale) "title" = VString title →
  let quizFileName := getQuestionFullName (no quiz) difficulty title +:+ ".ts" in
  let quizPathFull := path_join (path_join playgroundPath difficulty) quizFileName in
  negb keepChanges
  || (keepChanges && isQuizWritable quizFileName overridableFiles playgroundSnapshot)
  = true →
  generateQuiz keepChanges overridableFiles playgroundSnapshot locale incoming quiz w
  = (Normal incoming', w') →
  playground w' = Some entries' →
  completion (takeSnapshot playgroundPath entries') = Normal snapshot' →
  (∀ fp n, (quizFileName, fp, n) ∈ visits playgroundPath entries' →
     fp = quizPathFull ∧ n = File (formatToCode quiz locale)) →
  incoming' !! quizFileName = Some (fingerprint quizPathFull (formatToCode quiz locale))
  ∧ snapshot' !! quizFileName = incoming' !! quizFileName
  ∧ isQuizWritable quizFileName
      (calculateOverridableFiles (incoming' ∪ cache) snapshot') snapshot' = true.
Proof.
  intros Hd Ht quizFileName quizPathFull Hcond Hstep Hw' Hsnap Hunique.
  assert (∃ entries, playground w = Some entries) as [entries Hw].
  { destruct (playground w) as [entries|] eqn:Hw; [by eexists|].
    unfold generateQuiz in Hstep. rewrite Hd, Ht in Hstep.
    fold quizFileName in Hstep. rewrite Hcond in Hstep.
    unfold mbind, gen_bind, get_world in Hstep. rewrite Hw in Hstep. done. }
  pose proof (generateQuiz_write keepChanges overridableFiles playgroundSnapshot
                locale incoming quiz difficulty title w entries Hd Ht Hcond Hw)
    as Hwrite.
  cbv zeta in Hwrite. rewrite Hstep in Hwrite. cbn [fst snd] in Hwrite.
  destruct Hwrite as (entries'' & Hw'' & Hfile & ->).
  rewrite Hw' in Hw''. injection Hw'' as <-.
  assert (snapshot' !! quizFileName
          = Some (fingerprint quizPathFull (formatToCode quiz locale))) as Hs.
  { pose proof Hsnap as Hsnap'. rewrite takeSnapshot_spec in Hsnap'.
    destruct (forallb readable (visits playgroundPath entries')); [|done].
    injection Hsnap' as <-.
    apply SnapshotFacts.record_visits_lookup_unique.
    - right.
      exists (quizFileName, foldl path_join playgroundPath ([difficulty] ++ [quizFileName]),
              File (formatToCode quiz locale)).
      split; [|done].
      apply (SnapshotFacts.node_at_visits [difficulty] entries' playgroundPath
               quizFileName (File (formatToCode quiz locale))); done.
    - intros [[name fp] n] Hin Hname. simpl in Hname. subst name.
      destruct (Hunique fp n Hin) as [-> ->]. done. }
  fold quizFileName. rewrite lookup_insert_eq. split; [done|]. split; [done|].
  apply isQuizWritable_spec; [by eapply takeSnapshot_truthy|].
  right. eexists. split; [exact Hs|].
  apply lookup_union_Some_l. apply lookup_insert_eq.
Qed.

Lemma unmodified_file_is_overridable_witness :
  let run := @generateQuiz sample_externals false ∅ ∅ (Some "en") ∅ sample_quiz
               sample_world_new in
  ∃ incoming' snapshot',
    run.1 = Normal incoming'
    ∧ incoming' !! "1-easy-foo.ts"
      = Some (fingerprint "/repo/playground/easy/1-easy-foo.ts" "type Foo = any")
    ∧ snapshot' !! "1-easy-foo.ts" = incoming' !! "1-easy-foo.ts"
    ∧ isQuizWritable "1-easy-foo.ts"
        (calculateOverridableFiles (incoming' ∪ ∅) snapshot') snapshot' = true.
Proof.
  intros run.
  destruct run as [c w'] eqn:Hrun.
  assert (∃ incoming', c = Normal incoming') as [incoming' ->].
  { apply (f_equal fst) in Hrun. vm_compute in Hrun. subst c. by eexists. }
  assert (∃ entries', playground w' = Some entries'
            ∧ entries' = [("notes.md", File "my notes");
                          ("easy", Dir [("1-easy-foo.ts", File "type Foo = any")])])
    as (entries' & Hw' & Hentries).
  { apply (f_equal snd) in Hrun. vm_compute in Hrun. subst w'. by eexists. }
  assert (∃ snapshot',
            completion (takeSnapshot (@playgroundPath sample_externals) entries')
            = Normal snapshot') as [snapshot' Hsnap].
  { subst entries'. vm_compute. by eexists. }
  exists incoming', snapshot'. split; [done|].
  apply (@unmodified_file_is_overridable sample_externals false ∅ ∅ (Some "en") ∅
           incoming' sample_quiz "easy" "foo" sample_world_new w' entries' ∅ snapshot').
  - vm_compute. reflexivity.
  - vm_compute. reflexivity.
  - reflexivity.
  - exact Hrun.
  - exact Hw'.
  - exact Hsnap.
  - subst entries'. intros fp n Hin. vm_compute in Hin.
    apply elem_of_cons in Hin as [[=]|Hin].
    apply elem_of_cons in Hin as [[= -> ->]|Hin]; [by split|].
    by apply elem_of_nil in Hin.
Defined.

(** X21. Runs that leave the disk alone. When the playground exists, the
    run is not a keep-changes run and the question whether to override is
    answered with no, neither the playground nor the cache file changes,
    and the run ends normally or, with a cache that cannot be parsed, with
    exit code 1. A keep-changes run without a playground folder throws
    (or exits for the cache) and creates nothing. *)
Theorem run_without_effect `{Externals} (argv : list string) (answers : Answers)
    (quizes : list Quiz) (w w' : World) (c : Completion unit) :
  generatePlayground argv answers quizes w = (c, w') →
  (keepChangesFlag argv = false → is_Some (playground w) → confirm answers = false →
     playground w' = playground w ∧ playgroundCache w' = playgroundCache w
     ∧ (c = Normal tt ∨ c = Exit 1))
  ∧ (keepChangesFlag argv = true → playground w = None →
     playground w' = None ∧ playgroundCache w' = playgroundCache w
     ∧ (c = Throw "ENOENT" ∨ c = Exit 1)).
Proof.
  unfold generatePlayground.
  unfold mbind at 1. unfold gen_bind at 1. simpl.
  unfold mbind at 1. unfold gen_bind at 1. simpl.
  unfold mbind at 1. unfold gen_bind at 1. simpl.
  destruct (completion (readPlaygroundCache (playgroundCache w))) as [cache|err|code]
    eqn:Hcache.
  - destruct (keepChangesFlag argv).
    + unfold mbind at 1. unfold gen_bind at 1. simpl.
      intros Hrun. split; [done|]. intros _ Hw. rewrite Hw in Hrun.
      injection Hrun as <- <-. simpl. auto.
    + intros Hrun. split; [|done]. intros _ [files Hw] Hconfirm.
      rewrite Hw, Hconfirm in Hrun. injection Hrun as <- <-. simpl. auto.
  - exfalso. revert Hcache. unfold readPlaygroundCache.
    destruct (playgroundCache w) as [raw|]; [|done]. by destruct (JSON_parse raw).
  - assert (code = 1) as ->.
    { revert Hcache. unfold readPlaygroundCache.
      destruct (playgroundCache w) as [raw|]; [|done].
      destruct (JSON_parse raw); [done|]. by intros [= <-]. }
    intros [= <- <-]. simpl. split.
    + intros _ [files Hw] _. auto.
    + intros _ Hw. auto.
Qed.

Lemma run_without_effect_witness :
  let run := @generatePlayground sample_externals ["node"; "generate-play-local.js"]
               sample_answers [sample_quiz] sample_world in
  playground run.2 = playground sample_world
  ∧ playgroundCache run.2 = playgroundCache sample_world
  ∧ (run.1 = Normal tt ∨ run.1 = Exit 1).
Proof.
  intros run.
  apply (proj1 (@run_without_effect sample_externals ["node"; "generate-play-local.js"]
                  sample_answers [sample_quiz] sample_world run.2 run.1
                  (surjective_pairing run))).
  - reflexivity.
  - by eexists.
  - reflexivity.
Defined.

(** ** The code blocks of a text that is translated *)

Module BlockFacts.

Import StrFacts.

Lemma find_first_shorter (pat s a r : string) :
  find_first pat s = Some (a, r) →
  String.length s = (String.length a + String.length pat + String.length r)%nat.
Proof.
  intros Hf. apply Occ.find_first_sound in Hf as ->. rewrite !length_app. lia.
Qed.

(** The digits that [pretty] prints for a number. *)
Lemma is_nat_char (d : N) :
  (d < 10)%N → Ascii.is_nat (pretty_N_char d) = Some (N.to_nat d).
Proof.
  intros Hd.
  assert (d = 0 ∨ d = 1 ∨ d = 2 ∨ d = 3 ∨ d = 4 ∨ d = 5 ∨ d = 6 ∨ d = 7 ∨ d = 8 ∨ d = 9)%N
    as Hcases by lia.
  repeat (destruct Hcases as [->|Hcases]; [done|]). by subst.
Qed.

Lemma all_digits_app (s t : string) :
  all_digits (s +:+ t) = all_digits s && all_digits t.
Proof.
  induction s as [|c s IH]; [done|]. rewrite app_cons. simpl.
  by rewrite IH, andb_assoc.
Qed.

Lemma digits_value_app (s t : string) : ∀ acc,
  all_digits s = true →
  digits_value acc (s +:+ t) = digits_value (digits_value acc s) t.
Proof.
  induction s as [|c s IH]; intros acc; [done|]. rewrite app_cons. simpl.
  unfold is_digit. destruct (Ascii.is_nat c); [|done]. simpl. apply IH.
Qed.

Lemma pretty_N_go_digits (x : N) : ∀ s,
  ∃ ds, pretty_N_go x s = ds +:+ s
        ∧ all_digits ds = true
        ∧ ((0 < x)%N → ds ≠ "")
        ∧ ∀ acc, digits_value acc ds
                 = (acc * 10 ^ String.length ds + N.to_nat x)%nat.
Proof.
  induction (N.lt_wf_0 x) as [x _ IH]. intros s.
  destruct (decide (0 < x)%N) as [Hx|Hx].
  - rewrite pretty_N_go_step by done.
    destruct (IH (x `div` 10)%N (N.div_lt x 10 Hx eq_refl)
                (String (pretty_N_char (x `mod` 10)) s))
      as (ds & Hds & Hall & _ & Hval).
    assert (x `mod` 10 < 10)%N as Hmod by (by apply N.mod_lt).
    exists (ds +:+ String (pretty_N_char (x `mod` 10)) "").
    split; [by rewrite Hds, app_assoc|]. split; [|split].
    + rewrite all_digits_app, Hall. simpl. unfold is_digit.
      by rewrite is_nat_char.
    + intros _. by destruct ds.
    + intros acc. rewrite digits_value_app, Hval by done. simpl.
      rewrite is_nat_char by done. rewrite length_app. simpl.
      rewrite Nat.add_1_r, Nat.pow_succ_r'.
      pose proof (N.div_mod x 10 ltac:(done)) as Hdm.
      assert (N.to_nat x = 10 * N.to_nat (x `div` 10) + N.to_nat (x `mod` 10))%nat
        as -> by lia.
      lia.
  - assert (x = 0%N) as -> by lia. exists "". rewrite pretty_N_go_0.
    split; [done|]. split; [done|]. split; [lia|]. intros acc. simpl. lia.
Qed.

Lemma pretty_nat_digits (n : nat) :
  all_digits (pretty n) = true ∧ pretty n ≠ "" ∧ digits_value 0 (pretty n) = n.
Proof.
  unfold pretty, pretty_nat, pretty, pretty_N.
  destruct (decide (N.of_nat n = 0%N)) as [Hn|Hn].
  - assert (n = 0%nat) as -> by lia. done.
  - destruct (pretty_N_go_digits (N.of_nat n) "") as (ds & -> & Hall & Hne & Hval).
    rewrite app_nil_r. split; [done|]. split; [apply Hne; lia|].
    rewrite Hval. lia.
Qed.

Lemma take_digits_stop (digits rest : string) (c : ascii) :
  all_digits digits = true → is_digit c = false →
  take_digits (digits +:+ String c rest) = digits
  ∧ skip_digits (digits +:+ String c rest) = String c rest.
Proof.
  intros Hd Hc. induction digits as [|d digits IH].
  - rewrite app_nil_l. simpl. by rewrite Hc.
  - simpl in Hd. apply andb_prop in Hd as [Hd1 Hd2].
    rewrite app_cons. simpl. rewrite Hd1.
    destruct (IH Hd2) as [-> ->]. done.
Qed.

Lemma digit_not_space (c : ascii) : is_digit c = true → Ascii.is_space c = false.
Proof.
  unfold is_digit. destruct c as [[] [] [] [] [] [] [] []]; done.
Qed.

(** The placeholder that [replaceCodeBlocks] leaves is found again. *)
Lemma placeholder_at_pretty (n : nat) (rest : string) :
  placeholder_at ("__" +:+ pretty n +:+ "__" +:+ rest) = Some (pretty n, rest).
Proof.
  destruct (pretty_nat_digits n) as (Hall & Hne & _).
  rewrite app_cons, app_cons, app_nil_l.
  rewrite (app_cons "_" "_"), (app_cons "_" ""), app_nil_l.
  unfold placeholder_at.
  assert (Str.trim_start (pretty n +:+ String "_" (String "_" rest))
          = pretty n +:+ String "_" (String "_" rest)) as ->.
  { destruct (pretty n) as [|d ds] eqn:Hp; [done|].
    simpl in Hall. apply andb_prop in Hall as [Hd _].
    rewrite app_cons. simpl. by rewrite digit_not_space. }
  destruct (take_digits_stop (pretty n) (String "_" rest) "_" Hall eq_refl) as [-> ->].
  simpl. by destruct (pretty n).
Qed.

Lemma placeholder_at_none (c : ascii) (rest : string) :
  c ≠ "_"%char → placeholder_at (String c rest) = None.
Proof.
  intros Hc. unfold placeholder_at.
  destruct c as [[] [] [] [] [] [] [] []]; done.
Qed.

Lemma trim_start_length (s : string) :
  (String.length (Str.trim_start s) ≤ String.length s)%nat.
Proof.
  induction s as [|c s IH]; [done|]. simpl.
  destruct (Ascii.is_space c); simpl; lia.
Qed.

Lemma skip_digits_length (s : string) :
  (String.length (skip_digits s) ≤ String.length s)%nat.
Proof.
  induction s as [|c s IH]; [done|]. simpl.
  destruct (is_digit c); simpl; lia.
Qed.

Lemma placeholder_at_shorter (s i after : string) :
  placeholder_at s = Some (i, after) → (String.length after < String.length s)%nat.
Proof.
  unfold placeholder_at.
  destruct s as [|c1 [|c2 s1]]; try done.
  - by destruct c1 as [[] [] [] [] [] [] [] []].
  - pose proof (trim_start_length s1) as H1.
    pose proof (skip_digits_length (Str.trim_start s1)) as H2.
    pose proof (trim_start_length (skip_digits (Str.trim_start s1))) as H3.
    destruct c1 as [[] [] [] [] [] [] [] []]; try done.
    destruct c2 as [[] [] [] [] [] [] [] []]; try done.
    destruct (take_digits (Str.trim_start s1)); [done|].
    destruct (Str.trim_start (skip_digits (Str.trim_start s1))) as [|c3 [|c4 s4]];
      try done.
    + by destruct c3 as [[] [] [] [] [] [] [] []].
    + destruct c3 as [[] [] [] [] [] [] [] []]; try done.
      destruct c4 as [[] [] [] [] [] [] [] []]; try done.
      intros [= _ <-]. simpl in *. lia.
Qed.

(** More fuel than the length of the text changes nothing. *)
Lemma restore_fuel (codeBlocks : list string) (fuel1 : nat) : ∀ (fuel2 : nat) (s : string),
  (String.length s ≤ fuel1)%nat → (String.length s ≤ fuel2)%nat →
  restoreCodeBlocks_go fuel1 codeBlocks s = restoreCodeBlocks_go fuel2 codeBlocks s.
Proof.
  induction fuel1 as [|fuel1 IH]; intros fuel2 s H1 H2.
  - destruct s; [|simpl in H1; lia]. by destruct fuel2.
  - destruct fuel2 as [|fuel2].
    + destruct s; [done|simpl in H2; lia].
    + simpl. destruct (placeholder_at s) as [[i after]|] eqn:Hp.
      * apply placeholder_at_shorter in Hp. f_equal. apply IH; lia.
      * destruct s as [|c rest]; [done|]. simpl in H1, H2. f_equal. apply IH; lia.
Qed.

Lemma restore_cons (codeBlocks : list string) (c : ascii) (rest : string) :
  c ≠ "_"%char →
  restoreCodeBlocks codeBlocks (String c rest)
  = String c (restoreCodeBlocks codeBlocks rest).
Proof.
  intros Hc. unfold restoreCodeBlocks. simpl String.length. cbn [restoreCodeBlocks_go].
  by rewrite placeholder_at_none.
Qed.

(** Text without an underscore comes back as it is. *)
Lemma restore_plain (codeBlocks : list string) (before rest : string) :
  Str.mem "_" before = false →
  restoreCodeBlocks codeBlocks (before +:+ rest)
  = before +:+ restoreCodeBlocks codeBlocks rest.
Proof.
  induction before as [|c before IH]; [done|]. simpl.
  intros [Hc Hb]%orb_false_elim. apply bool_decide_eq_false_1 in Hc.
  rewrite !app_cons, restore_cons by done. by rewrite IH.
Qed.

Lemma restore_placeholder (codeBlocks : list string) (n : nat) (v rest : string) :
  codeBlocks !! n = Some v →
  restoreCodeBlocks codeBlocks ("__" +:+ pretty n +:+ "__" +:+ rest)
  = v +:+ restoreCodeBlocks codeBlocks rest.
Proof.
  intros Hv. unfold restoreCodeBlocks at 1.
  pose proof (placeholder_at_pretty n rest) as Hp.
  pose proof (placeholder_at_shorter _ _ _ Hp) as Hlen.
  destruct (String.length ("__" +:+ pretty n +:+ "__" +:+ rest)) as [|fuel] eqn:Hfuel;
    [lia|].
  cbn [restoreCodeBlocks_go]. rewrite Hp.
  destruct (pretty_nat_digits n) as (_ & _ & ->). rewrite Hv. simpl. f_equal.
  apply restore_fuel; lia.
Qed.

(** Taking the blocks out and putting them back, with fuel to spare and
    in an array that has grown since. *)
Lemma roundtrip_go (fuel : nat) : ∀ (code : string) (codeBlocks : list string),
  (String.length code ≤ fuel)%nat →
  Str.mem "_" (outside_go fuel code) = false →
  ∃ more,
    (replaceCodeBlocks_go fuel codeBlocks code).2 = codeBlocks ++ more
    ∧ Forall (λ v, ∃ body, body ≠ "" ∧ v = fence +:+ body +:+ fence) more
    ∧ ∀ later,
        restoreCodeBlocks (codeBlocks ++ more ++ later)
          (replaceCodeBlocks_go fuel codeBlocks code).1
        = code.
Proof.
  induction fuel as [|fuel IH]; intros code codeBlocks Hfuel Hclean.
  - destruct code; [|simpl in Hfuel; lia]. exists [].
    by split; [rewrite List.app_nil_r|].
  - assert (∃ more, codeBlocks = codeBlocks ++ more
              ∧ Forall (λ v, ∃ body, body ≠ "" ∧ v = fence +:+ body +:+ fence) more
              ∧ ∀ later, Str.mem "_" code = false →
                  restoreCodeBlocks (codeBlocks ++ more ++ later) code = code) as Hstop.
    { exists []. split; [by rewrite List.app_nil_r|]. split; [done|].
      intros later Hcode. rewrite <- (app_nil_r code) at 1.
      rewrite restore_plain by done. by rewrite app_nil_r. }
    cbn [replaceCodeBlocks_go outside_go] in *.
    destruct (find_first fence code) as [[before [|c rest]]|] eqn:Hopen;
      [destruct Hstop as (more & ? & ? & Hr); exists more; by auto| |
       destruct Hstop as (more & ? & ? & Hr); exists more; by auto].
    destruct (find_first fence rest) as [[inner after]|] eqn:Hclose;
      [|destruct Hstop as (more & ? & ? & Hr); exists more; by auto].
    clear Hstop. cbn [fst snd].
    pose proof (find_first_shorter _ _ _ _ Hopen) as Hlen1.
    pose proof (find_first_shorter _ _ _ _ Hclose) as Hlen2.
    simpl in Hlen1, Hlen2.
    rewrite Occ.mem_app in Hclean. apply orb_false_elim in Hclean as [Hbefore Hafter].
    destruct (IH after (codeBlocks ++ [fence +:+ String c inner +:+ fence]))
      as (more & Hmore & Hblocks & Hback); [lia|done|].
    exists ((fence +:+ String c inner +:+ fence) :: more).
    split; [by rewrite Hmore, <- List.app_assoc|]. split.
    + constructor; [|done]. by exists (String c inner).
    + intros later. rewrite restore_plain by done. rewrite !app_assoc.
      rewrite (restore_placeholder _ _ (fence +:+ String c inner +:+ fence)).
      * specialize (Hback later). rewrite <- !List.app_assoc in Hback.
        simpl in Hback. simpl. rewrite Hback.
        apply Occ.find_first_sound in Hopen. apply Occ.find_first_sound in Hclose.
        rewrite Hopen, Hclose.
        repeat (rewrite app_assoc || rewrite app_cons || rewrite app_nil_l). done.
      * rewrite lookup_app_r by done. by rewrite Nat.sub_diag.
Qed.

End BlockFacts.

(** X22. Taking the code blocks out of a text and putting them back gives
    the text again, when the text around the blocks holds no underscore:
    [replaceCodeBlocks] adds the blocks it finds at the end of [codeBlocks],
    each a fence, one character or more, and a fence, and
    [restoreCodeBlocks] with that array, and with any array that has grown
    since, makes the original text of what [replaceCodeBlocks] returned. *)
Theorem restoreCodeBlocks_replaceCodeBlocks (codeBlocks : list string) (code : string) :
  Str.mem "_" (outside code) = false →
  ∃ more,
    (replaceCodeBlocks codeBlocks code).2 = codeBlocks ++ more
    ∧ Forall (λ v, ∃ body, body ≠ "" ∧ v = fence +:+ body +:+ fence) more
    ∧ restoreCodeBlocks (replaceCodeBlocks codeBlocks code).2
        (replaceCodeBlocks codeBlocks code).1 = code
    ∧ ∀ later,
        restoreCodeBlocks ((replaceCodeBlocks codeBlocks code).2 ++ later)
          (replaceCodeBlocks codeBlocks code).1 = code.
Proof.
  intros Hclean. unfold replaceCodeBlocks, outside in *.
  destruct (BlockFacts.roundtrip_go (String.length code) code codeBlocks)
    as (more & Hmore & Hblocks & Hback); [done..|].
  exists more. split; [done|]. split; [done|]. rewrite Hmore. split.
  - specialize (Hback []). by rewrite !app_nil_r in Hback.
  - intros later. by rewrite <- app_assoc.
Qed.

Lemma restoreCodeBlocks_replaceCodeBlocks_witness :
  ∃ more,
    (replaceCodeBlocks ["```js" +:+ String "010" "1```"]
       ("Use: ```ts" +:+ String "010" "type A = 1```!")).2
    = ["```js" +:+ String "010" "1```"] ++ more
    ∧ Forall (λ v, ∃ body, body ≠ "" ∧ v = fence +:+ body +:+ fence) more
    ∧ restoreCodeBlocks
        (replaceCodeBlocks ["```js" +:+ String "010" "1```"]
           ("Use: ```ts" +:+ String "010" "type A = 1```!")).2
        (replaceCodeBlocks ["```js" +:+ String "010" "1```"]
           ("Use: ```ts" +:+ String "010" "type A = 1```!")).1
      = "Use: ```ts" +:+ String "010" "type A = 1```!"
    ∧ ∀ later,
        restoreCodeBlocks
          ((replaceCodeBlocks ["```js" +:+ String "010" "1```"]
              ("Use: ```ts" +:+ String "010" "type A = 1```!")).2 ++ later)
          (replaceCodeBlocks ["```js" +:+ String "010" "1```"]
             ("Use: ```ts" +:+ String "010" "type A = 1```!")).1
        = "Use: ```ts" +:+ String "010" "type A = 1```!".
Proof.
  apply (restoreCodeBlocks_replaceCodeBlocks ["```js" +:+ String "010" "1```"]
           ("Use: ```ts" +:+ String "010" "type A = 1```!")).
  reflexivity.
Defined.

Example replaceCodeBlocks_sample :
  replaceCodeBlocks ["```js" +:+ String "010" "1```"]
    ("Use: ```ts" +:+ String "010" "type A = 1```!")
  = ("Use: __1__!",
     ["```js" +:+ String "010" "1```"; "```ts" +:+ String "010" "type A = 1```"]).
Proof. vm_compute. reflexivity. Qed.

(** An underscore pair around a number in the text itself is taken for a
    placeholder: the text does not come back. *)
Example restoreCodeBlocks_takes_text_for_placeholder :
  restoreCodeBlocks (replaceCodeBlocks [] "see __0__").2
    (replaceCodeBlocks [] "see __0__").1
  = "see undefined".
Proof. vm_compute. reflexivity. Qed.

Section TranslateFacts.

Context `{Externals}.

Variable translate : string → string → string → Completion string.
Variable resolveFilePath : string → string → string → string → string.
Variable t : string → string → string.

Lemma replace_extends (fuel : nat) : ∀ (code : string) (codeBlocks : list string),
  ∃ more, (replaceCodeBlocks_go fuel codeBlocks code).2 = codeBlocks ++ more.
Proof.
  induction fuel as [|fuel IH]; intros code codeBlocks.
  - exists []. by rewrite List.app_nil_r.
  - cbn [replaceCodeBlocks_go].
    destruct (find_first fence code) as [[before [|c rest]]|];
      try (exists []; by rewrite List.app_nil_r).
    destruct (find_first fence rest) as [[inner after]|];
      [|exists []; by rewrite List.app_nil_r].
    cbn [snd].
    destruct (IH after (codeBlocks ++ [fence +:+ String c inner +:+ fence]))
      as [more ->].
    eexists. by rewrite <- List.app_assoc.
Qed.

Lemma translateMarkdown_blocks (code from to : string) (st st' : Translator)
    (c : Completion (option string)) :
  translateMarkdown translate code from to st = (c, st') →
  translated st' = translated st ∧ ∃ more, codeBlocks st' = codeBlocks st ++ more.
Proof.
  unfold translateMarkdown.
  destruct (replace_extends (String.length code) code (codeBlocks st)) as [more Hmore].
  assert (∀ c', (c', set_codeBlocks (replaceCodeBlocks (codeBlocks st) code).2 st)
                = (c, st') →
                translated st' = translated st
                ∧ ∃ more, codeBlocks st' = codeBlocks st ++ more) as Hst.
  { intros c' [= _ <-]. split; [done|]. by exists more. }
  destruct (translate _ from to) as [rawResult| |]; [|by apply Hst..].
  destruct (truthy (VString rawResult)); by apply Hst.
Qed.

(** What a quiz does to the files: nothing, or the one write of its
    translation. *)
Lemma translateQuiz_writes (quiz : Quiz) (from to : string) (st st' : Translator)
    (c : Completion unit) :
  translateQuiz translate resolveFilePath t quiz from to st = (c, st') →
  (∃ more, codeBlocks st' = codeBlocks st ++ more)
  ∧ (translated st' = translated st
     ∨ ∃ body,
         translated st'
         = <[resolveFilePath (path_join QUIZ_ROOT (path quiz)) "README" "md" to :=
               translatedReadme_of t to body]> (translated st)).
Proof.
  unfold translateQuiz.
  destruct (readme quiz !! from) as [code|].
  - destruct (translateMarkdown translate code from to st) as [c1 st1] eqn:Hmd.
    apply translateMarkdown_blocks in Hmd as [Hfiles Hblocks].
    destruct c1 as [[[|ch text]|]| |]; try (intros [= _ <-]; by auto).
    unfold writeTranslatedReadme. intros [= _ <-]. simpl. split; [done|].
    right. exists (String ch text). by rewrite Hfiles.
  - intros [= _ <-]. split; [|by left]. exists []. by rewrite List.app_nil_r.
Qed.

Lemma translateAllQuizes_writes (quizes : list Quiz) (from to : string) :
  ∀ (all : list Quiz) (st st' : Translator) (c : Completion unit),
  quizes ⊆ all →
  translateAllQuizes translate resolveFilePath t quizes from to st = (c, st') →
  (∃ more, codeBlocks st' = codeBlocks st ++ more)
  ∧ ∀ readmePath text, translated st' !! readmePath = Some text →
      translated st !! readmePath = Some text
      ∨ translation_of resolveFilePath t all from to readmePath text.
Proof.
  induction quizes as [|quiz quizes IH]; intros all st st' c Hsub.
  - intros [= _ <-]. split; [|by auto]. exists []. by rewrite List.app_nil_r.
  - cbn [translateAllQuizes].
    destruct (truthy_entry (readme quiz !! to)) eqn:Hto;
      [|destruct (truthy_entry (readme quiz !! from)) eqn:Hfrom]; cbn [orb negb].
    + intros Hrest. apply (IH all) in Hrest; [done|set_solver].
    + destruct (translateQuiz _ _ _ quiz from to _) as [c1 st1] eqn:Hquiz.
      apply translateQuiz_writes in Hquiz as [[more1 Hblocks1] Hfiles1].
      cbn [codeBlocks translated print] in Hblocks1, Hfiles1.
      assert (∀ readmePath text, translated st1 !! readmePath = Some text →
                translated st !! readmePath = Some text
                ∨ translation_of resolveFilePath t all from to readmePath text)
        as Hst1.
      { intros readmePath text Htext.
        destruct Hfiles1 as [Hsame|[body Hnew]]; [left; by rewrite <- Hsame|].
        rewrite Hnew in Htext.
        apply lookup_insert_Some in Htext as [[<- <-]|[_ ?]]; [|by left].
        right. exists quiz, body. split; [set_solver|]. done. }
      destruct c1 as [[]| |].
      * intros Hrest. apply (IH all) in Hrest as [[more2 Hblocks2] Hfiles2];
          [|set_solver].
        split.
        -- exists (more1 ++ more2). by rewrite Hblocks2, Hblocks1, List.app_assoc.
        -- intros readmePath text Htext.
           destruct (Hfiles2 readmePath text Htext) as [Hold|Hnew]; [|by right].
           by apply Hst1.
      * intros [= _ <-]. split; [by exists more1|done].
      * intros [= _ <-]. split; [by exists more1|done].
    + intros Hrest. apply (IH all) in Hrest; [done|set_solver].
Qed.

End TranslateFacts.

(** X23. When the translation service answers with the text it was given,
    [translateMarkdown] returns the markdown it was given, code blocks and
    all, for a text that is not empty and has no underscore around its
    blocks; the blocks stay in the array of the translator. *)
Theorem translateMarkdown_unchanged_text
    (translate : string → string → string → Completion string)
    (code from to : string) (st : Translator) :
  code ≠ "" →
  Str.mem "_" (outside code) = false →
  translate (replaceCodeBlocks (codeBlocks st) code).1 from to
  = Normal (replaceCodeBlocks (codeBlocks st) code).1 →
  ∃ more,
    translateMarkdown translate code from to st
    = (Normal (Some code), set_codeBlocks (codeBlocks st ++ more) st).
Proof.
  intros Hne Hclean Hecho. unfold translateMarkdown. rewrite Hecho.
  unfold replaceCodeBlocks, outside in *.
  destruct (BlockFacts.roundtrip_go (String.length code) code (codeBlocks st))
    as (more & Hmore & _ & Hback); [done..|].
  specialize (Hback []). rewrite List.app_nil_r in Hback.
  exists more. rewrite Hmore. cbn [codeBlocks set_codeBlocks].
  destruct (replaceCodeBlocks_go (String.length code) (codeBlocks st) code).1
    as [|ch source] eqn:Hsource.
  - by destruct code.
  - cbn [truthy]. by rewrite Hback.
Qed.

Lemma translateMarkdown_unchanged_text_witness :
  ∃ more,
    translateMarkdown sample_translate
      ("Use: ```ts" +:+ String "010" "type A = 1```!") "en" "ja" sample_translator
    = (Normal (Some ("Use: ```ts" +:+ String "010" "type A = 1```!")),
       set_codeBlocks (codeBlocks sample_translator ++ more) sample_translator).
Proof.
  apply (translateMarkdown_unchanged_text sample_translate
           ("Use: ```ts" +:+ String "010" "type A = 1```!") "en" "ja"
           sample_translator).
  - discriminate.
  - reflexivity.
  - reflexivity.
Defined.

(** X24. [translateAllQuizes] writes a translation only for a quiz that
    has a README in the source language and none in the target language:
    every file it has written when it ends, however it ends, is the
    translation of such a quiz, at the path of its README in the target
    language, with the note about the translation in its first line. The
    array of code blocks only grows. *)
Theorem translateAllQuizes_only_missing `{Externals}
    (translate : string → string → string → Completion string)
    (resolveFilePath : string → string → string → string → string)
    (t : string → string → string)
    (quizes : list Quiz) (from to : string) (st st' : Translator)
    (c : Completion unit) :
  translateAllQuizes translate resolveFilePath t quizes from to st = (c, st') →
  (∃ more, codeBlocks st' = codeBlocks st ++ more)
  ∧ ∀ readmePath text, translated st' !! readmePath = Some text →
      translated st !! readmePath = Some text
      ∨ translation_of resolveFilePath t quizes from to readmePath text.
Proof. by apply translateAllQuizes_writes. Qed.

Lemma translateAllQuizes_only_missing_witness :
  let run := @translateAllQuizes sample_externals sample_translate
               sample_resolveFilePath sample_t [sample_readme_quiz] "en" "ja"
               sample_translator in
  (∃ more, codeBlocks run.2 = codeBlocks sample_translator ++ more)
  ∧ ∀ readmePath text, translated run.2 !! readmePath = Some text →
      translated sample_translator !! readmePath = Some text
      ∨ @translation_of sample_externals sample_resolveFilePath sample_t
          [sample_readme_quiz] "en" "ja" readmePath text.
Proof.
  intros run.
  apply (@translateAllQuizes_only_missing sample_externals sample_translate
           sample_resolveFilePath sample_t [sample_readme_quiz] "en" "ja"
           sample_translator run.2 run.1).
  apply surjective_pairing.
Defined.

Example sample_translation :
  let run := @translateAllQuizes sample_externals sample_translate
               sample_resolveFilePath sample_t [sample_readme_quiz] "en" "ja"
               sample_translator in
  run.1 = Normal tt
  ∧ translated run.2
    = {[ "/repo/questions/00004-easy-pick/README.ja.md" :=
           "> readme.google-translated" +:+ String "010" (String "010" "")
           +:+ "Use: ```ts" +:+ String "010" "type A = 1```!" ]}.
Proof. vm_compute. done. Qed.

(** ** A run that regenerates everything *)

Section CompleteFacts.

Context `{Externals}.

Lemma generateQuiz_all_written (overridableFiles playgroundSnapshot : Snapshot)
    (locale : option string) (incoming incoming' : Snapshot) (quiz : Quiz)
    (all done : list Quiz) (w w' : World) (entries : list (string * node)) :
  quiz ∈ all →
  playground w = Some entries →
  all_written all done locale entries →
  generateQuiz false overridableFiles playgroundSnapshot locale incoming quiz w
  = (Normal incoming', w') →
  ∃ entries', playground w' = Some entries'
              ∧ all_written all (quiz :: done) locale entries'.
Proof.
  intros Hquiz Hw Hdone Hstep.
  destruct (generateQuiz_frame _ _ _ _ _ _ _ _ _ _ Hw Hstep)
    as (_ & entries' & Hw' & Hkept).
  exists entries'. split; [done|].
  assert (∀ p code, quizTarget quiz locale = Some (p, code) →
            node_at (Dir entries') p = Some (File code)) as Hnew.
  { intros p code Htarget. unfold quizTarget in Htarget.
    destruct (get (resolveInfo quiz locale) "difficulty") as [| | | |difficulty| |]
      eqn:Hd; try done.
    destruct (get (resolveInfo quiz locale) "title") as [| | | |title| |] eqn:Ht;
      try done.
    injection Htarget as <- <-.
    pose proof (generateQuiz_write false overridableFiles playgroundSnapshot
                  locale incoming quiz difficulty title w entries Hd Ht eq_refl Hw)
      as Hwrite.
    cbv zeta in Hwrite. rewrite Hstep in Hwrite. cbn [fst snd] in Hwrite.
    destruct Hwrite as (entries'' & Hw'' & Hfile & _).
    rewrite Hw' in Hw''. by injection Hw'' as <-. }
  intros q p code Hq Htarget.
  apply elem_of_cons in Hq as [->|Hq].
  - exists quiz, code. auto.
  - destruct (Hdone q p code Hq Htarget) as (q' & code' & Hq' & Htarget' & Hfile).
    destruct (Hkept p (File code') Hfile eq_refl)
      as (n' & Hn' & [->|(q'' & code'' & Hq'' & Htarget'' & ->)]).
    + by exists q', code'.
    + apply list_elem_of_singleton in Hq'' as ->. by exists quiz, code''.
Qed.

Lemma generateQuizes_all_written (overridableFiles playgroundSnapshot : Snapshot)
    (locale : option string) (all quizes : list Quiz) :
  ∀ (done : list Quiz) (incoming incoming' : Snapshot) (w w' : World)
    (entries : list (string * node)),
  quizes ⊆ all →
  playground w = Some entries →
  all_written all done locale entries →
  generateQuizes false overridableFiles playgroundSnapshot locale quizes incoming w
  = (Normal incoming', w') →
  ∃ entries', playground w' = Some entries'
              ∧ all_written all (quizes ++ done) locale entries'.
Proof.
  induction quizes as [|quiz quizes IH];
    intros done incoming incoming' w w' entries Hsub Hw Hdone.
  - intros [= _ <-]. by exists entries.
  - simpl. unfold mbind, gen_bind.
    destruct (generateQuiz _ _ _ _ _ _ w) as [[incoming1| |] w1] eqn:Hstep; [|done..].
    intros Hrest.
    assert (quiz ∈ all) as Hquiz by set_solver.
    assert (quizes ⊆ all) as Hsub' by set_solver.
    destruct (generateQuiz_all_written _ _ _ _ _ _ all done _ _ _
                Hquiz Hw Hdone Hstep) as (entries1 & Hw1 & Hdone1).
    destruct (IH (quiz :: done) _ _ _ _ _ Hsub' Hw1 Hdone1 Hrest)
      as (entries2 & Hw2 & Hdone2).
    exists entries2. split; [done|].
    intros q p code Hq. apply Hdone2. set_solver.
Qed.

Lemma generateWith_all_written (argv : list string) (answers : Answers)
    (quizes : list Quiz) (cache overridableFiles playgroundSnapshot : Snapshot)
    (w w' : World) :
  generateWith argv answers quizes cache false overridableFiles playgroundSnapshot w
  = (Normal tt, w') →
  ∃ entries', playground w' = Some entries'
              ∧ all_written quizes quizes (chosenLocale argv answers) entries'.
Proof.
  unfold generateWith.
  unfold mbind at 1. unfold gen_bind at 1. simpl.
  unfold mbind at 1. unfold gen_bind at 1.
  destruct (generateQuizes _ _ _ _ _ _ _) as [[incoming| |] w1] eqn:Hloop; [|done..].
  apply (generateQuizes_all_written _ _ _ quizes quizes []) with (entries := [])
    in Hloop as (entries1 & Hw1 & Hall); [|done|done|].
  - intros [= <-]. simpl. exists entries1. split; [done|].
    intros q p code Hq. apply Hall. by rewrite List.app_nil_r.
  - intros q p code Hq. by apply elem_of_nil in Hq.
Qed.

End CompleteFacts.

(** X25. A run that makes the playground anew and gets through leaves a
    file for every quiz that has a difficulty and a title in the chosen
    language: at the place of the quiz there is the code of the quiz, or of
    another quiz of the corpus with the same place. *)
Theorem full_run_writes_every_quiz `{Externals} (argv : list string)
    (answers : Answers) (quizes : list Quiz) (w w' : World) :
  keepChangesFlag argv = false →
  playground w = None ∨ confirm answers = true →
  generatePlayground argv answers quizes w = (Normal tt, w') →
  ∃ entries', playground w' = Some entries'
    ∧ ∀ quiz p code, quiz ∈ quizes →
        quizTarget quiz (chosenLocale argv answers) = Some (p, code) →
        ∃ quiz' code',
          quiz' ∈ quizes
          ∧ quizTarget quiz' (chosenLocale argv answers) = Some (p, code')
          ∧ node_at (Dir entries') p = Some (File code').
Proof.
  intros Hflag Hfresh. unfold generatePlayground.
  unfold mbind at 1. unfold gen_bind at 1. simpl.
  unfold mbind at 1. unfold gen_bind at 1. simpl.
  unfold mbind at 1. unfold gen_bind at 1. simpl.
  destruct (completion (readPlaygroundCache (playgroundCache w))) as [cache| |];
    [|done..].
  rewrite Hflag.
  destruct (playground w) as [files|] eqn:Hw.
  - destruct Hfresh as [?| ->]; [done|]. apply generateWith_all_written.
  - apply generateWith_all_written.
Qed.

Lemma full_run_writes_every_quiz_witness :
  let argv := ["node"; "generate-play-local.js"; "en"] in
  let answers := {| confirm := true; select := None |} in
  let run := @generatePlayground sample_externals argv answers [sample_quiz]
               sample_world in
  ∃ entries', playground run.2 = Some entries'
    ∧ ∀ quiz p code, quiz ∈ [sample_quiz] →
        @quizTarget sample_externals quiz (@chosenLocale sample_externals argv answers)
        = Some (p, code) →
        ∃ quiz' code',
          quiz' ∈ [sample_quiz]
          ∧ @quizTarget sample_externals quiz'
              (@chosenLocale sample_externals argv answers) = Some (p, code')
          ∧ node_at (Dir entries') p = Some (File code').
Proof.
  intros argv answers run.
  apply (@full_run_writes_every_quiz sample_externals argv answers [sample_quiz]
           sample_world run.2).
  - reflexivity.
  - by right.
  - vm_compute. reflexivity.
Defined.

(** ** Updating the README of every quiz *)

Lemma foldM_invariant {A B : Type} (f : B → A → Run B) (I : B → Prop)
    (C : A → list line → Prop) (l : list A) :
  (∀ x before c behind, C x c → C x (before ++ c ++ behind)) →
  (∀ b x, I b → ∃ b', completion (f b x) = Normal b' ∧ I b' ∧ C x (console (f b x))) →
  ∀ b, I b →
    ∃ b', completion (foldM f l b) = Normal b' ∧ I b'
          ∧ ∀ x, x ∈ l → C x (console (foldM f l b)).
Proof.
  intros Hmono Hf. induction l as [|x l IH]; intros b Hb.
  - exists b. split; [done|]. split; [done|]. intros x Hx. by apply elem_of_nil in Hx.
  - destruct (Hf b x Hb) as (b1 & Hb1 & HI1 & HC1).
    destruct (IH b1 HI1) as (b2 & Hb2 & HI2 & HC2).
    exists b2. cbn [foldM]. rewrite (run_bind_normal _ _ b1 Hb1). cbn [completion console].
    split; [done|]. split; [done|].
    intros y [->|Hy]%elem_of_cons.
    + apply (Hmono _ [] _ _). exact HC1.
    + pose proof (Hmono y (console (f b x)) (console (foldM f l b1)) [] (HC2 y Hy))
        as Hc.
      by rewrite List.app_nil_r in Hc.
Qed.

Section UpdaterFacts.

Context `{Externals}.

Variable f : string → string → string → string.
Variable header footer : Quiz → string → list Quiz → string.

(** One call: the file is rewritten if it is there, no file is made, and
    the line is printed in any case. *)
Lemma updateQuestionREADME_spec (quizes : list Quiz) (quiz : Quiz)
    (files : gmap string string) (locale : string) :
  let filepath := path_join (path_join QUIZ_ROOT (path quiz)) (f "README" locale "md") in
  ∃ files',
    completion (updateQuestionREADME f header footer quizes quiz files locale)
    = Normal files'
    ∧ files' = match files !! filepath with
               | Some text =>
                   <[filepath := insertInfoReadme_text (header quiz locale quizes)
                                   (footer quiz locale quizes) text]> files
               | None => files
               end
    ∧ updated_line quiz locale
      ∈ console (updateQuestionREADME f header footer quizes quiz files locale).
Proof.
  intros filepath. unfold updateQuestionREADME. fold filepath.
  unfold insertInfoReadme.
  destruct (files !! filepath) as [text|]; eexists; (split; [|split]);
    try reflexivity; simpl; set_solver.
Qed.

Lemma same_files_insert (files files0 : gmap string string) (filepath text : string) :
  is_Some (files !! filepath) → dom files = dom files0 →
  dom (<[filepath := text]> files) = dom files0.
Proof.
  intros Hsome <-. rewrite dom_insert_L.
  apply elem_of_dom in Hsome. set_solver.
Qed.

End UpdaterFacts.

(** X26. [updateQuestionsREADME] does not throw and makes no file: when
    it is done the files are those that were there. For every quiz and every
    supported locale it prints that the README was updated, also when the
    README does not exist and nothing was written. *)
Theorem updateQuestionsREADME_reports_success `{Externals}
    (f : string → string → string → string)
    (header footer : Quiz → string → list Quiz → string)
    (quizes : list Quiz) (files : gmap string string) :
  ∃ files',
    completion (updateQuestionsREADME f header footer quizes files) = Normal files'
    ∧ dom files' = dom files
    ∧ ∀ quiz locale, quiz ∈ quizes → locale ∈ supportedLocales →
        updated_line quiz locale
        ∈ console (updateQuestionsREADME f header footer quizes files).
Proof.
  unfold updateQuestionsREADME.
  destruct (foldM_invariant
              (λ files quiz,
                 foldM (updateQuestionREADME f header footer quizes quiz)
                   supportedLocales files)
              (λ files', dom files' = dom files)
              (λ quiz c, ∀ locale, locale ∈ supportedLocales →
                           updated_line quiz locale ∈ c)
              quizes) with (b := files) as (files' & Hfiles' & Hdom & Hlines).
  - intros quiz before c behind Hc locale Hlocale.
    rewrite !elem_of_app. right. left. by apply Hc.
  - intros files0 quiz Hdom0.
    destruct (foldM_invariant
                (updateQuestionREADME f header footer quizes quiz)
                (λ files', dom files' = dom files)
                (λ locale c, updated_line quiz locale ∈ c)
                supportedLocales) with (b := files0)
      as (files1 & Hfiles1 & Hdom1 & Hlines1); [| |done|by eauto].
    + intros locale before c behind Hc. rewrite !elem_of_app. by right; left.
    + intros files2 locale Hdom2.
      destruct (updateQuestionREADME_spec f header footer quizes quiz files2 locale)
        as (files3 & Hfiles3 & -> & Hline).
      eexists. split; [exact Hfiles3|]. split; [|done].
      destruct (files2 !! _) eqn:Hfile; [|done].
      by apply same_files_insert.
  - done.
  - exists files'. unfold try_catch. rewrite Hfiles'. split; [done|]. split; [done|].
    intros quiz locale Hquiz Hlocale. by apply Hlines.
Qed.

(** The README of the Korean version does not exist; the line is printed
    all the same, behind the line about the error. *)
Example updateQuestionsREADME_missing_file :
  console (@updateQuestionsREADME
             {| supportedLocales := ["ko"]; defaultLocale := "en";
                YAML_load := λ _, None; Number := λ _, NaN;
                JSON_parse := λ _, None; JSON_stringify := λ _, "";
                formatToCode := λ _ _, ""; getQuestionFullName := λ _ _ _, "";
                QUIZ_ROOT := "/repo/questions"; playgroundPath := "/repo/playground" |}
             (λ name locale ext, name +:+ "." +:+ locale +:+ "." +:+ ext)
             (λ _ _ _, "<h1>Pick</h1>") (λ _ _ _, "<br>")
             [sample_readme_quiz] ∅)
  = [LogError ("Error updating file /repo/questions/00004-easy-pick/README.ko.md: "
               +:+ "File does not exist: "
               +:+ "/repo/questions/00004-easy-pick/README.ko.md");
     Log "README updated successfully for quiz 4 (ko)"].
Proof. vm_compute. reflexivity. Qed.

(** ** Escaped text and the markers *)

Lemma contains_needs_first (c : ascii) (tail s : string) :
  Str.mem c s = false → contains (String c tail) s = false.
Proof.
  induction s as [|c' s IH]; [done|]. simpl.
  intros [Hc Hs]%orb_false_elim. apply bool_decide_eq_false_1 in Hc.
  destruct (ascii_dec c c') as [->|_]; [done|]. by apply IH.
Qed.


(** ** The content of the playground after a run *)

Section ContentsFacts.

Context `{Externals}.

Lemma quizTarget_shape (quiz : Quiz) (locale : option string) (p : list string)
    (code : string) :
  quizTarget quiz locale = Some (p, code) → ∃ d name, p = [d; name].
Proof.
  unfold quizTarget.
  destruct (get (resolveInfo quiz locale) "difficulty"); try done.
  destruct (get (resolveInfo quiz locale) "title"); try done.
  intros [= <- _]. eauto.
Qed.

(** One quiz of the loop, when it returns: a written quiz puts its code at
    its place and its fingerprint in the object, and nothing else changes. *)
Lemma generateQuiz_exact (keepChanges : bool)
    (overridableFiles playgroundSnapshot : Snapshot) (locale : option string)
    (incoming incoming' : Snapshot) (quiz : Quiz) (w w' : World)
    (entries : list (string * node)) :
  playground w = Some entries →
  generateQuiz keepChanges overridableFiles playgroundSnapshot locale incoming quiz w
  = (Normal incoming', w') →
  playgroundCache w' = playgroundCache w
  ∧ ∃ entries', playground w' = Some entries'
    ∧ match quizWritten (writes keepChanges overridableFiles playgroundSnapshot)
              quiz locale with
      | Some (p, code) =>
          (∀ p' n, is_dir n = false →
             node_at (Dir entries') p' = Some n
             ↔ if decide (p' = p) then n = File code
               else node_at (Dir entries) p' = Some n)
          ∧ incoming'
            = <[default "" (last p) :=
                  fingerprint (foldl path_join playgroundPath p) code]> incoming
      | None => entries' = entries ∧ incoming' = incoming
      end.
Proof.
  intros Hw. unfold generateQuiz, quizWritten, quizTarget.
  destruct (get (resolveInfo quiz locale) "difficulty") as [| | | |difficulty| |] eqn:Hd;
    destruct (get (resolveInfo quiz locale) "title") as [| | | |title| |] eqn:Ht;
    try (destruct locale; [intros [= <- <-]; simpl; by eauto|done]);
    try done.
  cbn [last default]. unfold writes.
  destruct (negb keepChanges || _) eqn:Hcond.
  2: { intros [= <- <-]. by eauto. }
  unfold mbind, gen_bind, get_world. rewrite Hw.
  set (entries1 := match lookup_entry difficulty entries with
                   | Some _ => entries
                   | None => put_entry difficulty (Dir []) entries
                   end).
  unfold set_playground, lift. simpl.
  destruct (completion (writeFile _ _ _ entries1)) as [entries2| |] eqn:Hwrite;
    [|done..].
  intros [= <- <-]. simpl. split; [done|]. exists entries2. split; [done|].
  split.
  - intros p' n Hleaf. pose proof (writeFile_normal _ _ _ _ _ Hwrite) as [Hnew Hold].
    case_decide as Hp.
    + subst p'. rewrite Hnew. split; [by intros [= <-]|by intros ->].
    + split.
      * intros Hn. eapply writeFile_normal_inv in Hn; [|done..].
        subst entries1. destruct (lookup_entry difficulty entries) eqn:Hl; [done|].
        by apply mkdir_frame_inv in Hn.
      * intros Hn. apply Hold; [|done..].
        subst entries1. destruct (lookup_entry difficulty entries) eqn:Hl; [done|].
        by apply mkdir_frame.
  - f_equal. unfold fingerprint, hash_digest_hex, createReadStream.
    rewrite chunks_go_join. done.
Qed.

Lemma generateQuizes_exact (keepChanges : bool)
    (overridableFiles playgroundSnapshot : Snapshot) (locale : option string)
    (quizes : list Quiz) :
  ∀ (incoming incoming' : Snapshot) (w w' : World) (entries : list (string * node)),
  playground w = Some entries →
  generateQuizes keepChanges overridableFiles playgroundSnapshot locale quizes incoming w
  = (Normal incoming', w') →
  playgroundCache w' = playgroundCache w
  ∧ incoming' = fingerprints_of (writes keepChanges overridableFiles playgroundSnapshot)
                  quizes locale incoming
  ∧ ∃ entries', playground w' = Some entries'
    ∧ ∀ p n, is_dir n = false →
        node_at (Dir entries') p = Some n
        ↔ match last_written (writes keepChanges overridableFiles playgroundSnapshot)
                  quizes locale p with
          | Some code => n = File code
          | None => node_at (Dir entries) p = Some n
          end.
Proof.
  induction quizes as [|quiz quizes IH]; intros incoming incoming' w w' entries Hw.
  - intros [= <- <-]. split; [done|]. split; [done|]. by exists entries.
  - simpl. unfold mbind, gen_bind.
    destruct (generateQuiz _ _ _ _ _ _ w) as [[incoming1| |] w1] eqn:Hstep; [|done..].
    intros Hrest.
    destruct (generateQuiz_exact _ _ _ _ _ _ _ _ _ _ Hw Hstep)
      as (Hc1 & entries1 & Hw1 & Hquiz).
    destruct (IH _ _ _ _ _ Hw1 Hrest) as (Hc2 & Hinc & entries2 & Hw2 & Hrest').
    split; [congruence|].
    destruct (quizWritten _ quiz locale) as [[p0 code0]|].
    + destruct Hquiz as [Hquiz ->]. split; [done|].
      exists entries2. split; [done|]. intros p n Hleaf.
      rewrite (Hrest' p n Hleaf).
      destruct (last_written _ quizes locale p); [done|].
      rewrite (Hquiz p n Hleaf). by destruct (decide (p0 = p)), (decide (p = p0)).
    + destruct Hquiz as [-> ->]. split; [done|].
      exists entries2. split; [done|]. intros p n Hleaf.
      rewrite (Hrest' p n Hleaf). by destruct (last_written _ quizes locale p).
Qed.

Lemma last_written_ext (allowed allowed' : string → bool) (locale : option string)
    (quizes : list Quiz) :
  (∀ quiz p code, quiz ∈ quizes → quizTarget quiz locale = Some (p, code) →
     allowed (default "" (last p)) = allowed' (default "" (last p))) →
  (∀ p, last_written allowed quizes locale p = last_written allowed' quizes locale p)
  ∧ ∀ incoming, fingerprints_of allowed quizes locale incoming
                = fingerprints_of allowed' quizes locale incoming.
Proof.
  induction quizes as [|quiz quizes IH]; intros Hext; [done|].
  assert (quizWritten allowed quiz locale = quizWritten allowed' quiz locale) as Hq.
  { unfold quizWritten.
    destruct (quizTarget quiz locale) as [[p code]|] eqn:Ht; [|done].
    rewrite (Hext quiz p code); [done|apply list_elem_of_here|done]. }
  destruct IH as [IH1 IH2].
  { intros q p code Hin. apply Hext. by apply list_elem_of_further. }
  split.
  - intros p. simpl. by rewrite IH1, Hq.
  - intros incoming. simpl. by rewrite IH2, Hq.
Qed.

Lemma last_written_elem (allowed : string → bool) (locale : option string)
    (quizes : list Quiz) (p : list string) (code : string) :
  last_written allowed quizes locale p = Some code →
  ∃ quiz, quiz ∈ quizes ∧ quizWritten allowed quiz locale = Some (p, code).
Proof.
  induction quizes as [|quiz quizes IH]; simpl; [done|].
  destruct (last_written allowed quizes locale p) as [code'|].
  - intros [= ->]. destruct IH as (q & Hq & Hw); [done|].
    exists q. split; [by apply list_elem_of_further|done].
  - destruct (quizWritten allowed quiz locale) as [[p' code']|] eqn:Hw; [|done].
    case_decide as Hp; [|done]. intros [= ->]. subst p'.
    exists quiz. split; [apply list_elem_of_here|done].
Qed.

Lemma last_written_is_Some (allowed : string → bool) (locale : option string)
    (quizes : list Quiz) (quiz : Quiz) (p : list string) (code : string) :
  quiz ∈ quizes → quizWritten allowed quiz locale = Some (p, code) →
  is_Some (last_written allowed quizes locale p).
Proof.
  induction quizes as [|q quizes IH]; intros Hin Hw; [by apply elem_of_nil in Hin|].
  simpl. destruct (last_written allowed quizes locale p) as [code'|] eqn:Hl; [done|].
  apply elem_of_cons in Hin as [<-|Hin].
  - rewrite Hw. by rewrite decide_True.
  - destruct (IH Hin Hw) as [? [=]].
Qed.

(** [generateWith] is its loop between two steps that cannot fail. *)
Lemma generateWith_loop (argv : list string) (answers : Answers)
    (quizes : list Quiz) (cache overridableFiles playgroundSnapshot : Snapshot)
    (keepChanges : bool) (w w' : World) (c : Completion unit) :
  generateWith argv answers quizes cache keepChanges overridableFiles
    playgroundSnapshot w = (c, w') →
  ∃ (w0 w1 : World) (c1 : Completion Snapshot),
    playground w0 = (if keepChanges then playground w else Some [])
    ∧ playgroundCache w0 = playgroundCache w
    ∧ generateQuizes keepChanges overridableFiles playgroundSnapshot
        (chosenLocale argv answers) quizes ∅ w0 = (c1, w1)
    ∧ match c1 with
      | Normal incoming =>
          c = Normal tt ∧ playground w' = playground w1
          ∧ playgroundCache w' = Some (JSON_stringify (incoming ∪ cache))
      | Throw err => c = Throw err ∧ w' = w1
      | Exit code => c = Exit code ∧ w' = w1
      end.
Proof.
  unfold generateWith.
  unfold mbind at 1. unfold gen_bind at 1.
  set (w0 := ((if keepChanges then mret tt else set_playground (Some [])) w).2).
  assert ((if keepChanges then mret tt else set_playground (Some [])) w = (Normal tt, w0))
    as ->.
  { subst w0. by destruct keepChanges. }
  unfold mbind at 1. unfold gen_bind at 1.
  destruct (generateQuizes _ _ _ _ _ _ w0) as [c1 w1] eqn:Hloop.
  intros Hrun. exists w0, w1, c1.
  split; [subst w0; by destruct keepChanges|].
  split; [subst w0; by destruct keepChanges|].
  split; [done|].
  destruct c1 as [incoming| |]; injection Hrun as <- <-; done.
Qed.

(** The run from the prompt for the language on, when it gets through. *)
Lemma generateWith_exact (argv : list string) (answers : Answers)
    (quizes : list Quiz) (cache overridableFiles playgroundSnapshot : Snapshot)
    (keepChanges : bool) (w w' : World) (entries : list (string * node)) :
  keepChanges = false ∨ playground w = Some entries →
  generateWith argv answers quizes cache keepChanges overridableFiles
    playgroundSnapshot w = (Normal tt, w') →
  let locale := chosenLocale argv answers in
  let allowed := writes keepChanges overridableFiles playgroundSnapshot in
  playgroundCache w'
  = Some (JSON_stringify (fingerprints_of allowed quizes locale ∅ ∪ cache))
  ∧ ∃ entries', playground w' = Some entries'
    ∧ ∀ p n, is_dir n = false →
        node_at (Dir entries') p = Some n
        ↔ match last_written allowed quizes locale p with
          | Some code => n = File code
          | None => node_at (Dir (if keepChanges then entries else [])) p = Some n
          end.
Proof.
  intros Hw Hrun.
  apply generateWith_loop in Hrun as (w0 & w1 & c1 & Hw0 & _ & Hloop & Hend).
  destruct c1 as [incoming| |]; [|by destruct Hend..].
  destruct Hend as (_ & Hp & Hc).
  assert (playground w0 = Some (if keepChanges then entries else [])) as Hw0'.
  { rewrite Hw0. destruct keepChanges; [|done]. by destruct Hw. }
  destruct (generateQuizes_exact _ _ _ _ _ _ _ _ _ _ Hw0' Hloop)
    as (_ & -> & entries1 & Hw1 & Hexact).
  simpl. split; [done|]. exists entries1. split; [congruence|done].
Qed.

(** A run without the flag, from the point where it makes the playground
    anew; a run with the flag, from the point where it has the snapshot. *)
Lemma generatePlayground_full (argv : list string) (answers : Answers)
    (quizes : list Quiz) (w w' : World) :
  keepChangesFlag argv = false →
  playground w = None ∨ confirm answers = true →
  generatePlayground argv answers quizes w = (Normal tt, w') →
  ∃ cache w0,
    completion (readPlaygroundCache (playgroundCache w)) = Normal cache
    ∧ generateWith argv answers quizes cache false ∅ ∅ w0 = (Normal tt, w').
Proof.
  intros Hflag Hfresh. unfold generatePlayground.
  unfold mbind at 1. unfold gen_bind at 1. simpl.
  unfold mbind at 1. unfold gen_bind at 1. simpl.
  unfold mbind at 1. unfold gen_bind at 1. simpl.
  destruct (completion (readPlaygroundCache (playgroundCache w))) as [cache| |];
    [|done..].
  rewrite Hflag.
  destruct (playground w) as [files|] eqn:Hw.
  - destruct Hfresh as [?| ->]; [done|]. by eauto.
  - by eauto.
Qed.

Lemma generatePlayground_keep (argv : list string) (answers : Answers)
    (quizes : list Quiz) (w w' : World) (c : Completion unit)
    (entries : list (string * node)) (cache snapshot : Snapshot) :
  keepChangesFlag argv = true →
  playground w = Some entries →
  completion (readPlaygroundCache (playgroundCache w)) = Normal cache →
  completion (takeSnapshot playgroundPath entries) = Normal snapshot →
  generatePlayground argv answers quizes w = (c, w') →
  ∃ w0, playground w0 = Some entries
        ∧ playgroundCache w0 = playgroundCache w
        ∧ generateWith argv answers quizes cache true
            (calculateOverridableFiles cache snapshot) snapshot w0 = (c, w').
Proof.
  intros Hflag Hw Hcache Hsnap. unfold generatePlayground.
  unfold mbind at 1. unfold gen_bind at 1. simpl.
  unfold mbind at 1. unfold gen_bind at 1. simpl.
  unfold mbind at 1. unfold gen_bind at 1. simpl.
  rewrite Hw, Hcache, Hflag.
  unfold mbind at 1. unfold gen_bind at 1. simpl.
  unfold mbind at 1. unfold gen_bind at 1. simpl.
  rewrite Hsnap. intros Hrun. eexists. split; [|split; [|exact Hrun]]; done.
Qed.

(** What the test of a keep-changes run comes to. *)
Lemma writes_keep (cache snapshot : Snapshot) (name : string) :
  map_Forall (λ _ h, truthy (VString h) = true) snapshot →
  writes true (calculateOverridableFiles cache snapshot) snapshot name
  = bool_decide (snapshot !! name = None ∨ snapshot !! name = cache !! name).
Proof.
  intros Htruthy. unfold writes. simpl.
  apply eq_true_iff_eq. rewrite isQuizWritable_spec by done.
  rewrite bool_decide_eq_true. split.
  - intros [?|(h & ? & ?)]; [by left|right; congruence].
  - intros [?|Heq]; [by left|].
    destruct (snapshot !! name) as [h|] eqn:Hs; [|by left].
    right. exists h. by split.
Qed.

End ContentsFacts.

(** X28. The content of the playground after a run that makes it anew and
    gets through: the files are those of the quizzes that have a difficulty
    and a title in the chosen language, each with the code of the last quiz
    of the corpus that goes to its path, and no other file is there. The
    cache file holds the cache that was read, overlaid with the
    fingerprints of these files. *)
Theorem full_run_contents `{Externals} (argv : list string)
    (answers : Answers) (quizes : list Quiz) (w w' : World) :
  keepChangesFlag argv = false →
  playground w = None ∨ confirm answers = true →
  generatePlayground argv answers quizes w = (Normal tt, w') →
  let locale := chosenLocale argv answers in
  (∃ cache, completion (readPlaygroundCache (playgroundCache w)) = Normal cache
     ∧ playgroundCache w'
       = Some (JSON_stringify (fingerprints_of (λ _, true) quizes locale ∅ ∪ cache)))
  ∧ ∃ entries', playground w' = Some entries'
    ∧ ∀ p n, is_dir n = false →
        node_at (Dir entries') p = Some n
        ↔ ∃ code, last_written (λ _, true) quizes locale p = Some code
                  ∧ n = File code.
Proof.
  intros Hflag Hfresh Hrun locale.
  destruct (generatePlayground_full _ _ _ _ _ Hflag Hfresh Hrun)
    as (cache & w0 & Hcache & Hwith).
  apply generateWith_exact with (entries := []) in Hwith
    as (Hc & entries' & Hw' & Hexact); [|by left].
  destruct (last_written_ext (writes false ∅ ∅) (λ _, true) locale quizes)
    as [Hl Hf]; [done|].
  fold locale in Hc, Hexact. rewrite Hf in Hc. split; [by eauto|].
  exists entries'. split; [done|]. intros p n Hleaf.
  rewrite (Hexact p n Hleaf), Hl.
  destruct (last_written _ quizes locale p) as [code|].
  - split; [intros ->; eauto|by intros (? & [= <-] & ->)].
  - split; [|by intros (? & [=] & _)].
    intros Hn. destruct p; simpl in Hn; [by simplify_eq/=|done].
Qed.

Lemma full_run_contents_witness :
  let argv := ["node"; "generate-play-local.js"; "en"] in
  let answers := {| confirm := true; select := None |} in
  let run := @generatePlayground sample_externals argv answers [sample_quiz]
               sample_world in
  let locale := @chosenLocale sample_externals argv answers in
  (∃ cache,
     completion (@readPlaygroundCache sample_externals (playgroundCache sample_world))
     = Normal cache
     ∧ playgroundCache run.2
       = Some (@JSON_stringify sample_externals
                 (@fingerprints_of sample_externals (λ _, true) [sample_quiz] locale ∅
                  ∪ cache)))
  ∧ ∃ entries', playground run.2 = Some entries'
    ∧ ∀ p n, is_dir n = false →
        node_at (Dir entries') p = Some n
        ↔ ∃ code, @last_written sample_externals (λ _, true) [sample_quiz] locale p
                  = Some code
                  ∧ n = File code.
Proof.
  intros argv answers run locale.
  apply (@full_run_contents sample_externals argv answers [sample_quiz]
           sample_world run.2).
  - reflexivity.
  - by right.
  - vm_compute. reflexivity.
Defined.

(** X29. The content of the playground after a keep-changes run that gets
    through. A quiz is written when the playground has no file of the name
    of its file, or has one whose fingerprint is the one that the cache has
    for the name. A path that a written quiz goes to holds the code of the
    last such quiz; every other file is as it was, and no other file has
    appeared. The cache file holds the cache that was read, overlaid with
    the fingerprints of the files that were written. *)
Theorem keep_changes_contents `{Externals} (argv : list string)
    (answers : Answers) (quizes : list Quiz) (w w' : World)
    (entries : list (string * node)) (cache snapshot : Snapshot) :
  keepChangesFlag argv = true →
  playground w = Some entries →
  completion (readPlaygroundCache (playgroundCache w)) = Normal cache →
  completion (takeSnapshot playgroundPath entries) = Normal snapshot →
  generatePlayground argv answers quizes w = (Normal tt, w') →
  let locale := chosenLocale argv answers in
  let allowed := λ name,
    bool_decide (snapshot !! name = None ∨ snapshot !! name = cache !! name) in
  playgroundCache w'
  = Some (JSON_stringify (fingerprints_of allowed quizes locale ∅ ∪ cache))
  ∧ ∃ entries', playground w' = Some entries'
    ∧ ∀ p n, is_dir n = false →
        node_at (Dir entries') p = Some n
        ↔ match last_written allowed quizes locale p with
          | Some code => n = File code
          | None => node_at (Dir entries) p = Some n
          end.
Proof.
  intros Hflag Hw Hcache Hsnap Hrun locale allowed.
  destruct (generatePlayground_keep _ _ _ _ _ _ _ _ _ Hflag Hw Hcache Hsnap Hrun)
    as (w0 & Hw0 & _ & Hwith).
  apply generateWith_exact with (entries := entries) in Hwith
    as (Hc & entries' & Hw' & Hexact); [|by right].
  destruct (last_written_ext
              (writes true (calculateOverridableFiles cache snapshot) snapshot)
              allowed locale quizes) as [Hl Hf].
  { intros quiz p code _ _. apply writes_keep. by eapply takeSnapshot_truthy. }
  fold locale in Hc, Hexact. rewrite Hf in Hc. split; [done|].
  exists entries'. split; [done|]. intros p n Hleaf.
  by rewrite (Hexact p n Hleaf), Hl.
Qed.

Lemma keep_changes_contents_witness :
  let run := @generatePlayground sample_externals sample_argv sample_answers
               [sample_quiz] sample_world_untouched in
  let locale := @chosenLocale sample_externals sample_argv sample_answers in
  ∃ cache snapshot : Snapshot,
    let allowed := λ name : string,
      bool_decide (snapshot !! name = None ∨ snapshot !! name = cache !! name) in
    playgroundCache run.2
    = Some (@JSON_stringify sample_externals
              (@fingerprints_of sample_externals allowed [sample_quiz] locale ∅ ∪ cache))
    ∧ ∃ entries', playground run.2 = Some entries'
      ∧ ∀ p n, is_dir n = false →
          node_at (Dir entries') p = Some n
          ↔ match @last_written sample_externals allowed [sample_quiz] locale p with
            | Some code => n = File code
            | None => node_at (Dir sample_playground) p = Some n
            end.
Proof.
  intros run locale.
  eexists _, _.
  apply (@keep_changes_contents sample_externals sample_argv sample_answers
           [sample_quiz] sample_world_untouched run.2 sample_playground).
  - reflexivity.
  - reflexivity.
  - vm_compute. reflexivity.
  - vm_compute. reflexivity.
  - vm_compute. reflexivity.
Defined.

(** ** Generating twice *)

Lemma elem_of_put_entry (name : string) (n : node) (entries : list (string * node))
    (x : string) (m : node) :
  (x, m) ∈ put_entry name n entries → (x = name ∧ m = n) ∨ (x, m) ∈ entries.
Proof.
  induction entries as [|[name' n'] entries IH]; simpl.
  - intros Hin. apply list_elem_of_singleton in Hin as [= -> ->]. by left.
  - case_decide as Hname.
    + intros Hin. apply elem_of_cons in Hin as [[= -> ->]|Hin]; [by left|].
      right. by apply list_elem_of_further.
    + intros Hin. apply elem_of_cons in Hin as [[= -> ->]|Hin].
      * right. apply list_elem_of_here.
      * destruct (IH Hin) as [?|?]; [by left|]. right. by apply list_elem_of_further.
Qed.

Lemma put_entry_names (name : string) (n : node) (entries : list (string * node))
    (x : string) :
  x ∈ (put_entry name n entries).*1 → x = name ∨ x ∈ entries.*1.
Proof.
  intros Hin. apply list_elem_of_fmap in Hin as ([x' m] & -> & Hin).
  apply elem_of_put_entry in Hin as [[-> _]|Hin]; [by left|].
  right. apply list_elem_of_fmap. by exists (x', m).
Qed.

Lemma put_entry_NoDup (name : string) (n : node) (entries : list (string * node)) :
  NoDup entries.*1 → NoDup (put_entry name n entries).*1.
Proof.
  induction entries as [|[name' n'] entries IH]; simpl.
  - intros _. apply NoDup_singleton.
  - rewrite NoDup_cons. intros [Hnotin Hnodup]. case_decide as Hname.
    + subst name'. simpl. by apply NoDup_cons.
    + simpl. apply NoDup_cons. split; [|by apply IH].
      intros Hin. apply put_entry_names in Hin as [?|?]; done.
Qed.

Lemma NoDup_lookup_entry (entries : list (string * node)) (x : string) (m : node) :
  NoDup entries.*1 → (x, m) ∈ entries → lookup_entry x entries = Some m.
Proof.
  induction entries as [|[name' n'] entries IH]; simpl.
  - intros _ Hin. by apply elem_of_nil in Hin.
  - rewrite NoDup_cons. intros [Hnotin Hnodup] Hin.
    apply elem_of_cons in Hin as [[= -> ->]|Hin].
    + by rewrite decide_True.
    + rewrite decide_False; [by apply IH|].
      intros ->. apply Hnotin. apply list_elem_of_fmap. by exists (x, m).
Qed.

Lemma flat_playground_nil : flat_playground [].
Proof.
  split; [apply NoDup_nil_2|]. intros d n Hin. by apply elem_of_nil in Hin.
Qed.

Lemma flat_playground_mkdir (dir : string) (entries : list (string * node)) :
  flat_playground entries → flat_playground (put_entry dir (Dir []) entries).
Proof.
  intros [Hnodup Hflat]. split; [by apply put_entry_NoDup|].
  intros d n Hin. apply elem_of_put_entry in Hin as [[-> ->]|Hin]; [|exact (Hflat _ _ Hin)].
  exists []. split; [done|]. split; [apply NoDup_nil_2|].
  intros f m Hin. by apply elem_of_nil in Hin.
Qed.

(** In such a playground a write into a folder that exists goes through,
    and leaves such a playground. *)
Lemma flat_playground_writeFile (dir file code : string)
    (entries : list (string * node)) :
  flat_playground entries → is_Some (lookup_entry dir entries) →
  ∃ entries', completion (writeFile dir file code entries) = Normal entries'
              ∧ flat_playground entries'.
Proof.
  intros [Hnodup Hflat] [n Hdir]. unfold writeFile. rewrite Hdir.
  destruct (Hflat dir n (SnapshotFacts.lookup_entry_elem _ _ _ Hdir))
    as (sub & -> & Hsub & Hfiles).
  assert (flat_playground (put_entry dir (Dir (put_entry file (File code) sub)) entries))
    as Hnew.
  { split; [by apply put_entry_NoDup|].
    intros d n Hin. apply elem_of_put_entry in Hin as [[-> ->]|Hin]; [|exact (Hflat _ _ Hin)].
    eexists. split; [done|]. split; [by apply put_entry_NoDup|].
    intros f m Hin. apply elem_of_put_entry in Hin as [[-> ->]|Hin]; [by eauto|].
    exact (Hfiles _ _ Hin). }
  destruct (lookup_entry file sub) as [m|] eqn:Hfile; [|by eauto].
  destruct (Hfiles file m (SnapshotFacts.lookup_entry_elem _ _ _ Hfile)) as [code' ->].
  by eauto.
Qed.

(** The traversal of such a playground reaches the files that the paths
    of two names lead to, and nothing else. *)
Lemma flat_playground_visits (root : string) (entries : list (string * node))
    (v : string * string * node) :
  flat_playground entries → v ∈ visits root entries →
  ∃ d f code, v = (f, path_join (path_join root d) f, File code)
              ∧ node_at (Dir entries) [d; f] = Some (File code).
Proof.
  intros [Hnodup Hflat] Hv. unfold visits in Hv.
  apply list_elem_of_In, in_flat_map in Hv as ([d n] & Hd & Hv).
  apply list_elem_of_In in Hd, Hv. simpl in Hv.
  destruct (Hflat d n Hd) as (sub & -> & Hsub & Hfiles). simpl in Hv.
  apply list_elem_of_In, in_flat_map in Hv as ([f m] & Hf & Hv).
  apply list_elem_of_In in Hf, Hv. simpl in Hv.
  destruct (Hfiles f m Hf) as [code ->]. simpl in Hv.
  apply list_elem_of_singleton in Hv as ->.
  exists d, f, code. split; [done|]. simpl.
  rewrite (NoDup_lookup_entry entries d (Dir sub)) by done.
  by rewrite (NoDup_lookup_entry sub f (File code)).
Qed.

Lemma flat_playground_readable (root : string) (entries : list (string * node)) :
  flat_playground entries → forallb readable (visits root entries) = true.
Proof.
  intros Hflat. apply forallb_forall. intros v Hv. apply list_elem_of_In in Hv.
  by destruct (flat_playground_visits root entries v Hflat Hv) as (d & f & code & -> & _).
Qed.

Section RegenerateFacts.

Context `{Externals}.

(** One quiz of the loop in a playground of folders of files: a quiz that
    has a place never fails, and the playground stays as it is made. *)
Lemma generateQuiz_flat (keepChanges : bool)
    (overridableFiles playgroundSnapshot : Snapshot) (locale : option string)
    (incoming : Snapshot) (quiz : Quiz) (w w' : World) (c : Completion Snapshot)
    (entries : list (string * node)) :
  playground w = Some entries → flat_playground entries →
  generateQuiz keepChanges overridableFiles playgroundSnapshot locale incoming quiz w
  = (c, w') →
  (∃ entries', playground w' = Some entries' ∧ flat_playground entries')
  ∧ (is_Some (quizTarget quiz locale) → ∃ incoming', c = Normal incoming').
Proof.
  intros Hw Hflat. unfold generateQuiz, quizTarget.
  destruct (get (resolveInfo quiz locale) "difficulty") as [| | | |difficulty| |] eqn:Hd;
    destruct (get (resolveInfo quiz locale) "title") as [| | | |title| |] eqn:Ht;
    try (destruct locale; intros [= <- <-]; simpl;
         (split; [by eauto|by intros [? [=]]])).
  destruct (negb keepChanges || _) eqn:Hcond.
  2: { intros [= <- <-]. by eauto. }
  unfold mbind, gen_bind, get_world. rewrite Hw.
  set (entries1 := match lookup_entry difficulty entries with
                   | Some _ => entries
                   | None => put_entry difficulty (Dir []) entries
                   end).
  assert (flat_playground entries1 ∧ is_Some (lookup_entry difficulty entries1))
    as [Hflat1 Hdir1].
  { subst entries1. destruct (lookup_entry difficulty entries) eqn:Hl.
    - split; [done|]. by rewrite Hl.
    - split; [by apply flat_playground_mkdir|]. by rewrite lookup_entry_put_eq. }
  destruct (flat_playground_writeFile difficulty
              (getQuestionFullName (no quiz) difficulty title +:+ ".ts")
              (formatToCode quiz locale) entries1 Hflat1 Hdir1)
    as (entries2 & Hwrite & Hflat2).
  unfold set_playground, lift. simpl. rewrite Hwrite.
  intros [= <- <-]. simpl. by eauto.
Qed.

(** A quiz without a place does the same in every run. *)
Lemma generateQuiz_no_target (keepChanges keepChanges' : bool)
    (overridableFiles playgroundSnapshot overridableFiles' playgroundSnapshot' : Snapshot)
    (locale : option string) (incoming incoming' incoming1 : Snapshot) (quiz : Quiz)
    (w w' w1 : World) :
  quizTarget quiz locale = None →
  generateQuiz keepChanges overridableFiles playgroundSnapshot locale incoming quiz w
  = (Normal incoming', w') →
  ∃ w1',
    generateQuiz keepChanges' overridableFiles' playgroundSnapshot' locale incoming1
      quiz w1 = (Normal incoming1, w1').
Proof.
  unfold generateQuiz, quizTarget.
  destruct (get (resolveInfo quiz locale) "difficulty") as [| | | |difficulty| |] eqn:Hd;
    destruct (get (resolveInfo quiz locale) "title") as [| | | |title| |] eqn:Ht;
    try done; intros _; destruct locale; try done; intros _; by eexists.
Qed.

(** A loop that got through once gets through again, over a playground as
    the generator makes it. *)
Lemma generateQuizes_again (keepChanges keepChanges' : bool)
    (overridableFiles playgroundSnapshot overridableFiles' playgroundSnapshot' : Snapshot)
    (locale : option string) (quizes : list Quiz) :
  ∀ (incoming incoming' incoming1 : Snapshot) (w w' w1 : World)
    (entries1 : list (string * node)),
  generateQuizes keepChanges overridableFiles playgroundSnapshot locale quizes incoming w
  = (Normal incoming', w') →
  playground w1 = Some entries1 → flat_playground entries1 →
  ∃ incoming1' w1',
    generateQuizes keepChanges' overridableFiles' playgroundSnapshot' locale quizes
      incoming1 w1 = (Normal incoming1', w1').
Proof.
  induction quizes as [|quiz quizes IH];
    intros incoming incoming' incoming1 w w' w1 entries1; [by eauto|].
  simpl. unfold mbind, gen_bind.
  destruct (generateQuiz keepChanges _ _ _ _ _ w) as [[incoming2| |] w2] eqn:Hstep;
    [|done..].
  intros Hrest Hw1 Hflat.
  destruct (generateQuiz keepChanges' _ _ _ _ _ w1) as [c3 w3] eqn:Hstep'.
  destruct (generateQuiz_flat _ _ _ _ _ _ _ _ _ _ Hw1 Hflat Hstep')
    as [(entries3 & Hw3 & Hflat3) Htotal].
  assert (∃ incoming3, c3 = Normal incoming3) as [incoming3 ->].
  { destruct (quizTarget quiz locale) as [target|] eqn:Ht; [by apply Htotal|].
    destruct (generateQuiz_no_target keepChanges keepChanges' overridableFiles
                playgroundSnapshot overridableFiles' playgroundSnapshot' locale
                incoming incoming2 incoming1 quiz w w2 w1 Ht Hstep) as [w1' Hsame].
    rewrite Hsame in Hstep'. injection Hstep' as <- _. by eauto. }
  by eapply IH.
Qed.

Lemma generateQuizes_flat (keepChanges : bool)
    (overridableFiles playgroundSnapshot : Snapshot) (locale : option string)
    (quizes : list Quiz) :
  ∀ (incoming : Snapshot) (w w' : World) (c : Completion Snapshot)
    (entries : list (string * node)),
  playground w = Some entries → flat_playground entries →
  generateQuizes keepChanges overridableFiles playgroundSnapshot locale quizes incoming w
  = (c, w') →
  ∃ entries', playground w' = Some entries' ∧ flat_playground entries'.
Proof.
  induction quizes as [|quiz quizes IH]; intros incoming w w' c entries Hw Hflat.
  - intros [= _ <-]. by eauto.
  - simpl. unfold mbind, gen_bind.
    destruct (generateQuiz _ _ _ _ _ _ w) as [c1 w1] eqn:Hstep.
    destruct (generateQuiz_flat _ _ _ _ _ _ _ _ _ _ Hw Hflat Hstep)
      as [(entries1 & Hw1 & Hflat1) _].
    destruct c1 as [incoming1| |]; [by eapply IH|..]; intros [= _ <-]; by eauto.
Qed.

(** The fingerprint that the object of the run has in the end for the name
    of the file of a quiz. *)
Lemma fingerprints_of_lookup (all : list Quiz) (locale : option string)
    (quizes : list Quiz) :
  names_tell_paths all locale → quizes ⊆ all →
  ∀ (incoming : Snapshot) (p : list string),
    (∃ quiz code, quiz ∈ all ∧ quizTarget quiz locale = Some (p, code)) →
    fingerprints_of (λ _, true) quizes locale incoming !! default "" (last p)
    = match last_written (λ _, true) quizes locale p with
      | Some code => Some (fingerprint (foldl path_join playgroundPath p) code)
      | None => incoming !! default "" (last p)
      end.
Proof.
  intros Hnames. induction quizes as [|quiz quizes IH]; intros Hsub incoming p Hp;
    [done|].
  simpl. rewrite IH; [|set_solver|done].
  destruct (last_written _ quizes locale p) as [code|]; [done|].
  unfold quizWritten.
  destruct (quizTarget quiz locale) as [[p' code']|] eqn:Ht; [|done].
  case_decide as Hpp.
  - subst p'. by rewrite lookup_insert_eq.
  - rewrite lookup_insert_ne; [done|]. intros Heq. apply Hpp.
    destruct Hp as (quiz0 & code0 & Hin0 & Ht0).
    apply (Hnames quiz quiz0 p' p code' code0); [set_solver|done..|].
    destruct (quizTarget_shape _ _ _ _ Ht) as (d' & name' & ->).
    destruct (quizTarget_shape _ _ _ _ Ht0) as (d0 & name0 & ->).
    simpl in *. by subst.
Qed.

(** After a run that made the playground anew, the snapshot of the
    playground and the cache agree on the name of the file of every quiz. *)
Lemma snapshot_agrees_with_cache (locale : option string) (quizes : list Quiz)
    (entries : list (string * node)) (cache snapshot : Snapshot) :
  names_tell_paths quizes locale →
  flat_playground entries →
  (∀ p n, is_dir n = false →
     node_at (Dir entries) p = Some n
     ↔ match last_written (λ _, true) quizes locale p with
       | Some code => n = File code
       | None => node_at (Dir []) p = Some n
       end) →
  completion (takeSnapshot playgroundPath entries) = Normal snapshot →
  ∀ quiz p code, quiz ∈ quizes → quizTarget quiz locale = Some (p, code) →
    snapshot !! default "" (last p)
    = (fingerprints_of (λ _, true) quizes locale ∅ ∪ cache) !! default "" (last p).
Proof.
  intros Hnames Hflat Hexact Hsnap quiz p code Hin Ht.
  destruct (last_written_is_Some (λ _, true) locale quizes quiz p code Hin)
    as [codeL Hl]; [unfold quizWritten; by rewrite Ht|].
  pose proof (fingerprints_of_lookup quizes locale quizes Hnames (reflexivity _) ∅ p)
    as Hf.
  rewrite Hl in Hf.
  rewrite (lookup_union_Some_l _ cache _ _ (Hf ltac:(eauto))).
  destruct (quizTarget_shape _ _ _ _ Ht) as (d & name & ->).
  cbn [last default from_option id foldl] in *.
  rewrite takeSnapshot_spec in Hsnap.
  destruct (forallb readable (visits playgroundPath entries)); [|done].
  injection Hsnap as <-.
  apply SnapshotFacts.record_visits_lookup_unique.
  - right. eexists. split.
    + apply (SnapshotFacts.node_at_visits [d] entries playgroundPath name (File codeL));
        [|done].
      apply Hexact; [done|]. cbn [app]. by rewrite Hl.
    + done.
  - intros v Hv Hname.
    destruct (flat_playground_visits _ _ _ Hflat Hv) as (d' & f & code' & -> & Hnode).
    simpl in Hname. subst f.
    apply Hexact in Hnode; [|done].
    destruct (last_written (λ _, true) quizes locale [d'; name]) as [code''|] eqn:Hl';
      [|done].
    injection Hnode as ->.
    destruct (last_written_elem _ _ _ _ _ Hl') as (quiz' & Hin' & Hw').
    unfold quizWritten in Hw'.
    destruct (quizTarget quiz' locale) as [[p' c']|] eqn:Ht'; [|done].
    injection Hw' as -> ->.
    assert ([d'; name] = [d; name]) as [= ->].
    { by apply (Hnames quiz' quiz [d'; name] [d; name] code'' code). }
    rewrite Hl in Hl'. by injection Hl' as <-.
Qed.

End RegenerateFacts.

(** X30. Generating twice changes nothing. When a run has made the
    playground anew, the names of the files of the quizzes tell their
    folders, and the cache file that the run wrote reads back as it was
    written, then a keep-changes run for the same language right after it
    gets through, and leaves every file of the playground with the content
    it had, adds no file, and writes the cache file with the same
    content. *)
Theorem regenerate_changes_nothing `{Externals} (argv argv' : list string)
    (answers answers' : Answers) (quizes : list Quiz) (w w1 w2 : World)
    (c : Completion unit) :
  keepChangesFlag argv = false →
  playground w = None ∨ confirm answers = true →
  generatePlayground argv answers quizes w = (Normal tt, w1) →
  keepChangesFlag argv' = true →
  chosenLocale argv' answers' = chosenLocale argv answers →
  names_tell_paths quizes (chosenLocale argv answers) →
  (∀ cache, completion (readPlaygroundCache (playgroundCache w)) = Normal cache →
     let written :=
       fingerprints_of (λ _, true) quizes (chosenLocale argv answers) ∅ ∪ cache in
     JSON_parse (JSON_stringify written) = Some written) →
  generatePlayground argv' answers' quizes w1 = (c, w2) →
  c = Normal tt
  ∧ playgroundCache w2 = playgroundCache w1
  ∧ ∃ entries1 entries2,
      playground w1 = Some entries1 ∧ playground w2 = Some entries2
      ∧ ∀ p n, is_dir n = false →
          node_at (Dir entries2) p = Some n ↔ node_at (Dir entries1) p = Some n.
Proof.
  intros Hflag Hfresh Hrun1 Hflag' Hlocale Hnames Hjson Hrun2.
  set (locale := chosenLocale argv answers) in *.
  destruct (generatePlayground_full _ _ _ _ _ Hflag Hfresh Hrun1)
    as (cache0 & w0 & Hcache0 & Hwith1).
  specialize (Hjson cache0 Hcache0). cbv zeta in Hjson.
  set (cache1 := fingerprints_of (λ _, true) quizes locale ∅ ∪ cache0) in *.
  (* the first run *)
  pose proof Hwith1 as Hloop1.
  apply generateWith_loop in Hloop1 as (wa & wb & c1 & Hwa & _ & Hloop1 & Hend1).
  destruct c1 as [incoming1| |]; [|by destruct Hend1..].
  destruct Hend1 as (_ & Hp1 & _).
  destruct (generateQuizes_flat _ _ _ _ _ _ _ _ _ _ Hwa flat_playground_nil Hloop1)
    as (entries1 & Hwb & Hflat1).
  apply generateWith_exact with (entries := []) in Hwith1
    as (Hc1 & entries1' & Hw1 & Hexact1); [|by left].
  assert (entries1' = entries1) as -> by congruence.
  destruct (last_written_ext (writes false ∅ ∅) (λ _, true) locale quizes)
    as [Hl1 Hf1]; [done|].
  fold locale in Hc1, Hexact1, Hloop1. rewrite Hf1 in Hc1. fold cache1 in Hc1.
  assert (∀ p n, is_dir n = false →
            node_at (Dir entries1) p = Some n
            ↔ match last_written (λ _, true) quizes locale p with
              | Some code => n = File code
              | None => node_at (Dir []) p = Some n
              end) as Hexact1'.
  { intros p n Hleaf. by rewrite (Hexact1 p n Hleaf), Hl1. }
  (* the second run reads the cache and takes the snapshot *)
  assert (completion (readPlaygroundCache (playgroundCache w1)) = Normal cache1)
    as Hcache1.
  { rewrite Hc1. unfold readPlaygroundCache. by rewrite Hjson. }
  assert (∃ snapshot, completion (takeSnapshot playgroundPath entries1) = Normal snapshot)
    as [snapshot Hsnap].
  { rewrite takeSnapshot_spec, flat_playground_readable by done. by eexists. }
  destruct (generatePlayground_keep _ _ _ _ _ _ _ _ _ Hflag' Hw1 Hcache1 Hsnap Hrun2)
    as (w0' & Hw0' & _ & Hwith2).
  (* it gets through *)
  pose proof Hwith2 as Hloop2.
  apply generateWith_loop in Hloop2 as (wa' & wb' & c2 & Hwa' & _ & Hloop2 & Hend2).
  rewrite Hlocale in Hloop2. rewrite Hw0' in Hwa'.
  destruct (generateQuizes_again false true ∅ ∅
              (calculateOverridableFiles cache1 snapshot) snapshot locale quizes
              _ _ ∅ _ _ wa' entries1 Hloop1 Hwa' Hflat1) as (incoming2 & wb'' & Hagain).
  rewrite Hagain in Hloop2. injection Hloop2 as <- <-.
  destruct Hend2 as (-> & _ & _).
  (* and writes every quiz again *)
  apply generateWith_exact with (entries := entries1) in Hwith2
    as (Hc2 & entries2 & Hw2 & Hexact2); [|by right].
  cbv zeta in Hc2, Hexact2. rewrite Hlocale in Hc2, Hexact2.
  destruct (last_written_ext
              (writes true (calculateOverridableFiles cache1 snapshot) snapshot)
              (λ _, true) locale quizes) as [Hl2 Hf2].
  { intros quiz p code Hin Ht.
    rewrite writes_keep by (by eapply takeSnapshot_truthy).
    apply bool_decide_eq_true_2. right.
    by eapply snapshot_agrees_with_cache. }
  split; [done|]. split.
  - rewrite Hc2, Hc1, Hf2. do 2 f_equal. unfold cache1.
    by rewrite (assoc_L (∪)), (idemp_L (∪)).
  - exists entries1, entries2. split; [done|]. split; [done|].
    intros p n Hleaf. rewrite (Hexact2 p n Hleaf), Hl2.
    destruct (last_written (λ _, true) quizes locale p) as [code|] eqn:Hl; [|done].
    rewrite (Hexact1' p n Hleaf), Hl. done.
Qed.

Lemma regenerate_changes_nothing_witness :
  let argv := ["node"; "generate-play-local.js"; "en"] in
  let answers := {| confirm := true; select := None |} in
  let run1 := @generatePlayground sample_externals argv answers [sample_quiz]
                sample_world in
  let run2 := @generatePlayground sample_externals sample_argv sample_answers
                [sample_quiz] run1.2 in
  run2.1 = Normal tt
  ∧ playgroundCache run2.2 = playgroundCache run1.2
  ∧ ∃ entries1 entries2,
      playground run1.2 = Some entries1 ∧ playground run2.2 = Some entries2
      ∧ ∀ p n, is_dir n = false →
          node_at (Dir entries2) p = Some n ↔ node_at (Dir entries1) p = Some n.
Proof.
  intros argv answers run1 run2.
  apply (@regenerate_changes_nothing sample_externals argv sample_argv answers
           sample_answers [sample_quiz] sample_world run1.2 run2.2 run2.1).
  - reflexivity.
  - by right.
  - vm_compute. reflexivity.
  - reflexivity.
  - vm_compute. reflexivity.
  - intros quiz quiz' p p' code code' Hin Hin' Ht Ht' _.
    apply list_elem_of_singleton in Hin, Hin'. subst quiz quiz'.
    rewrite Ht in Ht'. by injection Ht' as <- _.
  - intros cache Hcache. vm_compute in Hcache. injection Hcache as <-.
    vm_compute. reflexivity.
  - apply surjective_pairing.
Defined.

(** ** Applying the substitution twice *)

Module Twice.

Import StrFacts Occ Markers Regions.

Lemma contains_true (pat s : string) :
  contains pat s = true → ∃ u v, s = u +:+ pat +:+ v.
Proof.
  induction s as [|c s IH]; rewrite contains_unfold.
  - destruct (String.prefix pat "") eqn:Hp; [|done].
    intros _. apply prefix_iff in Hp as [r Hr]. by exists "", r.
  - destruct (String.prefix pat (String c s)) eqn:Hp.
    + intros _. apply prefix_iff in Hp as [r Hr]. by exists "", r.
    + intros Hc. destruct (IH Hc) as (u & v & ->). by exists (String c u), v.
Qed.

Lemma contains_free (pat s : string) : contains pat s = false ↔ free pat s.
Proof.
  split; [apply free_of_contains|].
  intros Hfree. destruct (contains pat s) eqn:Hc; [|done].
  apply contains_true in Hc as (u & v & ->). by destruct (Hfree u v).
Qed.

Lemma free_app_inv (m x y : string) : free m (x +:+ y) → free m x ∧ free m y.
Proof.
  intros Hfree. split.
  - intros u v ->. apply (Hfree u (v +:+ y)). by rewrite !app_assoc.
  - intros u v ->. apply (Hfree (x +:+ u) v). by rewrite !app_assoc.
Qed.

Lemma free_cons (m : string) (c : ascii) (s : string) :
  String.prefix m (String c s) = false → free m s → free m (String c s).
Proof.
  intros Hp Hs [|c' u] v Heq.
  - rewrite app_nil_l in Heq. by rewrite Heq, prefix_app in Hp.
  - rewrite app_cons in Heq. injection Heq as _ ->. by destruct (Hs u v).
Qed.

(** The first and the last occurrence, as the two searches find them. *)
Lemma find_first_spec (pat s : string) :
  pat ≠ "" →
  match find_first pat s with
  | Some (a, r) => s = a +:+ pat +:+ r ∧ free pat a
  | None => free pat s
  end.
Proof.
  intros Hne. induction s as [|c s IH]; rewrite find_first_unfold.
  - destruct (String.prefix pat "") eqn:Hp; [|by apply free_nil].
    apply prefix_iff in Hp as [r Hr]. symmetry in Hr.
    by apply app_nil_inv in Hr as [? _].
  - destruct (String.prefix pat (String c s)) eqn:Hp.
    + split; [by apply prefix_inv in Hp|by apply free_nil].
    + destruct (find_first pat s) as [[a r]|].
      * destruct IH as [-> Ha]. split; [done|].
        apply free_cons; [|done].
        destruct (String.prefix pat (String c a)) eqn:Hp'; [|done].
        apply prefix_iff in Hp' as [k Hk].
        rewrite <- app_cons, Hk, app_assoc, prefix_app in Hp. done.
      * by apply free_cons.
Qed.

Lemma find_last_spec (pat s : string) :
  pat ≠ "" →
  match find_last pat s with
  | Some (a, r) => s = a +:+ pat +:+ r ∧ free pat r
  | None => free pat s
  end.
Proof.
  intros Hne. induction s as [|c s IH]; cbn [find_last].
  - destruct (String.prefix pat "") eqn:Hp; [|by apply free_nil].
    apply prefix_iff in Hp as [r Hr]. symmetry in Hr.
    by apply app_nil_inv in Hr as [? _].
  - destruct (find_last pat s) as [[a r]|].
    + destruct IH as [-> Hr]. by split.
    + destruct (String.prefix pat (String c s)) eqn:Hp.
      * apply prefix_inv in Hp. split; [done|].
        revert Hp. generalize (Str.drop (String.length pat) (String c s)).
        intros r Hp. destruct pat as [|p0 pat]; [done|].
        rewrite app_cons in Hp. injection Hp as _ Hs.
        rewrite Hs in IH. by apply free_app_inv in IH as [_ ?].
      * by apply free_cons.
Qed.

Section Occurrence.

Variable m : string.
Hypothesis Hm : is_marker m.

Lemma first_occurrence (s : string) :
  free m s ∨ ∃ a r, s = a +:+ m +:+ r ∧ free m a.
Proof.
  pose proof (find_first_spec m s (marker_nonempty m Hm)) as Hspec.
  destruct (find_first m s) as [[a r]|]; [right|by left].
  destruct Hspec. by exists a, r.
Qed.

Lemma last_occurrence (s : string) :
  free m s ∨ ∃ a r, s = a +:+ m +:+ r ∧ free m r.
Proof.
  pose proof (find_last_spec m s (marker_nonempty m Hm)) as Hspec.
  destruct (find_last m s) as [[a r]|]; [right|by left].
  destruct Hspec. by exists a, r.
Qed.

Lemma find_last_free (s : string) : free m s → find_last m s = None.
Proof.
  intros Hfree. pose proof (find_last_spec m s (marker_nonempty m Hm)) as Hspec.
  destruct (find_last m s) as [[a r]|]; [|done].
  destruct Hspec as [-> _]. by destruct (Hfree a r).
Qed.

Lemma find_last_occurs (u v : string) : is_Some (find_last m (u +:+ m +:+ v)).
Proof.
  pose proof (find_last_spec m (u +:+ m +:+ v) (marker_nonempty m Hm)) as Hspec.
  destruct (find_last m _) as [[a r]|]; [done|]. by destruct (Hspec u v).
Qed.

End Occurrence.

(** ** Regions between two markers *)

Section Region.

Variables S E : string.
Hypothesis HS : is_marker S.
Hypothesis HE : is_marker E.

Lemma region_match_intro (a x c : string) :
  free S a → free E c →
  region_match S E (a +:+ S +:+ x +:+ E +:+ c) = Some (a, x, c).
Proof.
  intros Ha Hc. unfold region_match.
  rewrite (find_first_marker _ HS) by done.
  by rewrite (find_last_marker _ HE).
Qed.

Lemma region_match_Some (s a x c : string) :
  region_match S E s = Some (a, x, c) →
  s = a +:+ S +:+ x +:+ E +:+ c ∧ free S a ∧ free E c.
Proof.
  unfold region_match.
  pose proof (find_first_spec S s (marker_nonempty S HS)) as Hfirst.
  destruct (find_first S s) as [[a' r]|]; [|done].
  pose proof (find_last_spec E r (marker_nonempty E HE)) as Hlast.
  destruct (find_last E r) as [[x' c']|]; [|done].
  intros [= -> -> ->]. destruct Hfirst as [-> Ha], Hlast as [-> Hc]. done.
Qed.

Lemma region_match_free (s : string) : free S s → region_match S E s = None.
Proof. intros Hs. unfold region_match. by rewrite find_first_free. Qed.

Lemma region_match_open (a r : string) :
  free S a → free E r → region_match S E (a +:+ S +:+ r) = None.
Proof.
  intros Ha Hr. unfold region_match.
  rewrite (find_first_marker _ HS) by done.
  by rewrite (find_last_free _ HE).
Qed.

Lemma region_match_None (s : string) :
  region_match S E s = None →
  free S s ∨ ∃ a r, s = a +:+ S +:+ r ∧ free S a ∧ free E r.
Proof.
  unfold region_match.
  pose proof (find_first_spec S s (marker_nonempty S HS)) as Hfirst.
  destruct (find_first S s) as [[a r]|]; [|by left].
  pose proof (find_last_spec E r (marker_nonempty E HE)) as Hlast.
  destruct (find_last E r) as [[x c]|]; [done|].
  intros _. right. destruct Hfirst as [-> Ha]. by exists a, r.
Qed.

(** Where a start marker stands with an end marker behind it, there is a
    region. *)
Lemma region_match_occurs (u v w : string) :
  is_Some (region_match S E (u +:+ S +:+ v +:+ E +:+ w)).
Proof.
  destruct (first_occurrence S HS u) as [Hu|(a & r & -> & Ha)].
  - unfold region_match. rewrite (find_first_marker _ HS) by done.
    destruct (find_last_occurs E HE v w) as [[x c] ->]. done.
  - rewrite !app_assoc. unfold region_match.
    rewrite (find_first_marker _ HS) by done.
    replace (r +:+ S +:+ v +:+ E +:+ w) with ((r +:+ S +:+ v) +:+ E +:+ w)
      by (by rewrite !app_assoc).
    destruct (find_last_occurs E HE (r +:+ S +:+ v) w) as [[x c] ->]. done.
Qed.

Lemma has_region_occurs (u v w : string) :
  has_region S E (u +:+ S +:+ v +:+ E +:+ w) = true.
Proof.
  unfold has_region. by destruct (region_match_occurs u v w) as [? ->].
Qed.

End Region.

(** ** The replacement text *)

Lemma expand_dollar (d : ascii) (r matched before after : string) :
  expand (String "$" (String d r)) matched before after
  = if bool_decide (d = "$"%char) then String "$" (expand r matched before after)
    else if bool_decide (d = "&"%char) then matched +:+ expand r matched before after
    else if bool_decide (d = "`"%char) then before +:+ expand r matched before after
    else if bool_decide (d = "'"%char) then after +:+ expand r matched before after
    else String "$" (expand (String d r) matched before after).
Proof. destruct d as [[] [] [] [] [] [] [] []]; reflexivity. Qed.

Lemma context_free_dollar (d : ascii) (r : string) :
  context_free (String "$" (String d r))
  = if bool_decide (d = "$"%char) then context_free r
    else if bool_decide (d = "&"%char) then false
    else if bool_decide (d = "`"%char) then false
    else if bool_decide (d = "'"%char) then false
    else context_free (String d r).
Proof. destruct d as [[] [] [] [] [] [] [] []]; reflexivity. Qed.

Lemma expand_other (c : ascii) (r matched before after : string) :
  c ≠ "$"%char →
  expand (String c r) matched before after = String c (expand r matched before after).
Proof. intros Hc. simpl. by rewrite bool_decide_eq_false_2. Qed.

Lemma context_free_other (c : ascii) (r : string) :
  c ≠ "$"%char → context_free (String c r) = context_free r.
Proof. intros Hc. simpl. by rewrite bool_decide_eq_false_2. Qed.

Lemma expand_app_plain (s r matched before after : string) :
  Str.mem "$" s = false →
  expand (s +:+ r) matched before after = s +:+ expand r matched before after.
Proof.
  induction s as [|c s IH]; [done|]. simpl Str.mem.
  intros [Hc Hs]%orb_false_elim. apply bool_decide_eq_false in Hc.
  rewrite !app_cons, expand_other by done. by rewrite IH.
Qed.

(** Before a marker, a replacement without the three patterns expands to
    the same text whatever was matched. *)
Lemma expand_context_free (matched before after tail : string) (n : nat) :
  ∀ r, (String.length r ≤ n)%nat → context_free r = true →
    expand (r +:+ String "<" tail) matched before after
    = inserted r +:+ String "<" (expand tail matched before after).
Proof.
  induction n as [n IH] using lt_wf_ind. intros [|c r] Hlen Hfree.
  - rewrite app_nil_l. by rewrite expand_other.
  - destruct (decide (c = "$"%char)) as [->|Hc].
    + destruct r as [|d r].
      * rewrite app_cons, app_nil_l, expand_dollar.
        rewrite !bool_decide_eq_false_2 by done.
        by rewrite expand_other.
      * rewrite !app_cons. unfold inserted.
        rewrite !expand_dollar. rewrite context_free_dollar in Hfree.
        simpl in Hlen.
        destruct (bool_decide (d = "$"%char)).
        { rewrite app_cons. f_equal. apply (IH (String.length r)); [lia|lia|done]. }
        destruct (bool_decide (d = "&"%char)); [done|].
        destruct (bool_decide (d = "`"%char)); [done|].
        destruct (bool_decide (d = "'"%char)); [done|].
        rewrite app_cons. f_equal. rewrite <- app_cons.
        apply (IH (String.length (String d r))); [simpl; lia|done|done].
    + rewrite app_cons. unfold inserted. rewrite !expand_other by done.
      rewrite context_free_other in Hfree by done. simpl in Hlen.
      rewrite app_cons. f_equal. apply (IH (String.length r)); [lia|lia|done].
Qed.

Lemma marker_no_dollar (m : string) :
  m ∈ [header_start; header_end; footer_start; footer_end] → Str.mem "$" m = false.
Proof. rewrite !elem_of_cons, elem_of_nil. by intros [->|[->|[->|[->|[]]]]]. Qed.

(** The replacement of a region puts the markers back around the text of
    the replacement. *)
Lemma expand_wrap (S E r matched before after : string) :
  S ∈ [header_start; header_end; footer_start; footer_end] →
  E ∈ [header_start; header_end; footer_start; footer_end] →
  context_free r = true →
  expand (S +:+ r +:+ E) matched before after = S +:+ inserted r +:+ E.
Proof.
  intros HS HE Hr. rewrite expand_app_plain by by apply marker_no_dollar.
  f_equal.
  assert (∃ tail, E = String "<" tail ∧ Str.mem "$" tail = false) as (tail & -> & Ht).
  { revert HE. rewrite !elem_of_cons, elem_of_nil.
    intros [->|[->|[->|[->|[]]]]]; by eexists. }
  rewrite (expand_context_free _ _ _ _ (String.length r)) by done.
  by rewrite expand_plain.
Qed.

Lemma region_replace_Some (S E replacement text a x c : string) :
  S ∈ [header_start; header_end; footer_start; footer_end] →
  E ∈ [header_start; header_end; footer_start; footer_end] →
  context_free replacement = true →
  region_match S E text = Some (a, x, c) →
  region_replace S E (S +:+ replacement +:+ E) text
  = a +:+ S +:+ inserted replacement +:+ E +:+ c.
Proof.
  intros HS HE Hr Hmatch. unfold region_replace. rewrite Hmatch.
  rewrite expand_wrap by done. by rewrite !app_assoc.
Qed.

Lemma region_replace_None (S E replacement text : string) :
  region_match S E text = None → region_replace S E replacement text = text.
Proof. intros Hmatch. unfold region_replace. by rewrite Hmatch. Qed.

(** ** The two steps of the substitution *)

Local Abbreviation HS := header_start.
Local Abbreviation HE := header_end.
Local Abbreviation FS := footer_start.
Local Abbreviation FE := footer_end.
Local Abbreviation markers := [header_start; header_end; footer_start; footer_end].

Create HintDb markers.

Local Hint Resolve header_start_marker header_end_marker footer_start_marker
  footer_end_marker : markers.

Local Ltac is_a_marker := rewrite !elem_of_cons; auto 10.

(** Freeness of a text made of three texts around two markers. *)
Local Ltac sandwich :=
  apply free_sandwich; auto with markers;
  try (by apply free_of_contains); try (by apply free_nil).

Lemma region_match_eq (S E s a x c : string) :
  is_marker S → is_marker E →
  s = a +:+ S +:+ x +:+ E +:+ c → free S a → free E c →
  region_match S E s = Some (a, x, c).
Proof. intros ? ? ->. by apply region_match_intro. Qed.

Lemma header_match_eq (s a x c : string) :
  s = a +:+ HS +:+ x +:+ HE +:+ c → free HS a → free HE c →
  region_match HS HE s = Some (a, x, c).
Proof. apply region_match_eq; auto with markers. Qed.

Lemma footer_match_eq (s a y c : string) :
  s = a +:+ FS +:+ y +:+ FE +:+ c → free FS a → free FE c →
  region_match FS FE s = Some (a, y, c).
Proof. apply region_match_eq; auto with markers. Qed.

Lemma free_pieces (m a n1 b n2 c : string) :
  free m (a +:+ n1 +:+ b +:+ n2 +:+ c) → free m a ∧ free m b ∧ free m c.
Proof.
  intros [Ha H1]%free_app_inv. apply free_app_inv in H1 as [_ H1].
  apply free_app_inv in H1 as [Hb H1]. apply free_app_inv in H1 as [_ Hc]. done.
Qed.

Lemma contains_occurs (m u v : string) : contains m (u +:+ m +:+ v) = true.
Proof.
  destruct (contains m _) eqn:Hc; [done|].
  apply contains_free in Hc. by destruct (Hc u v).
Qed.

Lemma has_region_free (S E s : string) : free S s → has_region S E s = false.
Proof. intros Hs. unfold has_region. by rewrite region_match_free. Qed.

Lemma free_two (m a n r : string) : free m (a +:+ n +:+ r) → free m a ∧ free m r.
Proof. intros [Ha H1]%free_app_inv. by apply free_app_inv in H1 as [_ ?]. Qed.

Lemma free_line_feeds_r (m s : string) :
  is_marker m → free m s → free m (s +:+ String "010" (String "010" "")).
Proof.
  intros Hm Hs.
  change (String "010" (String "010" "")) with (String "010" "" +:+ String "010" "").
  rewrite <- app_assoc. by do 2 (apply free_line_feed_r; [done|]).
Qed.

(** A search behind a text that ends with another marker. *)
Lemma find_first_behind (m P n c : string) :
  is_marker m → is_marker n → free m P → free m n →
  find_first m ((P +:+ n) +:+ c)
  = match find_first m c with
    | Some (p, r) => Some ((P +:+ n) +:+ p, r)
    | None => None
    end.
Proof.
  intros Hm Hn HP Hmn.
  pose proof (find_first_spec m c (marker_nonempty m Hm)) as Hspec.
  destruct (find_first m c) as [[p r]|].
  - destruct Hspec as [-> Hp]. rewrite <- (app_assoc (P +:+ n) p).
    apply (find_first_marker _ Hm). rewrite app_assoc.
    apply free_before_marker; [done..|]. by apply free_after_marker.
  - apply find_first_free. rewrite app_assoc.
    apply free_before_marker; [done..|]. by apply free_after_marker.
Qed.

Lemma region_match_behind (S E P n c : string) :
  is_marker S → is_marker n → free S P → free S n →
  region_match S E ((P +:+ n) +:+ c)
  = match region_match S E c with
    | Some (p, y, q) => Some ((P +:+ n) +:+ p, y, q)
    | None => None
    end.
Proof.
  intros HS Hn HP HSn. unfold region_match. rewrite find_first_behind by done.
  destruct (find_first S c) as [[p r]|]; [|done]. by destruct (find_last E r) as [[y q]|].
Qed.

Lemma with_marker_pairs_both (t : string) :
  is_Some (region_match HS HE t) → is_Some (region_match FS FE t) →
  with_marker_pairs t = t.
Proof. intros [? Hh] [? Hf]. unfold with_marker_pairs. by rewrite Hh, Hf. Qed.

Lemma with_marker_pairs_no_footer (t : string) :
  is_Some (region_match HS HE t) → region_match FS FE t = None →
  with_marker_pairs t = t +:+ String "010" (String "010" "") +:+ FS +:+ "" +:+ FE +:+ "".
Proof. intros [? Hh] Hf. unfold with_marker_pairs. by rewrite Hh, Hf. Qed.

Lemma with_marker_pairs_no_header (t : string) :
  region_match HS HE t = None →
  ∃ c, with_marker_pairs t = "" +:+ HS +:+ "" +:+ HE +:+ c.
Proof.
  intros Hh. unfold with_marker_pairs. rewrite Hh.
  destruct (region_match FS FE _); by eexists.
Qed.

(** The document with its pairs of markers has a header region; when a
    footer pair was added, it stands at the end. *)
Lemma with_marker_pairs_header (t : string) :
  ∃ a x c, region_match HS HE (with_marker_pairs t) = Some (a, x, c)
           ∧ with_marker_pairs t = a +:+ HS +:+ x +:+ HE +:+ c
           ∧ free HS a ∧ free HE c
           ∧ (region_match HS HE t = None → a = "").
Proof.
  assert (∀ s, is_Some (region_match HS HE s) →
            ∃ a x c, region_match HS HE s = Some (a, x, c)
                     ∧ s = a +:+ HS +:+ x +:+ HE +:+ c ∧ free HS a ∧ free HE c)
    as Hsome.
  { intros s [[[a x] c] Hs]. exists a, x, c. split; [done|].
    apply region_match_Some; auto with markers. }
  destruct (region_match HS HE t) as [[[a0 x0] c0]|] eqn:Hh.
  - destruct (region_match FS FE t) as [r|] eqn:Hf.
    + rewrite with_marker_pairs_both by (by eexists).
      destruct (Hsome t) as (a & x & c & ? & ? & ? & ?); [by eexists|].
      exists a, x, c. by repeat split.
    + rewrite with_marker_pairs_no_footer by (by eexists || done).
      apply region_match_Some in Hh as (-> & Ha & Hc); auto with markers.
      exists a0, x0, (c0 +:+ String "010" (String "010" "") +:+ FS +:+ "" +:+ FE +:+ "").
      assert (free HE (c0 +:+ String "010" (String "010" "") +:+ FS +:+ "" +:+ FE +:+ ""))
        as Hc'.
      { rewrite <- (app_assoc c0). sandwich.
        apply free_line_feeds_r; auto with markers. }
      split; [|split; [by rewrite !app_assoc|done]].
      apply region_match_eq; auto with markers. by rewrite !app_assoc.
  - destruct (with_marker_pairs_no_header t Hh) as [c Hc]. rewrite Hc.
    destruct (Hsome ("" +:+ HS +:+ "" +:+ HE +:+ c)) as (a & x & c' & Hm & Heq & Ha & Hc').
    { apply region_match_occurs; auto with markers. }
    exists a, x, c'. split; [done|]. split; [done|]. split; [done|]. split; [done|].
    intros _. unfold region_match in Hm.
    rewrite (find_first_marker _ header_start_marker) in Hm by (by apply free_nil).
    destruct (find_last HE _) as [[? ?]|]; by simplify_eq.
Qed.

Section Substitution.

Variables header footer : string.
Hypothesis Hheader : context_free header = true.
Hypothesis Hfooter : context_free footer = true.

Local Abbreviation h := (inserted header).
Local Abbreviation f := (inserted footer).

Hypothesis Hh1 : free FS h.
Hypothesis Hh2 : free FE h.
Hypothesis Hf1 : free HS f.
Hypothesis Hf2 : free HE f.

Local Abbreviation put_header :=
  (region_replace HS HE (HS +:+ header +:+ HE)).
Local Abbreviation put_footer :=
  (region_replace FS FE (FS +:+ footer +:+ FE)).

Lemma insertInfoReadme_text_steps (t : string) :
  insertInfoReadme_text header footer t
  = put_footer (put_header (with_marker_pairs t)).
Proof. reflexivity. Qed.

Lemma put_header_eq (s a x c : string) :
  s = a +:+ HS +:+ x +:+ HE +:+ c → free HS a → free HE c →
  put_header s = a +:+ HS +:+ h +:+ HE +:+ c.
Proof.
  intros Hs Ha Hc.
  apply (region_replace_Some HS HE header s a x c); [is_a_marker..|done|].
  apply region_match_eq; auto with markers.
Qed.

Lemma put_footer_eq (s a y c : string) :
  s = a +:+ FS +:+ y +:+ FE +:+ c → free FS a → free FE c →
  put_footer s = a +:+ FS +:+ f +:+ FE +:+ c.
Proof.
  intros Hs Ha Hc.
  apply (region_replace_Some FS FE footer s a y c); [is_a_marker..|done|].
  apply region_match_eq; auto with markers.
Qed.

(** A document with the generated header before the generated footer, or
    behind it, is left as it is. *)
Lemma header_then_footer_fixed (a c1 c3 : string) :
  free HS a → free FS a → free HE c1 → free FS c1 → free HE c3 → free FE c3 →
  let t := a +:+ HS +:+ h +:+ HE +:+ c1 +:+ FS +:+ f +:+ FE +:+ c3 in
  insertInfoReadme_text header footer t = t.
Proof.
  intros Ha1 Ha2 Hc11 Hc12 Hc31 Hc32 t.
  assert (free HE (c1 +:+ FS +:+ f +:+ FE +:+ c3)) as Hafter by sandwich.
  assert (free FS (a +:+ HS +:+ h +:+ HE +:+ c1)) as Hbefore by sandwich.
  assert (t = (a +:+ HS +:+ h +:+ HE +:+ c1) +:+ FS +:+ f +:+ FE +:+ c3) as Ht
    by (subst t; by rewrite !app_assoc).
  rewrite insertInfoReadme_text_steps, with_marker_pairs_both.
  - rewrite (put_header_eq t a h (c1 +:+ FS +:+ f +:+ FE +:+ c3)) by done.
    fold t. by rewrite (put_footer_eq t _ f c3 Ht), <- Ht.
  - by rewrite (header_match_eq t a h (c1 +:+ FS +:+ f +:+ FE +:+ c3)).
  - by rewrite (footer_match_eq t _ f c3 Ht).
Qed.

Lemma footer_then_header_fixed (a1 a3 c : string) :
  free HS a1 → free FS a1 → free HS a3 → free FE a3 → free HE c → free FE c →
  let t := a1 +:+ FS +:+ f +:+ FE +:+ a3 +:+ HS +:+ h +:+ HE +:+ c in
  insertInfoReadme_text header footer t = t.
Proof.
  intros Ha11 Ha12 Ha31 Ha32 Hc1 Hc2 t.
  assert (free HS (a1 +:+ FS +:+ f +:+ FE +:+ a3)) as Hbefore by sandwich.
  assert (free FE (a3 +:+ HS +:+ h +:+ HE +:+ c)) as Hafter by sandwich.
  assert (t = (a1 +:+ FS +:+ f +:+ FE +:+ a3) +:+ HS +:+ h +:+ HE +:+ c) as Ht
    by (subst t; by rewrite !app_assoc).
  rewrite insertInfoReadme_text_steps, with_marker_pairs_both.
  - rewrite (put_header_eq t _ h c Ht) by done. rewrite <- Ht.
    by rewrite (put_footer_eq t a1 f (a3 +:+ HS +:+ h +:+ HE +:+ c)).
  - by rewrite (header_match_eq t _ h c Ht).
  - by rewrite (footer_match_eq t a1 f (a3 +:+ HS +:+ h +:+ HE +:+ c)).
Qed.

(** What the replacement of the footer makes of a document whose header
    has been replaced: the footer region lies before the header region,
    behind it, or around it, or there is none. *)
Lemma put_footer_cases (a c : string) :
  free HS a → free HE c →
  let t := a +:+ HS +:+ h +:+ HE +:+ c in
  (apart a c = true ∧ contains FS a = true
   ∧ ∃ a1 a3, free HS a1 ∧ free FS a1 ∧ free HS a3 ∧ free FE a3 ∧ free FE c
       ∧ put_footer t = a1 +:+ FS +:+ f +:+ FE +:+ a3 +:+ HS +:+ h +:+ HE +:+ c)
  ∨ (apart a c = true
     ∧ ∃ c1 c3, free FS a ∧ free HE c1 ∧ free FS c1 ∧ free HE c3 ∧ free FE c3
         ∧ put_footer t = a +:+ HS +:+ h +:+ HE +:+ c1 +:+ FS +:+ f +:+ FE +:+ c3)
  ∨ (apart a c = false ∧ contains FS a = true
     ∧ ∃ a1 q, free HS a1 ∧ free HE q
         ∧ put_footer t = a1 +:+ FS +:+ f +:+ FE +:+ q)
  ∨ (apart a c = false ∧ region_match FS FE t = None ∧ put_footer t = t).
Proof.
  intros Ha Hc t.
  destruct (first_occurrence FS footer_start_marker a) as [Hfs|(a1 & a2 & -> & Ha1)].
  - (* no footer start marker before the header *)
    assert (free FS (a +:+ HS +:+ h)) as HP.
    { apply free_before_marker; auto with markers.
      apply free_after_marker; auto with markers. by apply free_of_contains. }
    assert (t = ((a +:+ HS +:+ h) +:+ HE) +:+ c) as Ht
      by (subst t; by rewrite !app_assoc).
    pose proof (region_match_behind FS FE (a +:+ HS +:+ h) HE c footer_start_marker
                  header_end_marker HP ltac:(by apply free_of_contains)) as Hbehind.
    rewrite <- Ht in Hbehind.
    destruct (region_match FS FE c) as [[[c1 y] c3]|] eqn:Hmatch.
    + right. left.
      apply region_match_Some in Hmatch as (-> & Hc1 & Hc3); auto with markers.
      destruct (free_pieces _ _ _ _ _ _ Hc) as (? & _ & ?).
      split.
      { unfold apart. rewrite (proj2 (contains_free FS a) Hfs).
        rewrite (has_region_occurs FS FE footer_start_marker footer_end_marker c1 y c3).
        simpl. by rewrite orb_true_r. }
      exists c1, c3. repeat split; try done.
      rewrite (region_replace_Some FS FE footer t _ y c3 ltac:(is_a_marker)
                 ltac:(is_a_marker) Hfooter Hbehind).
      by rewrite !app_assoc.
    + right. right. right. split; [|split; [done|by apply region_replace_None]].
      unfold apart. rewrite (has_region_free FS FE a) by done.
      unfold has_region at 1. rewrite Hmatch. simpl. by rewrite andb_false_r.
  - (* a footer start marker before the header *)
    apply free_two in Ha as [Ha1' Ha2'].
    assert (contains FS (a1 +:+ FS +:+ a2) = true) as Hfs by apply contains_occurs.
    destruct (last_occurrence FE footer_end_marker c) as [Hfe|(c1 & q & -> & Hq)].
    + destruct (last_occurrence FE footer_end_marker a2) as [Ha2|(y & a3 & -> & Ha3)].
      * right. right. right.
        assert (region_match FS FE t = None) as Hnone.
        { subst t. rewrite !app_assoc. apply region_match_open; auto with markers.
          sandwich. }
        split; [|split; [done|by apply region_replace_None]].
        unfold apart. rewrite Hfs. unfold has_region.
        rewrite region_match_open by auto with markers. done.
      * left. apply free_two in Ha2' as [_ Ha3'].
        split.
        { unfold apart.
          rewrite (has_region_occurs FS FE footer_start_marker footer_end_marker a1 y a3).
          by rewrite (proj2 (contains_free FE c) Hfe). }
        split; [done|]. exists a1, a3. repeat split; try done.
        apply (put_footer_eq t a1 y (a3 +:+ HS +:+ h +:+ HE +:+ c)).
        -- subst t. by rewrite !app_assoc.
        -- done.
        -- sandwich.
    + right. right. left. apply free_two in Hc as [_ Hq'].
      split.
      { unfold apart. rewrite Hfs, contains_occurs. simpl. by rewrite andb_false_r. }
      split; [done|]. exists a1, q. repeat split; try done.
      apply (put_footer_eq t a1 (a2 +:+ HS +:+ h +:+ HE +:+ c1) q); [|done..].
      subst t. by rewrite !app_assoc.
Qed.

(** A document without a header region gets one, and one with a header
    region and without a footer region gets a footer region. *)
Lemma header_region_added (t : string) :
  region_match HS HE t = None →
  has_region HS HE (insertInfoReadme_text header footer t) = true.
Proof.
  intros Hnone.
  destruct (with_marker_pairs_header t) as (a & x & c & _ & Heq & Ha & Hc & Hnil).
  rewrite (Hnil Hnone) in *.
  rewrite insertInfoReadme_text_steps, (put_header_eq _ "" x c Heq) by done.
  destruct (put_footer_cases "" c Ha Hc)
    as [(_ & [=] & _)
       |[(_ & c1 & c3 & _ & _ & _ & _ & _ & Heq')
        |[(_ & [=] & _)|(_ & _ & Heq')]]];
    cbv zeta in Heq'; rewrite Heq'; apply has_region_occurs; auto with markers.
Qed.

Lemma footer_region_added (t : string) :
  is_Some (region_match HS HE t) → region_match FS FE t = None →
  has_region FS FE (insertInfoReadme_text header footer t) = true.
Proof.
  intros [[[a x] c] Hmatch] Hnone.
  apply region_match_Some in Hmatch as (Ht & Ha & Hc); auto with markers.
  set (c' := c +:+ String "010" (String "010" "") +:+ FS +:+ "" +:+ FE +:+ "").
  assert (free HE c') as Hc'.
  { subst c'. rewrite <- (app_assoc c). sandwich.
    apply free_line_feeds_r; auto with markers. }
  assert (with_marker_pairs t = a +:+ HS +:+ x +:+ HE +:+ c') as Hpairs.
  { rewrite with_marker_pairs_no_footer; [|rewrite Ht|done].
    - subst c'. rewrite Ht. by rewrite !app_assoc.
    - apply region_match_occurs; auto with markers. }
  rewrite insertInfoReadme_text_steps, (put_header_eq _ a x c' Hpairs) by done.
  destruct (put_footer_cases a c' Ha Hc')
    as [(_ & _ & a1 & a3 & _ & _ & _ & _ & _ & Heq)
       |[(_ & c1 & c3 & _ & _ & _ & _ & _ & Heq)
        |[(_ & _ & a1 & q & _ & _ & Heq)|(_ & Hno & _)]]];
    cbv zeta in *.
  - rewrite Heq. apply has_region_occurs; auto with markers.
  - rewrite Heq.
    replace (a +:+ HS +:+ h +:+ HE +:+ c1 +:+ FS +:+ f +:+ FE +:+ c3)
      with ((a +:+ HS +:+ h +:+ HE +:+ c1) +:+ FS +:+ f +:+ FE +:+ c3)
      by (by rewrite !app_assoc).
    apply has_region_occurs; auto with markers.
  - rewrite Heq. apply has_region_occurs; auto with markers.
  - exfalso.
    assert (is_Some (region_match FS FE (a +:+ HS +:+ h +:+ HE +:+ c'))) as [? Hsome];
      [|by rewrite Hsome in Hno].
    replace (a +:+ HS +:+ h +:+ HE +:+ c')
      with ((a +:+ HS +:+ h +:+ HE +:+ c +:+ String "010" (String "010" ""))
            +:+ FS +:+ "" +:+ FE +:+ "")
      by (subst c'; by rewrite !app_assoc).
    apply region_match_occurs; auto with markers.
Qed.

Lemma no_header_region (a1 q : string) :
  free HS a1 → free HE q →
  region_match HS HE (a1 +:+ FS +:+ f +:+ FE +:+ q) = None.
Proof.
  intros Ha1 Hq.
  destruct (first_occurrence HS header_start_marker q) as [Hfree|(q1 & q2 & -> & Hq1)].
  - apply region_match_free; auto with markers. sandwich.
  - apply free_two in Hq as [_ Hq2].
    replace (a1 +:+ FS +:+ f +:+ FE +:+ q1 +:+ HS +:+ q2)
      with ((a1 +:+ FS +:+ f +:+ FE +:+ q1) +:+ HS +:+ q2)
      by (by rewrite !app_assoc).
    apply region_match_open; auto with markers. sandwich.
Qed.

(** What one application has made is left as it is by the next exactly
    when the footer region lay apart from the header region. *)
Lemma put_footer_fixed_iff (a c : string) :
  free HS a → free HE c →
  let t1 := put_footer (a +:+ HS +:+ h +:+ HE +:+ c) in
  insertInfoReadme_text header footer t1 = t1 ↔ apart a c = true.
Proof.
  intros Ha Hc t1. subst t1.
  destruct (put_footer_cases a c Ha Hc)
    as [(Hapart & _ & a1 & a3 & ? & ? & ? & ? & ? & Heq)
       |[(Hapart & c1 & c3 & ? & ? & ? & ? & ? & Heq)
        |[(Hapart & _ & a1 & q & ? & ? & Heq)|(Hapart & Hno & Heq)]]];
    cbv zeta in *; rewrite Heq, Hapart.
  - split; [done|]. intros _. by apply footer_then_header_fixed.
  - split; [done|]. intros _. by apply header_then_footer_fixed.
  - split; [|done]. intros Hfix.
    pose proof (header_region_added _ (no_header_region a1 q ltac:(done) ltac:(done)))
      as Hadded.
    rewrite Hfix in Hadded. unfold has_region in Hadded.
    by rewrite no_header_region in Hadded.
  - split; [|done]. intros Hfix.
    pose proof (footer_region_added (a +:+ HS +:+ h +:+ HE +:+ c)) as Hadded.
    rewrite Hfix in Hadded. unfold has_region in Hadded. rewrite Hno in Hadded.
    apply Hadded; [|done]. apply region_match_occurs; auto with markers.
Qed.

Lemma idempotent_iff (text : string) :
  insertInfoReadme_text header footer (insertInfoReadme_text header footer text)
  = insertInfoReadme_text header footer text
  ↔ footer_apart text = true.
Proof.
  destruct (with_marker_pairs_header text) as (a & x & c & Hmatch & Heq & Ha & Hc & _).
  unfold footer_apart. rewrite Hmatch.
  rewrite (insertInfoReadme_text_steps text), (put_header_eq _ a x c Heq) by done.
  by apply put_footer_fixed_iff.
Qed.

End Substitution.

(** ** Documents on which the regions lie apart *)

Lemma footer_apart_eq (text a x c : string) :
  with_marker_pairs text = a +:+ HS +:+ x +:+ HE +:+ c →
  free HS a → free HE c → footer_apart text = apart a c.
Proof.
  intros Heq Ha Hc. unfold footer_apart. by rewrite (header_match_eq _ a x c Heq).
Qed.

Lemma free_line_feeds_l (m s : string) :
  is_marker m → free m s → free m (String "010" (String "010" s)).
Proof. intros Hm Hs. by do 2 (apply free_line_feed_l; [done|]). Qed.

Lemma apart_behind (a c : string) :
  free FS a → has_region FS FE c = true → apart a c = true.
Proof.
  intros Ha Hc. unfold apart. rewrite (proj2 (contains_free FS a) Ha), Hc.
  simpl. by rewrite orb_true_r.
Qed.

Lemma apart_before (a c : string) :
  has_region FS FE a = true → free FE c → apart a c = true.
Proof.
  intros Ha Hc. unfold apart. by rewrite Ha, (proj2 (contains_free FE c) Hc).
Qed.

(** No marker in the document. *)
Lemma footer_apart_fresh (text : string) : mfree text → footer_apart text = true.
Proof.
  intros (Ht1 & Ht2 & Ht3 & Ht4).
  set (c := String "010" (String "010" text) +:+ String "010" (String "010" "")
            +:+ FS +:+ "" +:+ FE +:+ "").
  assert (with_marker_pairs text = "" +:+ HS +:+ "" +:+ HE +:+ c) as Heq.
  { unfold with_marker_pairs.
    rewrite (region_match_free HS HE text) by done.
    rewrite (region_match_free FS FE); [subst c; by rewrite !app_assoc|].
    apply (free_sandwich FS "" HS "" HE); auto with markers;
      try (by apply free_of_contains); try (by apply free_nil).
    apply free_line_feeds_l; auto with markers. }
  assert (free HE c) as Hc.
  { subst c. rewrite <- (app_assoc (String "010" (String "010" text))).
    sandwich. apply free_line_feeds_r; auto with markers.
    apply free_line_feeds_l; auto with markers. }
  rewrite (footer_apart_eq text "" "" c Heq) by (done || by apply free_nil).
  apply apart_behind; [by apply free_nil|].
  subst c. rewrite <- (app_assoc (String "010" (String "010" text))).
  apply has_region_occurs; auto with markers.
Qed.

(** A header region only: the footer pair is added. *)
Lemma footer_apart_header (pre x post : string) :
  mfree pre → mfree x → mfree post →
  footer_apart (pre +:+ HS +:+ x +:+ HE +:+ post) = true.
Proof.
  intros (Hp1 & Hp2 & Hp3 & Hp4) (Hx1 & Hx2 & Hx3 & Hx4) (Hq1 & Hq2 & Hq3 & Hq4).
  set (text := pre +:+ HS +:+ x +:+ HE +:+ post).
  set (c := post +:+ String "010" (String "010" "") +:+ FS +:+ "" +:+ FE +:+ "").
  assert (with_marker_pairs text = pre +:+ HS +:+ x +:+ HE +:+ c) as Heq.
  { rewrite with_marker_pairs_no_footer.
    - subst text c. by rewrite !app_assoc.
    - apply region_match_occurs; auto with markers.
    - apply region_match_free; auto with markers. subst text. sandwich. }
  assert (free HE c) as Hc.
  { subst c. rewrite <- (app_assoc post). sandwich.
    apply free_line_feeds_r; auto with markers. }
  rewrite (footer_apart_eq text pre x c Heq) by done.
  apply apart_behind; [done|].
  subst c. rewrite <- (app_assoc post). apply has_region_occurs; auto with markers.
Qed.

(** A footer region only: the header pair is added. *)
Lemma footer_apart_footer (pre y post : string) :
  mfree pre → mfree y → mfree post →
  footer_apart (pre +:+ FS +:+ y +:+ FE +:+ post) = true.
Proof.
  intros (Hp1 & Hp2 & Hp3 & Hp4) (Hy1 & Hy2 & Hy3 & Hy4) (Hq1 & Hq2 & Hq3 & Hq4).
  set (text := pre +:+ FS +:+ y +:+ FE +:+ post).
  set (c := String "010" (String "010" text)).
  assert (has_region FS FE c = true) as Hregion.
  { subst c text.
    change (String "010" (String "010" (pre +:+ FS +:+ y +:+ FE +:+ post)))
      with (String "010" (String "010" pre) +:+ FS +:+ y +:+ FE +:+ post).
    apply has_region_occurs; auto with markers. }
  assert (with_marker_pairs text = "" +:+ HS +:+ "" +:+ HE +:+ c) as Heq.
  { unfold with_marker_pairs.
    rewrite (region_match_free HS HE text) by (subst text; sandwich).
    change (HS +:+ HE +:+ String "010" (String "010" text))
      with ((HS +:+ HE) +:+ c).
    replace ((HS +:+ HE) +:+ c)
      with (((HS +:+ "") +:+ HE) +:+ c) by done.
    rewrite region_match_behind; auto with markers; try (by apply free_of_contains).
    unfold has_region in Hregion.
    destruct (region_match FS FE c) as [[[? ?] ?]|]; [|done]. done. }
  assert (free HE c) as Hc.
  { subst c text. apply free_line_feeds_l; auto with markers. sandwich. }
  rewrite (footer_apart_eq text "" "" c Heq) by (done || by apply free_nil).
  apply apart_behind; [by apply free_nil|done].
Qed.

(** The header region before the footer region, and behind it. *)
Lemma footer_apart_shaped (pre x mid y post : string) :
  mfree pre → mfree x → mfree mid → mfree y → mfree post →
  footer_apart (shaped pre x mid y post) = true.
Proof.
  intros (Hp1 & Hp2 & Hp3 & Hp4) (Hx1 & Hx2 & Hx3 & Hx4) (Hm1 & Hm2 & Hm3 & Hm4)
    (Hy1 & Hy2 & Hy3 & Hy4) (Hq1 & Hq2 & Hq3 & Hq4).
  assert (with_marker_pairs (shaped pre x mid y post)
          = pre +:+ HS +:+ x +:+ HE +:+ mid +:+ FS +:+ y +:+ FE +:+ post) as Heq.
  { rewrite with_marker_pairs_both; [done|..].
    - apply region_match_occurs; auto with markers.
    - rewrite shaped_footer. apply region_match_occurs; auto with markers. }
  rewrite (footer_apart_eq _ pre x _ Heq); [|done|sandwich].
  apply apart_behind; [done|]. apply has_region_occurs; auto with markers.
Qed.

Lemma footer_apart_reversed (pre y mid x post : string) :
  mfree pre → mfree y → mfree mid → mfree x → mfree post →
  footer_apart (pre +:+ FS +:+ y +:+ FE +:+ mid +:+ HS +:+ x +:+ HE +:+ post) = true.
Proof.
  intros (Hp1 & Hp2 & Hp3 & Hp4) (Hy1 & Hy2 & Hy3 & Hy4) (Hm1 & Hm2 & Hm3 & Hm4)
    (Hx1 & Hx2 & Hx3 & Hx4) (Hq1 & Hq2 & Hq3 & Hq4).
  set (text := pre +:+ FS +:+ y +:+ FE +:+ mid +:+ HS +:+ x +:+ HE +:+ post).
  assert (text = (pre +:+ FS +:+ y +:+ FE +:+ mid) +:+ HS +:+ x +:+ HE +:+ post) as Ht
    by (subst text; by rewrite !app_assoc).
  assert (with_marker_pairs text
          = (pre +:+ FS +:+ y +:+ FE +:+ mid) +:+ HS +:+ x +:+ HE +:+ post) as Heq.
  { rewrite with_marker_pairs_both; [done|..].
    - rewrite Ht. apply region_match_occurs; auto with markers.
    - apply region_match_occurs; auto with markers. }
  rewrite (footer_apart_eq _ _ x post Heq); [|sandwich|done].
  apply apart_before; [|done]. apply has_region_occurs; auto with markers.
Qed.

End Twice.




(** Every condition on the header and the footer is there for a reason:
    a header with a footer marker or with one of the three patterns, and a
    footer with a header marker or with one of the three patterns, each
    have a document on which the second run changes what the first left,
    also where the footer region lies apart. *)
Example insertInfoReadme_text_limits :
  let twice_is_once header footer text :=
    bool_decide
      (insertInfoReadme_text header footer (insertInfoReadme_text header footer text)
       = insertInfoReadme_text header footer text) in
  let both := footer_start +:+ footer_end +:+ header_start +:+ header_end in
  footer_apart both = true
  ∧ twice_is_once ("x" +:+ footer_end) "f" both = false
  ∧ twice_is_once footer_start "f" (header_end +:+ header_start +:+ header_end) = false
  ∧ twice_is_once "$&" "f" "text" = false
  ∧ twice_is_once "$`" "f" ("a" +:+ both) = false
  ∧ twice_is_once "$'" "f" "text" = false
  ∧ twice_is_once "h" header_start both = false
  ∧ twice_is_once "h" header_end "" = false
  ∧ twice_is_once "h" "$&" "text" = false
  ∧ twice_is_once "h" "$`" "text" = false
  ∧ twice_is_once "h" "$'" (both +:+ "a") = false.
Proof. vm_compute. done. Qed.

(** The documents that the claim names, and others on which applying
    twice is applying once: one pair still to be inserted, the footer
    before the header, a header with dollars that are no pattern. *)
Example twice_is_once_samples :
  let twice_is_once header footer text :=
    bool_decide
      (insertInfoReadme_text header footer (insertInfoReadme_text header footer text)
       = insertInfoReadme_text header footer text) in
  twice_is_once "$5" "f" "text" = true
  ∧ twice_is_once "a$$b" "f$" "text" = true
  ∧ twice_is_once "h" "f" (header_start +:+ "x" +:+ header_end +:+ "text") = true
  ∧ twice_is_once "h" "f" ("text" +:+ footer_start +:+ "y" +:+ footer_end) = true
  ∧ twice_is_once "h" "f"
      (footer_start +:+ "y" +:+ footer_end +:+ "text"
       +:+ header_start +:+ "x" +:+ header_end) = true
  ∧ twice_is_once "h" "f"
      (header_start +:+ footer_start +:+ footer_end +:+ header_end) = false.
Proof. vm_compute. done. Qed.

(** ** Difficulties outside the rank list *)

Lemma indexOf_ge (l : list string) (x : string) : -1 ≤ indexOf l x.
Proof.
  induction l as [|y l IH]; simpl; [lia|].
  case_decide; [lia|]. case_decide; lia.
Qed.

Lemma indexOf_not_elem (l : list string) (x : string) : indexOf l x = -1 ↔ x ∉ l.
Proof.
  induction l as [|y l IH]; simpl.
  - split; [intros _; apply not_elem_of_nil|done].
  - rewrite not_elem_of_cons. pose proof (indexOf_ge l x).
    destruct (decide (y = x)) as [->|Hne].
    + split; [lia|by intros [? _]].
    + destruct (decide (indexOf l x = -1)) as [Hi|Hi].
      * split; [|done]. intros _. split; [done|]. by apply IH.
      * split; [lia|]. intros [_ Hx]. by apply IH in Hx.
Qed.

Lemma indexOf_inj (l : list string) (x y : string) :
  x ∈ l → indexOf l x = indexOf l y → x = y.
Proof.
  induction l as [|z l IH]; simpl; [by intros ?%elem_of_nil|].
  intros Hx. pose proof (indexOf_ge l x). pose proof (indexOf_ge l y).
  destruct (decide (z = x)) as [->|Hzx].
  - destruct (decide (x = y)); [done|].
    destruct (decide (indexOf l y = -1)); lia.
  - apply elem_of_cons in Hx as [->|Hx]; [done|].
    assert (indexOf l x ≠ -1) as Hi by (by rewrite indexOf_not_elem; intros []).
    rewrite decide_False by done.
    destruct (decide (z = y)); [lia|].
    destruct (decide (indexOf l y = -1)); [lia|].
    intros Heq. apply IH; [done|lia].
Qed.

Lemma filter_none {A : Type} (P : A → Prop) `{∀ a, Decision (P a)} (l : list A) :
  Forall (λ a, ¬ P a) l → filter P l = [].
Proof.
  induction 1 as [|x l Hx Hl IH]; [done|]. by rewrite filter_cons_False.
Qed.

Lemma filter_all {A : Type} (P : A → Prop) `{∀ a, Decision (P a)} (l : list A) :
  Forall P l → filter P l = l.
Proof.
  induction 1 as [|x l Hx Hl IH]; [done|]. by rewrite filter_cons_True, IH.
Qed.

(** In a list in the order of its keys, the elements of the least key
    stand in front. *)
Lemma sorted_least_in_front {A : Type} (key : A → Z) (m : Z) (l : list A) :
  (∀ a, m ≤ key a) →
  StronglySorted (λ a b, key a ≤ key b) l →
  l = filter (λ a, key a = m) l ++ filter (λ a, key a ≠ m) l.
Proof.
  intros Hm. induction 1 as [|x l Hl IH Hx]; [done|].
  rewrite !filter_cons. destruct (decide (key x = m)) as [Hk|Hk].
  - rewrite decide_False by (by intros []). simpl. by rewrite <- IH.
  - rewrite decide_True by done.
    assert (filter (λ a, key a = m) l = []) as ->.
    { apply filter_none. eapply Forall_impl; [exact Hx|].
      simpl. intros a Ha. specialize (Hm x). lia. }
    assert (filter (λ a, key a ≠ m) l = l) as ->; [|done].
    apply filter_all. eapply Forall_impl; [exact Hx|].
    simpl. intros a Ha. specialize (Hm x). lia.
Qed.

(** C8, as the code has it. The quizzes of the index are all those of
    the corpus, put in the order of the rank list warm, easy, medium, hard,
    extreme by a stable sort: ranks never decrease along the list and
    quizzes of one rank keep the order they came in. A difficulty that is
    not in the rank list, as pending is, has rank -1, below warm: the
    quizzes of such a difficulty are not left out, they stand first, in
    the order of the corpus. The quizzes of one difficulty of the rank list
    stand together; so do those of every difficulty when the difficulties
    are among the six declared values. *)
Theorem index_sorted_by_difficulty (quizes : list Quiz) :
  let sorted := quizesByDifficulty quizes in
  Permutation quizes sorted
  ∧ StronglySorted (λ a b, rank a ≤ rank b) sorted
  ∧ (∀ r, filter (λ q, rank q = r) sorted = filter (λ q, rank q = r) quizes)
  ∧ (indexOf DifficultyRank "pending" < indexOf DifficultyRank "warm"
     ∧ indexOf DifficultyRank "warm" < indexOf DifficultyRank "easy"
     ∧ indexOf DifficultyRank "easy" < indexOf DifficultyRank "medium"
     ∧ indexOf DifficultyRank "medium" < indexOf DifficultyRank "hard"
     ∧ indexOf DifficultyRank "hard" < indexOf DifficultyRank "extreme")
  ∧ (∀ q, rank q = -1 ↔ difficulty q ∉ DifficultyRank)
  ∧ sorted = filter (λ q, difficulty q ∉ DifficultyRank) quizes
             ++ filter (λ q, difficulty q ∈ DifficultyRank) sorted
  ∧ (∀ l1 a l2 b l3, sorted = l1 ++ a :: l2 ++ b :: l3 →
       difficulty a = difficulty b →
       difficulty a ∈ DifficultyRank
       ∨ Forall (λ q, difficulty q ∈ Difficulty_values) quizes →
       Forall (λ q, difficulty q = difficulty a) l2).
Proof.
  intros sorted.
  assert (Permutation quizes sorted) as Hperm by apply (js_sort_perm rank).
  assert (StronglySorted (λ a b, rank a ≤ rank b) sorted) as Hsorted
    by apply (js_sort_sorted rank).
  assert (∀ q, rank q = -1 ↔ difficulty q ∉ DifficultyRank) as Hunranked
    by (intros q; apply indexOf_not_elem).
  split; [done|]. split; [done|].
  split; [intros r; apply (js_sort_stable rank)|].
  split; [vm_compute; done|].
  split; [done|].
  split.
  { rewrite (sorted_least_in_front rank (-1) sorted) at 1;
      [|intros q; apply indexOf_ge|done].
    f_equal.
    - transitivity (filter (λ q, rank q = -1) quizes);
        [apply (js_sort_stable rank)|].
      apply list_filter_iff. intros q. apply Hunranked.
    - apply list_filter_iff. intros q. rewrite Hunranked.
      split; [apply dec_stable|by intros ? ?]. }
  intros l1 a l2 b l3 Heq Hab Hranked.
  rewrite Heq in Hsorted.
  apply Forall_forall. intros q Hq.
  assert (rank a ≤ rank q) as Haq.
  { apply (StronglySorted_app_1_elem_of (λ a b, rank a ≤ rank b)
             (l1 ++ [a]) (l2 ++ b :: l3)).
    - by rewrite <- app_assoc.
    - set_solver.
    - set_solver. }
  assert (rank q ≤ rank b) as Hqb.
  { apply (StronglySorted_app_1_elem_of (λ a b, rank a ≤ rank b)
             (l1 ++ a :: l2) (b :: l3)).
    - by rewrite <- app_assoc.
    - set_solver.
    - set_solver. }
  assert (rank a = rank b) as Hrab by (unfold rank; by rewrite Hab).
  assert (rank a = rank q) as Hrq by lia.
  destruct Hranked as [Hin|Hvalid].
  - symmetry. by apply (indexOf_inj DifficultyRank).
  - rewrite Hperm, Heq in Hvalid.
    assert (∀ x, x ∈ l1 ++ a :: l2 ++ b :: l3 → difficulty x ∈ Difficulty_values)
      as Hin by (by apply Forall_forall).
    symmetry. apply rank_inj; [apply Hin..|done]; set_solver.
Qed.

Lemma index_sorted_by_difficulty_witness :
  quizesByDifficulty sample_quizes
  = [sample_quiz_of 9 "pending"]
    ++ filter (λ q, difficulty q ∈ DifficultyRank) (quizesByDifficulty sample_quizes).
Proof.
  destruct (index_sorted_by_difficulty sample_quizes)
    as (_ & _ & _ & _ & _ & Hfront & _).
  exact Hfront.
Defined.

(** The claim as the spec has it fails: a pending quiz is neither left out
    of the ranking nor without a place in it. It is sorted like every other
    quiz, with the rank -1, and so moves to the front, ahead of the warm
    quiz that came before it. Quizzes of an unknown difficulty have the
    same rank and keep their place among the pending ones. *)
Lemma index_ranks_pending_first :
  quizesByDifficulty [sample_quiz_of 13 "warm"; sample_quiz_of 9 "pending"]
  = [sample_quiz_of 9 "pending"; sample_quiz_of 13 "warm"]
  ∧ quizesByDifficulty
      [sample_quiz_of 2 "easy"; sample_quiz_of 9 "pending"; sample_quiz_of 3 "unknown";
       sample_quiz_of 11 "pending"; sample_quiz_of 13 "warm"]
    = [sample_quiz_of 9 "pending"; sample_quiz_of 3 "unknown";
       sample_quiz_of 11 "pending"; sample_quiz_of 13 "warm"; sample_quiz_of 2 "easy"].
Proof. split; vm_compute; reflexivity. Qed.

(** ** When the cache file is written *)

Section CacheCases.

Context `{Externals}.

(** From the prompt for the language on, the run either gets through and
    writes the cache file, or fails and leaves it. *)
Lemma generateWith_cache_cases (argv : list string) (answers : Answers)
    (quizes : list Quiz) (cache : Snapshot) (keepChanges : bool)
    (overridableFiles playgroundSnapshot : Snapshot)
    (w w' : World) (c : Completion unit) :
  (keepChanges = true → is_Some (playground w)) →
  generateWith argv answers quizes cache keepChanges overridableFiles
    playgroundSnapshot w = (c, w') →
  (c = Normal tt
   ∧ ∃ incoming,
       playgroundCache w' = Some (JSON_stringify (incoming ∪ cache))
       ∧ fingerprints_written quizes (chosenLocale argv answers) incoming)
  ∨ (c ≠ Normal tt ∧ playgroundCache w' = playgroundCache w).
Proof.
  intros Hkeep Hrun.
  apply generateWith_loop in Hrun as (w0 & w1 & c1 & Hw0 & Hc0 & Hloop & Hend).
  assert (is_Some (playground w0)) as [entries0 Hp0].
  { rewrite Hw0. destruct keepChanges; [by apply Hkeep|done]. }
  destruct (generateQuizes_frame _ _ _ _ _ _ _ _ _ _ Hp0 Hloop) as (Hc1 & _).
  destruct c1 as [incoming|err|code].
  - destruct Hend as (-> & _ & Hc). left. split; [done|].
    exists incoming. split; [done|].
    eapply generateQuizes_incoming; [|exact Hloop|]; [set_solver|].
    intros name h Hh. by rewrite lookup_empty in Hh.
  - destruct Hend as (-> & ->). right. split; [done|congruence].
  - destruct Hend as (-> & ->). right. split; [done|congruence].
Qed.

End CacheCases.



(** ** A quiz that may be written *)

Section WriteFacts.

Context `{Externals}.

(** A writable quiz is written when its place can take a file: the folder
    of its difficulty is missing or is a folder, and at the path of the file
    there is nothing or a file. Otherwise the write throws, and the
    playground stays as it is. *)
Lemma generateQuiz_writes (keepChanges : bool)
    (overridableFiles playgroundSnapshot : Snapshot)
    (locale : option string) (incoming : Snapshot) (quiz : Quiz)
    (difficulty title : string) (w : World) (entries : list (string * node)) :
  get (resolveInfo quiz locale) "difficulty" = VString difficulty →
  get (resolveInfo quiz locale) "title" = VString title →
  let quizFileName := getQuestionFullName (no quiz) difficulty title +:+ ".ts" in
  writes keepChanges overridableFiles playgroundSnapshot quizFileName = true →
  playground w = Some entries →
  let step := generateQuiz keepChanges overridableFiles playgroundSnapshot locale
                incoming quiz w in
  let folder := node_at (Dir entries) [difficulty] in
  let place := node_at (Dir entries) [difficulty; quizFileName] in
  ((folder = None ∨ ∃ sub, folder = Some (Dir sub))
   ∧ (place = None ∨ ∃ old, place = Some (File old)) →
   ∃ incoming' w', step = (Normal incoming', w'))
  ∧ (¬ ((folder = None ∨ ∃ sub, folder = Some (Dir sub))
        ∧ (place = None ∨ ∃ old, place = Some (File old))) →
     ∃ err, step.1 = Throw err
            ∧ playground step.2 = Some entries
            ∧ playgroundCache step.2 = playgroundCache w).
Proof.
  intros Hd Ht quizFileName Hcond Hw step folder place. subst step folder place.
  unfold generateQuiz. rewrite Hd, Ht. fold quizFileName.
  unfold writes in Hcond. rewrite Hcond.
  unfold mbind, gen_bind, get_world. rewrite Hw.
  unfold set_playground, lift, writeFile. cbn [node_at].
  destruct (lookup_entry difficulty entries) as [[data| |sub]|] eqn:Hdir; simpl;
    rewrite ?Hdir, ?lookup_entry_put_eq; simpl.
  - split; [intros [[[=]|[? [=]]] _]|]. intros _. by eauto.
  - split; [intros [[[=]|[? [=]]] _]|]. intros _. by eauto.
  - destruct (lookup_entry quizFileName sub) as [[old| |sub']|] eqn:Hfile; simpl.
    + split; [by eauto|]. intros Hnot. destruct Hnot. naive_solver.
    + split; [intros [_ [[=]|[? [=]]]]|]. intros _. by eauto.
    + split; [intros [_ [[=]|[? [=]]]]|]. intros _. by eauto.
    + split; [by eauto|]. intros Hnot. destruct Hnot. naive_solver.
  - split; [by eauto|]. intros Hnot. destruct Hnot. naive_solver.
Qed.

End WriteFacts.

(** C1. In keep-changes mode, with the snapshot taken from the disk and the
    persisted one: the overridable set holds the names whose fingerprint on
    disk is the persisted one; a target file is writable exactly when it is
    in that set or has no entry in the snapshot of the disk. A writable one
    is written: when its place can take a file (the folder of the
    difficulty is missing or is a folder, and the path of the file is free
    or holds a file), the step returns, the file holds the new code, its
    fingerprint is noted, and every other file and the cache file are as
    they were; when the place cannot take a file the write throws and
    nothing changes. One that is not writable leaves the disk, the console
    and the cache under construction as they are. *)
Theorem keep_changes_writes_iff `{Externals} (files : list (string * node))
    (cache snapshot incoming : Snapshot) (locale : option string) (quiz : Quiz)
    (difficulty title : string) (w : World) :
  completion (takeSnapshot playgroundPath files) = Normal snapshot →
  get (resolveInfo quiz locale) "difficulty" = VString difficulty →
  get (resolveInfo quiz locale) "title" = VString title →
  let quizFileName := getQuestionFullName (no quiz) difficulty title +:+ ".ts" in
  let overridableFiles := calculateOverridableFiles cache snapshot in
  let unchanged :=
    ∃ h, snapshot !! quizFileName = Some h ∧ cache !! quizFileName = Some h in
  let brand_new := snapshot !! quizFileName = None in
  let step := generateQuiz true overridableFiles snapshot locale incoming quiz w in
  (∀ name h, overridableFiles !! name = Some h
             ↔ snapshot !! name = Some h ∧ cache !! name = Some h)
  ∧ (isQuizWritable quizFileName overridableFiles snapshot = true
     ↔ unchanged ∨ brand_new)
  ∧ (unchanged ∨ brand_new →
     ∀ entries, playground w = Some entries →
       let folder := node_at (Dir entries) [difficulty] in
       let place := node_at (Dir entries) [difficulty; quizFileName] in
       let takes_file :=
         (folder = None ∨ ∃ sub, folder = Some (Dir sub))
         ∧ (place = None ∨ ∃ old, place = Some (File old)) in
       (takes_file →
        ∃ entries',
          step.1
          = Normal (<[quizFileName :=
                        fingerprint
                          (path_join (path_join playgroundPath difficulty) quizFileName)
                          (formatToCode quiz locale)]> incoming)
          ∧ playground step.2 = Some entries'
          ∧ playgroundCache step.2 = playgroundCache w
          ∧ node_at (Dir entries') [difficulty; quizFileName]
            = Some (File (formatToCode quiz locale))
          ∧ ∀ p n, p ≠ [difficulty; quizFileName] → is_dir n = false →
              node_at (Dir entries') p = Some n ↔ node_at (Dir entries) p = Some n)
       ∧ (¬ takes_file →
          ∃ err, step.1 = Throw err
                 ∧ playground step.2 = Some entries
                 ∧ playgroundCache step.2 = playgroundCache w))
  ∧ (¬ (unchanged ∨ brand_new) → step = (Normal incoming, w)).
Proof.
  intros Hsnap Hd Ht quizFileName overridableFiles unchanged brand_new step.
  pose proof (takeSnapshot_truthy _ _ _ Hsnap) as Htruthy.
  pose proof (isQuizWritable_spec cache snapshot quizFileName Htruthy) as Hiff.
  assert (isQuizWritable quizFileName overridableFiles snapshot = true
          ↔ unchanged ∨ brand_new) as Hiff'.
  { unfold overridableFiles, unchanged, brand_new. rewrite Hiff. tauto. }
  split; [intros name h; apply overridable_iff|].
  split; [done|]. split.
  - intros Hcond entries Hw folder place takes_file. apply Hiff' in Hcond.
    assert (writes true overridableFiles snapshot quizFileName = true) as Hwrites
      by (unfold writes; by rewrite Hcond).
    destruct (generateQuiz_writes true overridableFiles snapshot locale incoming quiz
                difficulty title w entries Hd Ht Hwrites Hw) as [Hgoes Hfails].
    split; [|exact Hfails].
    intros Htakes. destruct (Hgoes Htakes) as (incoming' & w' & Hstep).
    destruct (generateQuiz_exact _ _ _ _ _ _ _ _ _ _ Hw Hstep)
      as (Hcache & entries' & Hw' & Hexact).
    unfold quizWritten, quizTarget in Hexact. rewrite Hd, Ht in Hexact.
    cbn [last default from_option id foldl] in Hexact.
    fold quizFileName in Hexact. rewrite Hwrites in Hexact.
    destruct Hexact as [Hfiles ->].
    exists entries'. fold step in Hstep. rewrite Hstep. cbn [fst snd].
    split; [done|]. split; [done|]. split; [done|]. split.
    + apply Hfiles; [done|]. by rewrite decide_True.
    + intros p n Hp Hleaf. rewrite (Hfiles p n Hleaf). by rewrite decide_False.
  - intros Hcond. apply generateQuiz_skip with difficulty title; [done..|].
    fold quizFileName. fold overridableFiles.
    apply not_true_is_false. intros Hwr. by apply Hiff' in Hwr.
Qed.

Lemma keep_changes_writes_iff_witness :
  let snapshot :=
    record_visits (visits (@playgroundPath sample_externals) sample_playground) ∅ in
  let cache : Snapshot :=
    {[ "1-easy-foo.ts" :=
         fingerprint "/repo/playground/easy/1-easy-foo.ts" "type Foo = string" ]} in
  let step :=
    @generateQuiz sample_externals true (calculateOverridableFiles cache snapshot)
      snapshot (Some "en") ∅ sample_quiz sample_world_untouched in
  ∃ entries',
    step.1
    = Normal (<["1-easy-foo.ts" :=
                  fingerprint "/repo/playground/easy/1-easy-foo.ts" "type Foo = any"]> ∅)
    ∧ playground step.2 = Some entries'
    ∧ playgroundCache step.2 = playgroundCache sample_world_untouched
    ∧ node_at (Dir entries') ["easy"; "1-easy-foo.ts"] = Some (File "type Foo = any")
    ∧ ∀ p n, p ≠ ["easy"; "1-easy-foo.ts"] → is_dir n = false →
        node_at (Dir entries') p = Some n ↔ node_at (Dir sample_playground) p = Some n.
Proof.
  intros snapshot cache step.
  assert (completion (takeSnapshot (@playgroundPath sample_externals) sample_playground)
          = Normal snapshot) as Hsnap by (vm_compute; reflexivity).
  assert (get (@resolveInfo sample_externals sample_quiz (Some "en")) "difficulty"
          = VString "easy") as Hd by (vm_compute; reflexivity).
  assert (get (@resolveInfo sample_externals sample_quiz (Some "en")) "title"
          = VString "foo") as Ht by (vm_compute; reflexivity).
  refine (proj1 (proj1 (proj2 (proj2 (@keep_changes_writes_iff sample_externals
            sample_playground cache snapshot ∅ (Some "en") sample_quiz "easy" "foo"
            sample_world_untouched Hsnap Hd Ht))) _ sample_playground eq_refl) _).
  - left. eexists. split; vm_compute; reflexivity.
  - split; right; eexists; vm_compute; reflexivity.
Defined.
